(** * image-processing-py: the [ImageProcessor] class of
    [editor_completo_trabalho.py] and the handlers of its [MainWindow],
    embedded as pure functions.

    Images are Python lists of lists of RGB tuples; the methods of the class
    become functions on an explicit session record that return the session
    after the call together with the value returned or the exception raised.
    Python's [float] is IEEE binary64 and is modelled by the primitive floats
    of the Standard Library. The handlers of the window become functions on
    a record of the window, the answers of the dialogs being arguments. *)

From Stdlib Require Import ZArith Lia List Ascii String Floats.
From stdpp Require Import base tactics option list strings gmap.

Local Open Scope Z_scope.

(** ** The Python run time: exceptions, indexing, [range] *)

Module Py.

(** The built-in exception classes the code can raise. *)
Inductive exc : Type :=
| ValueError
| IndexError
| TypeError
| OverflowError
| OSError.

Global Instance exc_eq_dec : EqDecision exc.
Proof. solve_decision. Defined.

(** The outcome of evaluating an expression. *)
Inductive res (A : Type) : Type :=
| Ok (a : A)
| Raise (e : exc).
Global Arguments Ok {A} a.
Global Arguments Raise {A} e.

Global Instance res_ret : MRet res := fun A a => Ok a.
Global Instance res_bind : MBind res := fun A B f m =>
  match m with
  | Ok a => f a
  | Raise e => Raise e
  end.
Global Instance res_fmap : FMap res := fun A B f m =>
  match m with
  | Ok a => Ok (f a)
  | Raise e => Raise e
  end.

Definition is_ok {A} (r : res A) : bool :=
  match r with Ok _ => true | Raise _ => false end.

(** [l[i]] for a Python list and a Python integer: a negative index counts
    from the end, an index out of range raises [IndexError]. *)
Definition getitem {A} (l : list A) (i : Z) : res A :=
  let n := Z.of_nat (length l) in
  let i' := if i <? 0 then i + n else i in
  if (i' <? 0) || (n <=? i') then Raise IndexError
  else match l !! Z.to_nat i' with
       | Some x => Ok x
       | None => Raise IndexError
       end.

(** [range(n)]. *)
Definition range (n : Z) : list Z := seqZ 0 n.

End Py.

Import Py.

(** ** [float]: conversions between [int] and binary64 *)

Module PyFloat.

(** [float(z)], the conversion an arithmetic operator applies to an [int]
    operand whose other operand is a [float]: round to nearest even,
    [OverflowError] when the result is not finite. *)
Definition of_int (z : Z) : res float :=
  let f := SF2Prim (binary_normalize prec emax z 0 false) in
  if PrimFloat.is_infinity f then Raise OverflowError else Ok f.

(** The integer part of a finite float, truncated toward zero. *)
Definition trunc (f : float) : Z :=
  match Prim2SF f with
  | S754_finite s m e =>
      let a := if 0 <=? e then Z.pos m * 2 ^ e else Z.pos m / 2 ^ (- e) in
      if s then - a else a
  | _ => 0
  end.

(** [int(f)]. *)
Definition to_int (f : float) : res Z :=
  if PrimFloat.is_nan f then Raise ValueError
  else if PrimFloat.is_infinity f then Raise OverflowError
  else Ok (trunc f).

(** [z * a], [z] an [int] and [a] a [float]. *)
Definition int_mul (z : Z) (a : float) : res float :=
  f ← of_int z; mret (PrimFloat.mul f a).

(** [z / a]. Division by zero raises [ZeroDivisionError] in Python; the
    code only divides by the literals [5.0] and [10.0]. *)
Definition int_div (z : Z) (a : float) : res float :=
  f ← of_int z; mret (PrimFloat.div f a).

(** [z - a]. *)
Definition int_sub (z : Z) (a : float) : res float :=
  f ← of_int z; mret (PrimFloat.sub f a).

Global Arguments of_int : simpl never.
Global Arguments to_int : simpl never.
Global Arguments int_mul : simpl never.
Global Arguments int_div : simpl never.
Global Arguments int_sub : simpl never.

End PyFloat.

(** ** [str]: whitespace, [strip], [split], [readline], [int], [str(int)] *)

Module PyStr.

(** The text of a file as Python reads it in text mode, after decoding and
    newline translation; characters are code points below 256. *)
Definition text := list ascii.

Definition lit (s : string) : text := list_ascii_of_string s.

Definition ord (c : ascii) : Z := Z.of_N (N_of_ascii c).
Definition chr (n : Z) : ascii := ascii_of_N (Z.to_N n).

(** [c.isspace()]: TAB, LF, VT, FF, CR, FS, GS, RS, US, SPACE, NEL, NBSP. *)
Definition isspace (c : ascii) : bool :=
  let n := ord c in
  ((9 <=? n) && (n <=? 13)) || ((28 <=? n) && (n <=? 32))
  || (n =? 133) || (n =? 160).

Definition newline : ascii := chr 10.
Definition space : ascii := chr 32.

Fixpoint lstrip (t : text) : text :=
  match t with
  | c :: r => if isspace c then lstrip r else t
  | [] => []
  end.

(** [t.strip()]. *)
Definition strip (t : text) : text :=
  reverse (lstrip (reverse (lstrip t))).

(** [t.split()]: the maximal runs of characters that are not whitespace.
    [cur] is the run being read. *)
Fixpoint split_from (cur : text) (t : text) : list text :=
  match t with
  | [] => match cur with [] => [] | _ => [cur] end
  | c :: r =>
      if isspace c
      then match cur with
           | [] => split_from [] r
           | _ => cur :: split_from [] r
           end
      else split_from (cur ++ [c]) r
  end.

Definition split (t : text) : list text := split_from [] t.

(** [f.readline()]: the line up to and including its newline, and what is
    left of the file. *)
Fixpoint readline (t : text) : text * text :=
  match t with
  | [] => ([], [])
  | c :: r =>
      if Ascii.eqb c newline then ([c], r)
      else let '(l, r') := readline r in (c :: l, r')
  end.

Definition digit_val (c : ascii) : option Z :=
  let n := ord c in
  if (48 <=? n) && (n <=? 57) then Some (n - 48) else None.

(** The digits of [int(t)]: decimal digits, single underscores allowed
    between two digits. [prev] says that the last character read was a
    digit. *)
Fixpoint int_digits (acc : Z) (prev : bool) (t : text) : option Z :=
  match t with
  | [] => if prev then Some acc else None
  | c :: r =>
      if Ascii.eqb c "_"%char
      then (if prev then int_digits acc false r else None)
      else match digit_val c with
           | Some d => int_digits (acc * 10 + d) true r
           | None => None
           end
  end.

(** The characters [int] skips around a number: the whitespace of ASCII,
    TAB, LF, VT, FF, CR and SPACE, and, above ASCII, the characters that are
    whitespace for Unicode, NEL and NBSP. The separators FS, GS, RS and US,
    which [isspace] accepts, are not skipped. *)
Definition int_space (c : ascii) : bool :=
  let n := ord c in
  ((9 <=? n) && (n <=? 13)) || (n =? 32) || (n =? 133) || (n =? 160).

Fixpoint int_lstrip (t : text) : text :=
  match t with
  | c :: r => if int_space c then int_lstrip r else t
  | [] => []
  end.

(** [int(t)]: the whitespace [int] skips is dropped at both ends, then come
    an optional sign and the digits; anything else raises [ValueError]. The
    bound that recent interpreters put on the number of digits (4300 unless
    configured otherwise) is outside the model. *)
Definition int (t : text) : res Z :=
  let parsed :=
    match reverse (int_lstrip (reverse (int_lstrip t))) with
    | c :: r =>
        if Ascii.eqb c "-"%char then Z.opp <$> int_digits 0 false r
        else if Ascii.eqb c "+"%char then int_digits 0 false r
        else int_digits 0 false (c :: r)
    | [] => None
    end in
  match parsed with
  | Some z => Ok z
  | None => Raise ValueError
  end.

(** Decimal digits of a non-negative integer, most significant first,
    put in front of [acc]; [fuel] bounds the number of digits. *)
Fixpoint dec_digits (fuel : nat) (n : Z) (acc : text) : text :=
  match fuel with
  | O => acc
  | S fuel' =>
      let acc' := chr (48 + n mod 10) :: acc in
      if n / 10 =? 0 then acc' else dec_digits fuel' (n / 10) acc'
  end.

(** [str(z)], which is also what [f"{z}"] formats. The bound on the number
    of digits is outside the model here as it is for [int]. *)
Definition str (z : Z) : text :=
  let digits n := dec_digits (S (Z.to_nat (Z.log2 n))) n [] in
  if z <? 0 then chr 45 :: digits (- z) else digits z.

(** [sep.join(parts)]. *)
Fixpoint join (sep : text) (parts : list text) : text :=
  match parts with
  | [] => []
  | [p] => p
  | p :: ps => p ++ sep ++ join sep ps
  end.

(** [c.lower()] for a code point below 256: the letters [A] to [Z] and the
    capital letters of Latin-1, which leaves out the multiplication sign. *)
Definition lower_char (c : ascii) : ascii :=
  let n := ord c in
  if ((65 <=? n) && (n <=? 90))
     || ((192 <=? n) && (n <=? 222) && negb (n =? 215))
  then chr (n + 32) else c.

(** [t.lower()]. *)
Definition lower (t : text) : text := lower_char <$> t.

(** [t.endswith(suf)]. *)
Definition endswith (t suf : text) : bool :=
  bool_decide (drop (length t - length suf) t = suf).

(** [t.split(sep)] for a separator of one character: the pieces between
    two occurrences of [sep], the empty ones included. [cur] is the piece
    being read. *)
Fixpoint split_sep_from (sep : ascii) (cur : text) (t : text) : list text :=
  match t with
  | [] => [cur]
  | c :: r =>
      if Ascii.eqb c sep then cur :: split_sep_from sep [] r
      else split_sep_from sep (cur ++ [c]) r
  end.

Definition split_sep (sep : ascii) (t : text) : list text :=
  split_sep_from sep [] t.

End PyStr.

(** ** The world outside the process: files and the PIL library *)

(** What [Image.open(caminho).convert("RGB")] gives: [size] and
    [list(getdata())], the pixels in row-major order. *)
Record PilImage : Type := {
  size : Z * Z;
  getdata : list (Z * Z * Z)
}.

Record World : Type := {
  (** [os.path.splitext(caminho)[1].lower()] *)
  splitext_lower : string -> string;
  (** the text [open(caminho, 'r')] gives access to, [None] when the file
      cannot be opened *)
  open_r : string -> option PyStr.text;
  (** whether [open(caminho, 'w')] succeeds *)
  open_w : string -> bool;
  (** [Image.open(caminho).convert("RGB")] *)
  pil_open_rgb : string -> res PilImage
}.

(** The world after [caminho] has been written with [t]. *)
Definition escrever (W : World) (caminho : string) (t : PyStr.text) : World :=
  {| splitext_lower := splitext_lower W;
     open_r := fun c => if decide (c = caminho) then Some t else open_r W c;
     open_w := open_w W;
     pil_open_rgb := pil_open_rgb W |}.

(** ** Images *)

Abbreviation pixel := (Z * Z * Z)%type.
Abbreviation matrix := (list (list pixel)).

(** [p[i]] for a 3-tuple and [i] in [range(3)]. *)
Definition pixel_get (p : pixel) (i : Z) : res Z :=
  let '(r, g, b) := p in
  if i =? 0 then Ok r
  else if i =? 1 then Ok g
  else if i =? 2 then Ok b
  else Raise IndexError.

(** [linha.copy()]: a new list with the same elements. *)
Definition list_copy {A} (linha : list A) : list A := linha.

(** [l[i] = v]. *)
Definition setitem {A} (l : list A) (i : Z) (v : A) : res (list A) :=
  let n := Z.of_nat (length l) in
  let i' := if i <? 0 then i + n else i in
  if (i' <? 0) || (n <=? i') then Raise IndexError
  else Ok (<[Z.to_nat i' := v]> l).

(** [nova[j][c] = v]: the row [nova[j]] is updated in place. *)
Definition setitem2 {A} (nova : list (list A)) (j c : Z) (v : A)
  : res (list (list A)) :=
  linha ← getitem nova j;
  linha' ← setitem linha c v;
  setitem nova j linha'.

(** A [for] loop over [l] that threads [s] and stops at the first
    exception. *)
Fixpoint for_each {A S} (l : list A) (body : S -> A -> res S) (s : S) : res S :=
  match l with
  | [] => Ok s
  | x :: l' => s' ← body s x; for_each l' body s'
  end.

(** [[[pixels[i * largura + j] for j in range(largura)]
      for i in range(altura)]]. *)
Definition matriz_de_pixels (pixels : list pixel) (largura altura : Z)
  : res matrix :=
  mapM (fun i => mapM (fun j => getitem pixels (i * largura + j))
                      (range largura))
       (range altura).

(** ** The class [ImageProcessor] *)

Record ImageProcessor : Type := {
  original : option matrix;
  resultado : option matrix;
  alpha_frames : list matrix;
  alpha_index : nat;
  second_image : option matrix
}.

(** [__init__]. *)
Definition init : ImageProcessor :=
  {| original := None; resultado := None; alpha_frames := [];
     alpha_index := 0%nat; second_image := None |}.

Definition set_resultado (m : matrix) (s : ImageProcessor) : ImageProcessor :=
  {| original := original s; resultado := Some m;
     alpha_frames := alpha_frames s; alpha_index := alpha_index s;
     second_image := second_image s |}.

Definition set_alpha_frames (fs : list matrix) (s : ImageProcessor)
  : ImageProcessor :=
  {| original := original s; resultado := resultado s;
     alpha_frames := fs; alpha_index := alpha_index s;
     second_image := second_image s |}.

Definition set_alpha_index (i : nat) (s : ImageProcessor) : ImageProcessor :=
  {| original := original s; resultado := resultado s;
     alpha_frames := alpha_frames s; alpha_index := i;
     second_image := second_image s |}.

(** [carregar_ppm_p3]. [largura, altura = map(int, ...)] raises [ValueError]
    both when a token is not an integer and when there are not exactly two
    tokens. Decoding errors of the file's bytes are outside the model:
    [open_r] gives the decoded text. *)
Definition carregar_ppm_p3 (W : World) (caminho : string) : res matrix :=
  match open_r W caminho with
  | None => Raise OSError
  | Some f =>
      let '(l1, f) := PyStr.readline f in
      if decide (PyStr.strip l1 = PyStr.lit "P3") then
        let '(l2, f) := PyStr.readline f in
        dims ← mapM PyStr.int (PyStr.split l2);
        match dims with
        | [largura; altura] =>
            let '(_, f) := PyStr.readline f in
            dados ← mapM PyStr.int (PyStr.split f);
            mapM (fun i =>
                    mapM (fun j =>
                            let idx := (i * largura + j) * 3 in
                            r ← getitem dados idx;
                            g ← getitem dados (idx + 1);
                            b ← getitem dados (idx + 2);
                            mret (r, g, b))
                         (range largura))
                 (range altura)
        | _ => Raise ValueError
        end
      else Raise ValueError
  end.

(** [carregar_imagem]. *)
Definition carregar_imagem (W : World) (caminho : string) (s : ImageProcessor)
  : ImageProcessor * res matrix :=
  let ext := splitext_lower W caminho in
  let img :=
    if decide (ext = ".ppm"%string) then carregar_ppm_p3 W caminho
    else
      img_pil ← pil_open_rgb W caminho;
      let '(largura, altura) := size img_pil in
      matriz_de_pixels (getdata img_pil) largura altura in
  match img with
  | Raise e => (s, Raise e)
  | Ok img =>
      ({| original := Some img; resultado := Some (list_copy <$> img);
          alpha_frames := alpha_frames s; alpha_index := alpha_index s;
          second_image := second_image s |}, Ok img)
  end.

Definition pixel_str (p : pixel) : PyStr.text :=
  let '(r, g, b) := p in
  PyStr.str r ++ [PyStr.space] ++ PyStr.str g ++ [PyStr.space] ++ PyStr.str b.

(** [salvar_ppm_p3]: the world after the call and the exception, if any.
    The file is opened, and so emptied, before [resultado] is looked at. *)
Definition salvar_ppm_p3 (W : World) (caminho : string) (s : ImageProcessor)
  : World * res unit :=
  if open_w W caminho then
    let dims :=
      match resultado s with
      | None => Raise TypeError
      | Some img =>
          linha0 ← getitem img 0;
          mret (img, Z.of_nat (length img), Z.of_nat (length linha0))
      end in
    match dims with
    | Raise e => (escrever W caminho [], Raise e)
    | Ok (img, altura, largura) =>
        let cabecalho :=
          PyStr.lit "P3" ++ [PyStr.newline]
          ++ PyStr.str largura ++ [PyStr.space] ++ PyStr.str altura
          ++ [PyStr.newline] ++ PyStr.lit "255" ++ [PyStr.newline] in
        let dados :=
          concat ((fun linha =>
                     PyStr.join [PyStr.space] (pixel_str <$> linha)
                     ++ [PyStr.newline]) <$> img) in
        (escrever W caminho (cabecalho ++ dados), Ok tt)
    end
  else (W, Raise OSError).

(** [restaurar_original]. *)
Definition restaurar_original (s : ImageProcessor) : ImageProcessor * res unit :=
  match original s with
  | None => (s, Raise TypeError)
  | Some img =>
      ({| original := original s; resultado := Some (list_copy <$> img);
          alpha_frames := []; alpha_index := 0%nat;
          second_image := second_image s |}, Ok tt)
  end.

(** [aplicar_espelhamento_horizontal]. *)
Definition aplicar_espelhamento_horizontal (s : ImageProcessor)
  : ImageProcessor * res unit :=
  match resultado s with
  | None => (s, Raise TypeError)
  | Some img => (set_resultado (reverse <$> img) s, Ok tt)
  end.

(** [aplicar_espelhamento_vertical]. *)
Definition aplicar_espelhamento_vertical (s : ImageProcessor)
  : ImageProcessor * res unit :=
  match resultado s with
  | None => (s, Raise TypeError)
  | Some img => (set_resultado (reverse img) s, Ok tt)
  end.

(** [[[None] * h for _ in range(w)]]. *)
Definition nova_vazia (h w : Z) : list (list (option pixel)) :=
  replicate (Z.to_nat w) (replicate (Z.to_nat h) None).

(** The two nested loops of a rotation; [destino i j] is the cell of [nova]
    that receives [resultado[i][j]]. *)
Definition preencher (img : matrix) (h w : Z) (destino : Z -> Z -> Z * Z)
  : res (list (list (option pixel))) :=
  for_each (range h)
    (fun nova i =>
       for_each (range w)
         (fun nova j =>
            linha ← getitem img i;
            p ← getitem linha j;
            let '(dj, dc) := destino i j in
            setitem2 nova dj dc (Some p))
         nova)
    (nova_vazia h w).

(** The matrix held by [nova] once the loops are over. A cell still holding
    [None] has no counterpart in [matrix]; [preencher_sem_None] shows that
    the loops leave none. *)
Definition congelar (nova : list (list (option pixel))) : option matrix :=
  mapM (mapM (fun c : option pixel => c)) nova.

Definition rotacionar (destino : Z -> Z -> Z -> Z -> Z * Z) (s : ImageProcessor)
  : ImageProcessor * res unit :=
  let r :=
    match resultado s with
    | None => Raise TypeError
    | Some img =>
        linha0 ← getitem img 0;
        let h := Z.of_nat (length img) in
        let w := Z.of_nat (length linha0) in
        nova ← preencher img h w (destino h w);
        match congelar nova with
        | Some m => Ok m
        | None => Raise TypeError
        end
    end in
  match r with
  | Raise e => (s, Raise e)
  | Ok m => (set_resultado m s, Ok tt)
  end.

(** [rotacionar_direita]: [nova[j][h - 1 - i] = resultado[i][j]]. *)
Definition rotacionar_direita : ImageProcessor -> ImageProcessor * res unit :=
  rotacionar (fun h w i j => (j, h - 1 - i)).

(** [rotacionar_esquerda]: [nova[w - 1 - j][i] = resultado[i][j]]. *)
Definition rotacionar_esquerda : ImageProcessor -> ImageProcessor * res unit :=
  rotacionar (fun h w i j => (w - 1 - j, i)).

(** [cor_proxima(p)]: [all(...)] stops at the first channel out of
    tolerance, so a short [alvo_rgb] only raises when it is reached. *)
Fixpoint cor_proxima (alvo_rgb : list Z) (tolerancia : Z) (p : pixel)
    (canais : list Z) : res bool :=
  match canais with
  | [] => Ok true
  | i :: canais' =>
      c ← pixel_get p i;
      a ← getitem alvo_rgb i;
      if Z.abs (c - a) <=? tolerancia
      then cor_proxima alvo_rgb tolerancia p canais'
      else Ok false
  end.

(** [segmentar_por_cor]. *)
Definition segmentar_por_cor (alvo_rgb : list Z) (tolerancia : Z)
    (s : ImageProcessor) : ImageProcessor * res unit :=
  let r :=
    match resultado s with
    | None => Raise TypeError
    | Some img =>
        mapM (mapM (fun p =>
                      b ← cor_proxima alvo_rgb tolerancia p (range 3);
                      mret (if b : bool then p else (0, 0, 0))))
             img
    end in
  match r with
  | Raise e => (s, Raise e)
  | Ok m => (set_resultado m s, Ok tt)
  end.

(** The loop [for k in range(n): frame = ...; self.alpha_frames.append(frame)]:
    every frame built is appended before the next one is computed, so an
    exception leaves the frames appended so far in the session. *)
Fixpoint gerar_frames (frame : Z -> res matrix) (ks : list Z)
    (s : ImageProcessor) : ImageProcessor * res unit :=
  match ks with
  | [] => (s, Ok tt)
  | k :: ks' =>
      match frame k with
      | Raise e => (s, Raise e)
      | Ok f => gerar_frames frame ks' (set_alpha_frames (alpha_frames s ++ [f]) s)
      end
  end.

(** [self.resultado = self.alpha_frames[0]; self.alpha_index = 0]. *)
Definition primeiro_frame (s : ImageProcessor) : ImageProcessor * res unit :=
  match getitem (alpha_frames s) 0 with
  | Raise e => (s, Raise e)
  | Ok f => (set_alpha_index 0 (set_resultado f s), Ok tt)
  end.

(** [int(c * a)]. *)
Definition escurecer (a : float) (c : Z) : res Z :=
  x ← PyFloat.int_mul c a; PyFloat.to_int x.

(** One frame of [aplicar_transparencia_preto]. *)
Definition frame_preto (orig : option matrix) (k : Z) : res matrix :=
  a ← PyFloat.int_div k 5;
  match orig with
  | None => Raise TypeError
  | Some img =>
      mapM (mapM (fun p : pixel =>
                    let '(r, g, b) := p in
                    r' ← escurecer a r;
                    g' ← escurecer a g;
                    b' ← escurecer a b;
                    mret (r', g', b')))
           img
  end.

(** [aplicar_transparencia_preto]. *)
Definition aplicar_transparencia_preto (s : ImageProcessor)
  : ImageProcessor * res unit :=
  let s := set_alpha_frames [] s in
  match gerar_frames (frame_preto (original s)) (range 6) s with
  | (s, Raise e) => (s, Raise e)
  | (s, Ok _) => primeiro_frame s
  end.

(** [avancar_transparencia]. *)
Definition avancar_transparencia (s : ImageProcessor)
  : ImageProcessor * res unit :=
  match alpha_frames s with
  | [] => (s, Ok tt)
  | _ =>
      let s := set_alpha_index
                 ((alpha_index s + 1) `mod` length (alpha_frames s))%nat s in
      match getitem (alpha_frames s) (Z.of_nat (alpha_index s)) with
      | Raise e => (s, Raise e)
      | Ok f => (set_resultado f s, Ok tt)
      end
  end.

(** [preparar_mistura]. *)
Definition preparar_mistura (W : World) (caminho2 : string)
    (s : ImageProcessor) : ImageProcessor * res unit :=
  let r :=
    img2 ← pil_open_rgb W caminho2;
    let '(w, h) := size img2 in
    matriz_de_pixels (getdata img2) w h in
  match r with
  | Raise e => (s, Raise e)
  | Ok m =>
      ({| original := original s; resultado := resultado s;
          alpha_frames := alpha_frames s; alpha_index := alpha_index s;
          second_image := Some m |}, Ok tt)
  end.

(** [int(im1[i][j][c] * (1 - a) + im2[i][j][c] * a)]. *)
Definition misturar (im1 im2 : matrix) (a : float) (i j c : Z) : res Z :=
  l1 ← getitem im1 i;
  p1 ← getitem l1 j;
  c1 ← pixel_get p1 c;
  a' ← PyFloat.int_sub 1 a;
  x ← PyFloat.int_mul c1 a';
  l2 ← getitem im2 i;
  p2 ← getitem l2 j;
  c2 ← pixel_get p2 c;
  y ← PyFloat.int_mul c2 a;
  PyFloat.to_int (PrimFloat.add x y).

(** One frame of [aplicar_mistura]. *)
Definition frame_mistura (im1 im2 : matrix) (h w : Z) (k : Z) : res matrix :=
  a ← PyFloat.int_div k 10;
  mapM (fun i =>
          mapM (fun j =>
                  r ← misturar im1 im2 a i j 0;
                  g ← misturar im1 im2 a i j 1;
                  b ← misturar im1 im2 a i j 2;
                  mret (r, g, b))
               (range w))
       (range h).

(** [aplicar_mistura]. *)
Definition aplicar_mistura (s : ImageProcessor) : ImageProcessor * res unit :=
  match second_image s with
  | None => (s, Raise ValueError)
  | Some im2 =>
      match original s with
      | None => (s, Raise TypeError)
      | Some im1 =>
          match getitem im1 0 with
          | Raise e => (s, Raise e)
          | Ok linha0 =>
              let h := Z.of_nat (length im1) in
              let w := Z.of_nat (length linha0) in
              let s := set_alpha_frames [] s in
              match gerar_frames (frame_mistura im1 im2 h w) (range 11) s with
              | (s, Raise e) => (s, Raise e)
              | (s, Ok _) => primeiro_frame s
              end
          end
      end
  end.

(** ** Qt: the [QImage] that the window shows *)

Module Qt.

(** A [QImage] of format RGB888: its size and the value [setPixel] gave to
    each pixel; a pixel that was never set has no entry. *)
Record QImage : Type := {
  width : Z;
  height : Z;
  pixels : gmap (Z * Z) Z
}.

(** [QImage(w, h, QImage.Format_RGB888)]: with a width or a height that is
    not positive Qt makes the null image, whose width and height are 0.
    Sizes beyond the C [int] and images Qt cannot allocate are outside the
    model. *)
Definition novo (w h : Z) : QImage :=
  if (0 <? w) && (0 <? h)
  then {| width := w; height := h; pixels := ∅ |}
  else {| width := 0; height := 0; pixels := ∅ |}.

(** [qimage.setPixel(x, y, v)]. The binding converts [v] to a C
    [unsigned int] before the call and raises [OverflowError] when [v] is
    not in [0 .. 2^32 - 1]. Outside the image Qt prints a warning and stores
    nothing. Coordinates beyond the C [int] are outside the model. *)
Definition setPixel (x y v : Z) (q : QImage) : res QImage :=
  if (v <? 0) || (2 ^ 32 <=? v) then Raise OverflowError
  else if (0 <=? x) && (x <? width q) && (0 <=? y) && (y <? height q)
  then Ok {| width := width q; height := height q;
             pixels := <[(x, y) := v]> (pixels q) |}
  else Ok q.

(** [qRed], [qGreen] and [qBlue]: the channels Qt reads in a pixel value. *)
Definition qRed (v : Z) : Z := Z.land (Z.shiftr v 16) 255.
Definition qGreen (v : Z) : Z := Z.land (Z.shiftr v 8) 255.
Definition qBlue (v : Z) : Z := Z.land v 255.

End Qt.

(** ** Display and export through PIL *)

(** [(r << 16) + (g << 8) + b]. *)
Definition empacotar (p : pixel) : Z :=
  let '(r, g, b) := p in Z.shiftl r 16 + Z.shiftl g 8 + b.

(** [exibir_em_qimage]. *)
Definition exibir_em_qimage (imagem : option matrix) : res Qt.QImage :=
  match imagem with
  | None => Raise TypeError
  | Some imagem =>
      linha0 ← getitem imagem 0;
      let h := Z.of_nat (length imagem) in
      let w := Z.of_nat (length linha0) in
      for_each (range h)
        (fun qimage y =>
           for_each (range w)
             (fun qimage x =>
                linha ← getitem imagem y;
                p ← getitem linha x;
                Qt.setPixel x y (empacotar p) qimage)
             qimage)
        (Qt.novo w h)
  end.

(** What [salvar_imagem] asks of PIL: [Image.new("RGB", new_size)],
    [putdata(putdata)], [save(save)]. *)
Record PilSave : Type := {
  new_size : Z * Z;
  putdata : list pixel;
  save : string
}.

(** [salvar_imagem]: the calls made to PIL, returned as a value. What PIL
    raises on its own account (a size it refuses, a format it does not know)
    is outside the model. *)
Definition salvar_imagem (caminho : string) (s : ImageProcessor)
  : res PilSave :=
  match resultado s with
  | None => Raise TypeError
  | Some img =>
      linha0 ← getitem img 0;
      let altura := Z.of_nat (length img) in
      let largura := Z.of_nat (length linha0) in
      let pixels := concat img in
      mret {| new_size := (largura, altura); putdata := pixels;
              save := caminho |}
  end.

(** ** The class [MainWindow] *)

(** The window: its processor, the image each of the two labels shows
    ([None] while a label still shows its text) and the number of warning
    boxes shown so far. The scaling of the pixmaps is Qt's. *)
Record MainWindow : Type := {
  processor : ImageProcessor;
  lbl_orig : option Qt.QImage;
  lbl_res : option Qt.QImage;
  avisos : nat
}.

(** [MainWindow.__init__] and [init_ui]. *)
Definition janela : MainWindow :=
  {| processor := init; lbl_orig := None; lbl_res := None; avisos := 0%nat |}.

Definition set_processor (p : ImageProcessor) (mw : MainWindow) : MainWindow :=
  {| processor := p; lbl_orig := lbl_orig mw; lbl_res := lbl_res mw;
     avisos := avisos mw |}.

(** [QMessageBox.warning(...)]. *)
Definition aviso (mw : MainWindow) : MainWindow :=
  {| processor := processor mw; lbl_orig := lbl_orig mw;
     lbl_res := lbl_res mw; avisos := S (avisos mw) |}.

(** [update_display]: both images are built before a label is touched. *)
Definition update_display (mw : MainWindow) : MainWindow * res unit :=
  match exibir_em_qimage (original (processor mw)) with
  | Raise e => (mw, Raise e)
  | Ok img1 =>
      match exibir_em_qimage (resultado (processor mw)) with
      | Raise e => (mw, Raise e)
      | Ok img2 =>
          ({| processor := processor mw; lbl_orig := Some img1;
              lbl_res := Some img2; avisos := avisos mw |}, Ok tt)
      end
  end.

(** A call on the processor followed by [update_display]. *)
Definition e_exibir {A} (r : ImageProcessor * res A) (mw : MainWindow)
  : MainWindow * res unit :=
  match r with
  | (p, Raise e) => (set_processor p mw, Raise e)
  | (p, Ok _) => update_display (set_processor p mw)
  end.

(** [open_image]; [path] is the answer of the file dialog, empty when the
    dialog was cancelled. *)
Definition open_image (W : World) (path : string) (mw : MainWindow)
  : MainWindow * res unit :=
  if decide (path = ""%string) then (mw, Ok tt)
  else e_exibir (carregar_imagem W path (processor mw)) mw.

(** [load_second]. *)
Definition load_second (W : World) (path : string) (mw : MainWindow)
  : MainWindow * res unit :=
  if decide (path = ""%string) then (mw, Ok tt)
  else
    let '(p, r) := preparar_mistura W path (processor mw) in
    (set_processor p mw, r).

(** [save_image]: the world after the call and, for a format left to PIL,
    the calls made to it. *)
Definition save_image (W : World) (path : string) (mw : MainWindow)
  : World * res (option PilSave) :=
  if decide (path = ""%string) then (W, Ok None)
  else if PyStr.endswith (PyStr.lower (PyStr.lit path)) (PyStr.lit ".ppm")
  then
    let '(W', r) := salvar_ppm_p3 W path (processor mw) in
    (W', (fun _ => None) <$> r)
  else (W, Some <$> salvar_imagem path (processor mw)).

(** [restore_image]. *)
Definition restore_image (mw : MainWindow) : MainWindow * res unit :=
  e_exibir (restaurar_original (processor mw)) mw.

(** The [try] block of [apply_filter]:
    [rgb = tuple(map(int, texto.split(','))); segmentar_por_cor(rgb)], the
    tolerance being the default of the method. *)
Definition tentar_segmentar (texto : PyStr.text) (p : ImageProcessor)
  : ImageProcessor * res unit :=
  match mapM PyStr.int (PyStr.split_sep "," texto) with
  | Raise e => (p, Raise e)
  | Ok rgb => segmentar_por_cor rgb 30 p
  end.

(** The branch of [apply_filter] chosen by [idx]; [resposta] is the answer
    [(texto, ok)] of the input dialog, which only [idx = 7] opens. The bare
    [except] turns every exception of the [try] block into a warning. *)
Definition filtrar (idx : Z) (resposta : PyStr.text * bool) (mw : MainWindow)
  : MainWindow * res unit :=
  let no_processor (r : ImageProcessor * res unit) : MainWindow * res unit :=
    (set_processor r.1 mw, r.2) in
  if idx =? 1 then no_processor (aplicar_transparencia_preto (processor mw))
  else if idx =? 2
  then no_processor (aplicar_espelhamento_horizontal (processor mw))
  else if idx =? 3
  then no_processor (aplicar_espelhamento_vertical (processor mw))
  else if idx =? 4 then no_processor (rotacionar_direita (processor mw))
  else if idx =? 5 then no_processor (rotacionar_esquerda (processor mw))
  else if idx =? 6 then no_processor (aplicar_mistura (processor mw))
  else if idx =? 7 then
    let '(texto, ok) := resposta in
    if ok : bool then
      match tentar_segmentar texto (processor mw) with
      | (p, Ok _) => (set_processor p mw, Ok tt)
      | (p, Raise _) => (aviso (set_processor p mw), Ok tt)
      end
    else (mw, Ok tt)
  else (mw, Ok tt).

(** [apply_filter]. The last statement, [self.cmb.setCurrentIndex(0)],
    makes the combo box signal the index 0, for which the handler returns at
    its first test. *)
Definition apply_filter (idx : Z) (resposta : PyStr.text * bool)
    (mw : MainWindow) : MainWindow * res unit :=
  if bool_decide (original (processor mw) = None) || (idx =? 0)
  then (mw, Ok tt)
  else
    match filtrar idx resposta mw with
    | (mw', Raise e) => (mw', Raise e)
    | (mw', Ok _) => update_display mw'
    end.

(** [next_frame]. *)
Definition next_frame (mw : MainWindow) : MainWindow * res unit :=
  e_exibir (avancar_transparencia (processor mw)) mw.

(** The events of the window, each with the answer of the dialog its
    handler opens. *)
Inductive evento : Type :=
| AbrirImagem (path : string)
| CarregarSegunda (path : string)
| ExportarImagem (path : string)
| RestaurarImagem
| AplicarFiltro (idx : Z) (resposta : PyStr.text * bool)
| ProximoFrame.

(** The handler connected to each event. *)
Definition tratar (W : World) (ev : evento) (mw : MainWindow)
  : MainWindow * res unit :=
  match ev with
  | AbrirImagem path => open_image W path mw
  | CarregarSegunda path => load_second W path mw
  | ExportarImagem path => (mw, (fun _ => tt) <$> (save_image W path mw).2)
  | RestaurarImagem => restore_image mw
  | AplicarFiltro idx resposta => apply_filter idx resposta mw
  | ProximoFrame => next_frame mw
  end.

(** The windows a user can reach: an exception that leaves a handler ends
    the program, so only the handlers that return are followed. *)
Inductive janela_alcancavel : MainWindow -> Prop :=
| ja_inicio : janela_alcancavel janela
| ja_evento W ev mw mw' :
    janela_alcancavel mw -> tratar W ev mw = (mw', Ok tt) ->
    janela_alcancavel mw'.

(** ** The data model of the specification *)

(** Channel values of the 8-bit RGB triples of the data model. *)
Definition canal_8bit (c : Z) : Prop := 0 <= c <= 255.

(** A pixel of three such channels. *)
Definition pixel_8bit (p : pixel) : Prop :=
  canal_8bit p.1.1 /\ canal_8bit p.1.2 /\ canal_8bit p.2.

(** An image of such pixels, whatever its shape. *)
Definition imagem_8bit (m : matrix) : Prop := Forall (Forall pixel_8bit) m.

(** The PixelMatrix invariant of the data model: at least one row, rows of
    one length greater than zero, 8-bit channels. *)
Definition pixel_matrix (m : matrix) : Prop :=
  (exists linha0, m !! 0%nat = Some linha0 /\ (0 < length linha0)%nat
                  /\ Forall (fun linha => length linha = length linha0) m)
  /\ imagem_8bit m.

(** Height and width as the code measures them: [len(m)], [len(m[0])]. *)
Definition dimensoes (m : matrix) (h w : nat) : Prop :=
  length m = h /\ Forall (fun linha => length linha = w) m.

(** ** Sessions: sequences of calls *)

(** The calls that change a session. *)
Inductive chamada : Type :=
| CarregarImagem (caminho : string)
| PrepararMistura (caminho2 : string)
| RestaurarOriginal
| EspelhamentoHorizontal
| EspelhamentoVertical
| RotacionarDireita
| RotacionarEsquerda
| SegmentarPorCor (alvo_rgb : list Z) (tolerancia : Z)
| TransparenciaPreto
| AvancarTransparencia
| Mistura.

(** The session after a call, whether the call returned or raised. *)
Definition executar (W : World) (c : chamada) (s : ImageProcessor)
  : ImageProcessor :=
  match c with
  | CarregarImagem caminho => (carregar_imagem W caminho s).1
  | PrepararMistura caminho2 => (preparar_mistura W caminho2 s).1
  | RestaurarOriginal => (restaurar_original s).1
  | EspelhamentoHorizontal => (aplicar_espelhamento_horizontal s).1
  | EspelhamentoVertical => (aplicar_espelhamento_vertical s).1
  | RotacionarDireita => (rotacionar_direita s).1
  | RotacionarEsquerda => (rotacionar_esquerda s).1
  | SegmentarPorCor alvo_rgb tolerancia =>
      (segmentar_por_cor alvo_rgb tolerancia s).1
  | TransparenciaPreto => (aplicar_transparencia_preto s).1
  | AvancarTransparencia => (avancar_transparencia s).1
  | Mistura => (aplicar_mistura s).1
  end.

(** The exception an outcome carries, if any. *)
Definition excecao {A} (r : res A) : option exc :=
  match r with Ok _ => None | Raise e => Some e end.

(** The exception a call ends with, if any. *)
Definition levantada (W : World) (c : chamada) (s : ImageProcessor)
  : option exc :=
  match c with
  | CarregarImagem caminho => excecao (carregar_imagem W caminho s).2
  | PrepararMistura caminho2 => excecao (preparar_mistura W caminho2 s).2
  | RestaurarOriginal => excecao (restaurar_original s).2
  | EspelhamentoHorizontal => excecao (aplicar_espelhamento_horizontal s).2
  | EspelhamentoVertical => excecao (aplicar_espelhamento_vertical s).2
  | RotacionarDireita => excecao (rotacionar_direita s).2
  | RotacionarEsquerda => excecao (rotacionar_esquerda s).2
  | SegmentarPorCor alvo_rgb tolerancia =>
      excecao (segmentar_por_cor alvo_rgb tolerancia s).2
  | TransparenciaPreto => excecao (aplicar_transparencia_preto s).2
  | AvancarTransparencia => excecao (avancar_transparencia s).2
  | Mistura => excecao (aplicar_mistura s).2
  end.

(** The sessions a program can reach from [init], through calls that return
    and calls that raise; the files may change between two calls, so each
    call has a world of its own. [livre W c s] says which calls are taken
    into account in state [s]. *)
Inductive alcancavel (livre : World -> chamada -> ImageProcessor -> Prop)
  : ImageProcessor -> Prop :=
| alc_init : alcancavel livre init
| alc_passo W c s :
    livre W c s -> alcancavel livre s -> alcancavel livre (executar W c s).

(** Every call, in every world and every state. *)
Definition qualquer_chamada : World -> chamada -> ImageProcessor -> Prop :=
  fun _ _ _ => True.

(** The calls that assign [resultado] without touching [alpha_frames]. *)
Definition sem_frames (c : chamada) : bool :=
  match c with
  | CarregarImagem _ | EspelhamentoHorizontal | EspelhamentoVertical
  | RotacionarDireita | RotacionarEsquerda | SegmentarPorCor _ _ => true
  | _ => false
  end.

(** The one-shot transforms. *)
Definition transformacao (c : chamada) : bool :=
  match c with
  | EspelhamentoHorizontal | EspelhamentoVertical | RotacionarDireita
  | RotacionarEsquerda | SegmentarPorCor _ _ => true
  | _ => false
  end.

(** The calls that, when they return, leave [resultado] on the frame under
    the cursor or leave no frame at all. *)
Definition repoe (c : chamada) : bool :=
  match c with
  | RestaurarOriginal | TransparenciaPreto | AvancarTransparencia
  | Mistura => true
  | _ => false
  end.

(** The sessions reached with no [carregar_imagem], geometric transform or
    segmentation returning since the animation was last set: the sessions
    that hold no frame; those left by a call of [restaurar_original],
    [aplicar_transparencia_preto], [aplicar_mistura] or
    [avancar_transparencia] that returned, whatever came before; and those
    that follow such a session through any call other than a
    [carregar_imagem], a geometric transform or a segmentation that
    returned. *)
Inductive em_dia : ImageProcessor -> Prop :=
| ed_vazio s :
    alcancavel qualquer_chamada s -> alpha_frames s = [] -> em_dia s
| ed_repoe W c s :
    alcancavel qualquer_chamada s -> repoe c = true ->
    levantada W c s = None -> em_dia (executar W c s)
| ed_mantem W c s :
    em_dia s -> (sem_frames c = true -> levantada W c s <> None) ->
    em_dia (executar W c s).

(** ** Invariants of a session *)

(** The cursor points inside a non-empty frame sequence. *)
Definition cursor_valido (s : ImageProcessor) : Prop :=
  alpha_frames s <> [] -> (alpha_index s < length (alpha_frames s))%nat.

(** [resultado] is the frame under the cursor of a non-empty frame
    sequence. *)
Definition resultado_no_cursor (s : ImageProcessor) : Prop :=
  alpha_frames s <> [] -> resultado s = alpha_frames s !! alpha_index s.

(** What a call does to the animation: nothing, or it leaves no frame, or it
    leaves [resultado] on the frame under the cursor. *)
Definition efeito (c : chamada) (s s' : ImageProcessor) : Prop :=
  (alpha_frames s' = alpha_frames s /\ alpha_index s' = alpha_index s
   /\ (sem_frames c = false -> resultado s' = resultado s))
  \/ alpha_frames s' = []
  \/ (exists f, alpha_frames s' !! alpha_index s' = Some f
                /\ resultado s' = Some f).

(** A call returned, put [m] in [resultado] and changed nothing else. *)
Definition substitui_resultado (s : ImageProcessor) (m : matrix)
    (r : ImageProcessor * res unit) : Prop :=
  r.2 = Ok tt /\ resultado r.1 = Some m
  /\ alpha_frames r.1 = alpha_frames s /\ alpha_index r.1 = alpha_index s
  /\ original r.1 = original s /\ second_image r.1 = second_image s.

(** ** Auxiliary definitions: channel arithmetic *)

(** The 256 channel values. *)
Definition canais : list Z := seqZ 0 256.

(** The value of an outcome, [d] for an exception. *)
Definition valor {A} (d : A) (r : res A) : A :=
  match r with Ok a => a | Raise _ => d end.

(** Neither [nan] nor an infinity. *)
Definition finito (f : float) : bool :=
  negb (PrimFloat.is_nan f) && negb (PrimFloat.is_infinity f).

(** The value of [int(c * a)] for [a = k / 5.0]. *)
Definition escurecer_canal (k c : Z) : res Z :=
  a ← PyFloat.int_div k 5; escurecer a c.

(** The value of [int(c1 * (1 - a) + c2 * a)] for [a = k / 10.0]. *)
Definition mistura_canal (k c1 c2 : Z) : res Z :=
  a ← PyFloat.int_div k 10;
  a' ← PyFloat.int_sub 1 a;
  x ← PyFloat.int_mul c1 a';
  y ← PyFloat.int_mul c2 a;
  PyFloat.to_int (PrimFloat.add x y).

(** The first product of [mistura_canal], [c1 * (1 - a)]. *)
Definition produto_1 (k c : Z) : res float :=
  a ← PyFloat.int_div k 10; a' ← PyFloat.int_sub 1 a; PyFloat.int_mul c a'.

(** The second one, [c2 * a]. *)
Definition produto_2 (k c : Z) : res float :=
  a ← PyFloat.int_div k 10; PyFloat.int_mul c a.

(** The pixel of frame [k] of the fade that comes from [p]. *)
Definition pixel_preto (k : Z) (p : pixel) : pixel :=
  let '(r, g, b) := p in
  (valor 0 (escurecer_canal k r), valor 0 (escurecer_canal k g),
   valor 0 (escurecer_canal k b)).

Definition preto : pixel := (0, 0, 0).

(** The image whose pixels are those of [img] through [f]. *)
Definition por_pixel (f : pixel -> pixel) (img : matrix) : matrix :=
  (fun linha : list pixel => f <$> linha) <$> img.

(** The pixel of frame [k] of the blend that comes from [p1] and [p2]. *)
Definition pixel_mistura (k : Z) (p1 p2 : pixel) : pixel :=
  let '(r1, g1, b1) := p1 in
  let '(r2, g2, b2) := p2 in
  (valor 0 (mistura_canal k r1 r2), valor 0 (mistura_canal k g1 g2),
   valor 0 (mistura_canal k b1 b2)).

(** ** Auxiliary definitions: binary64 *)

(** Zero or a finite number: neither an infinity nor NaN. *)
Definition sf_finito (x : spec_float) : bool :=
  match x with
  | S754_zero _ | S754_finite _ _ _ => true
  | _ => false
  end.

(** The absolute value of a finite binary64 number, as a multiple of
    [2 ^ -1200]. *)
Definition magnitude (x : spec_float) : Z :=
  match x with
  | S754_finite _ m e => Z.pos m * 2 ^ (e + 1200)
  | _ => 0
  end.

(** The shift [shr_fexp] applies and the rounding that follows it. *)
Definition arredondar (m e : Z) : Z * Z :=
  let '(mrs, e') := shr_fexp prec emax m e loc_Exact in
  (round_nearest_even (shr_m mrs) (loc_of_shr_record mrs), e').

(** The largest finite binary64 number. *)
Definition maior_finito : spec_float := S754_finite false (2 ^ 53 - 1) 971.

(** A weight between 0 and 1 with which the largest finite number gives a
    product that is not a tie: the product of any finite number with it is
    bounded by the product of the largest one. *)
Definition peso_admitido (y : spec_float) : bool :=
  match y with
  | S754_zero _ => true
  | S754_finite _ my ey =>
      match SFmul prec emax maior_finito y with
      | S754_finite _ Xm Xe =>
          (-100 <=? ey) && (ey <=? 0) && (971 + ey <=? Xe) && (Xe <=? 971)
          && (2 ^ 52 <=? Z.pos Xm) && (Z.pos Xm <? 2 ^ 53)
          && (2 * ((2 ^ 53 - 1) * Z.pos my * 2 ^ (971 + ey + 1200))
              <? (2 * Z.pos Xm + 1) * 2 ^ (Xe + 1200))
      | _ => false
      end
  | _ => false
  end.

(** The bound on the magnitude of a product with the weight [y]. *)
Definition cota_do_produto (y : spec_float) : Z :=
  magnitude (SFmul prec emax maior_finito y).

(** ** Auxiliary definitions: the frames of a blend *)

(** Frame [k] of the blend, pixel by pixel over the extent of [im1]. *)
Definition mistura_frame (k : Z) (im1 im2 : matrix) : matrix :=
  zip_with (fun l1 l2 : list pixel => zip_with (pixel_mistura k) l1 l2) im1 im2.

(** [im2] has a pixel wherever [im1] has one. *)
Definition cobre (im1 im2 : matrix) : Prop :=
  (length im1 <= length im2)%nat
  /\ forall i l1 l2, im1 !! i = Some l1 -> im2 !! i = Some l2 ->
                     (length l1 <= length l2)%nat.

(** The tuple computed for the pixel at row [i], column [j] of a blend. *)
Definition misturar_pixel (im1 im2 : matrix) (a : float) (i j : Z) : res pixel :=
  r ← misturar im1 im2 a i j 0;
  g ← misturar im1 im2 a i j 1;
  b ← misturar im1 im2 a i j 2;
  mret (r, g, b).

(** The four lookups of a blended pixel succeed. *)
Definition indexavel (im1 im2 : matrix) (i j : Z) : Prop :=
  exists l1 p1 l2 p2,
    getitem im1 i = Ok l1 /\ getitem l1 j = Ok p1
    /\ getitem im2 i = Ok l2 /\ getitem l2 j = Ok p2.

(** [q] is [p] with every channel kept or lowered by one. *)
Definition pixel_quase (q p : pixel) : Prop :=
  (q.1.1 = p.1.1 \/ q.1.1 = p.1.1 - 1)
  /\ (q.1.2 = p.1.2 \/ q.1.2 = p.1.2 - 1)
  /\ (q.2 = p.2 \/ q.2 = p.2 - 1).

(** The same, pixel by pixel, for two images of the same shape. *)
Definition imagem_quase (f m : matrix) : Prop :=
  Forall2 (Forall2 pixel_quase) f m.

(** The top-left [h] by [w] region of an image. *)
Definition recorte (h w : nat) (m : matrix) : matrix :=
  (fun linha : list pixel => take w linha) <$> take h m.

(** ** Auxiliary definitions: text *)

(** A character that [split] and [strip] keep. *)
Definition nao_espaco (c : ascii) : Prop := PyStr.isspace c = false.

(** A decimal digit character. *)
Definition digito (c : ascii) : Prop :=
  exists d, 0 <= d < 10 /\ c = PyStr.chr (48 + d).

(** A character of [str(z)]: a digit or the minus sign. *)
Definition char_de_int (c : ascii) : Prop := digito c \/ c = PyStr.chr 45.

(** ** Auxiliary definitions: the PPM codec *)

(** The pixel loops of [carregar_ppm_p3]. *)
Definition montar_matriz (dados : list Z) (largura altura : Z) : res matrix :=
  mapM (fun i =>
          mapM (fun j =>
                  let idx := (i * largura + j) * 3 in
                  r ← getitem dados idx;
                  g ← getitem dados (idx + 1);
                  b ← getitem dados (idx + 2);
                  mret (r, g, b))
               (range largura))
       (range altura).

(** The grammar of the format: the line [P3], a line with two integers, a
    line that is skipped, then integers separated by whitespace. *)
Definition ppm_bem_formado (f : PyStr.text) (largura altura : Z)
    (dados : list Z) : Prop :=
  let '(l1, f1) := PyStr.readline f in
  let '(l2, f2) := PyStr.readline f1 in
  let '(_, f3) := PyStr.readline f2 in
  PyStr.strip l1 = PyStr.lit "P3"
  /\ mapM PyStr.int (PyStr.split l2) = Ok [largura; altura]
  /\ mapM PyStr.int (PyStr.split f3) = Ok dados.

(** The pixel whose three channels start at [dados[3 * n]]. *)
Definition pixel_em (dados : list Z) (n : Z) : pixel :=
  (dados !!! Z.to_nat (n * 3), dados !!! Z.to_nat (n * 3 + 1),
   dados !!! Z.to_nat (n * 3 + 2)).

(** The channel values of an image in file order. *)
Definition canais_de (linha : list pixel) : list Z :=
  linha ≫= (fun p : pixel => [p.1.1; p.1.2; p.2]).

(** The same for a whole image, row after row. *)
Definition valores (img : matrix) : list Z := img ≫= canais_de.

(** The text [salvar_ppm_p3] writes for [img]. *)
Definition texto_ppm (img : matrix) (largura altura : Z) : PyStr.text :=
  (PyStr.lit "P3" ++ [PyStr.newline]
   ++ PyStr.str largura ++ [PyStr.space] ++ PyStr.str altura
   ++ [PyStr.newline] ++ PyStr.lit "255" ++ [PyStr.newline])
  ++ concat ((fun linha : list pixel =>
                PyStr.join [PyStr.space] (pixel_str <$> linha)
                ++ [PyStr.newline]) <$> img).

(** ** The transforms as the specification words them *)

Module Spec.

(** The pixel at row [i], column [j]. *)
Definition pixel_at (m : matrix) (i j : nat) : pixel := (m !!! i) !!! j.

(** Each row reversed left to right. *)
Definition mirrorHorizontal (m : matrix) : matrix :=
  (fun linha : list pixel => reverse linha) <$> m.

(** Row order reversed top to bottom. *)
Definition mirrorVertical (m : matrix) : matrix := reverse m.

(** For an [h] by [w] input, [w] rows and [h] columns; the pixel at row [j],
    column [h - 1 - i] is the input pixel at row [i], column [j]. *)
Definition rotateClockwise90 (m : matrix) : matrix :=
  let h := length m in
  let w := length (m !!! 0%nat) in
  (fun j => (fun c => pixel_at m (h - 1 - c) j) <$> seq 0 h) <$> seq 0 w.

(** [w] rows and [h] columns; the pixel at row [w - 1 - j], column [i] is
    the input pixel at row [i], column [j]. *)
Definition rotateCounterClockwise90 (m : matrix) : matrix :=
  let h := length m in
  let w := length (m !!! 0%nat) in
  (fun r => (fun i => pixel_at m i (w - 1 - r)) <$> seq 0 h) <$> seq 0 w.

(** A pixel is kept when every channel is within [tolerance] of the
    target's, and replaced with black otherwise. *)
Definition segmentByColor (m : matrix) (target : pixel) (tolerance : Z)
  : matrix :=
  por_pixel
    (fun p : pixel =>
       if (Z.abs (p.1.1 - target.1.1) <=? tolerance)
          && (Z.abs (p.1.2 - target.1.2) <=? tolerance)
          && (Z.abs (p.2 - target.2) <=? tolerance)
       then p else (0, 0, 0))
    m.

End Spec.

(** ** Auxiliary definitions: the loops of a rotation *)

(** The cell at row [a], column [b] of the matrix being filled. *)
Definition cel (nova : list (list (option pixel))) (a b : nat)
  : option (option pixel) :=
  nova !! a ≫= (.!! b).

(** [nova] has [w] rows of [h] cells. *)
Definition forma (nova : list (list (option pixel))) (w h : nat) : Prop :=
  length nova = w /\ Forall (fun l => length l = h) nova.

(** The cells written for the pairs in [P] hold the pixels they came
    from. *)
Definition preenchido (img : matrix) (w h : nat) (D : Z -> Z -> Z * Z)
    (P : nat -> nat -> Prop) (nova : list (list (option pixel))) : Prop :=
  forma nova w h
  /\ forall i j a b,
       P i j -> (i < h)%nat -> (j < w)%nat ->
       D (Z.of_nat i) (Z.of_nat j) = (Z.of_nat a, Z.of_nat b) ->
       cel nova a b = Some (Some (Spec.pixel_at img i j)).

(** The matrix whose cell at row [a], column [b] is the pixel of [img] at
    [Dinv a b]. *)
Definition rearranjo (img : matrix) (w h : nat)
    (Dinv : nat -> nat -> nat * nat) : matrix :=
  (fun a => (fun b => Spec.pixel_at img (Dinv a b).1 (Dinv a b).2) <$> seq 0 h)
    <$> seq 0 w.

(** The cells written for the pairs in [P] hold a pixel. *)
Definition escrito (w h : nat) (D : Z -> Z -> Z * Z)
    (P : nat -> nat -> Prop) (nova : list (list (option pixel))) : Prop :=
  forma nova w h
  /\ forall i j a b,
       P i j -> (i < h)%nat -> (j < w)%nat ->
       D (Z.of_nat i) (Z.of_nat j) = (Z.of_nat a, Z.of_nat b) ->
       exists p, cel nova a b = Some (Some p).

(** ** Examples *)

(** Two images of one row and two pixels. *)
Definition exemplo_a : matrix := [[(10, 20, 30); (40, 50, 60)]].
Definition exemplo_b : matrix := [[(200, 100, 0); (0, 0, 255)]].

(** A larger second image: two rows of three pixels. *)
Definition exemplo_grande : matrix :=
  [[(200, 100, 0); (0, 0, 255); (1, 2, 3)];
   [(7, 8, 9); (255, 255, 255); (4, 5, 6)]].

(** A session holding [a] as original and result and [b] as second image. *)
Definition sessao (a b : matrix) : ImageProcessor :=
  {| original := Some a; resultado := Some a; alpha_frames := [];
     alpha_index := 0%nat; second_image := Some b |}.

(** The file [a.ppm], which holds [exemplo_a]. *)
Definition exemplo_ppm : PyStr.text :=
  PyStr.lit "P3" ++ [PyStr.newline] ++ PyStr.lit "2 1" ++ [PyStr.newline]
  ++ PyStr.lit "255" ++ [PyStr.newline] ++ PyStr.lit "10 20 30 40 50 60"
  ++ [PyStr.newline].

(** A world with the PPM file [a.ppm] and the PIL image [b.png]. *)
Definition mundo_exemplo : World :=
  {| splitext_lower := fun c => if decide (c = "a.ppm"%string)
                                then ".ppm"%string else ".png"%string;
     open_r := fun c => if decide (c = "a.ppm"%string)
                        then Some exemplo_ppm else None;
     open_w := fun _ => true;
     pil_open_rgb := fun c =>
       if decide (c = "b.png"%string)
       then Ok {| size := (2, 1); getdata := [(200, 100, 0); (0, 0, 255)] |}
       else Raise OSError |}.

(** The session after loading [a.ppm], starting the fade and stepping once. *)
Definition sessao_animada : ImageProcessor :=
  executar mundo_exemplo AvancarTransparencia
    (executar mundo_exemplo TransparenciaPreto
       (executar mundo_exemplo (CarregarImagem "a.ppm") init)).

(** The same session after a horizontal mirror. *)
Definition sessao_espelhada : ImageProcessor :=
  executar mundo_exemplo EspelhamentoHorizontal sessao_animada.

(** A file with one pixel and four values, and a file that is one value
    short. *)
Definition ppm_valor_a_mais : PyStr.text :=
  PyStr.lit "P3" ++ [PyStr.newline] ++ PyStr.lit "1 1" ++ [PyStr.newline]
  ++ PyStr.lit "255" ++ [PyStr.newline] ++ PyStr.lit "1 2 3 4"
  ++ [PyStr.newline].

Definition ppm_valor_a_menos : PyStr.text :=
  PyStr.lit "P3" ++ [PyStr.newline] ++ PyStr.lit "1 1" ++ [PyStr.newline]
  ++ PyStr.lit "255" ++ [PyStr.newline] ++ PyStr.lit "1 2" ++ [PyStr.newline].

(** A world in which every path holds the text [f]. *)
Definition mundo_com (f : PyStr.text) : World :=
  {| splitext_lower := fun _ => ".ppm"%string;
     open_r := fun _ => Some f;
     open_w := fun _ => true;
     pil_open_rgb := fun _ => Raise OSError |}.

(** A file whose pixel is not an 8-bit triple, and the session that loads
    it, starts the fade, steps twice and asks for a blend while no second
    image is loaded, which raises. *)
Definition ppm_fora_de_8bit : PyStr.text :=
  PyStr.lit "P3" ++ [PyStr.newline] ++ PyStr.lit "1 1" ++ [PyStr.newline]
  ++ PyStr.lit "255" ++ [PyStr.newline] ++ PyStr.lit "300 -5 70000"
  ++ [PyStr.newline].

Definition sessao_fora_de_8bit : ImageProcessor :=
  let W := mundo_com ppm_fora_de_8bit in
  executar W Mistura
    (executar W AvancarTransparencia
       (executar W AvancarTransparencia
          (executar W TransparenciaPreto
             (executar W (CarregarImagem "a.ppm") init)))).

(** ** Auxiliary definitions: the window *)

(** The pixels of [q] at the coordinates in [P] hold the packed pixels of
    [img]; [q] is [w] wide and [h] high. *)
Definition pintado (img : matrix) (w h : nat) (P : nat -> nat -> Prop)
    (q : Qt.QImage) : Prop :=
  Qt.width q = Z.of_nat w /\ Qt.height q = Z.of_nat h
  /\ forall x y, (x < w)%nat -> (y < h)%nat -> P y x ->
       Qt.pixels q !! (Z.of_nat x, Z.of_nat y)
       = Some (empacotar (Spec.pixel_at img y x)).

(** Every row of [img] reaches the width of the first one: the images whose
    cells [img[y][x]], [x] below [len(img[0])], all exist. *)
Definition linhas_cobrem (img : matrix) : Prop :=
  exists linha0, img !! 0%nat = Some linha0
    /\ Forall (fun linha => (length linha0 <= length linha)%nat) img.

(** A pixel whose packed value [setPixel] accepts. *)
Definition empacotavel (p : pixel) : Prop := 0 <= empacotar p < 2 ^ 32.

(** The pixels of [img] that [exibir_em_qimage] visits, those of the columns
    below [len(img[0])], can all be packed. *)
Definition pixels_cabem (img : matrix) : Prop :=
  forall linha0, img !! 0%nat = Some linha0 ->
    Forall (fun linha => Forall empacotavel (take (length linha0) linha)) img.

(** The images [exibir_em_qimage] converts. *)
Definition exibivel (img : matrix) : Prop :=
  linhas_cobrem img /\ pixels_cabem img.

(** Every pixel of [img] can be packed. *)
Definition todo_empacotavel (img : matrix) : Prop :=
  Forall (Forall empacotavel) img.

(** The labels show the images of the processor; before an image is loaded
    the processor holds none and the labels show their text. *)
Definition exibido (mw : MainWindow) : Prop :=
  (original (processor mw) = None /\ resultado (processor mw) = None
   /\ lbl_orig mw = None /\ lbl_res mw = None)
  \/ (exists q1 q2,
        lbl_orig mw = Some q1 /\ lbl_res mw = Some q2
        /\ exibir_em_qimage (original (processor mw)) = Ok q1
        /\ exibir_em_qimage (resultado (processor mw)) = Ok q2).

(** Two images with as many rows, each as long as its counterpart. *)
Definition mesma_forma (m m' : matrix) : Prop :=
  Forall2 (fun l l' : list pixel => length l = length l') m m'.

(** [m'] has the shape of [m], and a pixel of [m'] can be packed when its
    counterpart in [m] can. *)
Definition empacotavel_como (m m' : matrix) : Prop :=
  Forall2 (Forall2 (fun p p' : pixel => empacotavel p -> empacotavel p')) m m'.

(** The text a user types for the colour [(r, g, b)]. *)
Definition texto_rgb (zs : list Z) : PyStr.text :=
  PyStr.join (PyStr.lit ",") (PyStr.str <$> zs).

(** ** Further examples *)

(** The world of [mundo_exemplo] with no file that can be written. *)
Definition mundo_so_leitura : World :=
  {| splitext_lower := splitext_lower mundo_exemplo;
     open_r := open_r mundo_exemplo;
     open_w := fun _ => false;
     pil_open_rgb := pil_open_rgb mundo_exemplo |}.

(** The window after [a.ppm] has been opened. *)
Definition janela_aberta : MainWindow :=
  (open_image mundo_exemplo "a.ppm" janela).1.

(** ** Auxiliary definitions: segmentation *)

(** The channels of [p] that have a counterpart in [alvo] are all within
    [tolerancia] of it. *)
Definition perto (alvo : list Z) (tolerancia : Z) (p : pixel) : bool :=
  forallb (fun ca : Z * Z => Z.abs (ca.1 - ca.2) <=? tolerancia)
          (zip [p.1.1; p.1.2; p.2] alvo).

(** No pixel of [img] is [perto] of [alvo]. *)
Definition nenhum_perto (alvo : list Z) (tolerancia : Z) (img : matrix) : bool :=
  forallb (forallb (fun p => negb (perto alvo tolerancia p))) img.

(** ** Auxiliary definitions: sequences of calls *)

(** [n] calls of [avancar_transparencia] in a row. *)
Definition avancar_n (n : nat) (s : ImageProcessor) : ImageProcessor :=
  Nat.iter n (fun s => (avancar_transparencia s).1) s.

(** The session after a sequence of calls, each in the world of its
    moment. *)
Definition executar_todas (passos : list (World * chamada))
    (s : ImageProcessor) : ImageProcessor :=
  foldl (fun s (p : World * chamada) => executar p.1 p.2 s) s passos.

(** The call that loads the original, and the one that loads the second
    image. *)
Definition carrega_original (c : chamada) : bool :=
  match c with CarregarImagem _ => true | _ => false end.

Definition carrega_segunda (c : chamada) : bool :=
  match c with PrepararMistura _ => true | _ => false end.

(** The pixel of frame [k] of the fade, in integer arithmetic. *)
Definition pixel_piso (k : Z) (p : pixel) : pixel :=
  (p.1.1 * k / 5, p.1.2 * k / 5, p.2 * k / 5).

(** ** Auxiliary definitions: binary64 *)

(** The mantissa of [255.0], which is [255 * 2 ^ 45]. *)
Definition mantissa_255 : positive := 8972014882652160.

(** ** Auxiliary definitions: sessions of 8-bit images *)

(** Every image the session holds has 8-bit channels. *)
Definition sessao_8bit (s : ImageProcessor) : Prop :=
  (forall m, original s = Some m -> imagem_8bit m)
  /\ (forall m, resultado s = Some m -> imagem_8bit m)
  /\ (forall m, second_image s = Some m -> imagem_8bit m)
  /\ Forall imagem_8bit (alpha_frames s).

(** The files of the world hold 8-bit channels: the PPM files that can be
    decoded, which [carregar_ppm_p3] does not check, and the images PIL
    converts to RGB, which always do. *)
Definition mundo_8bit (W : World) : Prop :=
  (forall c m, carregar_ppm_p3 W c = Ok m -> imagem_8bit m)
  /\ (forall c im, pil_open_rgb W c = Ok im -> Forall pixel_8bit (getdata im)).

(** Calls made in such worlds. *)
Definition em_mundo_8bit : World -> chamada -> ImageProcessor -> Prop :=
  fun W _ _ => mundo_8bit W.

(** The cells of [nova] that hold a pixel hold an 8-bit one. *)
Definition celulas_8bit (nova : list (list (option pixel))) : Prop :=
  Forall (Forall (fun c : option pixel =>
                    forall p, c = Some p -> pixel_8bit p)) nova.

(** A PPM file that declares two columns and no row. *)
Definition ppm_sem_linhas : PyStr.text :=
  PyStr.lit "P3" ++ [PyStr.newline] ++ PyStr.lit "2 0" ++ [PyStr.newline]
  ++ PyStr.lit "255" ++ [PyStr.newline].

(** ** Auxiliary definitions: rectangular images *)

(** The rows of [m] have one length. *)
Definition retangular (m : matrix) : Prop :=
  exists w, Forall (fun l : list pixel => length l = w) m.

(** Every image the session holds is rectangular. *)
Definition sessao_retangular (s : ImageProcessor) : Prop :=
  (forall m, original s = Some m -> retangular m)
  /\ (forall m, resultado s = Some m -> retangular m)
  /\ (forall m, second_image s = Some m -> retangular m)
  /\ Forall retangular (alpha_frames s).

(** ** Auxiliary definitions: the Next button *)

(** [n] presses of the Next button, as long as none raises. *)
Fixpoint proximos (n : nat) (mw : MainWindow) : MainWindow * res unit :=
  match n with
  | O => (mw, Ok tt)
  | S n' =>
      match proximos n' mw with
      | (mw', Ok _) => next_frame mw'
      | (mw', Raise e) => (mw', Raise e)
      end
  end.

(** * Properties *)

(** ** Decision procedures for the examples *)

Ltac prova_8bit := repeat constructor; simpl; lia.

Ltac prova_pixel_matrix :=
  split;
  [ eexists; split; [reflexivity|];
    split; [simpl; lia | repeat constructor]
  | prova_8bit ].

Ltac prova_dimensoes := split; [reflexivity | repeat constructor].

(** ** Enumeration over the 256 channel values *)

Lemma canal_8bit_canais c : canal_8bit c -> c ∈ canais.
Proof. intros [??]. apply elem_of_seqZ. lia. Qed.

Lemma fmap_eq_elem {A B} (f g : A -> B) (l : list A) x :
  f <$> l = g <$> l -> x ∈ l -> f x = g x.
Proof.
  induction l as [|y l IH]; intros Heq Hx; [by apply elem_of_nil in Hx|].
  injection Heq as Hy Hl. apply elem_of_cons in Hx as [->|Hx]; auto.
Qed.

Lemma forallb_elem {A} (P : A -> bool) (l : list A) x :
  forallb P l = true -> x ∈ l -> P x = true.
Proof.
  intros H Hx. apply list_elem_of_In in Hx.
  by apply (proj1 (forallb_forall P l) H).
Qed.

Lemma escurecer_canal_ok k c :
  0 <= k < 6 -> canal_8bit c -> is_ok (escurecer_canal k c) = true.
Proof.
  intros Hk Hc.
  assert (Hall : forallb (fun k => forallb (fun c => is_ok (escurecer_canal k c)) canais)
                   (seqZ 0 6) = true) by (vm_compute; reflexivity).
  apply (forallb_elem (fun c => is_ok (escurecer_canal k c)) canais);
    [|by apply canal_8bit_canais].
  apply (forallb_elem _ _ k Hall). apply elem_of_seqZ. lia.
Qed.

Lemma escurecer_canal_0 c : canal_8bit c -> escurecer_canal 0 c = Ok 0.
Proof.
  intros Hc. apply (fmap_eq_elem _ (fun _ => Ok 0) canais); [|by apply canal_8bit_canais].
  vm_compute. reflexivity.
Qed.

Lemma escurecer_canal_5 c : canal_8bit c -> escurecer_canal 5 c = Ok c.
Proof.
  intros Hc. apply (fmap_eq_elem _ (fun c => Ok c) canais); [|by apply canal_8bit_canais].
  vm_compute. reflexivity.
Qed.

Lemma mistura_canal_produtos k c1 c2 :
  mistura_canal k c1 c2
  = x ← produto_1 k c1; y ← produto_2 k c2; PyFloat.to_int (PrimFloat.add x y).
Proof.
  unfold mistura_canal, produto_1, produto_2.
  destruct (PyFloat.int_div k 10) as [a|e]; simpl; [|done].
  destruct (PyFloat.int_sub 1 a) as [a'|e]; simpl; [|done].
  by destruct (PyFloat.int_mul c1 a') as [x|e].
Qed.

Lemma to_int_finito f : finito f = true -> PyFloat.to_int f = Ok (PyFloat.trunc f).
Proof.
  unfold finito, PyFloat.to_int. intros H.
  apply andb_prop in H as [H1 H2].
  apply negb_true_iff in H1, H2. by rewrite H1, H2.
Qed.

Lemma produtos_ok k c :
  0 <= k < 11 -> canal_8bit c ->
  is_ok (produto_1 k c) = true /\ is_ok (produto_2 k c) = true.
Proof.
  intros Hk Hc.
  assert (Hall : forallb (fun k => forallb (fun c =>
                   is_ok (produto_1 k c) && is_ok (produto_2 k c)) canais)
                   (seqZ 0 11) = true) by (vm_compute; reflexivity).
  apply andb_prop.
  apply (forallb_elem (fun c => is_ok (produto_1 k c) && is_ok (produto_2 k c)) canais);
    [|by apply canal_8bit_canais].
  apply (forallb_elem _ _ k Hall). apply elem_of_seqZ. lia.
Qed.

Lemma canal_8bit_fmap {A} (f : Z -> A) c : canal_8bit c -> f c ∈ f <$> canais.
Proof. intros Hc. apply list_elem_of_fmap. exists c. by auto using canal_8bit_canais. Qed.

Lemma soma_finita k c1 c2 :
  0 <= k < 11 -> canal_8bit c1 -> canal_8bit c2 ->
  finito (PrimFloat.add (valor 0%float (produto_1 k c1))
                        (valor 0%float (produto_2 k c2))) = true.
Proof.
  intros Hk Hc1 Hc2.
  assert (Hall : forallb (fun k =>
      let xs := (fun c => valor 0%float (produto_1 k c)) <$> canais in
      let ys := (fun c => valor 0%float (produto_2 k c)) <$> canais in
      forallb (fun x => forallb (fun y => finito (PrimFloat.add x y)) ys) xs)
    (seqZ 0 11) = true) by (vm_compute; reflexivity).
  apply (forallb_elem _ _ k) in Hall; [|apply elem_of_seqZ; lia].
  cbv beta zeta in Hall.
  apply (forallb_elem _ _ (valor 0%float (produto_1 k c1))) in Hall;
    [|by apply (canal_8bit_fmap (fun c => valor 0%float (produto_1 k c)))].
  apply (forallb_elem _ _ (valor 0%float (produto_2 k c2))) in Hall;
    [done|by apply (canal_8bit_fmap (fun c => valor 0%float (produto_2 k c)))].
Qed.

Lemma mistura_canal_ok k c1 c2 :
  0 <= k < 11 -> canal_8bit c1 -> canal_8bit c2 ->
  is_ok (mistura_canal k c1 c2) = true.
Proof.
  intros Hk Hc1 Hc2. rewrite mistura_canal_produtos.
  pose proof (soma_finita k c1 c2 Hk Hc1 Hc2) as Hf.
  destruct (produtos_ok k c1 Hk Hc1) as [H1 _].
  destruct (produtos_ok k c2 Hk Hc2) as [_ H2].
  destruct (produto_1 k c1) as [x|]; [|done].
  destruct (produto_2 k c2) as [y|]; [|done].
  simpl in *. by rewrite to_int_finito.
Qed.

Lemma mistura_canal_0 c1 c2 :
  canal_8bit c1 -> canal_8bit c2 -> mistura_canal 0 c1 c2 = Ok c1.
Proof.
  intros Hc1 Hc2.
  assert (Hy : valor 0%float (produto_2 0 c2) = 0%float).
  { apply (fmap_eq_elem (fun c => valor 0%float (produto_2 0 c))
             (fun _ => 0%float) canais); [|by apply canal_8bit_canais].
    vm_compute. reflexivity. }
  assert (Hx : PyFloat.trunc (PrimFloat.add (valor 0%float (produto_1 0 c1)) 0)
               = c1).
  { apply (fmap_eq_elem
             (fun c => PyFloat.trunc
                         (PrimFloat.add (valor 0%float (produto_1 0 c)) 0))
             (fun c => c) canais); [|by apply canal_8bit_canais].
    vm_compute. reflexivity. }
  pose proof (soma_finita 0 c1 c2 ltac:(lia) Hc1 Hc2) as Hf.
  destruct (produtos_ok 0 c1 ltac:(lia) Hc1) as [H1 _].
  destruct (produtos_ok 0 c2 ltac:(lia) Hc2) as [_ H2].
  rewrite mistura_canal_produtos.
  destruct (produto_1 0 c1) as [x|]; [|done].
  destruct (produto_2 0 c2) as [y|]; [|done].
  simpl in *. rewrite to_int_finito by done. by rewrite Hy, Hx.
Qed.

Lemma mistura_canal_10 c1 c2 :
  canal_8bit c1 -> canal_8bit c2 -> mistura_canal 10 c1 c2 = Ok c2.
Proof.
  intros Hc1 Hc2.
  assert (Hx : valor 0%float (produto_1 10 c1) = 0%float).
  { apply (fmap_eq_elem (fun c => valor 0%float (produto_1 10 c))
             (fun _ => 0%float) canais); [|by apply canal_8bit_canais].
    vm_compute. reflexivity. }
  assert (Hy : PyFloat.trunc (PrimFloat.add 0 (valor 0%float (produto_2 10 c2)))
               = c2).
  { apply (fmap_eq_elem
             (fun c => PyFloat.trunc
                         (PrimFloat.add 0 (valor 0%float (produto_2 10 c))))
             (fun c => c) canais); [|by apply canal_8bit_canais].
    vm_compute. reflexivity. }
  pose proof (soma_finita 10 c1 c2 ltac:(lia) Hc1 Hc2) as Hf.
  destruct (produtos_ok 10 c1 ltac:(lia) Hc1) as [H1 _].
  destruct (produtos_ok 10 c2 ltac:(lia) Hc2) as [_ H2].
  rewrite mistura_canal_produtos.
  destruct (produto_1 10 c1) as [x|]; [|done].
  destruct (produto_2 10 c2) as [y|]; [|done].
  simpl in *. rewrite to_int_finito by done. by rewrite Hx, Hy.
Qed.

(** Blending a channel with itself gives the channel back, except at
    [k = 3], where rounding may lose one unit. *)
Lemma mistura_canal_mesmo k c :
  0 <= k < 11 -> canal_8bit c ->
  exists z, mistura_canal k c c = Ok z
            /\ (if k =? 3 then z = c \/ z = c - 1 else z = c).
Proof.
  intros Hk Hc.
  assert (Hall : forallb (fun k => forallb (fun c =>
      match mistura_canal k c c with
      | Ok z => if k =? 3 then (z =? c) || (z =? c - 1) else z =? c
      | Raise _ => false
      end) canais) (seqZ 0 11) = true) by (vm_compute; reflexivity).
  apply (forallb_elem _ _ k) in Hall; [|apply elem_of_seqZ; lia].
  apply (forallb_elem _ _ c) in Hall; [|by apply canal_8bit_canais].
  cbv beta in Hall.
  destruct (mistura_canal k c c) as [z|]; [|done].
  exists z. split; [done|]. destruct (k =? 3).
  - apply orb_prop in Hall as [H|H]; apply Z.eqb_eq in H; [by left|by right].
  - by apply Z.eqb_eq in Hall.
Qed.

(** ** The error monad and its loops *)

Lemma bind_Ok {A B} (a : A) (f : A -> res B) : (Ok a ≫= f) = f a.
Proof. reflexivity. Qed.

Lemma mapM_cons {A B} (f : A -> res B) x l :
  mapM f (x :: l) = y ← f x; k ← mapM f l; mret (y :: k).
Proof. reflexivity. Qed.

Lemma mapM_Ok_fmap {A B} (f : A -> res B) (g : A -> B) l :
  Forall (fun x => f x = Ok (g x)) l -> mapM f l = Ok (g <$> l).
Proof.
  induction 1 as [|x l Hx _ IH]; [done|].
  by rewrite mapM_cons, Hx, IH.
Qed.

Lemma mapM_Ok_inv {A B} (f : A -> res B) l k :
  mapM f l = Ok k -> Forall2 (fun x y => f x = Ok y) l k.
Proof.
  revert k. induction l as [|x l IH]; intros k.
  - intros [= <-]. constructor.
  - rewrite mapM_cons. destruct (f x) as [y|] eqn:Hx; [|done].
    simpl. destruct (mapM f l) as [k'|]; [|done].
    intros [= <-]. constructor; auto.
Qed.

Lemma mapM_Raise_inv {A B} (f : A -> res B) l e :
  mapM f l = Raise e -> exists x, x ∈ l /\ f x = Raise e.
Proof.
  induction l as [|x l IH]; [done|].
  rewrite mapM_cons. destruct (f x) as [y|e'] eqn:Hx; simpl.
  - destruct (mapM f l) as [k'|e'']; [done|].
    intros [= ->]. destruct IH as (x' & ? & ?); [done|].
    exists x'. split; [apply elem_of_cons; by right|done].
  - intros [= ->]. exists x. split; [apply elem_of_cons; by left|done].
Qed.

Lemma mapM_is_ok {A B} (f : A -> res B) l :
  Forall (fun x => is_ok (f x) = true) l -> is_ok (mapM f l) = true.
Proof.
  induction 1 as [|x l Hx _ IH]; [done|].
  rewrite mapM_cons. destruct (f x); [|done]. simpl.
  by destruct (mapM f l).
Qed.

Lemma is_ok_true {A} (r : res A) : is_ok r = true -> exists a, r = Ok a.
Proof. destruct r; [eauto|done]. Qed.

Lemma is_ok_valor {A} (d : A) (r : res A) : is_ok r = true -> r = Ok (valor d r).
Proof. by destruct r. Qed.

Lemma getitem_Ok {A} (l : list A) (i : nat) x :
  l !! i = Some x -> getitem l (Z.of_nat i) = Ok x.
Proof.
  intros H. pose proof (lookup_lt_Some _ _ _ H) as Hlt.
  unfold getitem.
  destruct (Z.of_nat i <? 0) eqn:E1; [lia|].
  destruct (Z.of_nat i <? 0) eqn:E2; [lia|].
  destruct (Z.of_nat (length l) <=? Z.of_nat i) eqn:E3; [lia|].
  simpl. by rewrite Nat2Z.id, H.
Qed.

Lemma getitem_nonneg {A} (l : list A) (i : Z) :
  0 <= i ->
  getitem l i = match l !! Z.to_nat i with
                | Some x => Ok x
                | None => Raise IndexError
                end.
Proof.
  intros Hi. unfold getitem.
  destruct (i <? 0) eqn:E1; [lia|]. rewrite E1. simpl.
  destruct (Z.of_nat (length l) <=? i) eqn:E3; [|done].
  rewrite lookup_ge_None_2; [done|lia].
Qed.

Lemma getitem_0 {A} (l : list A) :
  getitem l 0 = match l with x :: _ => Ok x | [] => Raise IndexError end.
Proof. rewrite getitem_nonneg by lia. by destruct l. Qed.

Lemma list_copy_fmap {A} (m : list (list A)) : list_copy <$> m = m.
Proof. apply list_fmap_id. Qed.

(** ** Generating frames *)

Lemma set_alpha_frames_twice fs fs' s :
  set_alpha_frames fs (set_alpha_frames fs' s) = set_alpha_frames fs s.
Proof. reflexivity. Qed.

Lemma gerar_frames_ok frame ks fs s :
  Forall2 (fun k f => frame k = Ok f) ks fs ->
  gerar_frames frame ks s = (set_alpha_frames (alpha_frames s ++ fs) s, Ok tt).
Proof.
  intros H. revert s. induction H as [|k f ks fs Hk _ IH]; intros s; simpl.
  - rewrite app_nil_r. by destruct s.
  - rewrite Hk, IH. simpl. by rewrite <- app_assoc.
Qed.

Lemma gerar_frames_fmap frame (F : Z -> matrix) ks s :
  (forall k, k ∈ ks -> frame k = Ok (F k)) ->
  gerar_frames frame ks s
  = (set_alpha_frames (alpha_frames s ++ (F <$> ks)) s, Ok tt).
Proof.
  intros H. apply gerar_frames_ok. apply Forall2_fmap_r, Forall_Forall2_diag.
  by apply Forall_forall.
Qed.

Lemma gerar_frames_raise frame k ks e s :
  frame k = Raise e -> gerar_frames frame (k :: ks) s = (s, Raise e).
Proof. intros H. simpl. by rewrite H. Qed.

(** ** Fade from black *)

Lemma frame_preto_ok k img :
  0 <= k < 6 -> imagem_8bit img ->
  frame_preto (Some img) k = Ok (por_pixel (pixel_preto k) img).
Proof.
  intros Hk Himg. unfold frame_preto.
  assert (Ha : exists a, PyFloat.int_div k 5 = Ok a).
  { pose proof (escurecer_canal_ok k 0 Hk ltac:(unfold canal_8bit; lia)) as H.
    unfold escurecer_canal in H.
    destruct (PyFloat.int_div k 5) as [a|]; [eauto|done]. }
  destruct Ha as [a Ha]. rewrite Ha, bind_Ok.
  apply mapM_Ok_fmap. eapply Forall_impl; [exact Himg|].
  intros linha Hlinha. apply mapM_Ok_fmap.
  eapply Forall_impl; [exact Hlinha|].
  intros [[r g] b] (Hr & Hg & Hb). simpl in Hr, Hg, Hb.
  assert (Hc : forall c, canal_8bit c ->
                         escurecer a c = Ok (valor 0 (escurecer_canal k c))).
  { intros c Hc. pose proof (escurecer_canal_ok k c Hk Hc) as H.
    apply (is_ok_valor 0) in H. unfold escurecer_canal in H at 1.
    by rewrite Ha in H. }
  by rewrite (Hc r), (Hc g), (Hc b).
Qed.

Lemma pixel_preto_0 p : pixel_8bit p -> pixel_preto 0 p = preto.
Proof.
  destruct p as [[r g] b]. intros (Hr & Hg & Hb). simpl in *.
  unfold pixel_preto, preto.
  by rewrite !escurecer_canal_0.
Qed.

Lemma pixel_preto_5 p : pixel_8bit p -> pixel_preto 5 p = p.
Proof.
  destruct p as [[r g] b]. intros (Hr & Hg & Hb). simpl in *.
  unfold pixel_preto.
  by rewrite !escurecer_canal_5.
Qed.

Lemma por_pixel_ext_8bit (f g : pixel -> pixel) (img : matrix) :
  (forall p, pixel_8bit p -> f p = g p) -> imagem_8bit img ->
  por_pixel f img = por_pixel g img.
Proof.
  intros Hfg Himg. apply Forall_fmap_ext. eapply Forall_impl; [exact Himg|].
  intros linha Hl. apply Forall_fmap_ext. eapply Forall_impl; [exact Hl|].
  auto.
Qed.

Lemma aplicar_transparencia_preto_ok s img :
  original s = Some img -> imagem_8bit img ->
  aplicar_transparencia_preto s
  = ({| original := Some img;
        resultado := Some (por_pixel (pixel_preto 0) img);
        alpha_frames := (fun k => por_pixel (pixel_preto k) img) <$> range 6;
        alpha_index := 0%nat;
        second_image := second_image s |}, Ok tt).
Proof.
  intros Ho Himg. unfold aplicar_transparencia_preto.
  rewrite (gerar_frames_fmap _ (fun k => por_pixel (pixel_preto k) img)).
  - destruct s; simpl in Ho; subst. reflexivity.
  - intros k Hk. cbn [original set_alpha_frames]. rewrite Ho.
    apply frame_preto_ok; [|done].
    apply elem_of_seqZ in Hk. lia.
Qed.

(** ** Loops over [range] that index a list *)

Lemma mapM_seqZ_zip {A B C} (F : Z -> res C) (g : A -> B -> C)
    (l1 : list A) (l2 : list B) (m : Z) :
  (length l1 <= length l2)%nat ->
  (forall i x y, l1 !! i = Some x -> l2 !! i = Some y ->
                 F (m + Z.of_nat i) = Ok (g x y)) ->
  mapM F (seqZ m (Z.of_nat (length l1))) = Ok (zip_with g l1 l2).
Proof.
  revert l2 m. induction l1 as [|x l1 IH]; intros l2 m Hlen HF; [done|].
  destruct l2 as [|y l2]; [simpl in Hlen; lia|].
  rewrite seqZ_cons by (simpl; lia).
  rewrite mapM_cons.
  assert (F m = Ok (g x y)) as ->.
  { rewrite <- (Z.add_0_r m). by apply (HF 0%nat). }
  simpl.
  replace (Z.pred (Z.of_nat (S (length l1))))
    with (Z.of_nat (length l1)) by lia.
  rewrite (IH l2 (Z.succ m)); [done|simpl in Hlen; lia|].
  intros i x' y' Hx Hy.
  replace (Z.succ m + Z.of_nat i) with (m + Z.of_nat (S i)) by lia.
  by apply HF.
Qed.

Lemma mapM_range_zip {A B C} (F : Z -> res C) (g : A -> B -> C)
    (l1 : list A) (l2 : list B) :
  (length l1 <= length l2)%nat ->
  (forall i x y, l1 !! i = Some x -> l2 !! i = Some y ->
                 F (Z.of_nat i) = Ok (g x y)) ->
  mapM F (range (Z.of_nat (length l1))) = Ok (zip_with g l1 l2).
Proof. intros Hlen HF. by apply (mapM_seqZ_zip F g l1 l2 0). Qed.

Lemma zip_with_ext_Forall {A B C} (f g : A -> B -> C) (P : A -> Prop)
    (Q : B -> Prop) l1 l2 :
  (forall x y, P x -> Q y -> f x y = g x y) ->
  Forall P l1 -> Forall Q l2 -> zip_with f l1 l2 = zip_with g l1 l2.
Proof.
  intros Hfg H1. revert l2. induction H1 as [|x l1 Hx _ IH]; intros l2 H2; [done|].
  destruct H2 as [|y l2 Hy H2]; [done|]. simpl. f_equal; auto.
Qed.

Lemma zip_with_fst_le {A B} (l1 : list A) (l2 : list B) :
  (length l1 <= length l2)%nat -> zip_with (fun x _ => x) l1 l2 = l1.
Proof.
  revert l2. induction l1 as [|x l1 IH]; intros [|y l2] Hlen; simpl in *;
    try done; try lia.
  f_equal. apply IH. lia.
Qed.

Lemma zip_with_snd_le {A B} (l1 : list A) (l2 : list B) :
  (length l2 <= length l1)%nat -> zip_with (fun _ y => y) l1 l2 = l2.
Proof.
  revert l2. induction l1 as [|x l1 IH]; intros [|y l2] Hlen; simpl in *;
    try done; try lia.
  f_equal. apply IH. lia.
Qed.

(** ** Cross-fade *)

Lemma int_div_10_ok k : 0 <= k < 11 -> exists a, PyFloat.int_div k 10 = Ok a.
Proof.
  intros Hk.
  pose proof (mistura_canal_ok k 0 0 Hk ltac:(unfold canal_8bit; lia)
                ltac:(unfold canal_8bit; lia)) as H.
  unfold mistura_canal in H.
  destruct (PyFloat.int_div k 10) as [a|]; [eauto|done].
Qed.

Lemma misturar_ok im1 im2 k a i j l1 l2 p1 p2 c c1 c2 :
  0 <= k < 11 -> PyFloat.int_div k 10 = Ok a ->
  im1 !! i = Some l1 -> l1 !! j = Some p1 ->
  im2 !! i = Some l2 -> l2 !! j = Some p2 ->
  pixel_get p1 c = Ok c1 -> pixel_get p2 c = Ok c2 ->
  canal_8bit c1 -> canal_8bit c2 ->
  misturar im1 im2 a (Z.of_nat i) (Z.of_nat j) c
  = Ok (valor 0 (mistura_canal k c1 c2)).
Proof.
  intros Hk Ha H1 Hp1 H2 Hp2 Hc1 Hc2 H81 H82.
  pose proof (mistura_canal_ok k c1 c2 Hk H81 H82) as Hok.
  apply (is_ok_valor 0) in Hok. rewrite <- Hok.
  unfold misturar, mistura_canal.
  rewrite (getitem_Ok _ _ _ H1), bind_Ok, (getitem_Ok _ _ _ Hp1), bind_Ok.
  rewrite Hc1, Ha, !bind_Ok.
  destruct (PyFloat.int_sub 1 a) as [a'|]; [rewrite !bind_Ok|done].
  destruct (PyFloat.int_mul c1 a') as [x|]; [rewrite !bind_Ok|done].
  rewrite (getitem_Ok _ _ _ H2), bind_Ok, (getitem_Ok _ _ _ Hp2), bind_Ok.
  by rewrite Hc2, bind_Ok.
Qed.

Lemma frame_mistura_ok im1 im2 w k :
  0 <= k < 11 ->
  Forall (fun l => length l = w) im1 -> cobre im1 im2 ->
  imagem_8bit im1 -> imagem_8bit im2 ->
  frame_mistura im1 im2 (Z.of_nat (length im1)) (Z.of_nat w) k
  = Ok (mistura_frame k im1 im2).
Proof.
  intros Hk Hw [Hlen Hcob] H81 H82. unfold frame_mistura.
  destruct (int_div_10_ok k Hk) as [a Ha]. rewrite Ha, bind_Ok.
  apply mapM_range_zip; [done|].
  intros i l1 l2 Hl1 Hl2.
  assert (length l1 = w) as <-.
  { eapply (proj1 (Forall_lookup _ _) Hw); eauto. }
  apply mapM_range_zip; [by eapply Hcob|].
  intros j [[r1 g1] b1] [[r2 g2] b2] Hp1 Hp2.
  assert (Hq1 : pixel_8bit (r1, g1, b1)).
  { eapply (proj1 (Forall_lookup _ _)); [|exact Hp1].
    eapply (proj1 (Forall_lookup _ _) H81); eauto. }
  assert (Hq2 : pixel_8bit (r2, g2, b2)).
  { eapply (proj1 (Forall_lookup _ _)); [|exact Hp2].
    eapply (proj1 (Forall_lookup _ _) H82); eauto. }
  destruct Hq1 as (?&?&?), Hq2 as (?&?&?). simpl in *.
  rewrite (misturar_ok im1 im2 k a i j l1 l2 _ _ 0 r1 r2) by done.
  rewrite (misturar_ok im1 im2 k a i j l1 l2 _ _ 1 g1 g2) by done.
  by rewrite (misturar_ok im1 im2 k a i j l1 l2 _ _ 2 b1 b2) by done.
Qed.

(** The session after a blend whose second image covers the original. *)
Lemma aplicar_mistura_ok s im1 im2 linha0 :
  original s = Some im1 -> second_image s = Some im2 ->
  im1 !! 0%nat = Some linha0 ->
  Forall (fun l => length l = length linha0) im1 -> cobre im1 im2 ->
  imagem_8bit im1 -> imagem_8bit im2 ->
  aplicar_mistura s
  = ({| original := Some im1;
        resultado := Some (mistura_frame 0 im1 im2);
        alpha_frames := (fun k => mistura_frame k im1 im2) <$> range 11;
        alpha_index := 0%nat;
        second_image := Some im2 |}, Ok tt).
Proof.
  intros Ho H2 H0 Hw Hcob H81 H82. unfold aplicar_mistura.
  rewrite H2, Ho, getitem_0.
  destruct im1 as [|l0 im1']; [done|]. injection H0 as ->.
  rewrite (gerar_frames_fmap _ (fun k => mistura_frame k (linha0 :: im1') im2)).
  - destruct s; simpl in Ho, H2; subst. reflexivity.
  - intros k Hk. apply frame_mistura_ok; try done.
    apply elem_of_seqZ in Hk. lia.
Qed.

Lemma pixel_mistura_0 p1 p2 :
  pixel_8bit p1 -> pixel_8bit p2 -> pixel_mistura 0 p1 p2 = p1.
Proof.
  destruct p1 as [[r1 g1] b1], p2 as [[r2 g2] b2].
  intros (?&?&?) (?&?&?). simpl in *. unfold pixel_mistura.
  by rewrite !mistura_canal_0.
Qed.

Lemma pixel_mistura_10 p1 p2 :
  pixel_8bit p1 -> pixel_8bit p2 -> pixel_mistura 10 p1 p2 = p2.
Proof.
  destruct p1 as [[r1 g1] b1], p2 as [[r2 g2] b2].
  intros (?&?&?) (?&?&?). simpl in *. unfold pixel_mistura.
  by rewrite !mistura_canal_10.
Qed.

Lemma pixel_mistura_mesmo k p :
  0 <= k < 11 -> pixel_8bit p ->
  if k =? 3 then pixel_quase (pixel_mistura k p p) p
  else pixel_mistura k p p = p.
Proof.
  destruct p as [[r g] b]. intros Hk (Hr&Hg&Hb). simpl in *.
  destruct (mistura_canal_mesmo k r Hk Hr) as (zr & Er & Pr).
  destruct (mistura_canal_mesmo k g Hk Hg) as (zg & Eg & Pg).
  destruct (mistura_canal_mesmo k b Hk Hb) as (zb & Eb & Pb).
  unfold pixel_mistura, pixel_quase. rewrite Er, Eg, Eb. simpl.
  destruct (k =? 3); [done|by subst].
Qed.

Lemma mistura_frame_0 im1 im2 :
  cobre im1 im2 -> imagem_8bit im1 -> imagem_8bit im2 ->
  mistura_frame 0 im1 im2 = im1.
Proof.
  intros [Hlen Hcob] H1. revert im2 Hlen Hcob.
  induction H1 as [|l1 im1 Hl1 _ IH]; intros im2 Hlen Hcob H2; [done|].
  destruct H2 as [|l2 im2 Hl2 H2]; [simpl in Hlen; lia|].
  unfold mistura_frame. simpl. f_equal.
  - rewrite (zip_with_ext_Forall _ (fun x _ => x) pixel_8bit pixel_8bit);
      auto using pixel_mistura_0.
    apply zip_with_fst_le. by apply (Hcob 0%nat).
  - apply IH; [simpl in Hlen; lia| |done].
    intros i. apply (Hcob (S i)).
Qed.

Lemma mistura_frame_10 im1 im2 :
  cobre im1 im2 -> imagem_8bit im1 -> imagem_8bit im2 ->
  mistura_frame 10 im1 im2
  = zip_with (fun l1 l2 : list pixel => take (length l1) l2) im1 im2.
Proof.
  intros [Hlen Hcob] H1. revert im2 Hlen Hcob.
  induction H1 as [|l1 im1 Hl1 _ IH]; intros im2 Hlen Hcob H2; [done|].
  destruct H2 as [|l2 im2 Hl2 H2]; [simpl in Hlen; lia|].
  unfold mistura_frame. simpl. f_equal.
  - rewrite (zip_with_ext_Forall _ (fun _ y => y) pixel_8bit pixel_8bit);
      auto using pixel_mistura_10.
    clear -l1. revert l2. induction l1 as [|x l1 IHl]; intros [|y l2]; simpl;
      try done. by f_equal.
  - apply IH; [simpl in Hlen; lia| |done].
    intros i. apply (Hcob (S i)).
Qed.

Lemma zip_with_take_recorte (im1 im2 : matrix) w :
  Forall (fun l => length l = w) im1 ->
  zip_with (fun l1 l2 : list pixel => take (length l1) l2) im1 im2
  = recorte (length im1) w im2.
Proof.
  intros Hw. revert im2. induction Hw as [|l1 im1 Hl1 _ IH]; intros im2.
  - by destruct im2.
  - destruct im2 as [|l2 im2]; [done|]. unfold recorte in *. csimpl.
    by rewrite Hl1, IH.
Qed.

Lemma recorte_mesmo (m : matrix) w :
  Forall (fun l => length l = w) m -> recorte (length m) w m = m.
Proof.
  intros Hw. unfold recorte. rewrite firstn_all.
  induction Hw as [|l m Hl _ IH]; [done|].
  csimpl. rewrite IH. f_equal. rewrite <- Hl. apply firstn_all.
Qed.

Lemma mistura_frame_mesmo k m :
  0 <= k < 11 -> imagem_8bit m ->
  if k =? 3 then imagem_quase (mistura_frame k m m) m
  else mistura_frame k m m = m.
Proof.
  intros Hk Hm. unfold mistura_frame, imagem_quase.
  destruct (k =? 3) eqn:E.
  - induction Hm as [|l m Hl _ IH]; simpl; constructor; [|done].
    clear IH. induction Hl as [|p l Hp _ IH]; simpl; constructor; [|done].
    pose proof (pixel_mistura_mesmo k p Hk Hp) as H. by rewrite E in H.
  - induction Hm as [|l m Hl _ IH]; simpl; [done|]. f_equal; [|done].
    clear IH. induction Hl as [|p l Hp _ IH]; simpl; [done|].
    f_equal; [|done].
    pose proof (pixel_mistura_mesmo k p Hk Hp) as H. by rewrite E in H.
Qed.

Lemma dimensoes_cobre im1 im2 h w h2 w2 :
  dimensoes im1 h w -> dimensoes im2 h2 w2 ->
  (h <= h2)%nat -> (w <= w2)%nat -> cobre im1 im2.
Proof.
  intros [Hh Hw] [Hh2 Hw2] ??. split; [lia|].
  intros i l1 l2 H1 H2.
  rewrite (proj1 (Forall_lookup _ _) Hw _ _ H1).
  rewrite (proj1 (Forall_lookup _ _) Hw2 _ _ H2). done.
Qed.


(** ** Which blends fail, and how *)

Lemma getitem_Raise {A} (l : list A) i e : getitem l i = Raise e -> e = IndexError.
Proof.
  unfold getitem.
  destruct ((_ <? 0) || _); [by intros [= <-]|].
  destruct (l !! _); [done|by intros [= <-]].
Qed.

Lemma getitem_elem {A} (l : list A) i x : getitem l i = Ok x -> x ∈ l.
Proof.
  unfold getitem.
  destruct ((_ <? 0) || _); [done|].
  destruct (l !! _) eqn:E; [|done].
  intros [= <-]. by eapply list_elem_of_lookup_2.
Qed.

Lemma getitem_Ok_inv {A} (l : list A) i x :
  0 <= i -> getitem l i = Ok x -> l !! Z.to_nat i = Some x.
Proof.
  intros Hi. rewrite getitem_nonneg by done.
  destruct (l !! Z.to_nat i); [by intros [= <-]|done].
Qed.

Lemma pixel_get_8bit p c :
  pixel_8bit p -> 0 <= c < 3 -> exists z, pixel_get p c = Ok z /\ canal_8bit z.
Proof.
  destruct p as [[r g] b]. intros (?&?&?) Hc. simpl in *.
  assert (c = 0 \/ c = 1 \/ c = 2) as [->|[->| ->]] by lia; simpl; eauto.
Qed.

Lemma frame_mistura_unfold im1 im2 h w k :
  frame_mistura im1 im2 h w k
  = a ← PyFloat.int_div k 10;
    mapM (fun i => mapM (fun j => misturar_pixel im1 im2 a i j) (range w))
         (range h).
Proof. reflexivity. Qed.

Section Misturar.
Context (im1 im2 : matrix) (k : Z) (a : float).
Hypothesis Hk : 0 <= k < 11.
Hypothesis Ha : PyFloat.int_div k 10 = Ok a.
Hypothesis H81 : imagem_8bit im1.
Hypothesis H82 : imagem_8bit im2.

Lemma pesos_ok c :
  canal_8bit c ->
  exists a' x y, PyFloat.int_sub 1 a = Ok a' /\ PyFloat.int_mul c a' = Ok x
                 /\ PyFloat.int_mul c a = Ok y.
Proof.
  intros Hc. destruct (produtos_ok k c Hk Hc) as [H1 H2].
  unfold produto_1, produto_2 in *. rewrite Ha, !bind_Ok in *.
  destruct (PyFloat.int_sub 1 a) as [a'|]; [rewrite bind_Ok in H1|done].
  destruct (PyFloat.int_mul c a') as [x|] eqn:Ex; [|done].
  destruct (PyFloat.int_mul c a) as [y|] eqn:Ey; [|done].
  by exists a', x, y.
Qed.

Lemma misturar_indexavel i j c :
  indexavel im1 im2 i j -> 0 <= c < 3 ->
  is_ok (misturar im1 im2 a i j c) = true.
Proof.
  intros (l1 & p1 & l2 & p2 & E1 & E2 & E3 & E4) Hc.
  assert (Hp1 : pixel_8bit p1).
  { apply getitem_elem in E1, E2.
    eapply (proj1 (Forall_forall _ _)); [|exact E2].
    by eapply (proj1 (Forall_forall _ _) H81). }
  assert (Hp2 : pixel_8bit p2).
  { apply getitem_elem in E3, E4.
    eapply (proj1 (Forall_forall _ _)); [|exact E4].
    by eapply (proj1 (Forall_forall _ _) H82). }
  destruct (pixel_get_8bit p1 c Hp1 Hc) as (c1 & Ec1 & Hc1).
  destruct (pixel_get_8bit p2 c Hp2 Hc) as (c2 & Ec2 & Hc2).
  pose proof (mistura_canal_ok k c1 c2 Hk Hc1 Hc2) as Hok.
  unfold mistura_canal in Hok. rewrite Ha, bind_Ok in Hok.
  unfold misturar. rewrite E1, bind_Ok, E2, bind_Ok, Ec1, bind_Ok.
  destruct (PyFloat.int_sub 1 a) as [a'|]; [rewrite bind_Ok in *|done].
  destruct (PyFloat.int_mul c1 a') as [x|]; [rewrite bind_Ok in *|done].
  by rewrite E3, bind_Ok, E4, bind_Ok, Ec2, bind_Ok.
Qed.

Lemma misturar_Ok_indexavel i j c z :
  misturar im1 im2 a i j c = Ok z -> indexavel im1 im2 i j.
Proof.
  unfold misturar, indexavel.
  destruct (getitem im1 i) as [l1|] eqn:E1; [rewrite bind_Ok|done].
  destruct (getitem l1 j) as [p1|] eqn:E2; [rewrite bind_Ok|done].
  destruct (pixel_get p1 c) as [c1|]; [rewrite bind_Ok|done].
  destruct (PyFloat.int_sub 1 a) as [a'|]; [rewrite bind_Ok|done].
  destruct (PyFloat.int_mul c1 a') as [x|]; [rewrite bind_Ok|done].
  destruct (getitem im2 i) as [l2|] eqn:E3; [rewrite bind_Ok|done].
  destruct (getitem l2 j) as [p2|] eqn:E4; [rewrite bind_Ok|done].
  intros _. by exists l1, p1, l2, p2.
Qed.

Lemma misturar_Raise i j c e :
  0 <= c < 3 -> misturar im1 im2 a i j c = Raise e -> e = IndexError.
Proof.
  intros Hc H.
  destruct (getitem im1 i) as [l1|e1] eqn:E1.
  2:{ unfold misturar in H. rewrite E1 in H. injection H as <-.
      by eapply getitem_Raise. }
  destruct (getitem l1 j) as [p1|e1] eqn:E2.
  2:{ unfold misturar in H. rewrite E1, bind_Ok, E2 in H. injection H as <-.
      by eapply getitem_Raise. }
  assert (Hp1 : pixel_8bit p1).
  { apply getitem_elem in E1, E2.
    eapply (proj1 (Forall_forall _ _)); [|exact E2].
    by eapply (proj1 (Forall_forall _ _) H81). }
  destruct (pixel_get_8bit p1 c Hp1 Hc) as (c1 & Ec1 & Hc1).
  destruct (pesos_ok c1 Hc1) as (a' & x & _ & Ea' & Ex & _).
  destruct (getitem im2 i) as [l2|e1] eqn:E3.
  2:{ unfold misturar in H.
      rewrite E1, bind_Ok, E2, bind_Ok, Ec1, bind_Ok, Ea', bind_Ok, Ex,
        bind_Ok, E3 in H.
      injection H as <-. by eapply getitem_Raise. }
  destruct (getitem l2 j) as [p2|e1] eqn:E4.
  2:{ unfold misturar in H.
      rewrite E1, bind_Ok, E2, bind_Ok, Ec1, bind_Ok, Ea', bind_Ok, Ex,
        bind_Ok, E3, bind_Ok, E4 in H.
      injection H as <-. by eapply getitem_Raise. }
  assert (Hi : indexavel im1 im2 i j) by (by exists l1, p1, l2, p2).
  pose proof (misturar_indexavel i j c Hi Hc) as Hok.
  by rewrite H in Hok.
Qed.

Lemma misturar_pixel_Ok_indexavel i j p :
  misturar_pixel im1 im2 a i j = Ok p -> indexavel im1 im2 i j.
Proof.
  unfold misturar_pixel.
  destruct (misturar im1 im2 a i j 0) as [r|] eqn:E; [|done].
  intros _. by eapply misturar_Ok_indexavel.
Qed.

Lemma misturar_pixel_Raise i j e :
  misturar_pixel im1 im2 a i j = Raise e -> e = IndexError.
Proof.
  unfold misturar_pixel.
  destruct (misturar im1 im2 a i j 0) as [r|e0] eqn:E0.
  2:{ intros [= <-]. by eapply (misturar_Raise i j 0); [lia|]. }
  rewrite bind_Ok.
  destruct (misturar im1 im2 a i j 1) as [g|e1] eqn:E1.
  2:{ intros [= <-]. by eapply (misturar_Raise i j 1); [lia|]. }
  rewrite bind_Ok.
  destruct (misturar im1 im2 a i j 2) as [b|e2] eqn:E2.
  2:{ intros [= <-]. by eapply (misturar_Raise i j 2); [lia|]. }
  done.
Qed.

End Misturar.

Lemma mapM_Ok_elem {A B} (F : A -> res B) l k x :
  mapM F l = Ok k -> x ∈ l -> exists y, F x = Ok y.
Proof.
  intros H Hx. apply mapM_Ok_inv in H.
  apply list_elem_of_lookup in Hx as [i Hi].
  destruct (Forall2_lookup_l _ _ _ _ _ H Hi) as (y & _ & Hy). eauto.
Qed.

Lemma elem_of_range i n : i ∈ range n <-> 0 <= i < n.
Proof. unfold range. rewrite elem_of_seqZ. lia. Qed.

Lemma frame_mistura_Raise im1 im2 h w k e :
  0 <= k < 11 -> imagem_8bit im1 -> imagem_8bit im2 ->
  frame_mistura im1 im2 h w k = Raise e -> e = IndexError.
Proof.
  intros Hk H81 H82. rewrite frame_mistura_unfold.
  destruct (int_div_10_ok k Hk) as [a Ha]. rewrite Ha, bind_Ok.
  intros H. apply mapM_Raise_inv in H as (i & _ & H).
  apply mapM_Raise_inv in H as (j & _ & H).
  by apply (misturar_pixel_Raise im1 im2 k a Hk Ha H81 H82 i j e).
Qed.

Lemma frame_mistura_Ok_indexavel im1 im2 h w k f :
  0 <= k < 11 -> frame_mistura im1 im2 h w k = Ok f ->
  forall i j, 0 <= i < h -> 0 <= j < w -> indexavel im1 im2 i j.
Proof.
  intros Hk. rewrite frame_mistura_unfold.
  destruct (int_div_10_ok k Hk) as [a Ha]. rewrite Ha, bind_Ok.
  intros H i j Hi Hj.
  destruct (mapM_Ok_elem _ _ _ i H) as [linha Hl]; [by apply elem_of_range|].
  destruct (mapM_Ok_elem _ _ _ j Hl) as [p Hp]; [by apply elem_of_range|].
  by apply (misturar_pixel_Ok_indexavel im1 im2 a i j p).
Qed.

Lemma indexavel_cobre (im1 im2 : matrix) (w : nat) :
  (0 < w)%nat -> Forall (fun l => length l = w) im1 ->
  (forall i j, 0 <= i < Z.of_nat (length im1) -> 0 <= j < Z.of_nat w ->
               indexavel im1 im2 i j) ->
  cobre im1 im2.
Proof.
  intros Hw Hrect Hidx.
  assert (Hrow : forall i, (i < length im1)%nat ->
            exists l2, im2 !! i = Some l2 /\ (w <= length l2)%nat).
  { intros i Hi.
    destruct (Hidx (Z.of_nat i) (Z.of_nat (w - 1))) as
      (l1 & p1 & l2 & p2 & _ & _ & E3 & E4); [lia..|].
    apply getitem_Ok_inv in E3, E4; [|lia..].
    rewrite Nat2Z.id in E3, E4. exists l2. split; [done|].
    apply lookup_lt_Some in E4. lia. }
  split.
  - destruct (length im1) as [|n] eqn:E; [lia|].
    destruct (Hrow n ltac:(lia)) as (l2 & Hl2 & _).
    apply lookup_lt_Some in Hl2. lia.
  - intros i l1 l2 H1 H2.
    destruct (Hrow i) as (l2' & Hl2 & Hlen); [by eapply lookup_lt_Some|].
    rewrite (proj1 (Forall_lookup _ _) Hrect _ _ H1).
    congruence.
Qed.

(** The session after a blend whose first frame cannot be computed. *)
Lemma aplicar_mistura_raise s im1 im2 linha0 e :
  original s = Some im1 -> second_image s = Some im2 ->
  im1 !! 0%nat = Some linha0 ->
  frame_mistura im1 im2 (Z.of_nat (length im1)) (Z.of_nat (length linha0)) 0
  = Raise e ->
  aplicar_mistura s = (set_alpha_frames [] s, Raise e).
Proof.
  intros Ho H2 H0 Hf. unfold aplicar_mistura.
  rewrite H2, Ho, getitem_0.
  destruct im1 as [|l0 im1']; [done|]. injection H0 as ->.
  change (range 11) with (0 :: seqZ 1 10).
  by rewrite (gerar_frames_raise _ _ _ e).
Qed.

(** ** Binary64: when a rounded product or sum is finite *)

Lemma iter_pos_nat {A} (f : A -> A) n x :
  SpecFloat.iter_pos f n x = Nat.iter (Pos.to_nat n) f x.
Proof.
  revert x. induction n as [n IH|n IH|]; intros x; simpl SpecFloat.iter_pos.
  - rewrite !IH, Pos2Nat.inj_xI.
    replace (S (2 * Pos.to_nat n)) with (Pos.to_nat n + S (Pos.to_nat n))%nat
      by lia.
    by rewrite Nat.iter_add, Nat.iter_succ_r.
  - rewrite !IH, Pos2Nat.inj_xO.
    replace (2 * Pos.to_nat n)%nat with (Pos.to_nat n + Pos.to_nat n)%nat
      by lia.
    by rewrite Nat.iter_add.
  - reflexivity.
Qed.

Lemma shr_1_m mrs :
  0 <= shr_m mrs ->
  shr_m (shr_1 mrs) = shr_m mrs / 2 /\ shr_r (shr_1 mrs) = Z.odd (shr_m mrs).
Proof.
  destruct mrs as [m r s]. simpl. intros Hm.
  destruct m as [|p|p]; [done| |lia].
  destruct p as [p|p|]; simpl; split; try done.
  - rewrite Pos2Z.inj_xI. apply (Z.div_unique _ _ _ 1); lia.
  - rewrite Pos2Z.inj_xO. apply (Z.div_unique _ _ _ 0); lia.
Qed.

Lemma shr_iter_m (k : nat) mrs :
  0 <= shr_m mrs ->
  shr_m (Nat.iter k shr_1 mrs) = shr_m mrs / 2 ^ Z.of_nat k.
Proof.
  intros Hm. induction k as [|k IH].
  - simpl. by rewrite Z.div_1_r.
  - rewrite Nat.iter_succ.
    assert (H0 : 0 <= shr_m (Nat.iter k shr_1 mrs)).
    { rewrite IH. apply Z.div_pos; [done|]. apply Z.pow_pos_nonneg; lia. }
    rewrite (proj1 (shr_1_m _ H0)), IH.
    rewrite Nat2Z.inj_succ, Z.pow_succ_r by lia.
    rewrite Z.div_div by (try apply Z.pow_pos_nonneg; lia).
    f_equal. lia.
Qed.

Lemma shr_iter_r (k : nat) mrs :
  0 <= shr_m mrs ->
  shr_r (Nat.iter (S k) shr_1 mrs) = Z.odd (shr_m mrs / 2 ^ Z.of_nat k).
Proof.
  intros Hm. rewrite Nat.iter_succ.
  assert (H0 : 0 <= shr_m (Nat.iter k shr_1 mrs)).
  { rewrite shr_iter_m by done.
    apply Z.div_pos; [done|]. apply Z.pow_pos_nonneg; lia. }
  by rewrite (proj2 (shr_1_m _ H0)), shr_iter_m.
Qed.

Lemma round_nearest_even_cotas mrs :
  shr_m mrs <= round_nearest_even (shr_m mrs) (loc_of_shr_record mrs)
            <= shr_m mrs + 1
  /\ (shr_r mrs = false ->
      round_nearest_even (shr_m mrs) (loc_of_shr_record mrs) = shr_m mrs).
Proof.
  destruct mrs as [m [] []]; simpl; try (split; [lia|done]).
  destruct (Z.even m); split; (lia || done).
Qed.

Lemma digits2_pos_cotas m :
  2 ^ (Z.pos (digits2_pos m) - 1) <= Z.pos m < 2 ^ Z.pos (digits2_pos m).
Proof.
  induction m as [m IH|m IH|]; simpl digits2_pos.
  - rewrite Pos2Z.inj_succ, Z.pow_succ_r by lia.
    replace (Z.succ (Z.pos (digits2_pos m)) - 1)
      with (Z.succ (Z.pos (digits2_pos m) - 1)) by lia.
    rewrite Z.pow_succ_r by lia. lia.
  - rewrite Pos2Z.inj_succ, Z.pow_succ_r by lia.
    replace (Z.succ (Z.pos (digits2_pos m)) - 1)
      with (Z.succ (Z.pos (digits2_pos m) - 1)) by lia.
    rewrite Z.pow_succ_r by lia. lia.
  - done.
Qed.

Lemma pow2_pos n : 0 <= n -> 0 < 2 ^ n.
Proof. intros. apply Z.pow_pos_nonneg; lia. Qed.

Lemma pow2_soma a b : 0 <= a -> 0 <= b -> 2 ^ (a + b) = 2 ^ a * 2 ^ b.
Proof. intros. by apply Z.pow_add_r. Qed.

(** A bit that is not set: the remainder is below half of the divisor. *)
Lemma resto_pequeno_par P n :
  1 <= n -> 0 <= P -> P mod 2 ^ n < 2 ^ (n - 1) ->
  Z.odd (P / 2 ^ (n - 1)) = false.
Proof.
  intros Hn HP Hr.
  assert (H2 : 2 ^ n = 2 * 2 ^ (n - 1)).
  { replace n with (Z.succ (n - 1)) at 1 by lia. apply Z.pow_succ_r. lia. }
  pose proof (pow2_pos (n - 1) ltac:(lia)) as Hp.
  pose proof (Z.div_mod P (2 ^ n) ltac:(lia)) as Hdm.
  pose proof (Z.mod_pos_bound P (2 ^ n) ltac:(lia)) as Hb.
  rewrite <- (Z.div_unique P (2 ^ (n - 1)) (2 * (P / 2 ^ n)) (P mod 2 ^ n)).
  - apply Z.odd_even.
  - left. lia.
  - rewrite H2 in Hdm at 1. lia.
Qed.

(** From [p * t < (x + 1/2) * t] to [p <= x]. *)
Lemma meia_cota p x t : 0 < t -> 2 * (p * t) < (2 * x + 1) * t -> p <= x.
Proof.
  intros Ht H. apply Z.nlt_ge. intros Hc.
  assert ((2 * x + 1) * t <= 2 * p * t)
    by (apply Z.mul_le_mono_nonneg_r; lia).
  lia.
Qed.

(** The first half of [binary_round_aux]: the value [P * 2 ^ E], below a
    binary64 number [Xm * 2 ^ Xe] plus half of its last place, is rounded to
    a mantissa of at most 53 bits and a value of at most [Xm * 2 ^ Xe]. *)
Lemma arredondar_cota (P : positive) (E Xm Xe : Z) :
  -1200 <= E <= Xe -> -1074 <= Xe ->
  2 ^ 52 <= Xm < 2 ^ 53 ->
  2 * (Z.pos P * 2 ^ (E + 1200)) < (2 * Xm + 1) * 2 ^ (Xe + 1200) ->
  let '(m1, e1) := arredondar (Z.pos P) E in
  0 <= m1 <= 2 ^ 53 /\ -1074 <= e1 <= Xe
  /\ m1 * 2 ^ (e1 + 1200) <= Xm * 2 ^ (Xe + 1200).
Proof.
  intros HE HXe HXm Hv.
  pose proof (digits2_pos_cotas P) as [HD1 HD2].
  set (D := Z.pos (digits2_pos P)) in *.
  assert (HD : 1 <= D) by (subst D; lia).
  pose proof (pow2_pos (E + 1200) ltac:(lia)) as HpE.
  pose proof (pow2_pos (Xe + 1200) ltac:(lia)) as HpX.
  (* the digits of P are bounded by the value *)
  assert (HDX : D + E - 53 <= Xe).
  { destruct (Z.le_gt_cases (D + E - 53) Xe) as [|Hgt]; [done|exfalso].
    assert (H1 : 2 ^ (54 + (Xe + 1200)) <= 2 ^ (Z.succ (D - 1) + (E + 1200)))
      by (apply Z.pow_le_mono_r; lia).
    rewrite (pow2_soma 54 (Xe + 1200)) in H1 by lia.
    rewrite (pow2_soma (Z.succ (D - 1)) (E + 1200)), Z.pow_succ_r in H1 by lia.
    change (2 ^ 54) with 18014398509481984 in H1.
    change (2 ^ 53) with 9007199254740992 in HXm.
    assert (2 * 2 ^ (D - 1) * 2 ^ (E + 1200)
            <= 2 * (Z.pos P * 2 ^ (E + 1200))) by nia.
    nia. }
  unfold arredondar, shr_fexp, shr.
  change (Zdigits2 (Z.pos P)) with D.
  unfold fexp, emin, prec, emax.
  change (3 - 1024 - 53) with (-1074).
  destruct (Z.max (D + E - 53) (-1074) - E) as [|n|n] eqn:En.
  - (* no shift *)
    cbn [shr_m shr_r shr_s loc_of_shr_record shr_record_of_loc
           round_nearest_even].
    assert (HD53 : D <= 53) by lia.
    assert (HP53 : Z.pos P < 2 ^ 53).
    { eapply Z.lt_le_trans; [exact HD2|]. apply Z.pow_le_mono_r; lia. }
    split; [lia|]. split; [lia|].
    destruct (Z.eq_dec E Xe) as [->|Hne].
    { apply Z.mul_le_mono_nonneg_r; [lia|]. by eapply meia_cota. }
    assert (H1 : 2 ^ (53 + (E + 1200)) <= 2 ^ (52 + (Xe + 1200)))
      by (apply Z.pow_le_mono_r; lia).
    rewrite (pow2_soma 53 (E + 1200)), (pow2_soma 52 (Xe + 1200)) in H1 by lia.
    etrans; [apply (Z.mul_le_mono_nonneg_r _ (2 ^ 53)); lia|].
    etrans; [exact H1|]. apply Z.mul_le_mono_nonneg_r; lia.
  - (* a shift to the right by n *)
    assert (Hn : Z.pos n = Z.max (D + E - 53) (-1074) - E) by lia.
    rewrite iter_pos_nat. cbn [shr_record_of_loc].
    set (mrs0 := {| shr_m := Z.pos P; shr_r := false; shr_s := false |}).
    set (mrs := Nat.iter (Pos.to_nat n) shr_1 mrs0).
    assert (Hm : shr_m mrs = Z.pos P / 2 ^ Z.pos n).
    { subst mrs. rewrite shr_iter_m by (simpl; lia).
      by rewrite positive_nat_Z. }
    assert (Hr : shr_r mrs = Z.odd (Z.pos P / 2 ^ (Z.pos n - 1))).
    { subst mrs.
      destruct (Pos2Nat.is_succ n) as [k Hk]. rewrite Hk.
      rewrite shr_iter_r by (simpl; lia). simpl shr_m.
      do 3 f_equal. lia. }
    pose proof (round_nearest_even_cotas mrs) as [Hr1 Hr2].
    rewrite Hm in Hr1, Hr2. rewrite Hm.
    set (m1 := round_nearest_even (Z.pos P / 2 ^ Z.pos n)
                 (loc_of_shr_record mrs)) in *.
    pose proof (pow2_pos (Z.pos n) ltac:(lia)) as Hpn.
    assert (Hq0 : 0 <= Z.pos P / 2 ^ Z.pos n) by (apply Z.div_pos; lia).
    assert (Hq53 : Z.pos P / 2 ^ Z.pos n < 2 ^ 53).
    { apply Z.div_lt_upper_bound; [done|].
      eapply Z.lt_le_trans; [exact HD2|].
      rewrite <- pow2_soma by lia. apply Z.pow_le_mono_r; lia. }
    split; [lia|]. split; [lia|].
    destruct (Z.eq_dec (E + Z.pos n) Xe) as [Heq|Hne].
    + (* the same last place as the bound *)
      rewrite Heq.
      assert (HvP : 2 * Z.pos P < (2 * Xm + 1) * 2 ^ Z.pos n).
      { replace (Xe + 1200) with (Z.pos n + (E + 1200)) in Hv by lia.
        rewrite (pow2_soma (Z.pos n) (E + 1200)), !Z.mul_assoc in Hv by lia.
        by apply Z.mul_lt_mono_pos_r in Hv. }
      assert (Hle : Z.pos P / 2 ^ Z.pos n <= Xm).
      { assert (Z.pos P / 2 ^ Z.pos n < Xm + 1); [|lia].
        apply Z.div_lt_upper_bound; [done|]. lia. }
      apply Z.mul_le_mono_nonneg_r; [lia|].
      destruct (Z.eq_dec (Z.pos P / 2 ^ Z.pos n) Xm) as [Hq|Hq]; [|lia].
      rewrite Hr2; [lia|]. rewrite Hr.
      apply resto_pequeno_par; [lia..|].
      pose proof (Z.div_mod (Z.pos P) (2 ^ Z.pos n) ltac:(lia)) as Hdm.
      rewrite Hq in Hdm.
      assert (H2 : 2 ^ Z.pos n = 2 * 2 ^ (Z.pos n - 1)).
      { replace (Z.pos n) with (Z.succ (Z.pos n - 1)) at 1 by lia.
        apply Z.pow_succ_r. lia. }
      lia.
    + (* a lower binade *)
      assert (H1 : 2 ^ (53 + (E + Z.pos n + 1200)) <= 2 ^ (52 + (Xe + 1200)))
        by (apply Z.pow_le_mono_r; lia).
      rewrite (pow2_soma 53 (E + Z.pos n + 1200)), (pow2_soma 52 (Xe + 1200))
        in H1 by lia.
      pose proof (pow2_pos (E + Z.pos n + 1200) ltac:(lia)).
      etrans; [apply (Z.mul_le_mono_nonneg_r _ (2 ^ 53)); lia|].
      etrans; [exact H1|]. apply Z.mul_le_mono_nonneg_r; lia.
  - (* no shift *)
    cbn [shr_m shr_r shr_s loc_of_shr_record shr_record_of_loc
           round_nearest_even].
    assert (HD53 : D <= 53) by lia.
    assert (HP53 : Z.pos P < 2 ^ 53).
    { eapply Z.lt_le_trans; [exact HD2|]. apply Z.pow_le_mono_r; lia. }
    split; [lia|]. split; [lia|].
    destruct (Z.eq_dec E Xe) as [->|Hne].
    { apply Z.mul_le_mono_nonneg_r; [lia|]. by eapply meia_cota. }
    assert (H1 : 2 ^ (53 + (E + 1200)) <= 2 ^ (52 + (Xe + 1200)))
      by (apply Z.pow_le_mono_r; lia).
    rewrite (pow2_soma 53 (E + 1200)), (pow2_soma 52 (Xe + 1200)) in H1 by lia.
    etrans; [apply (Z.mul_le_mono_nonneg_r _ (2 ^ 53)); lia|].
    etrans; [exact H1|]. apply Z.mul_le_mono_nonneg_r; lia.
Qed.

Lemma sem_deslocamento (m : Z) (e n : Z) :
  n <= 0 -> shr {| shr_m := m; shr_r := false; shr_s := false |} e n
            = ({| shr_m := m; shr_r := false; shr_s := false |}, e).
Proof. intros Hn. unfold shr. destruct n; [done|lia|done]. Qed.

(** [binary_round_aux] on an exact value below a binary64 number plus half
    of its last place: the result is finite and not above that number. *)
Lemma binary_round_aux_cota (s : bool) (P : positive) (E Xm Xe : Z) :
  -1200 <= E <= Xe -> -1074 <= Xe <= 971 ->
  2 ^ 52 <= Xm < 2 ^ 53 ->
  2 * (Z.pos P * 2 ^ (E + 1200)) < (2 * Xm + 1) * 2 ^ (Xe + 1200) ->
  sf_finito (binary_round_aux prec emax s (Z.pos P) E loc_Exact) = true
  /\ magnitude (binary_round_aux prec emax s (Z.pos P) E loc_Exact)
     <= Xm * 2 ^ (Xe + 1200).
Proof.
  intros HE HXe HXm Hv.
  pose proof (arredondar_cota P E Xm Xe HE ltac:(lia) HXm Hv) as H.
  unfold arredondar in H. unfold binary_round_aux.
  destruct (shr_fexp prec emax (Z.pos P) E loc_Exact) as [mrs e1].
  set (m1 := round_nearest_even (shr_m mrs) (loc_of_shr_record mrs)) in *.
  destruct H as (Hm1 & He1 & Hv1).
  pose proof (pow2_pos (Xe + 1200) ltac:(lia)) as HpX.
  pose proof (pow2_pos (e1 + 1200) ltac:(lia)) as Hp1.
  unfold shr_fexp. cbn [shr_record_of_loc].
  unfold fexp, emin, prec, emax. change (3 - 1024 - 53) with (-1074).
  change (1024 - 53) with 971.
  destruct m1 as [|p|p]; [| |lia].
  - rewrite sem_deslocamento by (simpl; lia). simpl.
    split; [done|]. apply Z.mul_nonneg_nonneg; lia.
  - cbn [Zdigits2].
    pose proof (digits2_pos_cotas p) as [HD1 HD2].
    set (D := Z.pos (digits2_pos p)) in *.
    destruct (Z.eq_dec (Z.pos p) (2 ^ 53)) as [Hp|Hp].
    + (* the rounding carried into a 54th bit *)
      assert (p = 9007199254740992%positive) as -> by (apply Pos2Z.inj; exact Hp).
      subst D. change (Z.pos (digits2_pos 9007199254740992)) with 54.
      replace (Z.max (54 + e1 - 53) (-1074) - e1) with 1 by lia.
      cbn [shr SpecFloat.iter_pos shr_1 shr_m].
      assert (He1X : e1 < Xe).
      { destruct (Z.lt_ge_cases e1 Xe) as [|Hge]; [done|exfalso].
        assert (e1 = Xe) as -> by lia.
        apply Z.mul_le_mono_pos_r in Hv1; [|done].
        change (2 ^ 53) with 9007199254740992 in HXm. lia. }
      destruct (e1 + 1 <=? 971) eqn:E971; [|lia].
      split; [done|]. cbn [magnitude].
      replace (e1 + 1 + 1200) with (Z.succ (e1 + 1200)) by lia.
      rewrite Z.pow_succ_r by lia.
      change (Z.pos 9007199254740992) with (2 * Z.pos 4503599627370496) in Hv1.
      lia.
    + assert (HD53 : D <= 53).
      { destruct (Z.le_gt_cases D 53) as [|Hgt]; [done|exfalso].
        assert (2 ^ 53 <= 2 ^ (D - 1)) by (apply Z.pow_le_mono_r; lia).
        lia. }
      rewrite sem_deslocamento by lia. cbn [shr_m].
      destruct (e1 <=? 971) eqn:E971; [|lia].
      split; [done|]. exact Hv1.
Qed.

(** What [Prim2SF_valid] says of a finite number. *)
Lemma valid_binary_finite s m e :
  valid_binary (S754_finite s m e) = true ->
  Z.pos m < 2 ^ 53 /\ -1074 <= e <= 971.
Proof.
  unfold valid_binary, bounded, canonical_mantissa, fexp, emin, prec, emax.
  intros H. apply andb_prop in H as [Hc He].
  apply Z.eqb_eq in Hc. apply Z.leb_le in He.
  pose proof (digits2_pos_cotas m) as [_ HD].
  split; [|lia].
  eapply Z.lt_le_trans; [exact HD|]. apply Z.pow_le_mono_r; lia.
Qed.

Lemma magnitude_nonneg x : 0 <= magnitude x.
Proof.
  destruct x as [| | |s m e]; cbn [magnitude]; lia.
Qed.

Lemma SFmul_cota x y :
  valid_binary x = true -> sf_finito x = true -> peso_admitido y = true ->
  sf_finito (SFmul prec emax x y) = true
  /\ magnitude (SFmul prec emax x y) <= cota_do_produto y.
Proof.
  intros Hv Hx Hy. unfold cota_do_produto.
  destruct y as [sy| | |sy my ey]; try done.
  - destruct x as [sx| | |sx mx ex]; try done.
  - destruct x as [sx| | |sx mx ex]; try done.
    { split; [done|]. apply magnitude_nonneg. }
    apply valid_binary_finite in Hv as [Hmx Hex].
    unfold peso_admitido in Hy.
    destruct (SFmul prec emax maior_finito (S754_finite sy my ey))
      as [| | |sX Xm Xe] eqn:EX; try done.
    repeat (apply andb_prop in Hy as [Hy ?]).
    repeat match goal with
           | H : (_ <=? _) = true |- _ => apply Z.leb_le in H
           | H : (_ <? _) = true |- _ => apply Z.ltb_lt in H
           end.
    cbn [SFmul magnitude].
    apply binary_round_aux_cota; [lia..|].
    eapply Z.le_lt_trans; [|eassumption].
    apply Z.mul_le_mono_nonneg_l; [lia|].
    rewrite Pos2Z.inj_mul.
    pose proof (pow2_pos (ex + ey + 1200) ltac:(lia)).
    rewrite <- !Z.mul_assoc.
    etrans; [apply (Z.mul_le_mono_nonneg_r _ (2 ^ 53 - 1)); [|lia]|].
    { apply Z.mul_nonneg_nonneg; lia. }
    apply Z.mul_le_mono_nonneg_l; [lia|].
    apply Z.mul_le_mono_nonneg_l; [lia|]. apply Z.pow_le_mono_r; lia.
Qed.

Lemma shl_align_valor mx ex ex' :
  -1200 <= ex -> -1200 <= ex' ->
  let '(mz, ez) := shl_align mx ex ex' in
  Z.pos mz * 2 ^ (ez + 1200) = Z.pos mx * 2 ^ (ex + 1200)
  /\ ez = Z.min ex ex'.
Proof.
  intros H1 H2. unfold shl_align.
  destruct (ex' - ex) as [|d|d] eqn:Ed; [split; lia|split; lia|].
  split; [|lia].
  replace (ex + 1200) with (Z.pos d + (ex' + 1200)) by lia.
  rewrite (pow2_soma (Z.pos d) (ex' + 1200)), Z.mul_assoc by lia. f_equal.
  clear. revert mx. induction d as [|d IH] using Pos.peano_ind; intros mx.
  - simpl. lia.
  - rewrite Pos.iter_succ, Pos2Z.inj_succ, Z.pow_succ_r by lia.
    rewrite Pos2Z.inj_xO, IH. lia.
Qed.

(** [binary_normalize] on an integer multiple of [2 ^ e] whose absolute
    value is below the largest finite number plus half of its last place. *)
Lemma binary_normalize_finito (m e : Z) :
  -1074 <= e <= 971 ->
  2 * (Z.abs m * 2 ^ (e + 1200)) < (2 ^ 54 - 1) * 2 ^ (971 + 1200) ->
  sf_finito (binary_normalize prec emax m e false) = true.
Proof.
  intros He Hv.
  assert (Hr : forall s p, Z.abs m = Z.pos p ->
                 sf_finito (binary_round prec emax s p e) = true).
  { intros s p Hp. rewrite Hp in Hv. unfold binary_round.
    set (e' := fexp prec emax (Z.pos (digits2_pos p) + e)).
    assert (He' : -1074 <= e').
    { subst e'. unfold fexp, emin, prec, emax. lia. }
    pose proof (shl_align_valor p e e' ltac:(lia) ltac:(lia)) as H.
    destruct (shl_align p e e') as [mz ez]. destruct H as [Hval Hez].
    apply (binary_round_aux_cota s mz ez (2 ^ 53 - 1) 971); [lia|lia|done|].
    rewrite Hval. exact Hv. }
  destruct m as [|p|p]; [done|by apply Hr|by apply Hr].
Qed.

Lemma SFadd_finito x y A B :
  valid_binary x = true -> valid_binary y = true ->
  sf_finito x = true -> sf_finito y = true ->
  magnitude x <= A -> magnitude y <= B ->
  2 * (A + B) < (2 ^ 54 - 1) * 2 ^ (971 + 1200) ->
  sf_finito (SFadd prec emax x y) = true.
Proof.
  intros Hvx Hvy Hx Hy HA HB HAB.
  destruct x as [sx| | |sx mx ex]; try done;
    destruct y as [sy| | |sy my ey]; try done.
  { by destruct sx, sy. }
  apply valid_binary_finite in Hvx as [Hmx Hex].
  apply valid_binary_finite in Hvy as [Hmy Hey].
  cbn [SFadd magnitude] in *.
  set (ez := Z.min ex ey).
  pose proof (shl_align_valor mx ex ez ltac:(lia) ltac:(lia)) as H1.
  pose proof (shl_align_valor my ey ez ltac:(lia) ltac:(lia)) as H2.
  destruct (shl_align mx ex ez) as [ax e1]. destruct H1 as [H1 E1].
  destruct (shl_align my ey ez) as [ay e2]. destruct H2 as [H2 E2].
  cbn [fst].
  replace e1 with ez in H1 by lia. replace e2 with ez in H2 by lia.
  apply binary_normalize_finito; [lia|].
  pose proof (pow2_pos (ez + 1200) ltac:(lia)) as Hp.
  assert (Habs : Z.abs (cond_Zopp sx (Z.pos ax) + cond_Zopp sy (Z.pos ay))
                 <= Z.pos ax + Z.pos ay).
  { unfold cond_Zopp. destruct sx, sy; lia. }
  apply (Z.mul_le_mono_nonneg_r _ _ (2 ^ (ez + 1200))) in Habs; [|lia].
  rewrite Z.mul_add_distr_r, H1, H2 in Habs. lia.
Qed.

(** ** [int(f)] returns exactly for the finite numbers *)

Lemma SFeqb_finito x : sf_finito x = true -> SFeqb x x = true.
Proof.
  destruct x as [s| | |s m e]; try done. intros _.
  unfold SFeqb, SFcompare.
  rewrite Z.compare_refl, Pos.compare_cont_refl. by destruct s.
Qed.

Lemma is_nan_finito f : sf_finito (Prim2SF f) = true -> PrimFloat.is_nan f = false.
Proof.
  intros H. unfold PrimFloat.is_nan.
  by rewrite FloatAxioms.eqb_spec, SFeqb_finito.
Qed.

Lemma is_infinity_finito f :
  sf_finito (Prim2SF f) = true -> PrimFloat.is_infinity f = false.
Proof.
  intros H. unfold PrimFloat.is_infinity.
  rewrite FloatAxioms.eqb_spec, abs_spec.
  replace (Prim2SF infinity) with (S754_infinity false)
    by (vm_compute; reflexivity).
  by destruct (Prim2SF f).
Qed.

Lemma finito_is f :
  PrimFloat.is_nan f = false -> PrimFloat.is_infinity f = false ->
  sf_finito (Prim2SF f) = true.
Proof.
  unfold PrimFloat.is_nan, PrimFloat.is_infinity.
  rewrite !FloatAxioms.eqb_spec, abs_spec.
  replace (Prim2SF infinity) with (S754_infinity false)
    by (vm_compute; reflexivity).
  by destruct (Prim2SF f) as [|[]| |].
Qed.

(** ** A fade or a blend whose first frame is computed is computed whole *)

Lemma finito_sf f : finito f = sf_finito (Prim2SF f).
Proof.
  unfold finito. destruct (sf_finito (Prim2SF f)) eqn:E.
  - by rewrite is_nan_finito, is_infinity_finito.
  - destruct (PrimFloat.is_nan f) eqn:E1; [done|].
    destruct (PrimFloat.is_infinity f) eqn:E2; [done|].
    by rewrite finito_is in E.
Qed.

Lemma to_int_Ok f z : PyFloat.to_int f = Ok z -> finito f = true.
Proof.
  unfold PyFloat.to_int, finito.
  by destruct (PrimFloat.is_nan f), (PrimFloat.is_infinity f).
Qed.

Lemma SFmul_finito_l x y :
  sf_finito (SFmul prec emax x y) = true -> sf_finito x = true.
Proof. destruct x as [| | |]; [done| |by destruct y|done]. by destruct y. Qed.

Lemma SFadd_finito_inv x y :
  sf_finito (SFadd prec emax x y) = true ->
  sf_finito x = true /\ sf_finito y = true.
Proof.
  destruct x as [| [] | |]; destruct y as [| [] | |]; try done.
Qed.

(** The integer whose product with a weight was converted by [int] is
    finite as a float. *)
Lemma int_mul_finito c a x :
  PyFloat.int_mul c a = Ok x -> finito x = true ->
  exists f, PyFloat.of_int c = Ok f /\ x = PrimFloat.mul f a
            /\ sf_finito (Prim2SF f) = true.
Proof.
  unfold PyFloat.int_mul. destruct (PyFloat.of_int c) as [f|]; [|done].
  intros [= <-] H. exists f. split; [done|]. split; [done|].
  rewrite finito_sf, mul_spec in H. by eapply SFmul_finito_l.
Qed.

Lemma int_mul_cota c a f :
  PyFloat.of_int c = Ok f -> sf_finito (Prim2SF f) = true ->
  peso_admitido (Prim2SF a) = true ->
  PyFloat.int_mul c a = Ok (PrimFloat.mul f a)
  /\ sf_finito (Prim2SF (PrimFloat.mul f a)) = true
  /\ magnitude (Prim2SF (PrimFloat.mul f a)) <= cota_do_produto (Prim2SF a).
Proof.
  intros Hf Hfin Ha. unfold PyFloat.int_mul. rewrite Hf. split; [done|].
  rewrite mul_spec. apply SFmul_cota; [apply Prim2SF_valid|done..].
Qed.

Lemma escurecer_persiste a a' c z :
  escurecer a c = Ok z -> peso_admitido (Prim2SF a') = true ->
  is_ok (escurecer a' c) = true.
Proof.
  unfold escurecer. intros H Ha'.
  destruct (PyFloat.int_mul c a) as [x|] eqn:Ex; [|done].
  rewrite bind_Ok in H. apply to_int_Ok in H.
  destruct (int_mul_finito c a x Ex H) as (f & Hf & _ & Hfin).
  destruct (int_mul_cota c a' f Hf Hfin Ha') as (-> & Hp & _).
  rewrite bind_Ok, to_int_finito; [done|]. by rewrite finito_sf.
Qed.

Lemma pesos_preto k :
  0 <= k < 6 ->
  exists a, PyFloat.int_div k 5 = Ok a /\ peso_admitido (Prim2SF a) = true.
Proof.
  intros Hk.
  assert (Hall : forallb (fun k =>
            match PyFloat.int_div k 5 with
            | Ok a => peso_admitido (Prim2SF a)
            | Raise _ => false
            end) (seqZ 0 6) = true) by (vm_compute; reflexivity).
  apply (forallb_elem _ _ k) in Hall; [|apply elem_of_seqZ; lia].
  cbv beta in Hall.
  destruct (PyFloat.int_div k 5) as [a|]; [by exists a|done].
Qed.

(** A fade whose first frame can be computed can be computed whole,
    whatever integers the original holds. *)
Lemma frame_preto_todos orig f0 k :
  frame_preto orig 0 = Ok f0 -> 0 <= k < 6 ->
  is_ok (frame_preto orig k) = true.
Proof.
  intros H0 Hk. unfold frame_preto in *.
  destruct (pesos_preto k Hk) as (a & -> & Ha). rewrite bind_Ok.
  destruct (PyFloat.int_div 0 5) as [a0|]; [rewrite bind_Ok in H0|done].
  destruct orig as [img|]; [|done].
  apply mapM_is_ok, Forall_forall. intros linha Hl.
  destruct (mapM_Ok_elem _ _ _ linha H0 Hl) as [l0 Hl0].
  apply mapM_is_ok, Forall_forall. intros [[r g] b] Hp.
  destruct (mapM_Ok_elem _ _ _ _ Hl0 Hp) as [p0 Hp0]. cbv beta iota in Hp0.
  destruct (escurecer a0 r) as [r0|] eqn:Er; [rewrite bind_Ok in Hp0|done].
  destruct (escurecer a0 g) as [g0|] eqn:Eg; [rewrite bind_Ok in Hp0|done].
  destruct (escurecer a0 b) as [b0|] eqn:Eb; [|done].
  destruct (is_ok_true _ (escurecer_persiste a0 a r r0 Er Ha)) as [? ->].
  destruct (is_ok_true _ (escurecer_persiste a0 a g g0 Eg Ha)) as [? ->].
  destruct (is_ok_true _ (escurecer_persiste a0 a b b0 Eb Ha)) as [? ->].
  done.
Qed.

Lemma pesos_mistura k :
  0 <= k < 11 ->
  exists a a', PyFloat.int_div k 10 = Ok a /\ PyFloat.int_sub 1 a = Ok a'
    /\ peso_admitido (Prim2SF a') = true /\ peso_admitido (Prim2SF a) = true
    /\ 2 * (cota_do_produto (Prim2SF a') + cota_do_produto (Prim2SF a))
       < (2 ^ 54 - 1) * 2 ^ (971 + 1200).
Proof.
  intros Hk.
  assert (Hall : forallb (fun k =>
            match PyFloat.int_div k 10 with
            | Ok a =>
                match PyFloat.int_sub 1 a with
                | Ok a' =>
                    peso_admitido (Prim2SF a') && peso_admitido (Prim2SF a)
                    && (2 * (cota_do_produto (Prim2SF a')
                             + cota_do_produto (Prim2SF a))
                        <? (2 ^ 54 - 1) * 2 ^ (971 + 1200))
                | Raise _ => false
                end
            | Raise _ => false
            end) (seqZ 0 11) = true) by (vm_compute; reflexivity).
  apply (forallb_elem _ _ k) in Hall; [|apply elem_of_seqZ; lia].
  cbv beta in Hall.
  destruct (PyFloat.int_div k 10) as [a|]; [|done].
  destruct (PyFloat.int_sub 1 a) as [a'|] eqn:Ea'; [|done].
  apply andb_prop in Hall as [Hall H3]. apply andb_prop in Hall as [H1 H2].
  apply Z.ltb_lt in H3. exists a, a'. by repeat split.
Qed.

(** The channel of a blend: when it can be computed for one weight it can
    be computed for every weight of the eleven frames. *)
Lemma misturar_persiste im1 im2 a0 k a i j c z :
  misturar im1 im2 a0 i j c = Ok z ->
  0 <= k < 11 -> PyFloat.int_div k 10 = Ok a ->
  is_ok (misturar im1 im2 a i j c) = true.
Proof.
  intros H0 Hk Ha.
  destruct (pesos_mistura k Hk) as (a_ & a' & Ha_ & Ha' & Hp' & Hp & Hsoma).
  rewrite Ha in Ha_. injection Ha_ as <-.
  unfold misturar in H0.
  destruct (getitem im1 i) as [l1|] eqn:E1; [rewrite bind_Ok in H0|done].
  destruct (getitem l1 j) as [p1|] eqn:E2; [rewrite bind_Ok in H0|done].
  destruct (pixel_get p1 c) as [c1|] eqn:E3; [rewrite bind_Ok in H0|done].
  destruct (PyFloat.int_sub 1 a0) as [a0'|]; [rewrite bind_Ok in H0|done].
  destruct (PyFloat.int_mul c1 a0') as [x0|] eqn:Ex0;
    [rewrite bind_Ok in H0|done].
  destruct (getitem im2 i) as [l2|] eqn:E4; [rewrite bind_Ok in H0|done].
  destruct (getitem l2 j) as [p2|] eqn:E5; [rewrite bind_Ok in H0|done].
  destruct (pixel_get p2 c) as [c2|] eqn:E6; [rewrite bind_Ok in H0|done].
  destruct (PyFloat.int_mul c2 a0) as [y0|] eqn:Ey0;
    [rewrite bind_Ok in H0|done].
  apply to_int_Ok in H0. rewrite finito_sf, add_spec in H0.
  apply SFadd_finito_inv in H0 as [Hx0 Hy0]. rewrite <- finito_sf in Hx0, Hy0.
  destruct (int_mul_finito c1 a0' x0 Ex0 Hx0) as (f1 & Hf1 & _ & Hfin1).
  destruct (int_mul_finito c2 a0 y0 Ey0 Hy0) as (f2 & Hf2 & _ & Hfin2).
  destruct (int_mul_cota c1 a' f1 Hf1 Hfin1 Hp') as (Ex & Hx & Hmx).
  destruct (int_mul_cota c2 a f2 Hf2 Hfin2 Hp) as (Ey & Hy & Hmy).
  unfold misturar.
  rewrite E1, bind_Ok, E2, bind_Ok, E3, bind_Ok, Ha', bind_Ok, Ex, bind_Ok,
    E4, bind_Ok, E5, bind_Ok, E6, bind_Ok, Ey, bind_Ok.
  rewrite to_int_finito; [done|].
  rewrite finito_sf, add_spec.
  eapply SFadd_finito; try apply Prim2SF_valid; eauto.
Qed.

(** A blend whose first frame can be computed can be computed whole,
    whatever integers and whatever shapes the two images have. *)
Lemma frame_mistura_persiste im1 im2 h w f0 k :
  frame_mistura im1 im2 h w 0 = Ok f0 -> 0 <= k < 11 ->
  is_ok (frame_mistura im1 im2 h w k) = true.
Proof.
  intros H0 Hk. rewrite frame_mistura_unfold in *.
  destruct (int_div_10_ok k Hk) as [a Ha]. rewrite Ha, bind_Ok.
  destruct (PyFloat.int_div 0 10) as [a0|]; [rewrite bind_Ok in H0|done].
  apply mapM_is_ok, Forall_forall. intros i Hi.
  destruct (mapM_Ok_elem _ _ _ i H0 Hi) as [l0 Hl0].
  apply mapM_is_ok, Forall_forall. intros j Hj.
  destruct (mapM_Ok_elem _ _ _ j Hl0 Hj) as [p0 Hp0].
  unfold misturar_pixel in *.
  destruct (misturar im1 im2 a0 i j 0) as [r0|] eqn:Er;
    [rewrite bind_Ok in Hp0|done].
  destruct (misturar im1 im2 a0 i j 1) as [g0|] eqn:Eg;
    [rewrite bind_Ok in Hp0|done].
  destruct (misturar im1 im2 a0 i j 2) as [b0|] eqn:Eb; [|done].
  destruct (is_ok_true _ (misturar_persiste _ _ _ k a _ _ _ _ Er Hk Ha))
    as [? ->].
  destruct (is_ok_true _ (misturar_persiste _ _ _ k a _ _ _ _ Eg Hk Ha))
    as [? ->].
  destruct (is_ok_true _ (misturar_persiste _ _ _ k a _ _ _ _ Eb Hk Ha))
    as [? ->].
  done.
Qed.

Lemma frame_mistura_todos im1 im2 h w f0 :
  frame_mistura im1 im2 h w 0 = Ok f0 ->
  exists F : Z -> matrix,
    forall k, k ∈ range 11 -> frame_mistura im1 im2 h w k = Ok (F k).
Proof.
  intros H0. exists (fun k => valor [] (frame_mistura im1 im2 h w k)).
  intros k Hk. apply elem_of_range in Hk.
  by eapply is_ok_valor, frame_mistura_persiste.
Qed.

Lemma frame_preto_todos_valor orig f0 :
  frame_preto orig 0 = Ok f0 ->
  exists F : Z -> matrix,
    forall k, k ∈ range 6 -> frame_preto orig k = Ok (F k).
Proof.
  intros H0. exists (fun k => valor [] (frame_preto orig k)).
  intros k Hk. apply elem_of_range in Hk.
  by eapply is_ok_valor, frame_preto_todos.
Qed.

(** ** What each call does to a session *)

Lemma carregar_imagem_campos W caminho s :
  original (carregar_imagem W caminho s).1 = original s
  /\ resultado (carregar_imagem W caminho s).1 = resultado s
  \/ exists img,
        carregar_imagem W caminho s
        = ({| original := Some img; resultado := Some img;
              alpha_frames := alpha_frames s; alpha_index := alpha_index s;
              second_image := second_image s |}, Ok img).
Proof.
  unfold carregar_imagem.
  destruct (if decide (splitext_lower W caminho = ".ppm"%string)
            then carregar_ppm_p3 W caminho
            else img_pil ← pil_open_rgb W caminho;
                 let '(largura, altura) := size img_pil in
                 matriz_de_pixels (getdata img_pil) largura altura)
    as [img|e]; [|by left].
  right. exists img. by rewrite list_copy_fmap.
Qed.

Lemma carregar_imagem_frames W caminho s :
  alpha_frames (carregar_imagem W caminho s).1 = alpha_frames s
  /\ alpha_index (carregar_imagem W caminho s).1 = alpha_index s.
Proof.
  destruct (carregar_imagem_campos W caminho s) as [_|(img & ->)]; [|done].
  unfold carregar_imagem.
  by destruct (if decide (splitext_lower W caminho = ".ppm"%string)
               then carregar_ppm_p3 W caminho
               else img_pil ← pil_open_rgb W caminho;
                    let '(largura, altura) := size img_pil in
                    matriz_de_pixels (getdata img_pil) largura altura).
Qed.

Lemma preparar_mistura_campos W caminho2 s :
  alpha_frames (preparar_mistura W caminho2 s).1 = alpha_frames s
  /\ alpha_index (preparar_mistura W caminho2 s).1 = alpha_index s
  /\ resultado (preparar_mistura W caminho2 s).1 = resultado s.
Proof.
  unfold preparar_mistura.
  by destruct (img2 ← pil_open_rgb W caminho2;
               let '(w, h) := size img2 in
               matriz_de_pixels (getdata img2) w h).
Qed.

(** A call that assigns [resultado] alone. *)
Lemma so_resultado (r : res matrix) s :
  let s' := (match r with
             | Raise e => (s, Raise e)
             | Ok m => (set_resultado m s, Ok tt)
             end).1 in
  original s' = original s /\ second_image s' = second_image s
  /\ alpha_frames s' = alpha_frames s /\ alpha_index s' = alpha_index s.
Proof. by destruct r. Qed.

Lemma transformacao_campos c s :
  transformacao c = true ->
  forall W,
    original (executar W c s) = original s
    /\ second_image (executar W c s) = second_image s
    /\ alpha_frames (executar W c s) = alpha_frames s
    /\ alpha_index (executar W c s) = alpha_index s.
Proof.
  destruct c; try done; intros _ W; simpl.
  - unfold aplicar_espelhamento_horizontal. by destruct (resultado s).
  - unfold aplicar_espelhamento_vertical. by destruct (resultado s).
  - apply so_resultado.
  - apply so_resultado.
  - apply so_resultado.
Qed.

Lemma frame_preto_None k : 0 <= k < 6 -> frame_preto None k = Raise TypeError.
Proof.
  intros Hk. unfold frame_preto.
  pose proof (escurecer_canal_ok k 0 Hk ltac:(unfold canal_8bit; lia)) as H.
  unfold escurecer_canal in H.
  by destruct (PyFloat.int_div k 5).
Qed.

Lemma avancar_transparencia_campos s :
  alpha_frames s <> [] ->
  exists f,
    alpha_frames s !! ((alpha_index s + 1) `mod` length (alpha_frames s))%nat
    = Some f
    /\ avancar_transparencia s
       = ({| original := original s; resultado := Some f;
             alpha_frames := alpha_frames s;
             alpha_index := ((alpha_index s + 1) `mod` length (alpha_frames s))%nat;
             second_image := second_image s |}, Ok tt).
Proof.
  intros Hne. unfold avancar_transparencia.
  destruct (alpha_frames s) as [|f0 fs] eqn:E; [done|].
  set (n := length (f0 :: fs)).
  assert (Hlt : ((alpha_index s + 1) `mod` n < n)%nat).
  { apply Nat.mod_upper_bound. subst n. simpl. lia. }
  destruct (lookup_lt_is_Some_2 (f0 :: fs) _ Hlt) as [f Hf].
  exists f. split; [done|].
  cbn [alpha_frames alpha_index set_alpha_index]. rewrite E.
  fold n. rewrite (getitem_Ok _ _ _ Hf).
  unfold set_resultado, set_alpha_index. cbn. by rewrite E.
Qed.

(** The two ways a fade can end: on its first frame, with no frame left, or
    with its six frames. *)
Lemma aplicar_transparencia_preto_campos s :
  (aplicar_transparencia_preto s).1 = set_alpha_frames [] s
  \/ exists f fs,
       (aplicar_transparencia_preto s).1
       = {| original := original s; resultado := Some f;
            alpha_frames := f :: fs; alpha_index := 0%nat;
            second_image := second_image s |}.
Proof.
  unfold aplicar_transparencia_preto. cbn [original set_alpha_frames].
  destruct (frame_preto (original s) 0) as [f0|e] eqn:Hf.
  - destruct (frame_preto_todos_valor _ f0 Hf) as [F HF].
    rewrite (gerar_frames_fmap _ F) by done.
    right. exists (F 0), (F <$> seqZ 1 5). reflexivity.
  - left. change (range 6) with (0 :: seqZ 1 5).
    by rewrite (gerar_frames_raise _ _ _ e).
Qed.

(** The three ways a blend can end: before it touches the session, on its
    first frame, with no frame left, or with its eleven frames. *)
Lemma aplicar_mistura_campos s :
  (aplicar_mistura s).1 = s
  \/ (aplicar_mistura s).1 = set_alpha_frames [] s
  \/ exists f fs,
       (aplicar_mistura s).1
       = {| original := original s; resultado := Some f;
            alpha_frames := f :: fs; alpha_index := 0%nat;
            second_image := second_image s |}.
Proof.
  unfold aplicar_mistura.
  destruct (second_image s) as [im2|] eqn:E2; [|by left].
  destruct (original s) as [im1|] eqn:E1; [|by left].
  destruct (getitem im1 0) as [linha0|] eqn:E0; [|by left].
  set (h := Z.of_nat (length im1)). set (w := Z.of_nat (length linha0)).
  destruct (frame_mistura im1 im2 h w 0) as [f0|e] eqn:Hf.
  - destruct (frame_mistura_todos im1 im2 h w f0 Hf) as [F HF].
    rewrite (gerar_frames_fmap _ F) by done.
    right. right. exists (F 0), (F <$> seqZ 1 10).
    destruct s; simpl in E1, E2; subst. reflexivity.
  - right. left. change (range 11) with (0 :: seqZ 1 10).
    by rewrite (gerar_frames_raise _ _ _ e).
Qed.

(** ** The effect of a call on the animation *)

Lemma caso_transformacao W c s :
  transformacao c = true -> efeito c s (executar W c s).
Proof.
  intros Hc.
  destruct (transformacao_campos c s Hc W) as (Eo & E2 & Ef & Ei).
  left. split; [done|]. split; [done|]. by destruct c.
Qed.

Lemma gerar_frames_Ok_inv frame ks s s' :
  gerar_frames frame ks s = (s', Ok tt) ->
  exists fs, length fs = length ks
             /\ s' = set_alpha_frames (alpha_frames s ++ fs) s.
Proof.
  revert s. induction ks as [|k ks IH]; intros s; simpl.
  - intros [= <-]. exists []. rewrite app_nil_r. by destruct s.
  - destruct (frame k) as [f|e]; [|done]. intros H.
    apply IH in H as (fs & Hlen & ->). exists (f :: fs).
    split; [by rewrite <- Hlen|].
    simpl. by rewrite <- app_assoc.
Qed.

(** A call that generated its frames left the first one in [resultado]. *)
Lemma frames_gerados frame n s s' :
  (0 < n)%nat ->
  (let '(s1, r) := gerar_frames frame (seqZ 0 (Z.of_nat n))
                     (set_alpha_frames [] s) in
   match r with
   | Raise e => (s1, Raise e)
   | Ok _ => primeiro_frame s1
   end) = (s', Ok tt) ->
  exists f fs,
    s' = set_alpha_index 0 (set_resultado f (set_alpha_frames (f :: fs) s)).
Proof.
  intros Hn.
  destruct (gerar_frames frame (seqZ 0 (Z.of_nat n)) (set_alpha_frames [] s))
    as [s1 [[]|e]] eqn:E; [|done].
  apply gerar_frames_Ok_inv in E as (fs & Hlen & ->).
  rewrite length_seqZ, Nat2Z.id in Hlen.
  destruct fs as [|f fs]; [simpl in Hlen; lia|].
  intros [= <-]. by exists f, fs.
Qed.

Lemma aplicar_transparencia_preto_Ok_inv s s' :
  aplicar_transparencia_preto s = (s', Ok tt) ->
  exists f fs,
    s' = set_alpha_index 0 (set_resultado f (set_alpha_frames (f :: fs) s)).
Proof.
  unfold aplicar_transparencia_preto. intros H.
  apply (frames_gerados (frame_preto (original (set_alpha_frames [] s))) 6);
    [lia|].
  destruct (gerar_frames _ _ _) as [s1 [[]|e]]; done.
Qed.

Lemma aplicar_mistura_Ok_inv s s' :
  aplicar_mistura s = (s', Ok tt) ->
  exists f fs,
    s' = set_alpha_index 0 (set_resultado f (set_alpha_frames (f :: fs) s)).
Proof.
  unfold aplicar_mistura.
  destruct (second_image s) as [im2|]; [|done].
  destruct (original s) as [im1|]; [|done].
  destruct (getitem im1 0) as [linha0|]; [|done]. intros H.
  apply (frames_gerados
           (frame_mistura im1 im2 (Z.of_nat (length im1))
              (Z.of_nat (length linha0))) 11); [lia|].
  destruct (gerar_frames _ _ _) as [s1 [[]|e]]; done.
Qed.

Lemma executar_efeito W c s : efeito c s (executar W c s).
Proof.
  destruct c; cbn [executar].
  - (* carregar_imagem *)
    destruct (carregar_imagem_frames W caminho s) as [Ef Ei].
    left. by repeat split.
  - (* preparar_mistura *)
    destruct (preparar_mistura_campos W caminho2 s) as (Ef & Ei & Er).
    left. by repeat split.
  - (* restaurar_original *)
    unfold restaurar_original. destruct (original s) as [img|]; cbn [fst].
    + by right; left.
    + by left.
  - by apply (caso_transformacao W EspelhamentoHorizontal).
  - by apply (caso_transformacao W EspelhamentoVertical).
  - by apply (caso_transformacao W RotacionarDireita).
  - by apply (caso_transformacao W RotacionarEsquerda).
  - by apply (caso_transformacao W (SegmentarPorCor alvo_rgb tolerancia)).
  - (* aplicar_transparencia_preto *)
    destruct (aplicar_transparencia_preto_campos s) as [->|(f & fs & ->)].
    + by right; left.
    + right. right. by exists f.
  - (* avancar_transparencia *)
    destruct (decide (alpha_frames s = [])) as [E|E].
    + unfold avancar_transparencia. rewrite E. by left.
    + destruct (avancar_transparencia_campos s E) as (f & Hf & ->).
      cbn [fst]. right. right. by exists f.
  - (* aplicar_mistura *)
    destruct (aplicar_mistura_campos s) as [->|[->|(f & fs & ->)]].
    + by left.
    + by right; left.
    + right. right. by exists f.
Qed.

(** A call that assigns [resultado] alone and raises leaves the session
    as it was. *)
Lemma sem_frames_levantada W c s :
  sem_frames c = true -> levantada W c s <> None -> executar W c s = s.
Proof.
  destruct c; try done; intros _; cbn [executar levantada].
  - unfold carregar_imagem.
    by destruct (if decide (splitext_lower W caminho = ".ppm"%string)
                 then carregar_ppm_p3 W caminho
                 else img_pil ← pil_open_rgb W caminho;
                      let '(largura, altura) := size img_pil in
                      matriz_de_pixels (getdata img_pil) largura altura).
  - unfold aplicar_espelhamento_horizontal. by destruct (resultado s).
  - unfold aplicar_espelhamento_vertical. by destruct (resultado s).
  - unfold rotacionar_direita, rotacionar.
    by destruct (match resultado s with None => _ | Some _ => _ end).
  - unfold rotacionar_esquerda, rotacionar.
    by destruct (match resultado s with None => _ | Some _ => _ end).
  - unfold segmentar_por_cor.
    by destruct (match resultado s with None => _ | Some _ => _ end).
Qed.

(** A call that returned and leaves [resultado] on the frame under the
    cursor, or no frame. *)
Lemma repoe_resultado_no_cursor W c s :
  repoe c = true -> levantada W c s = None ->
  resultado_no_cursor (executar W c s).
Proof.
  unfold resultado_no_cursor.
  destruct c; try done; intros _; cbn [executar levantada].
  - unfold restaurar_original. by destruct (original s).
  - destruct (aplicar_transparencia_preto s) as [s' [[]|e]] eqn:E; [|done].
    apply aplicar_transparencia_preto_Ok_inv in E as (f & fs & ->). done.
  - destruct (decide (alpha_frames s = [])) as [E|E].
    + unfold avancar_transparencia. rewrite E. done.
    + destruct (avancar_transparencia_campos s E) as (f & Hf & ->).
      cbn. by rewrite Hf.
  - destruct (aplicar_mistura s) as [s' [[]|e]] eqn:E; [|done].
    apply aplicar_mistura_Ok_inv in E as (f & fs & ->). done.
Qed.

Lemma efeito_cursor_valido c s s' :
  efeito c s s' -> cursor_valido s -> cursor_valido s'.
Proof.
  unfold cursor_valido. intros [(Ef & Ei & _)|[E|(f & Hf & _)]] H Hne.
  - rewrite Ef, Ei in *. auto.
  - done.
  - by eapply lookup_lt_Some.
Qed.

Lemma efeito_resultado_no_cursor_sem c s s' :
  efeito c s s' -> sem_frames c = false ->
  resultado_no_cursor s -> resultado_no_cursor s'.
Proof.
  unfold resultado_no_cursor.
  intros [(Ef & Ei & Er)|[E|(f & Hf & Er)]] Hc H Hne.
  - rewrite Er, Ef, Ei in * by done. auto.
  - done.
  - by rewrite Er, Hf.
Qed.

Lemma mundo_exemplo_ppm : carregar_ppm_p3 mundo_exemplo "a.ppm" = Ok exemplo_a.
Proof. vm_compute. reflexivity. Qed.

Lemma sessao_animada_alcancavel : alcancavel qualquer_chamada sessao_animada.
Proof. unfold sessao_animada. repeat (apply alc_passo; [done|]). apply alc_init. Qed.

Lemma sessao_animada_campos :
  sessao_animada
  = {| original := Some exemplo_a;
       resultado := Some [[(2, 4, 6); (8, 10, 12)]];
       alpha_frames := [ [[(0, 0, 0); (0, 0, 0)]];
                         [[(2, 4, 6); (8, 10, 12)]];
                         [[(4, 8, 12); (16, 20, 24)]];
                         [[(6, 12, 18); (24, 30, 36)]];
                         [[(8, 16, 24); (32, 40, 48)]];
                         [[(10, 20, 30); (40, 50, 60)]] ];
       alpha_index := 1%nat;
       second_image := None |}.
Proof. vm_compute. reflexivity. Qed.

(** ** Text: [str], [int], [split], [readline] *)

Lemma digito_casos (P : ascii -> Prop) :
  P (PyStr.chr 48) -> P (PyStr.chr 49) -> P (PyStr.chr 50) ->
  P (PyStr.chr 51) -> P (PyStr.chr 52) -> P (PyStr.chr 53) ->
  P (PyStr.chr 54) -> P (PyStr.chr 55) -> P (PyStr.chr 56) ->
  P (PyStr.chr 57) -> forall c, digito c -> P c.
Proof.
  intros H0 H1 H2 H3 H4 H5 H6 H7 H8 H9 c (d & Hd & ->).
  assert (d = 0 \/ d = 1 \/ d = 2 \/ d = 3 \/ d = 4 \/ d = 5 \/ d = 6
          \/ d = 7 \/ d = 8 \/ d = 9) as Hc by lia.
  repeat (destruct Hc as [->|Hc]; [assumption|]). by subst.
Qed.

Lemma digito_val d : 0 <= d < 10 -> PyStr.digit_val (PyStr.chr (48 + d)) = Some d.
Proof.
  intros Hd.
  assert (d = 0 \/ d = 1 \/ d = 2 \/ d = 3 \/ d = 4 \/ d = 5 \/ d = 6
          \/ d = 7 \/ d = 8 \/ d = 9) as Hc by lia.
  repeat (destruct Hc as [->|Hc]; [reflexivity|]). by subst.
Qed.

Lemma digito_nao_espaco c : digito c -> nao_espaco c.
Proof. revert c. apply digito_casos; reflexivity. Qed.

Lemma digito_nao_sinal c :
  digito c -> Ascii.eqb c "-"%char = false /\ Ascii.eqb c "+"%char = false
              /\ Ascii.eqb c "_"%char = false.
Proof. revert c. apply digito_casos; repeat split; reflexivity. Qed.

Lemma char_de_int_nao_espaco c : char_de_int c -> nao_espaco c.
Proof. intros [H| ->]; [by apply digito_nao_espaco|reflexivity]. Qed.

Lemma mod_10_digito n : digito (PyStr.chr (48 + n mod 10)).
Proof. exists (n mod 10). split; [apply Z.mod_pos_bound; lia|done]. Qed.

Lemma dec_digits_Forall (P : ascii -> Prop) fuel n acc :
  (forall c, digito c -> P c) -> Forall P acc ->
  Forall P (PyStr.dec_digits fuel n acc).
Proof.
  intros HP. revert n acc. induction fuel as [|fuel IH]; intros n acc Hacc; [done|].
  simpl. destruct (n / 10 =? 0).
  - constructor; [apply HP, mod_10_digito|done].
  - apply IH. constructor; [apply HP, mod_10_digito|done].
Qed.

Lemma dec_digits_cons fuel n acc :
  exists c r, PyStr.dec_digits (S fuel) n acc = c :: r /\ digito c.
Proof.
  revert n acc. induction fuel as [|fuel IH]; intros n acc.
  - simpl. destruct (n / 10 =? 0); eauto using mod_10_digito.
  - change (PyStr.dec_digits (S (S fuel)) n acc)
      with (let acc' := PyStr.chr (48 + n mod 10) :: acc in
            if n / 10 =? 0 then acc'
            else PyStr.dec_digits (S fuel) (n / 10) acc').
    cbv zeta. destruct (n / 10 =? 0); eauto using mod_10_digito.
Qed.

Lemma int_digits_dec_digits fuel n rest b :
  0 <= n < 2 ^ Z.of_nat (S fuel) ->
  PyStr.int_digits 0 b (PyStr.dec_digits (S fuel) n rest)
  = PyStr.int_digits n true rest.
Proof.
  revert n rest b. induction fuel as [|fuel IH]; intros n rest b Hn;
    change (PyStr.dec_digits (S ?f) n rest)
      with (let acc' := PyStr.chr (48 + n mod 10) :: rest in
            if n / 10 =? 0 then acc' else PyStr.dec_digits f (n / 10) acc');
    cbv zeta;
    pose proof (mod_10_digito n) as Hd;
    destruct (digito_nao_sinal _ Hd) as (_ & _ & Hu);
    assert (Hv : PyStr.digit_val (PyStr.chr (48 + n mod 10)) = Some (n mod 10))
      by (apply digito_val, Z.mod_pos_bound; lia);
    destruct (n / 10 =? 0) eqn:E.
  - apply Z.eqb_eq in E. simpl. rewrite Hu, Hv.
    f_equal. rewrite (Z.div_mod n 10) at 2 by lia. lia.
  - apply Z.eqb_neq in E. exfalso. apply E.
    apply Z.div_small. simpl in Hn. lia.
  - apply Z.eqb_eq in E. simpl. rewrite Hu, Hv.
    f_equal. rewrite (Z.div_mod n 10) at 2 by lia. lia.
  - apply Z.eqb_neq in E. rewrite IH.
    + simpl. rewrite Hu, Hv. f_equal. rewrite (Z.div_mod n 10) at 3 by lia. lia.
    + rewrite (Nat2Z.inj_succ (S fuel)), Z.pow_succ_r in Hn by lia.
      split; [apply Z.div_pos; lia|].
      apply Z.div_lt_upper_bound; lia.
Qed.

Lemma fuel_suficiente n :
  0 <= n -> 0 <= n < 2 ^ Z.of_nat (S (Z.to_nat (Z.log2 n))).
Proof.
  intros Hn. split; [done|].
  rewrite Nat2Z.inj_succ, Z2Nat.id by apply Z.log2_nonneg.
  destruct (decide (n = 0)) as [->|Hz]; [done|].
  apply Z.log2_spec. lia.
Qed.

Lemma str_Forall z : Forall char_de_int (PyStr.str z).
Proof.
  unfold PyStr.str. destruct (z <? 0).
  - constructor; [by right|].
    apply dec_digits_Forall; [by left|constructor].
  - apply dec_digits_Forall; [by left|constructor].
Qed.

Lemma str_nao_espaco z : Forall nao_espaco (PyStr.str z).
Proof.
  eapply Forall_impl; [apply str_Forall|]. apply char_de_int_nao_espaco.
Qed.

Lemma str_nao_vazio z : PyStr.str z <> [].
Proof.
  unfold PyStr.str. destruct (z <? 0); [done|].
  by destruct (dec_digits_cons (Z.to_nat (Z.log2 z)) z []) as (c & r & -> & _).
Qed.

(** What [int] skips is whitespace for [isspace] too. *)
Lemma int_space_isspace c : PyStr.int_space c = true -> PyStr.isspace c = true.
Proof.
  unfold PyStr.int_space, PyStr.isspace. generalize (PyStr.ord c). intros n H.
  repeat match goal with
         | H : (_ || _) = true |- _ => apply orb_prop in H as [H|H]
         | H : (_ && _) = true |- _ => apply andb_prop in H as [? ?]
         | H : (_ <=? _) = true |- _ => apply Z.leb_le in H
         | H : (_ =? _) = true |- _ => apply Z.eqb_eq in H
         end;
    repeat match goal with
           | |- (_ || _) = true => apply orb_true_iff
           end;
    destruct (9 <=? n) eqn:?, (n <=? 13) eqn:?, (28 <=? n) eqn:?,
      (n <=? 32) eqn:?, (n =? 133) eqn:?, (n =? 160) eqn:?; try done; lia.
Qed.

Lemma int_lstrip_nao_espaco t : Forall nao_espaco t -> PyStr.int_lstrip t = t.
Proof.
  destruct 1 as [|c t Hc _]; [done|]. simpl.
  destruct (PyStr.int_space c) eqn:E; [|done].
  apply int_space_isspace in E. unfold nao_espaco in Hc. congruence.
Qed.

Lemma int_strip_nao_espaco t :
  Forall nao_espaco t ->
  reverse (PyStr.int_lstrip (reverse (PyStr.int_lstrip t))) = t.
Proof.
  intros H. rewrite (int_lstrip_nao_espaco t H).
  rewrite int_lstrip_nao_espaco by by apply Forall_reverse.
  apply reverse_involutive.
Qed.

(** [int(str(z)) == z]. *)
Lemma int_str z : PyStr.int (PyStr.str z) = Ok z.
Proof.
  unfold PyStr.int. rewrite (int_strip_nao_espaco _ (str_nao_espaco z)).
  unfold PyStr.str. destruct (z <? 0) eqn:E.
  - apply Z.ltb_lt in E.
    change (Ascii.eqb (PyStr.chr 45) "-"%char) with true. cbv iota.
    rewrite int_digits_dec_digits by (apply fuel_suficiente; lia).
    simpl. f_equal. lia.
  - apply Z.ltb_ge in E.
    destruct (dec_digits_cons (Z.to_nat (Z.log2 z)) z []) as (c & r & Hcr & Hc).
    destruct (digito_nao_sinal c Hc) as (Hm & Hp & _).
    rewrite Hcr, Hm, Hp, <- Hcr.
    by rewrite int_digits_dec_digits by (by apply fuel_suficiente).
Qed.

Lemma mapM_int_str zs : mapM PyStr.int (PyStr.str <$> zs) = Ok zs.
Proof.
  induction zs as [|z zs IH]; [done|].
  rewrite fmap_cons, mapM_cons, int_str, bind_Ok, IH. done.
Qed.

(** A token followed by whitespace is split off. *)
Lemma split_from_token cur tok c rest :
  Forall nao_espaco tok -> PyStr.isspace c = true -> cur ++ tok <> [] ->
  PyStr.split_from cur (tok ++ c :: rest)
  = (cur ++ tok) :: PyStr.split_from [] rest.
Proof.
  intros Htok Hc. revert cur. induction Htok as [|x tok Hx _ IH]; intros cur Hne.
  - rewrite app_nil_r in *. simpl. rewrite Hc. by destruct cur.
  - simpl. rewrite Hx. rewrite IH.
    + by rewrite <- app_assoc.
    + by destruct cur.
Qed.

Lemma split_from_str z c rest :
  PyStr.isspace c = true ->
  PyStr.split_from [] (PyStr.str z ++ c :: rest)
  = PyStr.str z :: PyStr.split_from [] rest.
Proof.
  intros Hc. apply (split_from_token [] (PyStr.str z));
    [apply str_nao_espaco|done|apply str_nao_vazio].
Qed.

Lemma readline_app l r :
  Forall (fun c => c <> PyStr.newline) l ->
  PyStr.readline (l ++ PyStr.newline :: r) = (l ++ [PyStr.newline], r).
Proof.
  induction 1 as [|c l Hc _ IH]; [done|].
  simpl. destruct (Ascii.eqb c PyStr.newline) eqn:E.
  - by apply Ascii.eqb_eq in E.
  - by rewrite IH.
Qed.

Lemma nao_espaco_nao_newline c : nao_espaco c -> c <> PyStr.newline.
Proof. by intros H ->. Qed.
(** ** Decoding a PPM file *)

Lemma carregar_ppm_p3_bem_formado W caminho f largura altura dados :
  open_r W caminho = Some f -> ppm_bem_formado f largura altura dados ->
  carregar_ppm_p3 W caminho = montar_matriz dados largura altura.
Proof.
  intros Hf. unfold ppm_bem_formado, carregar_ppm_p3. rewrite Hf.
  destruct (PyStr.readline f) as [l1 f1].
  destruct (PyStr.readline f1) as [l2 f2].
  destruct (PyStr.readline f2) as [l3 f3].
  intros (H1 & H2 & H3).
  rewrite decide_True by done. by rewrite H2, bind_Ok, H3, bind_Ok.
Qed.

Lemma carregar_ppm_p3_magic W caminho f :
  open_r W caminho = Some f ->
  PyStr.strip (PyStr.readline f).1 <> PyStr.lit "P3" ->
  carregar_ppm_p3 W caminho = Raise ValueError.
Proof.
  intros Hf Hm. unfold carregar_ppm_p3. rewrite Hf.
  destruct (PyStr.readline f) as [l1 f1]. simpl in Hm.
  by rewrite decide_False.
Qed.

Lemma pixel_de_dados_Ok dados n :
  0 <= n -> n * 3 + 2 < Z.of_nat (length dados) ->
  (r ← getitem dados (n * 3);
   g ← getitem dados (n * 3 + 1);
   b ← getitem dados (n * 3 + 2);
   mret (r, g, b)) = Ok (pixel_em dados n).
Proof.
  intros Hn Hlt. unfold pixel_em.
  assert (Hget : forall i, 0 <= i < Z.of_nat (length dados) ->
                           getitem dados i = Ok (dados !!! Z.to_nat i)).
  { intros i Hi. rewrite getitem_nonneg by lia.
    destruct (lookup_lt_is_Some_2 dados (Z.to_nat i) ltac:(lia)) as [x Hx].
    rewrite Hx. f_equal. symmetry. by apply list_lookup_total_correct. }
  rewrite !Hget by lia. done.
Qed.

Lemma pixel_de_dados_Raise dados n e :
  (r ← getitem dados (n * 3);
   g ← getitem dados (n * 3 + 1);
   b ← getitem dados (n * 3 + 2);
   mret (r, g, b) : res pixel) = Raise e -> e = IndexError.
Proof.
  destruct (getitem dados (n * 3)) as [r|e0] eqn:E0.
  2:{ intros [= <-]. by eapply getitem_Raise. }
  rewrite bind_Ok.
  destruct (getitem dados (n * 3 + 1)) as [g|e1] eqn:E1.
  2:{ intros [= <-]. by eapply getitem_Raise. }
  rewrite bind_Ok.
  destruct (getitem dados (n * 3 + 2)) as [b|e2] eqn:E2.
  2:{ intros [= <-]. by eapply getitem_Raise. }
  done.
Qed.

(** With enough values the loops build the image, whatever follows. *)
Lemma montar_matriz_Ok dados largura altura :
  altura <= 0 \/ largura <= 0
  \/ largura * altura * 3 <= Z.of_nat (length dados) ->
  montar_matriz dados largura altura
  = Ok ((fun i => (fun j => pixel_em dados (i * largura + j)) <$> range largura)
          <$> range altura).
Proof.
  intros H. unfold montar_matriz.
  apply mapM_Ok_fmap, Forall_forall. intros i Hi. apply elem_of_range in Hi.
  apply mapM_Ok_fmap, Forall_forall. intros j Hj. apply elem_of_range in Hj.
  cbv zeta. apply pixel_de_dados_Ok; [nia|].
  destruct H as [H|[H|H]]; [lia|lia|]. nia.
Qed.

(** With too few values the indexing raises [IndexError]. *)
Lemma montar_matriz_Raise dados largura altura :
  0 < altura -> 0 < largura ->
  Z.of_nat (length dados) < largura * altura * 3 ->
  montar_matriz dados largura altura = Raise IndexError.
Proof.
  intros Ha Hl Hlen.
  destruct (montar_matriz dados largura altura) as [img|e] eqn:E.
  - exfalso. unfold montar_matriz in E.
    destruct (mapM_Ok_elem _ _ _ (altura - 1) E) as [linha Hlinha];
      [apply elem_of_range; lia|].
    destruct (mapM_Ok_elem _ _ _ (largura - 1) Hlinha) as [p Hp];
      [apply elem_of_range; lia|].
    cbv zeta in Hp.
    destruct (getitem dados (((altura - 1) * largura + (largura - 1)) * 3))
      as [r|]; [rewrite bind_Ok in Hp|done].
    destruct (getitem dados (((altura - 1) * largura + (largura - 1)) * 3 + 1))
      as [g|]; [rewrite bind_Ok in Hp|done].
    destruct (getitem dados (((altura - 1) * largura + (largura - 1)) * 3 + 2))
      as [b|] eqn:Eb; [|done].
    apply getitem_Ok_inv in Eb; [|nia].
    apply lookup_lt_Some in Eb. nia.
  - f_equal. unfold montar_matriz in E.
    apply mapM_Raise_inv in E as (i & _ & E).
    apply mapM_Raise_inv in E as (j & _ & E).
    by eapply pixel_de_dados_Raise.
Qed.

(** ** Encoding, and decoding what was encoded *)

Lemma split_from_pixel p c rest :
  PyStr.isspace c = true ->
  PyStr.split_from [] (pixel_str p ++ c :: rest)
  = (PyStr.str <$> [p.1.1; p.1.2; p.2]) ++ PyStr.split_from [] rest.
Proof.
  intros Hc. destruct p as [[r g] b]. unfold pixel_str. cbn [fst snd].
  rewrite <- !app_assoc. cbn [app].
  rewrite split_from_str by done. rewrite split_from_str by done.
  by rewrite split_from_str by done.
Qed.

Lemma canais_de_cons p linha :
  canais_de (p :: linha) = [p.1.1; p.1.2; p.2] ++ canais_de linha.
Proof. reflexivity. Qed.

Lemma valores_cons linha img : valores (linha :: img) = canais_de linha ++ valores img.
Proof. reflexivity. Qed.

Lemma split_from_linha (linha : list pixel) rest :
  PyStr.split_from []
    (PyStr.join [PyStr.space] (pixel_str <$> linha) ++ PyStr.newline :: rest)
  = (PyStr.str <$> canais_de linha) ++ PyStr.split_from [] rest.
Proof.
  induction linha as [|p linha IH]; [done|].
  destruct linha as [|q linha].
  - change (PyStr.join [PyStr.space] (pixel_str <$> [p])) with (pixel_str p).
    rewrite split_from_pixel by done.
    rewrite canais_de_cons. change (canais_de []) with (@nil Z).
    by rewrite app_nil_r.
  - change (PyStr.join [PyStr.space] (pixel_str <$> p :: q :: linha))
      with (pixel_str p ++ [PyStr.space]
            ++ PyStr.join [PyStr.space] (pixel_str <$> q :: linha)).
    rewrite <- !app_assoc. cbn [app].
    rewrite split_from_pixel by done.
    rewrite IH. rewrite (canais_de_cons p), !fmap_app.
    by rewrite <- app_assoc.
Qed.

Lemma split_dados (img : matrix) :
  PyStr.split
    (concat ((fun linha : list pixel =>
                PyStr.join [PyStr.space] (pixel_str <$> linha)
                ++ [PyStr.newline]) <$> img))
  = PyStr.str <$> valores img.
Proof.
  unfold PyStr.split. induction img as [|linha img IH]; [done|].
  rewrite fmap_cons. cbn [concat]. rewrite <- app_assoc. cbn [app].
  rewrite split_from_linha, IH. by rewrite valores_cons, fmap_app.
Qed.

Lemma texto_ppm_bem_formado img largura altura :
  ppm_bem_formado (texto_ppm img largura altura) largura altura (valores img).
Proof.
  unfold ppm_bem_formado, texto_ppm.
  set (dados := concat _).
  rewrite <- !app_assoc. simpl.
  assert (Hl2 : PyStr.str largura
                ++ PyStr.space :: PyStr.str altura
                ++ PyStr.newline :: "2"%char :: "5"%char :: "5"%char
                   :: PyStr.newline :: dados
                = (PyStr.str largura ++ PyStr.space :: PyStr.str altura)
                  ++ PyStr.newline :: "2"%char :: "5"%char :: "5"%char
                     :: PyStr.newline :: dados)
    by (by rewrite <- app_assoc).
  rewrite Hl2, readline_app.
  2:{ apply Forall_app. split.
      - eapply Forall_impl; [apply str_nao_espaco|].
        apply nao_espaco_nao_newline.
      - constructor; [done|].
        eapply Forall_impl; [apply str_nao_espaco|].
        apply nao_espaco_nao_newline. }
  simpl. split; [reflexivity|]. split.
  - unfold PyStr.split. rewrite <- !app_assoc. simpl.
    rewrite split_from_str by done. rewrite split_from_str by done.
    apply (mapM_int_str [largura; altura]).
  - subst dados. rewrite split_dados. apply mapM_int_str.
Qed.

Lemma mapM_range_lista {A} (F : Z -> res A) (l : list A) :
  (forall i x, l !! i = Some x -> F (Z.of_nat i) = Ok x) ->
  mapM F (range (Z.of_nat (length l))) = Ok l.
Proof.
  intros HF.
  rewrite (mapM_range_zip F (fun x _ => x) l l); [|done|].
  - by rewrite zip_with_fst_le.
  - intros i x y Hx _. by apply HF.
Qed.

Lemma bind_join_fmap {A B} (f : A -> list B) (l : list A) :
  l ≫= f = mjoin (f <$> l).
Proof. induction l as [|x l IH]; [done|]. csimpl. by rewrite IH. Qed.

Lemma lookup_valores (img : matrix) (w i j : nat) linha p c z :
  Forall (fun l => length l = w) img ->
  img !! i = Some linha -> linha !! j = Some p ->
  [p.1.1; p.1.2; p.2] !! c = Some z ->
  valores img !! ((i * w + j) * 3 + c)%nat = Some z.
Proof.
  intros Hw Hi Hj Hc. unfold valores, canais_de.
  assert (Hflat : mjoin img !! (i * w + j)%nat = Some p).
  { apply (join_lookup_Some_same_length' w); [done| |by eauto].
    rewrite <- (proj1 (Forall_lookup _ _) Hw _ _ Hi).
    by eapply lookup_lt_Some. }
  assert (Heq : img ≫= (fun linha => linha ≫= (fun p : pixel => [p.1.1; p.1.2; p.2]))
                = mjoin ((fun p : pixel => [p.1.1; p.1.2; p.2]) <$> mjoin img)).
  { clear. induction img as [|l img IH]; [done|].
    csimpl. rewrite IH. by rewrite fmap_app, join_app, bind_join_fmap. }
  rewrite Heq.
  apply (join_lookup_Some_same_length' 3).
  - apply Forall_fmap, Forall_forall. by intros [[??]?] _.
  - apply lookup_lt_Some in Hc. simpl in Hc. lia.
  - eexists. split; [|exact Hc]. by rewrite list_lookup_fmap, Hflat.
Qed.

(** The loops of the decoder rebuild a rectangular image from its values. *)
Lemma montar_matriz_valores (img : matrix) (w : nat) :
  Forall (fun l => length l = w) img ->
  montar_matriz (valores img) (Z.of_nat w) (Z.of_nat (length img)) = Ok img.
Proof.
  intros Hw. unfold montar_matriz.
  apply mapM_range_lista. intros i linha Hi.
  rewrite <- (proj1 (Forall_lookup _ _) Hw _ _ Hi).
  apply mapM_range_lista. intros j [[r g] b] Hj. cbv zeta.
  rewrite (proj1 (Forall_lookup _ _) Hw _ _ Hi).
  replace ((Z.of_nat i * Z.of_nat w + Z.of_nat j) * 3)
    with (Z.of_nat ((i * w + j) * 3 + 0)) by lia.
  rewrite (getitem_Ok _ _ r)
    by (by apply (lookup_valores img w i j linha (r, g, b) 0)).
  replace (Z.of_nat ((i * w + j) * 3 + 0) + 1)
    with (Z.of_nat ((i * w + j) * 3 + 1)) by lia.
  rewrite bind_Ok, (getitem_Ok _ _ g)
    by (by apply (lookup_valores img w i j linha (r, g, b) 1)).
  replace (Z.of_nat ((i * w + j) * 3 + 0) + 2)
    with (Z.of_nat ((i * w + j) * 3 + 2)) by lia.
  by rewrite bind_Ok, (getitem_Ok _ _ b)
    by (by apply (lookup_valores img w i j linha (r, g, b) 2)).
Qed.

Lemma salvar_ppm_p3_Ok W caminho s img linha0 :
  open_w W caminho = true -> resultado s = Some img ->
  img !! 0%nat = Some linha0 ->
  salvar_ppm_p3 W caminho s
  = (escrever W caminho
       (texto_ppm img (Z.of_nat (length linha0)) (Z.of_nat (length img))),
     Ok tt).
Proof.
  intros Hw Hr H0. unfold salvar_ppm_p3. rewrite Hw, Hr, getitem_0.
  destruct img as [|l0 img]; [done|]. by injection H0 as ->.
Qed.

(** ** Loops with an invariant *)

Lemma for_each_inv_gen {A S} (I : list A -> S -> Prop) (body : S -> A -> res S)
    (pre l : list A) (s : S) :
  I pre s ->
  (forall feitos x s, x ∈ l -> I feitos s ->
                      exists s', body s x = Ok s' /\ I (feitos ++ [x]) s') ->
  exists s', for_each l body s = Ok s' /\ I (pre ++ l) s'.
Proof.
  revert pre s. induction l as [|x l IH]; intros pre s Hpre Hbody.
  - exists s. by rewrite app_nil_r.
  - destruct (Hbody pre x s) as (s1 & Hs1 & HI1);
      [apply elem_of_cons; by left|done|].
    destruct (IH (pre ++ [x]) s1 HI1) as (s' & Hs' & HI').
    { intros feitos y s2 Hy. apply Hbody. apply elem_of_cons. by right. }
    exists s'. simpl. rewrite Hs1, bind_Ok. split; [done|].
    by rewrite <- app_assoc in HI'.
Qed.

Lemma for_each_inv {A S} (I : list A -> S -> Prop) (body : S -> A -> res S)
    (l : list A) (s : S) :
  I [] s ->
  (forall feitos x s, x ∈ l -> I feitos s ->
                      exists s', body s x = Ok s' /\ I (feitos ++ [x]) s') ->
  exists s', for_each l body s = Ok s' /\ I l s'.
Proof. intros. by apply (for_each_inv_gen I body [] l s). Qed.

(** ** Writing a cell *)

Lemma setitem_Ok {A} (l : list A) (i : nat) v :
  (i < length l)%nat -> setitem l (Z.of_nat i) v = Ok (<[i := v]> l).
Proof.
  intros Hi. unfold setitem.
  destruct (Z.of_nat i <? 0) eqn:E1; [lia|]. rewrite E1.
  destruct (Z.of_nat (length l) <=? Z.of_nat i) eqn:E2; [lia|].
  simpl. by rewrite Nat2Z.id.
Qed.

Lemma setitem2_Ok nova (a b w h : nat) v :
  forma nova w h -> (a < w)%nat -> (b < h)%nat ->
  exists nova',
    setitem2 nova (Z.of_nat a) (Z.of_nat b) v = Ok nova'
    /\ forma nova' w h
    /\ forall a' b',
         cel nova' a' b'
         = if decide (a' = a /\ b' = b) then Some v else cel nova a' b'.
Proof.
  intros [Hw Hh] Ha Hb.
  destruct (lookup_lt_is_Some_2 nova a ltac:(lia)) as [linha Hl].
  pose proof (proj1 (Forall_lookup _ _) Hh _ _ Hl) as Hlen. simpl in Hlen.
  exists (<[a := <[b := v]> linha]> nova). split; [|split].
  - unfold setitem2. rewrite (getitem_Ok _ _ _ Hl), bind_Ok.
    rewrite setitem_Ok, bind_Ok by lia. apply setitem_Ok. lia.
  - split; [by rewrite length_insert|].
    apply Forall_insert; [done|]. by rewrite length_insert.
  - intros a' b'. unfold cel.
    destruct (decide (a' = a)) as [->|Hne].
    + rewrite list_lookup_insert_eq by lia. simpl. rewrite Hl. simpl.
      destruct (decide (b' = b)) as [->|Hneb].
      * rewrite decide_True by done. apply list_lookup_insert_eq. lia.
      * rewrite decide_False by tauto. by apply list_lookup_insert_ne.
    + rewrite decide_False by tauto. by rewrite list_lookup_insert_ne.
Qed.

(** ** Filling the rotated matrix *)

Lemma range_nat x n :
  x ∈ range (Z.of_nat n) -> exists i, x = Z.of_nat i /\ (i < n)%nat.
Proof.
  intros Hx. apply elem_of_range in Hx. exists (Z.to_nat x). lia.
Qed.

Lemma nova_vazia_forma h w : forma (nova_vazia (Z.of_nat h) (Z.of_nat w)) w h.
Proof.
  unfold nova_vazia, forma. rewrite !Nat2Z.id. split.
  - apply length_replicate.
  - apply Forall_replicate, length_replicate.
Qed.

Section Preencher.
Context (img : matrix) (h w : nat).
Context (D : Z -> Z -> Z * Z) (Dinv : nat -> nat -> nat * nat).
Hypothesis Hh : length img = h.
Hypothesis Hw : Forall (fun l => length l = w) img.
Hypothesis HD : forall i j, (i < h)%nat -> (j < w)%nat ->
  exists a b, D (Z.of_nat i) (Z.of_nat j) = (Z.of_nat a, Z.of_nat b)
              /\ (a < w)%nat /\ (b < h)%nat /\ Dinv a b = (i, j).
Hypothesis HDinv : forall a b, (a < w)%nat -> (b < h)%nat ->
  ((Dinv a b).1 < h)%nat /\ ((Dinv a b).2 < w)%nat
  /\ D (Z.of_nat (Dinv a b).1) (Z.of_nat (Dinv a b).2)
     = (Z.of_nat a, Z.of_nat b).

Lemma pixel_at_getitem i j :
  (i < h)%nat -> (j < w)%nat ->
  exists linha, getitem img (Z.of_nat i) = Ok linha
                /\ getitem linha (Z.of_nat j) = Ok (Spec.pixel_at img i j).
Proof.
  intros Hi Hj.
  destruct (lookup_lt_is_Some_2 img i ltac:(lia)) as [linha Hl].
  pose proof (proj1 (Forall_lookup _ _) Hw _ _ Hl) as Hlen. simpl in Hlen.
  destruct (lookup_lt_is_Some_2 linha j ltac:(lia)) as [p Hp].
  exists linha. split; [by apply getitem_Ok|].
  unfold Spec.pixel_at.
  rewrite (list_lookup_total_correct _ _ _ Hl).
  rewrite (list_lookup_total_correct _ _ _ Hp).
  by apply getitem_Ok.
Qed.

Lemma preencher_passo P nova i j :
  (i < h)%nat -> (j < w)%nat -> preenchido img w h D P nova ->
  exists nova',
    (linha ← getitem img (Z.of_nat i);
     p ← getitem linha (Z.of_nat j);
     let '(dj, dc) := D (Z.of_nat i) (Z.of_nat j) in
     setitem2 nova dj dc (Some p)) = Ok nova'
    /\ preenchido img w h D (fun i' j' => P i' j' \/ (i' = i /\ j' = j)) nova'.
Proof.
  intros Hi Hj [Hforma Hcel].
  destruct (pixel_at_getitem i j Hi Hj) as (linha & -> & Hp).
  rewrite bind_Ok, Hp, bind_Ok.
  destruct (HD i j Hi Hj) as (a & b & ED & Ha & Hb & Hinv). rewrite ED.
  destruct (setitem2_Ok nova a b w h (Some (Spec.pixel_at img i j)) Hforma Ha Hb)
    as (nova' & -> & Hforma' & Hcel').
  exists nova'. split; [done|]. split; [done|].
  intros i' j' a' b' HP Hi' Hj' HD'. rewrite Hcel'.
  destruct (decide (a' = a /\ b' = b)) as [[-> ->]|Hne].
  - destruct (HD i' j' Hi' Hj') as (a2 & b2 & E2 & _ & _ & Hinv2).
    rewrite HD' in E2. injection E2 as E2a E2b.
    apply Nat2Z.inj in E2a, E2b. subst a2 b2.
    rewrite Hinv in Hinv2. by injection Hinv2 as -> ->.
  - destruct HP as [HP|[-> ->]]; [by eapply Hcel|].
    destruct Hne. rewrite ED in HD'. injection HD' as Ea Eb.
    split; symmetry; by apply Nat2Z.inj.
Qed.

Lemma preenchido_ext (P Q : nat -> nat -> Prop) nova :
  (forall i j, (i < h)%nat -> (j < w)%nat -> Q i j -> P i j) ->
  preenchido img w h D P nova -> preenchido img w h D Q nova.
Proof. intros HQP [Hf Hc]. split; [done|]. intros i j a b HQ ???. eauto. Qed.

Lemma preencher_linha P nova i :
  (i < h)%nat -> preenchido img w h D P nova ->
  exists nova',
    for_each (range (Z.of_nat w))
      (fun nova j =>
         linha ← getitem img (Z.of_nat i);
         p ← getitem linha j;
         let '(dj, dc) := D (Z.of_nat i) j in
         setitem2 nova dj dc (Some p))
      nova = Ok nova'
    /\ preenchido img w h D (fun i' j' => P i' j' \/ i' = i) nova'.
Proof.
  intros Hi HP.
  destruct (for_each_inv
              (fun feitos s =>
                 preenchido img w h D
                   (fun i' j' => P i' j' \/ (i' = i /\ Z.of_nat j' ∈ feitos)) s)
              (fun nova j =>
                 linha ← getitem img (Z.of_nat i);
                 p ← getitem linha j;
                 let '(dj, dc) := D (Z.of_nat i) j in
                 setitem2 nova dj dc (Some p))
              (range (Z.of_nat w)) nova) as (nova' & Hn & HI).
  - eapply preenchido_ext; [|exact HP]. intros i' j' _ _ [?|[_ H]]; [done|].
    by apply elem_of_nil in H.
  - intros feitos x s Hx Hs. apply range_nat in Hx as (j & -> & Hj).
    destruct (preencher_passo _ s i j Hi Hj Hs) as (s' & Hs' & HP').
    exists s'. split; [done|].
    eapply preenchido_ext; [|exact HP'].
    intros i' j' _ _ [?|[-> H]]; [by left; left|].
    apply elem_of_app in H as [H|H]; [left; right; by split|].
    apply list_elem_of_singleton in H. right. split; [done|lia].
  - exists nova'. split; [done|].
    eapply preenchido_ext; [|exact HI].
    intros i' j' _ Hj' [?| ->]; [by left|]. right. split; [done|].
    apply elem_of_range. lia.
Qed.

Lemma preencher_preenchido :
  exists nova',
    preencher img (Z.of_nat h) (Z.of_nat w) D = Ok nova'
    /\ preenchido img w h D (fun _ _ => True) nova'.
Proof.
  unfold preencher.
  destruct (for_each_inv
              (fun feitos s =>
                 preenchido img w h D (fun i' _ => Z.of_nat i' ∈ feitos) s)
              (fun nova i =>
                 for_each (range (Z.of_nat w))
                   (fun nova j =>
                      linha ← getitem img i;
                      p ← getitem linha j;
                      let '(dj, dc) := D i j in
                      setitem2 nova dj dc (Some p))
                   nova)
              (range (Z.of_nat h)) (nova_vazia (Z.of_nat h) (Z.of_nat w)))
    as (nova' & Hn & HI).
  - split; [apply nova_vazia_forma|]. intros i j a b H.
    by apply elem_of_nil in H.
  - intros feitos x s Hx Hs. apply range_nat in Hx as (i & -> & Hi).
    destruct (preencher_linha _ s i Hi Hs) as (s' & Hs' & HP').
    exists s'. split; [done|].
    eapply preenchido_ext; [|exact HP'].
    intros i' j' _ _ H. apply elem_of_app in H as [H|H]; [by left|].
    apply list_elem_of_singleton in H. right. lia.
  - exists nova'. split; [done|].
    eapply preenchido_ext; [|exact HI].
    intros i' j' Hi' _ _. apply elem_of_range. lia.
Qed.

Lemma preenchido_congelar nova :
  preenchido img w h D (fun _ _ => True) nova ->
  congelar nova = Some (rearranjo img w h Dinv).
Proof.
  intros [[Hlw Hlh] Hcel]. unfold congelar, rearranjo.
  apply mapM_Some_2, Forall2_same_length_lookup_2.
  { by rewrite length_fmap, length_seq. }
  intros a celulas linha Hc Hl.
  apply list_lookup_fmap_Some in Hl as (a' & -> & Ha').
  apply lookup_seq in Ha' as [-> Ha]. simpl.
  pose proof (proj1 (Forall_lookup _ _) Hlh _ _ Hc) as Hlen. simpl in Hlen.
  apply mapM_Some_2, Forall2_same_length_lookup_2.
  { by rewrite length_fmap, length_seq. }
  intros b c p Hcb Hp.
  apply list_lookup_fmap_Some in Hp as (b' & -> & Hb').
  apply lookup_seq in Hb' as [-> Hb]. simpl.
  destruct (HDinv a b Ha Hb) as (Hi & Hj & ED).
  pose proof (Hcel _ _ a b I Hi Hj ED) as H.
  unfold cel in H. rewrite Hc in H. simpl in H. rewrite Hcb in H.
  by injection H as ->.
Qed.

Lemma preencher_Ok :
  exists nova',
    preencher img (Z.of_nat h) (Z.of_nat w) D = Ok nova'
    /\ congelar nova' = Some (rearranjo img w h Dinv).
Proof.
  destruct preencher_preenchido as (nova' & Hn & Hp).
  exists nova'. split; [done|]. by apply preenchido_congelar.
Qed.

End Preencher.

(** ** The rotations and the segmentation against their specification *)

Lemma rotacionar_rearranjo destino Dinv s img linha0 :
  resultado s = Some img -> img !! 0%nat = Some linha0 ->
  Forall (fun l => length l = length linha0) img ->
  (forall i j, (i < length img)%nat -> (j < length linha0)%nat ->
     exists a b,
       destino (Z.of_nat (length img)) (Z.of_nat (length linha0))
         (Z.of_nat i) (Z.of_nat j) = (Z.of_nat a, Z.of_nat b)
       /\ (a < length linha0)%nat /\ (b < length img)%nat
       /\ Dinv a b = (i, j)) ->
  (forall a b, (a < length linha0)%nat -> (b < length img)%nat ->
     ((Dinv a b).1 < length img)%nat /\ ((Dinv a b).2 < length linha0)%nat
     /\ destino (Z.of_nat (length img)) (Z.of_nat (length linha0))
          (Z.of_nat (Dinv a b).1) (Z.of_nat (Dinv a b).2)
        = (Z.of_nat a, Z.of_nat b)) ->
  rotacionar destino s
  = (set_resultado (rearranjo img (length linha0) (length img) Dinv) s, Ok tt).
Proof.
  intros Hr H0 Hw HD HDinv. unfold rotacionar.
  rewrite Hr, getitem_0.
  destruct img as [|l0 img'] eqn:E; [done|]. injection H0 as ->.
  rewrite <- E in *. rewrite bind_Ok.
  destruct (preencher_Ok img (length img) (length linha0)
              (destino (Z.of_nat (length img)) (Z.of_nat (length linha0)))
              Dinv eq_refl Hw HD HDinv) as (nova & -> & Hc).
  by rewrite bind_Ok, Hc.
Qed.

Lemma rotacionar_direita_Spec s img :
  resultado s = Some img -> pixel_matrix img ->
  rotacionar_direita s = (set_resultado (Spec.rotateClockwise90 img) s, Ok tt).
Proof.
  intros Hr [(linha0 & H0 & Hpos & Hw) _]. unfold rotacionar_direita.
  rewrite (rotacionar_rearranjo _
             (fun a b => ((length img - 1 - b)%nat, a)) s img linha0); try done.
  - unfold Spec.rotateClockwise90, rearranjo.
    by rewrite (list_lookup_total_correct _ _ _ H0).
  - intros i j Hi Hj. exists j, (length img - 1 - i)%nat.
    repeat split; try lia.
    + f_equal. lia.
    + f_equal. lia.
  - intros a b Ha Hb. simpl. repeat split; try lia. f_equal. lia.
Qed.

Lemma rotacionar_esquerda_Spec s img :
  resultado s = Some img -> pixel_matrix img ->
  rotacionar_esquerda s
  = (set_resultado (Spec.rotateCounterClockwise90 img) s, Ok tt).
Proof.
  intros Hr [(linha0 & H0 & Hpos & Hw) _]. unfold rotacionar_esquerda.
  rewrite (rotacionar_rearranjo _
             (fun a b => (b, (length linha0 - 1 - a)%nat)) s img linha0);
    try done.
  - unfold Spec.rotateCounterClockwise90, rearranjo.
    by rewrite (list_lookup_total_correct _ _ _ H0).
  - intros i j Hi Hj. exists (length linha0 - 1 - j)%nat, i.
    repeat split; try lia.
    + f_equal. lia.
    + f_equal. lia.
  - intros a b Ha Hb. simpl. repeat split; try lia. f_equal. lia.
Qed.

(** The rotation of the specification, pixel by pixel. *)
Lemma rotateClockwise90_pixel (m : matrix) (h w i j : nat) :
  dimensoes m h w -> (i < h)%nat -> (j < w)%nat ->
  dimensoes (Spec.rotateClockwise90 m) w h
  /\ Spec.pixel_at (Spec.rotateClockwise90 m) j (h - 1 - i)
     = Spec.pixel_at m i j.
Proof.
  intros [Hh Hw] Hi Hj. unfold Spec.rotateClockwise90.
  assert (Hw0 : length (m !!! 0%nat) = w).
  { destruct m as [|l m]; [simpl in Hh; lia|]. by inversion Hw. }
  rewrite Hw0, Hh. split.
  - split; [by rewrite length_fmap, length_seq|].
    apply Forall_fmap, Forall_forall. intros a _. simpl.
    by rewrite length_fmap, length_seq.
  - unfold Spec.pixel_at at 1.
    rewrite (list_lookup_total_fmap _ _ j) by (rewrite length_seq; lia).
    rewrite (list_lookup_total_fmap _ _ (h - 1 - i))
      by (rewrite length_seq; lia).
    rewrite !lookup_total_seq_lt by lia. simpl. f_equal. lia.
Qed.

Lemma cor_proxima_3 tr tg tb tolerancia (p : pixel) :
  cor_proxima [tr; tg; tb] tolerancia p (range 3)
  = Ok ((Z.abs (p.1.1 - tr) <=? tolerancia)
        && (Z.abs (p.1.2 - tg) <=? tolerancia)
        && (Z.abs (p.2 - tb) <=? tolerancia)).
Proof.
  destruct p as [[r g] b]. change (range 3) with [0; 1; 2]. simpl.
  change (getitem [tr; tg; tb] 0) with (Ok tr).
  change (getitem [tr; tg; tb] 1) with (Ok tg).
  change (getitem [tr; tg; tb] 2) with (Ok tb).
  simpl.
  destruct (Z.abs (r - tr) <=? tolerancia); [|done].
  destruct (Z.abs (g - tg) <=? tolerancia); [|done].
  by destruct (Z.abs (b - tb) <=? tolerancia).
Qed.

Lemma segmentar_por_cor_Spec s img (alvo : pixel) tolerancia :
  resultado s = Some img ->
  segmentar_por_cor [alvo.1.1; alvo.1.2; alvo.2] tolerancia s
  = (set_resultado (Spec.segmentByColor img alvo tolerancia) s, Ok tt).
Proof.
  intros Hr. unfold segmentar_por_cor. rewrite Hr.
  rewrite (mapM_Ok_fmap _
             (fun linha : list pixel =>
                (fun p : pixel =>
                   if (Z.abs (p.1.1 - alvo.1.1) <=? tolerancia)
                      && (Z.abs (p.1.2 - alvo.1.2) <=? tolerancia)
                      && (Z.abs (p.2 - alvo.2) <=? tolerancia)
                   then p else (0, 0, 0)) <$> linha)); [done|].
  apply Forall_forall. intros linha _.
  apply mapM_Ok_fmap, Forall_forall. intros p _.
  by rewrite cor_proxima_3, bind_Ok.
Qed.

Lemma rotateCounterClockwise90_pixel (m : matrix) (h w i j : nat) :
  dimensoes m h w -> (i < h)%nat -> (j < w)%nat ->
  dimensoes (Spec.rotateCounterClockwise90 m) w h
  /\ Spec.pixel_at (Spec.rotateCounterClockwise90 m) (w - 1 - j) i
     = Spec.pixel_at m i j.
Proof.
  intros [Hh Hw] Hi Hj. unfold Spec.rotateCounterClockwise90.
  assert (Hw0 : length (m !!! 0%nat) = w).
  { destruct m as [|l m]; [simpl in Hh; lia|]. by inversion Hw. }
  rewrite Hw0, Hh. split.
  - split; [by rewrite length_fmap, length_seq|].
    apply Forall_fmap, Forall_forall. intros a _. simpl.
    by rewrite length_fmap, length_seq.
  - unfold Spec.pixel_at at 1.
    rewrite (list_lookup_total_fmap _ _ (w - 1 - j))
      by (rewrite length_seq; lia).
    rewrite (list_lookup_total_fmap _ _ i) by (rewrite length_seq; lia).
    rewrite !lookup_total_seq_lt by lia. simpl. f_equal. lia.
Qed.

Lemma substitui_resultado_set s m :
  substitui_resultado s m (set_resultado m s, Ok tt).
Proof. by repeat split. Qed.

(** ** No cell of a rotated matrix is left at [None] *)

Lemma for_each_Ok_inv_gen {A S} (I : list A -> S -> Prop)
    (body : S -> A -> res S) (pre l : list A) (s s' : S) :
  for_each l body s = Ok s' -> I pre s ->
  (forall feitos x s s1, x ∈ l -> I feitos s -> body s x = Ok s1 ->
                         I (feitos ++ [x]) s1) ->
  I (pre ++ l) s'.
Proof.
  revert pre s. induction l as [|x l IH]; intros pre s Hf Hpre Hbody.
  - injection Hf as <-. by rewrite app_nil_r.
  - simpl in Hf. destruct (body s x) as [s1|] eqn:E; [|done].
    rewrite bind_Ok in Hf.
    rewrite (app_assoc pre [x] l : pre ++ x :: l = (pre ++ [x]) ++ l).
    apply (IH (pre ++ [x]) s1 Hf).
    + apply (Hbody pre x s s1); [apply elem_of_cons; by left|done..].
    + intros feitos y s2 s3 Hy. apply Hbody. apply elem_of_cons. by right.
Qed.

Section SemNone.
Context (img : matrix) (h w : nat).
Context (D : Z -> Z -> Z * Z) (Dinv : nat -> nat -> nat * nat).
Hypothesis HD : forall i j, (i < h)%nat -> (j < w)%nat ->
  exists a b, D (Z.of_nat i) (Z.of_nat j) = (Z.of_nat a, Z.of_nat b)
              /\ (a < w)%nat /\ (b < h)%nat.
Hypothesis HDinv : forall a b, (a < w)%nat -> (b < h)%nat ->
  ((Dinv a b).1 < h)%nat /\ ((Dinv a b).2 < w)%nat
  /\ D (Z.of_nat (Dinv a b).1) (Z.of_nat (Dinv a b).2)
     = (Z.of_nat a, Z.of_nat b).

Lemma escrito_ext (P Q : nat -> nat -> Prop) nova :
  (forall i j, (i < h)%nat -> (j < w)%nat -> Q i j -> P i j) ->
  escrito w h D P nova -> escrito w h D Q nova.
Proof. intros HQP [Hf Hc]. split; [done|]. intros i j a b HQ ???. eauto. Qed.

Lemma escrito_passo P nova nova' i j :
  (i < h)%nat -> (j < w)%nat -> escrito w h D P nova ->
  (linha ← getitem img (Z.of_nat i);
   p ← getitem linha (Z.of_nat j);
   let '(dj, dc) := D (Z.of_nat i) (Z.of_nat j) in
   setitem2 nova dj dc (Some p)) = Ok nova' ->
  escrito w h D (fun i' j' => P i' j' \/ (i' = i /\ j' = j)) nova'.
Proof.
  intros Hi Hj [Hforma Hcel].
  destruct (getitem img (Z.of_nat i)) as [linha|]; [rewrite bind_Ok|done].
  destruct (getitem linha (Z.of_nat j)) as [p|]; [rewrite bind_Ok|done].
  destruct (HD i j Hi Hj) as (a & b & ED & Ha & Hb). rewrite ED.
  destruct (setitem2_Ok nova a b w h (Some p) Hforma Ha Hb)
    as (nova2 & -> & Hforma' & Hcel').
  intros [= <-]. split; [done|].
  intros i' j' a' b' HP Hi' Hj' HD'. rewrite Hcel'.
  destruct (decide (a' = a /\ b' = b)) as [_|Hne]; [by eexists|].
  destruct HP as [HP|[-> ->]]; [by eapply Hcel|].
  destruct Hne. rewrite ED in HD'. injection HD' as Ea Eb.
  split; symmetry; by apply Nat2Z.inj.
Qed.

Lemma preencher_escrito nova :
  preencher img (Z.of_nat h) (Z.of_nat w) D = Ok nova ->
  escrito w h D (fun _ _ => True) nova.
Proof.
  unfold preencher. intros Hf.
  apply (escrito_ext (fun i' _ => Z.of_nat i' ∈ range (Z.of_nat h))).
  { intros i' j' Hi' _ _. apply elem_of_range. lia. }
  apply (for_each_Ok_inv_gen
           (fun feitos s => escrito w h D (fun i' _ => Z.of_nat i' ∈ feitos) s)
           _ [] _ _ _ Hf).
  - split; [apply nova_vazia_forma|]. intros i j a b H.
    by apply elem_of_nil in H.
  - intros feitos x s s1 Hx Hs Hlinha.
    apply range_nat in Hx as (i & -> & Hi).
    apply (escrito_ext
             (fun i' j' => Z.of_nat i' ∈ feitos
                           \/ (i' = i /\ Z.of_nat j' ∈ range (Z.of_nat w)))).
    { intros i' j' _ Hj' H. apply elem_of_app in H as [H|H]; [by left|].
      apply list_elem_of_singleton in H. right.
      split; [lia|apply elem_of_range; lia]. }
    apply (for_each_Ok_inv_gen
             (fun feitos_j s' =>
                escrito w h D
                  (fun i' j' => Z.of_nat i' ∈ feitos
                                \/ (i' = i /\ Z.of_nat j' ∈ feitos_j)) s')
             _ [] _ _ _ Hlinha).
    + eapply escrito_ext; [|exact Hs]. intros i' j' _ _ [?|[_ H]]; [done|].
      by apply elem_of_nil in H.
    + intros feitos_j y s2 s3 Hy Hs2 Hpasso.
      apply range_nat in Hy as (j & -> & Hj).
      eapply escrito_ext; [|exact (escrito_passo _ s2 s3 i j Hi Hj Hs2 Hpasso)].
      intros i' j' _ _ [?|[-> H]]; [by left; left|].
      apply elem_of_app in H as [H|H]; [left; right; by split|].
      apply list_elem_of_singleton in H. right. split; [done|lia].
Qed.

(** Whenever the loops of a rotation run to their end, every cell of
    [nova] has been assigned. *)
Lemma preencher_sem_None nova :
  preencher img (Z.of_nat h) (Z.of_nat w) D = Ok nova ->
  is_Some (congelar nova).
Proof.
  intros Hf. destruct (preencher_escrito nova Hf) as [[Hlw Hlh] Hcel].
  unfold congelar. apply mapM_is_Some_2, Forall_lookup.
  intros a linha Ha. unfold compose.
  pose proof (proj1 (Forall_lookup _ _) Hlh _ _ Ha) as Hlen. simpl in Hlen.
  apply mapM_is_Some_2, Forall_lookup. intros b c Hb. unfold compose.
  assert (Ha' : (a < w)%nat) by (apply lookup_lt_Some in Ha; lia).
  assert (Hb' : (b < h)%nat) by (apply lookup_lt_Some in Hb; lia).
  destruct (HDinv a b Ha' Hb') as (Hi & Hj & ED).
  destruct (Hcel _ _ a b I Hi Hj ED) as [p Hp].
  unfold cel in Hp. rewrite Ha in Hp. simpl in Hp. rewrite Hb in Hp.
  injection Hp as ->. by eexists.
Qed.

End SemNone.

(** The branch of [rotacionar] that answers a [None] cell is never taken,
    whatever the image. *)
Lemma rotacionar_direita_sem_None (img : matrix) (w : nat) nova :
  preencher img (Z.of_nat (length img)) (Z.of_nat w)
    (fun i j => (j, Z.of_nat (length img) - 1 - i)) = Ok nova ->
  is_Some (congelar nova).
Proof.
  apply (preencher_sem_None img (length img) w _
           (fun a b => ((length img - 1 - b)%nat, a))).
  - intros i j Hi Hj. exists j, (length img - 1 - i)%nat.
    repeat split; try lia. f_equal. lia.
  - intros a b Ha Hb. simpl. repeat split; try lia. f_equal. lia.
Qed.

Lemma rotacionar_esquerda_sem_None (img : matrix) (w : nat) nova :
  preencher img (Z.of_nat (length img)) (Z.of_nat w)
    (fun i j => (Z.of_nat w - 1 - j, i)) = Ok nova ->
  is_Some (congelar nova).
Proof.
  apply (preencher_sem_None img (length img) w _
           (fun a b => (b, (w - 1 - a)%nat))).
  - intros i j Hi Hj. exists (w - 1 - j)%nat, i.
    repeat split; try lia. f_equal. lia.
  - intros a b Ha Hb. simpl. repeat split; try lia. f_equal. lia.
Qed.

(** ** Scenarios of the specification *)

Example rotacionar_direita_exemplo :
  (rotacionar_direita
     (sessao [[(10, 20, 30); (40, 50, 60)]; [(70, 80, 90); (100, 110, 120)]]
        exemplo_b)).1.(resultado)
  = Some [[(70, 80, 90); (10, 20, 30)]; [(100, 110, 120); (40, 50, 60)]].
Proof. vm_compute. reflexivity. Qed.

Example carregar_ppm_p3_exemplo :
  carregar_ppm_p3
    (mundo_com (PyStr.lit "P3" ++ [PyStr.newline] ++ PyStr.lit "1 1"
                ++ [PyStr.newline] ++ PyStr.lit "255" ++ [PyStr.newline]
                ++ PyStr.lit "10 20 30" ++ [PyStr.newline])) "a.ppm"
  = Ok [[(10, 20, 30)]].
Proof. vm_compute. reflexivity. Qed.

Example segmentar_por_cor_exemplo :
  (segmentar_por_cor [255; 0; 0] 10
     (sessao [[(250, 5, 2); (200, 0, 0)]] exemplo_b)).1.(resultado)
  = Some [[(250, 5, 2); (0, 0, 0)]].
Proof. vm_compute. reflexivity. Qed.

Example segmentar_por_cor_alvo_curto :
  (segmentar_por_cor [255] 10 (sessao [[(200, 0, 0)]] exemplo_b)).2 = Ok tt
  /\ (segmentar_por_cor [255] 10 (sessao [[(250, 0, 0)]] exemplo_b)).2
     = Raise IndexError.
Proof. split; vm_compute; reflexivity. Qed.

Example sessao_fora_de_8bit_campos :
  original sessao_fora_de_8bit = Some [[(300, -5, 70000)]]
  /\ alpha_frames sessao_fora_de_8bit
     = [ [[(0, 0, 0)]]; [[(60, -1, 14000)]]; [[(120, -2, 28000)]];
         [[(180, -3, 42000)]]; [[(240, -4, 56000)]]; [[(300, -5, 70000)]] ]
  /\ alpha_index sessao_fora_de_8bit = 2%nat
  /\ (aplicar_mistura
        (executar (mundo_com ppm_fora_de_8bit) AvancarTransparencia
           (executar (mundo_com ppm_fora_de_8bit) AvancarTransparencia
              (executar (mundo_com ppm_fora_de_8bit) TransparenciaPreto
                 (executar (mundo_com ppm_fora_de_8bit)
                    (CarregarImagem "a.ppm") init))))).2
     = Raise ValueError.
Proof. repeat split; vm_compute; reflexivity. Qed.

(** * The claims *)

(** C1 as stated fails: the transforms leave [alpha_frames] alone. After
    loading an image, starting the fade, stepping once and mirroring, the
    frame sequence still has its 6 frames and [resultado] is the mirror of
    the frame under the cursor, not that frame. *)
Lemma result_tracks_cursor_counterexample :
  alcancavel qualquer_chamada sessao_espelhada
  /\ alpha_frames sessao_espelhada <> []
  /\ resultado sessao_espelhada = Some [[(8, 10, 12); (2, 4, 6)]]
  /\ alpha_frames sessao_espelhada !! alpha_index sessao_espelhada
     = Some [[(2, 4, 6); (8, 10, 12)]]
  /\ resultado sessao_espelhada
     <> alpha_frames sessao_espelhada !! alpha_index sessao_espelhada.
Proof.
  split.
  { apply alc_passo; [done|]. apply sessao_animada_alcancavel. }
  unfold sessao_espelhada. rewrite sessao_animada_campos.
  repeat split; try done.
Qed.

(** C1, amended. Over every sequence of calls, returning or raising, in any
    world and whatever integers the images hold, [resultado] is the frame
    under the cursor of a non-empty frame sequence unless a
    [carregar_imagem], a geometric transform or a segmentation has returned
    since the last call of [restaurar_original],
    [aplicar_transparencia_preto], [aplicar_mistura] or
    [avancar_transparencia] that returned: each of these four puts the
    equality back, whatever the session was, and every other call, and every
    call that raises, keeps it. *)
Theorem result_tracks_cursor (s : ImageProcessor) :
  em_dia s ->
  alpha_frames s <> [] -> resultado s = alpha_frames s !! alpha_index s.
Proof.
  intros H. change (resultado_no_cursor s).
  induction H as [s _ E|W c s _ Hc Hl|W c s _ IH Hc].
  - by intros ?.
  - by apply repoe_resultado_no_cursor.
  - destruct (sem_frames c) eqn:Ec.
    + by rewrite sem_frames_levantada by auto.
    + eapply efeito_resultado_no_cursor_sem; [apply executar_efeito|done..].
Qed.

Lemma result_tracks_cursor_witness :
  resultado (executar mundo_exemplo AvancarTransparencia sessao_espelhada)
  = alpha_frames (executar mundo_exemplo AvancarTransparencia sessao_espelhada)
      !! alpha_index
           (executar mundo_exemplo AvancarTransparencia sessao_espelhada).
Proof.
  apply (result_tracks_cursor
           (executar mundo_exemplo AvancarTransparencia sessao_espelhada)).
  - apply ed_repoe; [|reflexivity|vm_compute; reflexivity].
    apply alc_passo; [done|]. apply sessao_animada_alcancavel.
  - vm_compute. discriminate.
Defined.

(** C2 as stated fails: a file that declares one pixel and holds four
    values is decoded without error, the fourth value being ignored. *)
Lemma ppm_pixel_count_counterexample :
  ppm_bem_formado ppm_valor_a_mais 1 1 [1; 2; 3; 4]
  /\ Z.of_nat (length [1; 2; 3; 4]) <> 1 * 1 * 3
  /\ carregar_ppm_p3 (mundo_com ppm_valor_a_mais) "a.ppm" = Ok [[(1, 2, 3)]].
Proof. split; [|split]; [vm_compute; done|done|vm_compute; reflexivity]. Qed.

(** C2, amended. Decoding raises [OSError] when the file cannot be opened
    and [ValueError] when its first line is not [P3]. A file that follows
    the grammar is decoded when it holds at least width*height*3 values,
    those beyond that number being ignored; when it holds fewer, decoding
    raises [IndexError]. *)
Theorem ppm_decoding_outcomes (W : World) (caminho : string) :
  (open_r W caminho = None -> carregar_ppm_p3 W caminho = Raise OSError)
  /\ (forall f, open_r W caminho = Some f ->
        PyStr.strip (PyStr.readline f).1 <> PyStr.lit "P3" ->
        carregar_ppm_p3 W caminho = Raise ValueError)
  /\ (forall f largura altura dados,
        open_r W caminho = Some f ->
        ppm_bem_formado f largura altura dados ->
        0 < largura -> 0 < altura ->
        (largura * altura * 3 <= Z.of_nat (length dados) ->
         exists img, carregar_ppm_p3 W caminho = Ok img
                     /\ dimensoes img (Z.to_nat altura) (Z.to_nat largura)
                     /\ forall i j, 0 <= i < altura -> 0 <= j < largura ->
                          img !! Z.to_nat i ≫= (.!! Z.to_nat j)
                          = Some (pixel_em dados (i * largura + j)))
        /\ (Z.of_nat (length dados) < largura * altura * 3 ->
            carregar_ppm_p3 W caminho = Raise IndexError)).
Proof.
  split; [|split].
  - intros H. unfold carregar_ppm_p3. by rewrite H.
  - intros f. apply carregar_ppm_p3_magic.
  - intros f largura altura dados Hf Hbem Hl Ha.
    rewrite (carregar_ppm_p3_bem_formado W caminho f largura altura dados)
      by done.
    split.
    + intros Hlen. eexists. split; [apply montar_matriz_Ok; auto|].
      split; [split|].
      * unfold range. by rewrite length_fmap, length_seqZ.
      * apply Forall_fmap, Forall_forall. intros i _. simpl.
        unfold range. by rewrite length_fmap, length_seqZ.
      * intros i j Hi Hj. rewrite list_lookup_fmap.
        unfold range. rewrite lookup_seqZ_lt by lia. simpl.
        rewrite list_lookup_fmap, lookup_seqZ_lt by lia. simpl.
        do 2 f_equal; lia.
    + by apply montar_matriz_Raise.
Qed.

Lemma ppm_decoding_outcomes_witness :
  carregar_ppm_p3 mundo_exemplo "b.ppm" = Raise OSError
  /\ carregar_ppm_p3 (mundo_com (PyStr.lit "P6")) "a.ppm" = Raise ValueError
  /\ (exists img, carregar_ppm_p3 mundo_exemplo "a.ppm" = Ok img
                  /\ dimensoes img 1 2
                  /\ forall i j, 0 <= i < 1 -> 0 <= j < 2 ->
                       img !! Z.to_nat i ≫= (.!! Z.to_nat j)
                       = Some (pixel_em [10; 20; 30; 40; 50; 60] (i * 2 + j)))
  /\ carregar_ppm_p3 (mundo_com ppm_valor_a_menos) "a.ppm" = Raise IndexError.
Proof.
  split; [|split; [|split]].
  - apply (ppm_decoding_outcomes mundo_exemplo "b.ppm"). reflexivity.
  - apply (proj1 (proj2 (ppm_decoding_outcomes (mundo_com (PyStr.lit "P6")) "a.ppm"))
             (PyStr.lit "P6")); [reflexivity|]. vm_compute. discriminate.
  - apply (proj2 (proj2 (ppm_decoding_outcomes mundo_exemplo "a.ppm"))
             exemplo_ppm 2 1 [10; 20; 30; 40; 50; 60]).
    + reflexivity.
    + vm_compute. done.
    + lia.
    + lia.
    + simpl. lia.
  - apply (proj2 (proj2 (ppm_decoding_outcomes (mundo_com ppm_valor_a_menos) "a.ppm"))
             ppm_valor_a_menos 1 1 [1; 2]).
    + reflexivity.
    + vm_compute. done.
    + lia.
    + lia.
    + simpl. lia.
Defined.

(** C3 as stated fails: the code has no dimension check. A 1 by 2 original
    and a 2 by 3 second image differ in height and in width, and the blend
    returns normally with 11 frames. *)
Lemma crossfade_mismatch_counterexample :
  dimensoes exemplo_a 1 2 /\ dimensoes exemplo_grande 2 3
  /\ (aplicar_mistura (sessao exemplo_a exemplo_grande)).2 = Ok tt
  /\ length (alpha_frames (aplicar_mistura (sessao exemplo_a exemplo_grande)).1)
     = 11%nat.
Proof.
  split; [prova_dimensoes|]. split; [prova_dimensoes|].
  split; vm_compute; reflexivity.
Qed.

(** C3, amended. The blend performs no dimension check. It returns normally
    when the second image has a pixel wherever the original has one. When it
    has not, it raises [IndexError] after emptying the frame sequence; the
    other fields of the session are left as they were. *)
Theorem crossfade_without_dimension_check (s : ImageProcessor)
    (im1 im2 : matrix) :
  original s = Some im1 -> second_image s = Some im2 ->
  pixel_matrix im1 -> imagem_8bit im2 ->
  (cobre im1 im2 -> (aplicar_mistura s).2 = Ok tt)
  /\ (~ cobre im1 im2 ->
      aplicar_mistura s = (set_alpha_frames [] s, Raise IndexError)).
Proof.
  intros Ho H2 [(l0 & H0 & Hw & Hrect) H81] H82. split.
  - intros Hcob. by rewrite (aplicar_mistura_ok s im1 im2 l0).
  - intros Hn.
    destruct (frame_mistura im1 im2 (Z.of_nat (length im1))
                (Z.of_nat (length l0)) 0) as [f0|e] eqn:Hf.
    + destruct Hn. apply (indexavel_cobre im1 im2 (length l0)); [done..|].
      by apply (frame_mistura_Ok_indexavel _ _ _ _ 0 f0).
    + rewrite (frame_mistura_Raise _ _ _ _ 0 e ltac:(lia) H81 H82 Hf) in Hf.
      by apply (aplicar_mistura_raise s im1 im2 l0).
Qed.

Lemma crossfade_without_dimension_check_witness :
  (cobre exemplo_grande exemplo_a ->
   (aplicar_mistura (sessao exemplo_grande exemplo_a)).2 = Ok tt)
  /\ (~ cobre exemplo_grande exemplo_a ->
      aplicar_mistura (sessao exemplo_grande exemplo_a)
      = (set_alpha_frames [] (sessao exemplo_grande exemplo_a),
         Raise IndexError)).
Proof.
  apply (crossfade_without_dimension_check (sessao exemplo_grande exemplo_a)
           exemplo_grande exemplo_a).
  - reflexivity.
  - reflexivity.
  - prova_pixel_matrix.
  - prova_8bit.
Defined.

(** C4 as stated fails: a transform leaves the frame sequence as it was.
    The session that is one step into a fade still has its 6 frames after a
    horizontal mirror, a rotation or a segmentation. *)
Lemma one_shot_transform_counterexample :
  alpha_frames sessao_animada <> []
  /\ length (alpha_frames (aplicar_espelhamento_horizontal sessao_animada).1)
     = 6%nat
  /\ length (alpha_frames (rotacionar_direita sessao_animada).1) = 6%nat
  /\ length (alpha_frames (segmentar_por_cor [2; 4; 6] 30 sessao_animada).1)
     = 6%nat.
Proof. rewrite sessao_animada_campos. repeat split; done. Qed.

(** C4, amended. For a session whose result satisfies the PixelMatrix
    invariant, each one-shot transform (mirror horizontal, mirror vertical,
    rotate clockwise, rotate counter-clockwise, colour segmentation) returns
    normally, replaces [resultado] with the transform of the current
    [resultado] and leaves the frame sequence and the cursor as they
    were. *)
Theorem one_shot_transform (s : ImageProcessor) (img : matrix)
    (alvo : pixel) (tolerancia : Z) :
  resultado s = Some img -> pixel_matrix img ->
  substitui_resultado s (Spec.mirrorHorizontal img)
    (aplicar_espelhamento_horizontal s)
  /\ substitui_resultado s (Spec.mirrorVertical img)
       (aplicar_espelhamento_vertical s)
  /\ substitui_resultado s (Spec.rotateClockwise90 img) (rotacionar_direita s)
  /\ substitui_resultado s (Spec.rotateCounterClockwise90 img)
       (rotacionar_esquerda s)
  /\ substitui_resultado s (Spec.segmentByColor img alvo tolerancia)
       (segmentar_por_cor [alvo.1.1; alvo.1.2; alvo.2] tolerancia s).
Proof.
  intros Hr Hpm. repeat split_and.
  - unfold aplicar_espelhamento_horizontal. rewrite Hr.
    apply substitui_resultado_set.
  - unfold aplicar_espelhamento_vertical. rewrite Hr.
    apply substitui_resultado_set.
  - rewrite (rotacionar_direita_Spec s img Hr Hpm).
    apply substitui_resultado_set.
  - rewrite (rotacionar_esquerda_Spec s img Hr Hpm).
    apply substitui_resultado_set.
  - rewrite (segmentar_por_cor_Spec s img alvo tolerancia Hr).
    apply substitui_resultado_set.
Qed.

Lemma one_shot_transform_witness :
  substitui_resultado sessao_animada
    (Spec.mirrorHorizontal [[(2, 4, 6); (8, 10, 12)]])
    (aplicar_espelhamento_horizontal sessao_animada)
  /\ substitui_resultado sessao_animada
       (Spec.mirrorVertical [[(2, 4, 6); (8, 10, 12)]])
       (aplicar_espelhamento_vertical sessao_animada)
  /\ substitui_resultado sessao_animada
       (Spec.rotateClockwise90 [[(2, 4, 6); (8, 10, 12)]])
       (rotacionar_direita sessao_animada)
  /\ substitui_resultado sessao_animada
       (Spec.rotateCounterClockwise90 [[(2, 4, 6); (8, 10, 12)]])
       (rotacionar_esquerda sessao_animada)
  /\ substitui_resultado sessao_animada
       (Spec.segmentByColor [[(2, 4, 6); (8, 10, 12)]] (2, 4, 6) 3)
       (segmentar_por_cor [2; 4; 6] 3 sessao_animada).
Proof.
  apply (one_shot_transform sessao_animada [[(2, 4, 6); (8, 10, 12)]]
           (2, 4, 6) 3).
  - rewrite sessao_animada_campos. reflexivity.
  - prova_pixel_matrix.
Defined.

(** C5 as stated fails: the method has no test for a missing original and
    the program defines no error of its own. With no original loaded the
    call raises the [TypeError] of iterating [None], the exception any
    misuse of [None] raises. *)
Lemma restaurar_original_counterexample :
  original init = None
  /\ restaurar_original init = (init, Raise TypeError)
  /\ aplicar_espelhamento_horizontal init = (init, Raise TypeError).
Proof. repeat split; reflexivity. Qed.

(** C5, amended. [restaurar_original] puts a copy of [original] in
    [resultado], empties the frame sequence and sets the cursor to 0 when an
    original is loaded; with no original it raises [TypeError] before any
    assignment, so that the session is left as it was. *)
Theorem restaurar_original_correct (s : ImageProcessor) :
  match original s with
  | Some img =>
      restaurar_original s
      = ({| original := Some img; resultado := Some img; alpha_frames := [];
            alpha_index := 0%nat; second_image := second_image s |}, Ok tt)
  | None => restaurar_original s = (s, Raise TypeError)
  end.
Proof.
  unfold restaurar_original. destruct (original s) as [img|]; [|done].
  by rewrite list_copy_fmap.
Qed.

(** C6. For an original satisfying the PixelMatrix invariant the fade
    produces exactly 6 frames, frame 0 is black everywhere and frame 5 is the
    original, pixel for pixel. *)
Theorem fade_from_black_frames (s : ImageProcessor) (img : matrix) :
  original s = Some img -> pixel_matrix img ->
  exists s', aplicar_transparencia_preto s = (s', Ok tt)
    /\ length (alpha_frames s') = 6%nat
    /\ alpha_frames s' !! 0%nat = Some (por_pixel (fun _ => preto) img)
    /\ alpha_frames s' !! 5%nat = Some img.
Proof.
  intros Ho [_ H8]. eexists. split; [by apply aplicar_transparencia_preto_ok|].
  cbn [alpha_frames]. split; [done|]. split.
  - change (Some (por_pixel (pixel_preto 0) img)
            = Some (por_pixel (fun _ => preto) img)).
    f_equal. apply por_pixel_ext_8bit; [|done]. apply pixel_preto_0.
  - change (Some (por_pixel (pixel_preto 5) img) = Some img).
    f_equal. rewrite (por_pixel_ext_8bit _ (fun p => p) img); [|apply pixel_preto_5|done].
    unfold por_pixel. rewrite <- (list_fmap_id img) at 2.
    apply list_fmap_ext. intros _ l _. apply list_fmap_id.
Qed.

Lemma fade_from_black_frames_witness :
  exists s', aplicar_transparencia_preto (sessao exemplo_a exemplo_b) = (s', Ok tt)
    /\ length (alpha_frames s') = 6%nat
    /\ alpha_frames s' !! 0%nat = Some (por_pixel (fun _ => preto) exemplo_a)
    /\ alpha_frames s' !! 5%nat = Some exemplo_a.
Proof.
  apply (fade_from_black_frames (sessao exemplo_a exemplo_b) exemplo_a).
  - reflexivity.
  - prova_pixel_matrix.
Defined.

(** C7 as stated fails: blending the one-pixel image [(3, 3, 3)] with
    itself gives [(2, 2, 2)] in frame 3, since [3 * 0.7 + 3 * 0.3] is
    [2.9999999999999996] in binary64 and [int] truncates. *)
Lemma crossfade_same_image_counterexample :
  pixel_matrix [[(3, 3, 3)]]
  /\ alpha_frames (aplicar_mistura (sessao [[(3, 3, 3)]] [[(3, 3, 3)]])).1
       !! 3%nat = Some [[(2, 2, 2)]]
  /\ [[(2, 2, 2)]] <> ([[(3, 3, 3)]] : matrix).
Proof.
  split; [prova_pixel_matrix|]. split; [vm_compute; reflexivity|discriminate].
Qed.

(** C7, amended. For images [a] and [b] of identical dimensions the blend
    produces 11 frames, frame 0 is [a] and frame 10 is [b]; blending [a] with
    itself gives 11 frames that are all [a] except frame 3, whose channels
    are those of [a] or one less. *)
Theorem crossfade_endpoints (s : ImageProcessor) (a b : matrix) (h w : nat) :
  original s = Some a -> second_image s = Some b ->
  pixel_matrix a -> pixel_matrix b -> dimensoes a h w -> dimensoes b h w ->
  exists s', aplicar_mistura s = (s', Ok tt)
    /\ length (alpha_frames s') = 11%nat
    /\ alpha_frames s' !! 0%nat = Some a
    /\ alpha_frames s' !! 10%nat = Some b
    /\ (a = b ->
        forall k f, alpha_frames s' !! k = Some f ->
                    if decide (k = 3%nat) then imagem_quase f a else f = a).
Proof.
  intros Ho H2 [(l0 & H0 & _ & Hw0) H8a] [_ H8b] Da Db.
  pose proof (dimensoes_cobre a b h w h w Da Db ltac:(lia) ltac:(lia)) as Hcob.
  eexists. split; [by eapply aplicar_mistura_ok|].
  cbn [alpha_frames]. split; [done|]. split; [|split].
  - change (Some (mistura_frame 0 a b) = Some a). f_equal.
    by apply mistura_frame_0.
  - change (Some (mistura_frame 10 a b) = Some b). f_equal.
    rewrite mistura_frame_10 by done.
    rewrite (zip_with_take_recorte a b w) by apply Da.
    destruct Da as [-> _], Db as [<- Hwb]. by apply recorte_mesmo.
  - intros <- k f Hf.
    apply list_lookup_fmap_Some in Hf as (z & -> & Hz).
    apply lookup_seqZ in Hz as [-> Hk]. simpl in Hk.
    pose proof (mistura_frame_mesmo (Z.of_nat k) a ltac:(lia) H8a) as H.
    destruct (decide (k = 3%nat)) as [->|Hne]; [done|].
    destruct (Z.of_nat k =? 3) eqn:E; [apply Z.eqb_eq in E; lia|done].
Qed.

Lemma crossfade_endpoints_witness :
  exists s', aplicar_mistura (sessao exemplo_a exemplo_b) = (s', Ok tt)
    /\ length (alpha_frames s') = 11%nat
    /\ alpha_frames s' !! 0%nat = Some exemplo_a
    /\ alpha_frames s' !! 10%nat = Some exemplo_b
    /\ (exemplo_a = exemplo_b ->
        forall k f, alpha_frames s' !! k = Some f ->
                    if decide (k = 3%nat) then imagem_quase f exemplo_a
                    else f = exemplo_a).
Proof.
  apply (crossfade_endpoints (sessao exemplo_a exemplo_b) exemplo_a exemplo_b 1 2).
  - reflexivity.
  - reflexivity.
  - prova_pixel_matrix.
  - prova_pixel_matrix.
  - prova_dimensoes.
  - prova_dimensoes.
Defined.

(** C8. Writing an image that satisfies the PixelMatrix invariant with
    [salvar_ppm_p3] and reading the file back with [carregar_ppm_p3] gives
    the image. *)
Theorem ppm_round_trip (W : World) (caminho : string) (s : ImageProcessor)
    (img : matrix) :
  open_w W caminho = true -> resultado s = Some img -> pixel_matrix img ->
  (salvar_ppm_p3 W caminho s).2 = Ok tt
  /\ carregar_ppm_p3 (salvar_ppm_p3 W caminho s).1 caminho = Ok img.
Proof.
  intros Hw Hr [(linha0 & H0 & _ & Hrect) _].
  rewrite (salvar_ppm_p3_Ok W caminho s img linha0) by done.
  split; [done|]. cbn [fst].
  rewrite (carregar_ppm_p3_bem_formado _ caminho
             (texto_ppm img (Z.of_nat (length linha0)) (Z.of_nat (length img)))
             (Z.of_nat (length linha0)) (Z.of_nat (length img)) (valores img)).
  - by apply montar_matriz_valores.
  - simpl. by rewrite decide_True.
  - apply texto_ppm_bem_formado.
Qed.

Lemma ppm_round_trip_witness :
  (salvar_ppm_p3 mundo_exemplo "c.ppm" (sessao exemplo_a exemplo_b)).2 = Ok tt
  /\ carregar_ppm_p3
       (salvar_ppm_p3 mundo_exemplo "c.ppm" (sessao exemplo_a exemplo_b)).1
       "c.ppm"
     = Ok exemplo_a.
Proof.
  apply (ppm_round_trip mundo_exemplo "c.ppm" (sessao exemplo_a exemplo_b)
           exemplo_a).
  - reflexivity.
  - reflexivity.
  - prova_pixel_matrix.
Defined.

(** C9. In every session reached by any sequence of calls, returning or
    raising, in any world and whatever integers the images hold, the cursor
    of a non-empty frame sequence is below its length, so that
    [alpha_frames[alpha_index]] is in range. A fade or a blend that raises
    does so on its first frame and leaves no frame: no binary64 product or
    sum of a later frame can overflow when those of the first did not. *)
Theorem cursor_in_range (s : ImageProcessor) :
  alcancavel qualquer_chamada s ->
  alpha_frames s <> [] ->
  (0 <= alpha_index s < length (alpha_frames s))%nat
  /\ exists f, getitem (alpha_frames s) (Z.of_nat (alpha_index s)) = Ok f.
Proof.
  intros H Hne.
  assert (Hc : cursor_valido s).
  { clear Hne. induction H as [|W c s _ Hs IH]; [by intros ?|].
    eapply efeito_cursor_valido; [apply executar_efeito|done]. }
  specialize (Hc Hne). split; [lia|].
  destruct (lookup_lt_is_Some_2 _ _ Hc) as [f Hf].
  exists f. by apply getitem_Ok.
Qed.

Lemma cursor_in_range_witness :
  (0 <= alpha_index sessao_fora_de_8bit
   < length (alpha_frames sessao_fora_de_8bit))%nat
  /\ exists f, getitem (alpha_frames sessao_fora_de_8bit)
                 (Z.of_nat (alpha_index sessao_fora_de_8bit)) = Ok f.
Proof.
  apply (cursor_in_range sessao_fora_de_8bit).
  - unfold sessao_fora_de_8bit. cbv zeta.
    repeat (apply alc_passo; [done|]). apply alc_init.
  - vm_compute. discriminate.
Defined.



(** * Further properties of the code *)

(** ** Packing a pixel into a [QImage] value *)

Lemma empacotar_canais (p : pixel) :
  pixel_8bit p ->
  (Qt.qRed (empacotar p), Qt.qGreen (empacotar p), Qt.qBlue (empacotar p)) = p.
Proof.
  destruct p as [[r g] b]. intros (Hr & Hg & Hb). unfold canal_8bit in *.
  simpl in Hr, Hg, Hb.
  unfold Qt.qRed, Qt.qGreen, Qt.qBlue, empacotar.
  rewrite !Z.shiftl_mul_pow2, !Z.shiftr_div_pow2 by lia.
  change 255 with (Z.ones 8) at 1 2 3. rewrite !Z.land_ones by lia.
  change (2 ^ 16) with 65536. change (2 ^ 8) with 256.
  assert (H1 : (r * 65536 + g * 256 + b) `div` 65536 = r).
  { symmetry. apply (Z.div_unique _ _ _ (g * 256 + b)); lia. }
  assert (H2 : (r * 65536 + g * 256 + b) `div` 256 = r * 256 + g).
  { symmetry. apply (Z.div_unique _ _ _ b); lia. }
  assert (H3 : (r * 65536 + g * 256 + b) `mod` 256 = b).
  { symmetry. apply (Z.mod_unique _ _ (r * 256 + g)); lia. }
  rewrite H1, H2, H3.
  rewrite (Z.mod_small r) by lia.
  replace (r * 256 + g) with (g + r * 256) by lia.
  rewrite Z.mod_add by lia. by rewrite (Z.mod_small g) by lia.
Qed.

(** ** The loops of [exibir_em_qimage] *)

Lemma pixel_at_getitem_ge (img : matrix) (w : nat) y x :
  Forall (fun l => (w <= length l)%nat) img ->
  (y < length img)%nat -> (x < w)%nat ->
  exists linha, getitem img (Z.of_nat y) = Ok linha
                /\ getitem linha (Z.of_nat x) = Ok (Spec.pixel_at img y x).
Proof.
  intros Hw Hy Hx.
  destruct (lookup_lt_is_Some_2 img y Hy) as [linha Hl].
  pose proof (proj1 (Forall_lookup _ _) Hw _ _ Hl) as Hlen. simpl in Hlen.
  destruct (lookup_lt_is_Some_2 linha x ltac:(lia)) as [p Hp].
  exists linha. split; [by apply getitem_Ok|].
  unfold Spec.pixel_at.
  rewrite (list_lookup_total_correct _ _ _ Hl).
  rewrite (list_lookup_total_correct _ _ _ Hp).
  by apply getitem_Ok.
Qed.

Lemma pixel_at_empacotavel (img : matrix) (w : nat) y x :
  Forall (fun l => Forall empacotavel (take w l)) img ->
  Forall (fun l => (w <= length l)%nat) img ->
  (y < length img)%nat -> (x < w)%nat ->
  empacotavel (Spec.pixel_at img y x).
Proof.
  intros Hc Hw Hy Hx.
  destruct (lookup_lt_is_Some_2 img y Hy) as [linha Hl].
  pose proof (proj1 (Forall_lookup _ _) Hw _ _ Hl) as Hlen. simpl in Hlen.
  pose proof (proj1 (Forall_lookup _ _) Hc _ _ Hl) as Hcl. simpl in Hcl.
  destruct (lookup_lt_is_Some_2 linha x ltac:(lia)) as [p Hp].
  unfold Spec.pixel_at.
  rewrite (list_lookup_total_correct _ _ _ Hl).
  rewrite (list_lookup_total_correct _ _ _ Hp).
  apply (proj1 (Forall_lookup _ _) Hcl x). by rewrite lookup_take_lt.
Qed.

Lemma pintado_ext img w h (P Q : nat -> nat -> Prop) q :
  (forall y x, (x < w)%nat -> (y < h)%nat -> Q y x -> P y x) ->
  pintado img w h P q -> pintado img w h Q q.
Proof. intros HQP (Hw & Hh & Hp). repeat split; [done..|]. eauto. Qed.

Lemma setPixel_Raise x y v q e :
  Qt.setPixel x y v q = Raise e -> e = OverflowError /\ ~ 0 <= v < 2 ^ 32.
Proof.
  unfold Qt.setPixel.
  destruct (v <? 0) eqn:E1; [intros [= <-]; split; [done|lia]|].
  destruct (2 ^ 32 <=? v) eqn:E2; [intros [= <-]; split; [done|lia]|].
  cbn [orb]. by destruct (_ && _).
Qed.

Lemma setPixel_pintado img w h P q x y :
  (x < w)%nat -> (y < h)%nat -> empacotavel (Spec.pixel_at img y x) ->
  pintado img w h P q ->
  exists q',
    Qt.setPixel (Z.of_nat x) (Z.of_nat y)
      (empacotar (Spec.pixel_at img y x)) q = Ok q'
    /\ pintado img w h (fun y' x' => P y' x' \/ (y' = y /\ x' = x)) q'.
Proof.
  intros Hx Hy [H0 H32] (Hw & Hh & Hp). unfold Qt.setPixel. rewrite Hw, Hh.
  destruct (empacotar (Spec.pixel_at img y x) <? 0) eqn:E5; [lia|].
  destruct (2 ^ 32 <=? empacotar (Spec.pixel_at img y x)) eqn:E6; [lia|].
  destruct (0 <=? Z.of_nat x) eqn:E1; [|lia].
  destruct (Z.of_nat x <? Z.of_nat w) eqn:E2; [|lia].
  destruct (0 <=? Z.of_nat y) eqn:E3; [|lia].
  destruct (Z.of_nat y <? Z.of_nat h) eqn:E4; [|lia].
  cbn [andb orb]. eexists. split; [done|].
  repeat split; [done..|]. cbn [Qt.pixels].
  intros x' y' Hx' Hy' [HP|[-> ->]].
  - destruct (decide ((Z.of_nat x, Z.of_nat y) = (Z.of_nat x', Z.of_nat y')))
      as [E|E].
    + injection E as Ex Ey. apply Nat2Z.inj in Ex, Ey. subst.
      by rewrite lookup_insert_eq.
    + rewrite lookup_insert_ne by done. by apply Hp.
  - by rewrite lookup_insert_eq.
Qed.

Lemma exibir_linha img w h P q y :
  length img = h -> Forall (fun l => (w <= length l)%nat) img ->
  Forall (fun l => Forall empacotavel (take w l)) img ->
  (y < h)%nat -> pintado img w h P q ->
  exists q',
    for_each (range (Z.of_nat w))
      (fun qimage x =>
         linha ← getitem img (Z.of_nat y);
         p ← getitem linha x;
         Qt.setPixel x (Z.of_nat y) (empacotar p) qimage)
      q = Ok q'
    /\ pintado img w h (fun y' x' => P y' x' \/ y' = y) q'.
Proof.
  intros Hh Hw Hc Hy HP.
  destruct (for_each_inv
              (fun feitos s =>
                 pintado img w h
                   (fun y' x' => P y' x' \/ (y' = y /\ Z.of_nat x' ∈ feitos)) s)
              (fun qimage x =>
                 linha ← getitem img (Z.of_nat y);
                 p ← getitem linha x;
                 Qt.setPixel x (Z.of_nat y) (empacotar p) qimage)
              (range (Z.of_nat w)) q) as (q' & Hq & HI).
  - eapply pintado_ext; [|exact HP]. intros y' x' _ _ [?|[_ H]]; [done|].
    by apply elem_of_nil in H.
  - intros feitos x s Hx Hs. apply range_nat in Hx as (j & -> & Hj).
    destruct (pixel_at_getitem_ge img w y j Hw ltac:(lia) Hj)
      as (linha & -> & Hp).
    rewrite bind_Ok, Hp, bind_Ok.
    destruct (setPixel_pintado img w h _ s j y Hj Hy
                (pixel_at_empacotavel img w y j Hc Hw ltac:(lia) Hj) Hs)
      as (s' & Hs' & HP').
    exists s'. split; [done|].
    eapply pintado_ext; [|exact HP'].
    intros y' x' _ _ [?|[-> H]]; [by left; left|].
    apply elem_of_app in H as [H|H]; [left; right; by split|].
    apply list_elem_of_singleton in H. right. split; [done|lia].
  - exists q'. split; [done|].
    eapply pintado_ext; [|exact HI].
    intros y' x' Hx' _ [?| ->]; [by left|]. right. split; [done|].
    apply elem_of_range. lia.
Qed.

Lemma exibir_em_qimage_pintado (img : matrix) linha0 :
  img !! 0%nat = Some linha0 ->
  Forall (fun l => (length linha0 <= length l)%nat) img ->
  Forall (fun l => Forall empacotavel (take (length linha0) l)) img ->
  (0 < length linha0)%nat ->
  exists q, exibir_em_qimage (Some img) = Ok q
    /\ pintado img (length linha0) (length img) (fun _ _ => True) q.
Proof.
  intros H0 Hw Hc Hpos. unfold exibir_em_qimage. rewrite getitem_0.
  destruct img as [|l0 img'] eqn:E; [done|]. injection H0 as ->.
  rewrite <- E in *. rewrite bind_Ok.
  assert (Hh : (0 < length img)%nat) by (rewrite E; simpl; lia).
  destruct (for_each_inv
              (fun feitos s =>
                 pintado img (length linha0) (length img)
                   (fun y' _ => Z.of_nat y' ∈ feitos) s)
              (fun qimage y =>
                 for_each (range (Z.of_nat (length linha0)))
                   (fun qimage x =>
                      linha ← getitem img y;
                      p ← getitem linha x;
                      Qt.setPixel x y (empacotar p) qimage)
                   qimage)
              (range (Z.of_nat (length img)))
              (Qt.novo (Z.of_nat (length linha0)) (Z.of_nat (length img))))
    as (q & Hq & HI).
  - unfold Qt.novo.
    destruct (0 <? Z.of_nat (length linha0)) eqn:E1; [|lia].
    destruct (0 <? Z.of_nat (length img)) eqn:E2; [|lia]. cbn [andb].
    repeat split; [done..|]. intros x y _ _ H. by apply elem_of_nil in H.
  - intros feitos y s Hy Hs. apply range_nat in Hy as (i & -> & Hi).
    destruct (exibir_linha img _ _ _ s i eq_refl Hw Hc Hi Hs)
      as (s' & Hs' & HP').
    exists s'. split; [done|].
    eapply pintado_ext; [|exact HP'].
    intros y' x' _ _ H. apply elem_of_app in H as [H|H]; [by left|].
    apply list_elem_of_singleton in H. right. lia.
  - exists q. split; [done|].
    eapply pintado_ext; [|exact HI].
    intros y' x' _ Hy' _. apply elem_of_range. lia.
Qed.

(** ** Loops that return and loops that raise *)

Lemma for_each_Ok_elem {A S} (body : S -> A -> res S) (l : list A) (s s' : S) x :
  for_each l body s = Ok s' -> x ∈ l -> exists s1 s2, body s1 x = Ok s2.
Proof.
  revert s. induction l as [|y l IH]; intros s Hf Hx;
    [by apply elem_of_nil in Hx|].
  simpl in Hf. destruct (body s y) as [s1|] eqn:E; [|done].
  rewrite bind_Ok in Hf.
  apply elem_of_cons in Hx as [->|Hx]; [by exists s, s1|by eapply IH].
Qed.

Lemma for_each_Raise {A S} (body : S -> A -> res S) (l : list A) (s : S) e :
  for_each l body s = Raise e -> exists x s1, x ∈ l /\ body s1 x = Raise e.
Proof.
  revert s. induction l as [|y l IH]; intros s Hf; [done|].
  simpl in Hf. destruct (body s y) as [s1|e'] eqn:E.
  - rewrite bind_Ok in Hf. destruct (IH s1 Hf) as (x & s2 & Hx & Hb).
    exists x, s2. split; [apply elem_of_cons; by right|done].
  - injection Hf as ->. exists y, s. split; [apply elem_of_cons; by left|done].
Qed.

Lemma getitem_Ok_lookup {A} (l : list A) (i : nat) x :
  getitem l (Z.of_nat i) = Ok x -> l !! i = Some x.
Proof.
  rewrite getitem_nonneg by lia. rewrite Nat2Z.id.
  destruct (l !! i) eqn:E; [|done]. by intros [= ->].
Qed.

Lemma for_each_nada {A S} (l : list A) (body : S -> A -> res S) (s : S) :
  (forall s x, body s x = Ok s) -> for_each l body s = Ok s.
Proof.
  intros H. induction l as [|x l IH]; [done|]. simpl. by rewrite H, bind_Ok.
Qed.

(** ** What [exibir_em_qimage] needs of an image *)

(** The cell the loops fail on. *)
Lemma exibir_em_qimage_Raise_celula img e :
  exibir_em_qimage (Some img) = Raise e ->
  (img !! 0%nat = None /\ e = IndexError)
  \/ exists linha0 y x,
       img !! 0%nat = Some linha0 /\ (y < length img)%nat
       /\ (x < length linha0)%nat
       /\ match img !! y ≫= (.!! x) with
          | None => e = IndexError
          | Some p => e = OverflowError /\ ~ empacotavel p
          end.
Proof.
  unfold exibir_em_qimage. rewrite getitem_0.
  destruct img as [|linha0 img'] eqn:E; [intros [= <-]; by left|].
  rewrite <- E, bind_Ok. intros H. right.
  apply for_each_Raise in H as (y & q & Hy & H).
  apply for_each_Raise in H as (x & q' & Hx & H).
  apply range_nat in Hy as (i & -> & Hi). apply range_nat in Hx as (j & -> & Hj).
  exists linha0, i, j. split; [by rewrite E|]. split; [done|]. split; [done|].
  destruct (lookup_lt_is_Some_2 img i Hi) as [linha Hl].
  rewrite (getitem_Ok _ _ _ Hl), bind_Ok in H. rewrite Hl. cbn.
  destruct (linha !! j) as [p|] eqn:Ep.
  - rewrite (getitem_Ok _ _ _ Ep), bind_Ok in H.
    apply setPixel_Raise in H as [-> Hv]. done.
  - rewrite getitem_nonneg, Nat2Z.id, Ep in H by lia. by injection H as <-.
Qed.

Lemma exibir_em_qimage_Raise img e :
  exibir_em_qimage (Some img) = Raise e -> e = IndexError \/ e = OverflowError.
Proof.
  intros H.
  apply exibir_em_qimage_Raise_celula in H
    as [[_ ->]|(linha0 & y & x & _ & _ & _ & H)]; [by left|].
  destruct (img !! y ≫= (.!! x)); [right; apply H|by left].
Qed.

(** [IndexError] comes from a row that does not reach the first one. *)
Lemma exibir_em_qimage_IndexError img :
  exibir_em_qimage (Some img) = Raise IndexError -> ~ linhas_cobrem img.
Proof.
  intros H (linha0 & H0 & Hw).
  apply exibir_em_qimage_Raise_celula in H
    as [[Hn _]|(l0 & y & x & H0' & Hy & Hx & H)]; [congruence|].
  assert (l0 = linha0) by congruence. subst l0.
  destruct (lookup_lt_is_Some_2 img y Hy) as [linha Hl].
  pose proof (proj1 (Forall_lookup _ _) Hw _ _ Hl) as Hlen. simpl in Hlen.
  destruct (lookup_lt_is_Some_2 linha x ltac:(lia)) as [p Hp].
  rewrite Hl in H. cbn in H. rewrite Hp in H. by destruct H.
Qed.

(** [OverflowError] comes from a pixel that cannot be packed. *)
Lemma exibir_em_qimage_OverflowError img :
  exibir_em_qimage (Some img) = Raise OverflowError -> ~ pixels_cabem img.
Proof.
  intros H Hc.
  apply exibir_em_qimage_Raise_celula in H
    as [[_ ?]|(linha0 & y & x & H0 & Hy & Hx & H)]; [done|].
  specialize (Hc linha0 H0).
  destruct (img !! y) as [linha|] eqn:Hl; cbn in H; [|done].
  destruct (linha !! x) as [p|] eqn:Hp; [|done].
  destruct H as [_ H]. apply H.
  pose proof (proj1 (Forall_lookup _ _) Hc _ _ Hl) as Hcl. simpl in Hcl.
  apply (proj1 (Forall_lookup _ _) Hcl x). by rewrite lookup_take_lt.
Qed.

(** An image without columns gives the null image. *)
Lemma exibir_em_qimage_sem_colunas img :
  img !! 0%nat = Some [] ->
  exibir_em_qimage (Some img) = Ok (Qt.novo 0 (Z.of_nat (length img))).
Proof.
  intros H0. unfold exibir_em_qimage. rewrite getitem_0.
  destruct img as [|l0 img'] eqn:E; [done|]. injection H0 as ->.
  rewrite <- E, bind_Ok.
  change (range (Z.of_nat (length ([] : list pixel)))) with ([] : list Z).
  by rewrite for_each_nada.
Qed.

Lemma exibir_em_qimage_exibivel img :
  exibivel img -> exists q, exibir_em_qimage (Some img) = Ok q.
Proof.
  intros [(linha0 & H0 & Hw) Hc]. specialize (Hc linha0 H0).
  destruct linha0 as [|p linha0].
  - rewrite (exibir_em_qimage_sem_colunas img H0). eauto.
  - destruct (exibir_em_qimage_pintado img _ H0 Hw Hc) as (q & Hq & _);
      [simpl; lia|eauto].
Qed.

Lemma exibir_em_qimage_Ok_exibivel img q :
  exibir_em_qimage (Some img) = Ok q -> exibivel img.
Proof.
  unfold exibir_em_qimage. rewrite getitem_0.
  destruct img as [|linha0 img'] eqn:E; [done|]. rewrite <- E, bind_Ok.
  intros H.
  assert (Hcel : forall y linha x,
            img !! y = Some linha -> (x < length linha0)%nat ->
            exists p, linha !! x = Some p /\ empacotavel p).
  { intros y linha x Hl Hx.
    pose proof (lookup_lt_Some _ _ _ Hl) as Hy.
    destruct (for_each_Ok_elem _ _ _ _ (Z.of_nat y) H) as (q1 & q2 & Hrow).
    { apply elem_of_range. lia. }
    destruct (for_each_Ok_elem _ _ _ _ (Z.of_nat x) Hrow) as (q3 & q4 & Hc).
    { apply elem_of_range. lia. }
    rewrite (getitem_Ok _ _ _ Hl), bind_Ok in Hc.
    destruct (getitem linha (Z.of_nat x)) as [p|] eqn:Ep; [|done].
    rewrite bind_Ok in Hc. apply getitem_Ok_lookup in Ep.
    exists p. split; [done|].
    unfold Qt.setPixel in Hc. unfold empacotavel.
    destruct (empacotar p <? 0) eqn:E1; [done|].
    destruct (2 ^ 32 <=? empacotar p) eqn:E2; [done|]. lia. }
  split.
  - exists linha0. split; [by rewrite E|].
    apply Forall_lookup. intros y linha Hl.
    destruct (decide (length linha0 = 0%nat)) as [->|Hpos]; [lia|].
    destruct (Hcel y linha (length linha0 - 1)%nat Hl ltac:(lia))
      as (p & Hp & _).
    apply lookup_lt_Some in Hp. lia.
  - intros l0 H0. assert (l0 = linha0) as -> by (rewrite E in H0; by injection H0).
    apply Forall_lookup. intros y linha Hl.
    apply Forall_lookup. intros x p Hp.
    apply lookup_take_Some in Hp as [Hp Hx].
    destruct (Hcel y linha x Hl Hx) as (p' & Hp' & Hemp). congruence.
Qed.

Lemma exibir_em_qimage_Ok_cobrem img q :
  exibir_em_qimage (Some img) = Ok q -> linhas_cobrem img.
Proof. intros H. by apply exibir_em_qimage_Ok_exibivel in H as [? _]. Qed.

(** ** Images of 8-bit pixels can be packed *)

Lemma pixel_8bit_empacotavel p : pixel_8bit p -> empacotavel p.
Proof.
  destruct p as [[r g] b]. intros (Hr & Hg & Hb). unfold canal_8bit in *.
  simpl in Hr, Hg, Hb. unfold empacotavel, empacotar.
  rewrite !Z.shiftl_mul_pow2 by lia.
  change (2 ^ 16) with 65536. change (2 ^ 8) with 256.
  change (2 ^ 32) with 4294967296. lia.
Qed.

Lemma imagem_8bit_todo_empacotavel img : imagem_8bit img -> todo_empacotavel img.
Proof.
  intros H. eapply Forall_impl; [exact H|]. intros l Hl.
  eapply Forall_impl; [exact Hl|]. apply pixel_8bit_empacotavel.
Qed.

Lemma todo_empacotavel_cabem img : todo_empacotavel img -> pixels_cabem img.
Proof.
  intros H linha0 _. eapply Forall_impl; [exact H|]. intros l Hl.
  by apply Forall_take.
Qed.

(** ** Theorems: the image shown by the window *)

(** X1. For an image of [h] rows of [w] 8-bit pixels, with [h] and [w] at
    least 1, [exibir_em_qimage] returns a [QImage] that is [w] wide and [h]
    high and whose pixel at [(x, y)] has the red, green and blue channels of
    [imagem[y][x]]. *)
Theorem exibir_em_qimage_canais (img : matrix) (h w : nat) :
  dimensoes img h w -> (0 < h)%nat -> (0 < w)%nat -> imagem_8bit img ->
  exists q, exibir_em_qimage (Some img) = Ok q
    /\ Qt.width q = Z.of_nat w /\ Qt.height q = Z.of_nat h
    /\ forall x y, (x < w)%nat -> (y < h)%nat ->
         exists v, Qt.pixels q !! (Z.of_nat x, Z.of_nat y) = Some v
           /\ (Qt.qRed v, Qt.qGreen v, Qt.qBlue v) = Spec.pixel_at img y x.
Proof.
  intros [Hh Hw] Hpos Hwpos H8.
  destruct img as [|linha0 img'] eqn:E; [simpl in Hh; lia|]. rewrite <- E in *.
  assert (H0 : img !! 0%nat = Some linha0) by by rewrite E.
  assert (Hl0 : length linha0 = w).
  { by apply (proj1 (Forall_lookup _ _) Hw _ _ H0). }
  destruct (exibir_em_qimage_pintado img linha0 H0) as (q & Hq & Hwq & Hhq & Hp).
  { eapply Forall_impl; [exact Hw|]. intros l Hl. simpl in Hl. lia. }
  { by apply (todo_empacotavel_cabem img (imagem_8bit_todo_empacotavel img H8)). }
  { lia. }
  exists q. rewrite Hl0, Hh in *. repeat split; [done..|].
  intros x y Hx Hy. eexists. split; [by apply Hp|].
  apply empacotar_canais.
  destruct (lookup_lt_is_Some_2 img y ltac:(lia)) as [linha Hl].
  pose proof (proj1 (Forall_lookup _ _) Hw _ _ Hl) as Hlen. simpl in Hlen.
  destruct (lookup_lt_is_Some_2 linha x ltac:(lia)) as [p Hpx].
  unfold Spec.pixel_at.
  rewrite (list_lookup_total_correct _ _ _ Hl).
  rewrite (list_lookup_total_correct _ _ _ Hpx).
  pose proof (proj1 (Forall_lookup _ _) H8 _ _ Hl) as H8l. simpl in H8l.
  by apply (proj1 (Forall_lookup _ _) H8l _ _ Hpx).
Qed.

Lemma exibir_em_qimage_canais_witness :
  exists q, exibir_em_qimage (Some exemplo_a) = Ok q
    /\ Qt.width q = Z.of_nat 2 /\ Qt.height q = Z.of_nat 1
    /\ forall x y, (x < 2)%nat -> (y < 1)%nat ->
         exists v, Qt.pixels q !! (Z.of_nat x, Z.of_nat y) = Some v
           /\ (Qt.qRed v, Qt.qGreen v, Qt.qBlue v)
              = Spec.pixel_at exemplo_a y x.
Proof.
  apply (exibir_em_qimage_canais exemplo_a 1 2).
  - prova_dimensoes.
  - lia.
  - lia.
  - prova_8bit.
Defined.

(** X2. [exibir_em_qimage] returns exactly for the images that have a first
    row, whose rows all reach the length of the first one and whose pixels
    below that length pack into [0 .. 2^32 - 1]; an image whose first row is
    empty gives the null image, 0 wide and 0 high. For any other image it
    raises [IndexError], which only an image whose rows do not all reach the
    first one gives, or [OverflowError], which only a pixel that cannot be
    packed gives; for no image ([None]) it raises [TypeError]. *)
Theorem exibir_em_qimage_outcomes (img : matrix) :
  exibir_em_qimage None = Raise TypeError
  /\ (is_ok (exibir_em_qimage (Some img)) = true <-> exibivel img)
  /\ (img !! 0%nat = Some [] ->
      exists q, exibir_em_qimage (Some img) = Ok q
                /\ Qt.width q = 0 /\ Qt.height q = 0)
  /\ (forall e, exibir_em_qimage (Some img) = Raise e ->
        (e = IndexError /\ ~ linhas_cobrem img)
        \/ (e = OverflowError /\ ~ pixels_cabem img)).
Proof.
  split; [done|]. split; [|split].
  - split.
    + intros H. apply is_ok_true in H as [q H].
      by eapply exibir_em_qimage_Ok_exibivel.
    + intros H. by destruct (exibir_em_qimage_exibivel img H) as [q ->].
  - intros H0. rewrite (exibir_em_qimage_sem_colunas img H0).
    eexists. split; [done|]. by unfold Qt.novo.
  - intros e H. destruct (exibir_em_qimage_Raise img e H) as [-> | ->].
    + left. split; [done|]. by apply exibir_em_qimage_IndexError.
    + right. split; [done|]. by apply exibir_em_qimage_OverflowError.
Qed.

(** A channel of 65536 or a negative channel in the red position does not
    pack; rows without pixels give the null image; a row shorter than the
    first one is indexed out of range. *)
Example exibir_em_qimage_exemplos :
  exibir_em_qimage (Some [[(65536, 0, 0)]]) = Raise OverflowError
  /\ exibir_em_qimage (Some [[(-1, 0, 0)]]) = Raise OverflowError
  /\ exibir_em_qimage (Some [[]; []])
     = Ok {| Qt.width := 0; Qt.height := 0; Qt.pixels := ∅ |}
  /\ exibir_em_qimage (Some [[(1, 2, 3)]; []]) = Raise IndexError.
Proof. repeat split; vm_compute; reflexivity. Qed.

(** ** Flattening an image and cutting it into rows again *)

Lemma concat_mjoin {A} (l : list (list A)) : concat l = mjoin l.
Proof. induction l as [|x l IH]; [done|]. simpl. by rewrite IH. Qed.

Lemma length_concat_retangular {A} (img : list (list A)) (w : nat) :
  Forall (fun l => length l = w) img ->
  length (concat img) = (w * length img)%nat.
Proof.
  induction 1 as [|l img Hl _ IH]; simpl; [lia|].
  rewrite length_app, IH, Hl. lia.
Qed.

Lemma matriz_de_pixels_concat (img : matrix) (w : nat) :
  Forall (fun l => length l = w) img ->
  matriz_de_pixels (concat img) (Z.of_nat w) (Z.of_nat (length img)) = Ok img.
Proof.
  intros Hw. unfold matriz_de_pixels.
  apply mapM_range_lista. intros i linha Hi.
  rewrite <- (proj1 (Forall_lookup _ _) Hw _ _ Hi).
  apply mapM_range_lista. intros j p Hj.
  rewrite (proj1 (Forall_lookup _ _) Hw _ _ Hi).
  replace (Z.of_nat i * Z.of_nat w + Z.of_nat j)
    with (Z.of_nat (i * w + j)) by lia.
  apply getitem_Ok. rewrite concat_mjoin.
  apply (join_lookup_Some_same_length' w); [done| |by eauto].
  rewrite <- (proj1 (Forall_lookup _ _) Hw _ _ Hi).
  by eapply lookup_lt_Some.
Qed.

(** ** Theorems: export through PIL *)

(** X3. For a result of [h] rows of [w] pixels, [salvar_imagem] hands PIL
    the size [(w, h)] and [w * h] pixels in row-major order; a file that
    holds that size and those pixels is read back by [carregar_imagem],
    through its PIL branch, as the image that was saved. *)
Theorem salvar_imagem_carregar_imagem (W : World) (caminho : string)
    (s s0 : ImageProcessor) (img : matrix) (h w : nat) :
  resultado s = Some img -> dimensoes img h w -> (0 < h)%nat ->
  exists req, salvar_imagem caminho s = Ok req
    /\ new_size req = (Z.of_nat w, Z.of_nat h)
    /\ length (putdata req) = (w * h)%nat
    /\ save req = caminho
    /\ (splitext_lower W caminho <> ".ppm"%string ->
        pil_open_rgb W caminho
        = Ok {| size := new_size req; getdata := putdata req |} ->
        (carregar_imagem W caminho s0).2 = Ok img
        /\ original (carregar_imagem W caminho s0).1 = Some img
        /\ resultado (carregar_imagem W caminho s0).1 = Some img).
Proof.
  intros Hr [Hh Hw] Hpos. unfold salvar_imagem. rewrite Hr, getitem_0.
  destruct img as [|linha0 img'] eqn:E; [simpl in Hh; lia|]. rewrite <- E in *.
  assert (Hl0 : length linha0 = w).
  { apply (proj1 (Forall_lookup _ _) Hw 0%nat linha0). by rewrite E. }
  rewrite bind_Ok, Hl0, Hh. eexists. split; [done|]. cbn [new_size putdata save].
  split; [done|]. split; [by rewrite (length_concat_retangular img w), Hh|].
  split; [done|]. intros Hext Hpil. unfold carregar_imagem.
  rewrite decide_False by done. rewrite Hpil, bind_Ok. cbn [size getdata].
  rewrite <- Hh, (matriz_de_pixels_concat img w Hw).
  by rewrite list_copy_fmap.
Qed.

Lemma salvar_imagem_carregar_imagem_witness :
  is_ok (salvar_imagem "b.png" (sessao exemplo_b exemplo_a)) = true
  /\ (carregar_imagem mundo_exemplo "b.png" init).2 = Ok exemplo_b
  /\ original (carregar_imagem mundo_exemplo "b.png" init).1 = Some exemplo_b
  /\ resultado (carregar_imagem mundo_exemplo "b.png" init).1
     = Some exemplo_b.
Proof.
  destruct (salvar_imagem_carregar_imagem mundo_exemplo "b.png"
              (sessao exemplo_b exemplo_a) init exemplo_b 1 2)
    as (req & Hreq & _ & _ & _ & H).
  - reflexivity.
  - prova_dimensoes.
  - lia.
  - split; [by rewrite Hreq|]. injection Hreq as <-.
    apply H; [discriminate|reflexivity].
Defined.

(** ** The handlers of the window *)

Lemma update_display_Ok mw mw' :
  update_display mw = (mw', Ok tt) ->
  processor mw' = processor mw /\ avisos mw' = avisos mw
  /\ exists q1 q2,
       lbl_orig mw' = Some q1 /\ lbl_res mw' = Some q2
       /\ exibir_em_qimage (original (processor mw)) = Ok q1
       /\ exibir_em_qimage (resultado (processor mw)) = Ok q2.
Proof.
  unfold update_display.
  destruct (exibir_em_qimage (original (processor mw))) as [q1|]; [|done].
  destruct (exibir_em_qimage (resultado (processor mw))) as [q2|]; [|done].
  intros [= <-]. repeat split. by exists q1, q2.
Qed.

Lemma update_display_exibido mw mw' :
  update_display mw = (mw', Ok tt) -> exibido mw'.
Proof.
  intros H. apply update_display_Ok in H as (Hp & _ & q1 & q2 & ? & ? & ? & ?).
  right. exists q1, q2. by rewrite Hp.
Qed.

Lemma e_exibir_Ok {A} (r : ImageProcessor * res A) mw mw' :
  e_exibir r mw = (mw', Ok tt) ->
  is_ok r.2 = true /\ update_display (set_processor r.1 mw) = (mw', Ok tt).
Proof. destruct r as [p [a|e]]; [done|]. simpl. congruence. Qed.

Lemma filtrar_Ok_exibir idx resposta mw mw' :
  apply_filter idx resposta mw = (mw', Ok tt) ->
  mw' = mw \/ exists mw1, update_display mw1 = (mw', Ok tt).
Proof.
  unfold apply_filter.
  destruct (bool_decide _ || _); [intros [= <-]; by left|].
  destruct (filtrar idx resposta mw) as [mw1 [[]|e]]; [|done].
  intros H. right. by exists mw1.
Qed.

Lemma tratar_exibido W ev mw mw' :
  exibido mw -> tratar W ev mw = (mw', Ok tt) -> exibido mw'.
Proof.
  intros Hex. destruct ev as [path|path|path| |idx resposta|]; simpl.
  - unfold open_image. destruct (decide (path = ""%string)); [congruence|].
    intros H. apply e_exibir_Ok in H as [_ H].
    by eapply update_display_exibido.
  - unfold load_second. destruct (decide (path = ""%string)); [congruence|].
    pose proof (preparar_mistura_campos W path (processor mw)) as (_ & _ & Hr).
    assert (Ho : original (preparar_mistura W path (processor mw)).1
                 = original (processor mw)).
    { unfold preparar_mistura. by destruct (_ ≫= _). }
    destruct (preparar_mistura W path (processor mw)) as [p r].
    intros [= <- ->]. simpl in *. unfold exibido. simpl. by rewrite Hr, Ho.
  - congruence.
  - intros H. apply e_exibir_Ok in H as [_ H].
    by eapply update_display_exibido.
  - intros H. apply filtrar_Ok_exibir in H as [->|[mw1 H]]; [done|].
    by eapply update_display_exibido.
  - intros H. apply e_exibir_Ok in H as [_ H].
    by eapply update_display_exibido.
Qed.

Lemma alcancavel_exibido mw : janela_alcancavel mw -> exibido mw.
Proof.
  induction 1 as [|W ev mw mw' _ IH Hev].
  - left. by repeat split.
  - by eapply tratar_exibido.
Qed.

(** ** Theorems: the window *)

(** X4. In every window a user can reach, the two labels show the images
    built from the [original] and the [resultado] the processor holds at that
    moment; before an image is loaded the processor holds none and the labels
    show none. *)
Theorem janela_exibe_resultado (mw : MainWindow) :
  janela_alcancavel mw -> exibido mw.
Proof. apply alcancavel_exibido. Qed.

Lemma janela_exibe_resultado_witness :
  exibido (open_image mundo_exemplo "a.ppm" janela).1.
Proof.
  apply janela_exibe_resultado.
  apply (ja_evento mundo_exemplo (AbrirImagem "a.ppm") janela);
    [apply ja_inicio|].
  vm_compute. reflexivity.
Defined.

(** ** Shapes that can be shown *)

Lemma linhas_cobrem_forma m m' :
  mesma_forma m m' -> linhas_cobrem m -> linhas_cobrem m'.
Proof.
  intros Hf (linha0 & H0 & Hw).
  destruct (Forall2_lookup_l _ _ _ _ _ Hf H0) as (linha0' & H0' & Hl0).
  exists linha0'. split; [done|].
  apply Forall_lookup. intros i l' Hl'.
  destruct (Forall2_lookup_r _ _ _ _ _ Hf Hl') as (l & Hl & Hlen).
  pose proof (proj1 (Forall_lookup _ _) Hw _ _ Hl) as H. simpl in H. lia.
Qed.

Lemma empacotavel_como_forma m m' : empacotavel_como m m' -> mesma_forma m m'.
Proof.
  intros H. eapply Forall2_impl; [exact H|].
  intros l l' Hl. by eapply Forall2_length.
Qed.

Lemma exibivel_como m m' : empacotavel_como m m' -> exibivel m -> exibivel m'.
Proof.
  intros Hf [Hcob Hc].
  split; [by eapply linhas_cobrem_forma; [apply empacotavel_como_forma|]|].
  intros linha0' H0'.
  destruct (Forall2_lookup_r _ _ _ _ _ Hf H0') as (linha0 & H0 & Hl0).
  specialize (Hc linha0 H0).
  rewrite <- (Forall2_length _ _ _ Hl0).
  apply Forall_lookup. intros i l' Hl'.
  destruct (Forall2_lookup_r _ _ _ _ _ Hf Hl') as (l & Hl & Hll).
  pose proof (proj1 (Forall_lookup _ _) Hc _ _ Hl) as Hcl. simpl in Hcl.
  apply Forall_lookup. intros x p' Hp'.
  apply lookup_take_Some in Hp' as [Hp' Hx].
  destruct (Forall2_lookup_r _ _ _ _ _ Hll Hp') as (p & Hp & Hpp).
  apply Hpp. apply (proj1 (Forall_lookup _ _) Hcl x).
  by rewrite lookup_take_lt.
Qed.

Lemma exibir_em_qimage_como m m' q :
  empacotavel_como m m' -> exibir_em_qimage (Some m) = Ok q ->
  exists q', exibir_em_qimage (Some m') = Ok q'.
Proof.
  intros Hf Hq. apply exibir_em_qimage_exibivel.
  eapply exibivel_como; [done|]. by eapply exibir_em_qimage_Ok_exibivel.
Qed.

Lemma preto_empacotavel : empacotavel (0, 0, 0).
Proof. by vm_compute. Qed.

Lemma segmentar_por_cor_Ok_inv alvo tolerancia s s' :
  segmentar_por_cor alvo tolerancia s = (s', Ok tt) ->
  exists img m, resultado s = Some img /\ s' = set_resultado m s
                /\ empacotavel_como img m.
Proof.
  unfold segmentar_por_cor. destruct (resultado s) as [img|]; [|done].
  destruct (mapM _ img) as [m|] eqn:E; [|done]. intros [= <-].
  exists img, m. repeat split.
  apply mapM_Ok_inv in E. eapply Forall2_impl; [exact E|].
  intros l l' Hl. cbv beta in Hl. apply mapM_Ok_inv in Hl.
  eapply Forall2_impl; [exact Hl|]. intros p p' Hp Hemp. cbv beta in Hp.
  destruct (cor_proxima alvo tolerancia p (range 3)) as [b|]; [|done].
  rewrite bind_Ok in Hp. injection Hp as <-.
  destruct b; [done|apply preto_empacotavel].
Qed.

Lemma segmentar_por_cor_Raise_inv alvo tolerancia s s' e :
  segmentar_por_cor alvo tolerancia s = (s', Raise e) -> s' = s.
Proof.
  unfold segmentar_por_cor. destruct (resultado s) as [img|]; [|congruence].
  destruct (mapM _ img) as [m|]; congruence.
Qed.

Lemma tentar_segmentar_inv texto p p' r :
  tentar_segmentar texto p = (p', r) ->
  match r with
  | Ok _ => exists img m, resultado p = Some img /\ p' = set_resultado m p
                          /\ empacotavel_como img m
  | Raise _ => p' = p
  end.
Proof.
  unfold tentar_segmentar.
  destruct (mapM PyStr.int _) as [rgb|e]; [|by intros [= <- <-]].
  destruct r as [[]|e]; [apply segmentar_por_cor_Ok_inv|].
  apply segmentar_por_cor_Raise_inv.
Qed.

Lemma apply_filter_segmentar_geral (mw : MainWindow)
    (texto : PyStr.text) :
  janela_alcancavel mw -> original (processor mw) <> None ->
  exists mw', apply_filter 7 (texto, true) mw = (mw', Ok tt)
    /\ exibido mw'
    /\ match (tentar_segmentar texto (processor mw)).2 with
       | Ok _ => processor mw' = (tentar_segmentar texto (processor mw)).1
                 /\ avisos mw' = avisos mw
       | Raise _ => processor mw' = processor mw
                    /\ avisos mw' = S (avisos mw)
       end.
Proof.
  intros Hmw Ho. apply alcancavel_exibido in Hmw as Hex.
  destruct Hex as [(Hnone & _)|(q1 & q2 & Hl1 & Hl2 & Hq1 & Hq2)]; [done|].
  unfold apply_filter. rewrite bool_decide_eq_false_2 by done.
  cbn [orb Z.eqb]. unfold filtrar. cbn [Z.eqb Pos.eqb].
  destruct (tentar_segmentar texto (processor mw)) as [p r] eqn:E.
  apply tentar_segmentar_inv in E. cbn [fst snd].
  destruct r as [[]|e].
  - destruct E as (img & m & Hr & -> & Hf).
    rewrite Hr in Hq2.
    destruct (exibir_em_qimage_como img m q2 Hf Hq2) as (q2' & Hq2').
    unfold update_display. cbn [processor set_processor original resultado
                                set_resultado].
    rewrite Hq1, Hq2'. eexists. split; [done|]. split; [|done].
    right. exists q1, q2'. by repeat split.
  - subst p. unfold update_display.
    cbn [processor set_processor aviso]. rewrite Hq1, Hq2.
    eexists. split; [done|]. split; [|by destruct mw].
    right. exists q1, q2. by repeat split.
Qed.

(** ** Theorems: the segmentation filter of the window *)

(** X5. In every window a user can reach, choosing the segmentation filter
    never lets an exception escape, whatever text is typed: a text that does
    not parse, or a colour the segmentation fails on, gives a warning box and
    leaves the processor as it was; otherwise the processor holds the
    outcome of [segmentar_por_cor] with the default tolerance. In both cases
    the labels are brought up to date. *)
Theorem apply_filter_segmentar_sem_excecao (mw : MainWindow)
    (texto : PyStr.text) :
  janela_alcancavel mw -> original (processor mw) <> None ->
  exists mw', apply_filter 7 (texto, true) mw = (mw', Ok tt)
    /\ exibido mw'
    /\ match (tentar_segmentar texto (processor mw)).2 with
       | Ok _ => processor mw' = (tentar_segmentar texto (processor mw)).1
                 /\ avisos mw' = avisos mw
       | Raise _ => processor mw' = processor mw
                    /\ avisos mw' = S (avisos mw)
       end.
Proof. apply apply_filter_segmentar_geral. Qed.


Lemma apply_filter_segmentar_sem_excecao_witness :
  exists mw',
    apply_filter 7 (PyStr.lit "vermelho", true)
      (open_image mundo_exemplo "a.ppm" janela).1 = (mw', Ok tt)
    /\ exibido mw'
    /\ match (tentar_segmentar (PyStr.lit "vermelho")
                (processor (open_image mundo_exemplo "a.ppm" janela).1)).2 with
       | Ok _ =>
           processor mw'
           = (tentar_segmentar (PyStr.lit "vermelho")
                (processor (open_image mundo_exemplo "a.ppm" janela).1)).1
           /\ avisos mw' = avisos (open_image mundo_exemplo "a.ppm" janela).1
       | Raise _ =>
           processor mw' = processor (open_image mundo_exemplo "a.ppm" janela).1
           /\ avisos mw'
              = S (avisos (open_image mundo_exemplo "a.ppm" janela).1)
       end.
Proof.
  apply (apply_filter_segmentar_sem_excecao
           (open_image mundo_exemplo "a.ppm" janela).1 (PyStr.lit "vermelho")).
  - apply (ja_evento mundo_exemplo (AbrirImagem "a.ppm") janela);
      [apply ja_inicio|].
    vm_compute. reflexivity.
  - vm_compute. discriminate.
Defined.

(** Around a component of the colour [int] skips a space, not the separator
    FS (code 28), which [isspace] accepts: with the latter the text is
    refused and the handler shows its warning. *)
Example tentar_segmentar_espacos :
  (tentar_segmentar (PyStr.lit " 40,50 ,61") (sessao exemplo_a exemplo_b)).2
  = Ok tt
  /\ (tentar_segmentar (PyStr.chr 28 :: PyStr.lit "40,50,61")
        (sessao exemplo_a exemplo_b)).2
     = Raise ValueError
  /\ avisos (apply_filter 7 (PyStr.chr 28 :: PyStr.lit "40,50,61", true)
               janela_aberta).1 = 1%nat.
Proof. repeat split; vm_compute; reflexivity. Qed.

(** ** [split] on a separator *)

Lemma split_sep_from_token sep cur tok rest :
  Forall (fun c => Ascii.eqb c sep = false) tok ->
  PyStr.split_sep_from sep cur (tok ++ rest)
  = PyStr.split_sep_from sep (cur ++ tok) rest.
Proof.
  intros H. revert cur. induction H as [|c tok Hc _ IH]; intros cur.
  - by rewrite app_nil_r.
  - simpl. rewrite Hc, IH. by rewrite <- app_assoc.
Qed.

Lemma split_sep_from_sep sep cur rest :
  PyStr.split_sep_from sep cur (sep :: rest)
  = cur :: PyStr.split_sep_from sep [] rest.
Proof. simpl. by rewrite Ascii.eqb_refl. Qed.

Lemma split_sep_join sep toks :
  toks <> [] -> Forall (Forall (fun c => Ascii.eqb c sep = false)) toks ->
  PyStr.split_sep sep (PyStr.join [sep] toks) = toks.
Proof.
  unfold PyStr.split_sep. intros Hne H.
  induction H as [|tok toks Htok Htoks IH]; [done|].
  destruct toks as [|tok' toks'].
  - simpl. rewrite <- (app_nil_r tok) at 1.
    by rewrite split_sep_from_token.
  - change (PyStr.join [sep] (tok :: tok' :: toks'))
      with (tok ++ [sep] ++ PyStr.join [sep] (tok' :: toks')).
    rewrite split_sep_from_token by done.
    change ([sep] ++ PyStr.join [sep] (tok' :: toks'))
      with (sep :: PyStr.join [sep] (tok' :: toks')).
    rewrite split_sep_from_sep. by rewrite IH.
Qed.

Lemma char_de_int_nao_virgula c : char_de_int c -> Ascii.eqb c "," = false.
Proof.
  intros [Hd| ->]; [|done].
  by apply (digito_casos (fun c => Ascii.eqb c "," = false)).
Qed.

Lemma split_sep_texto_rgb zs :
  zs <> [] -> mapM PyStr.int (PyStr.split_sep "," (texto_rgb zs)) = Ok zs.
Proof.
  intros Hne. unfold texto_rgb.
  change (PyStr.lit ",") with [","%char].
  rewrite split_sep_join.
  - apply mapM_int_str.
  - by destruct zs.
  - apply Forall_fmap, Forall_forall. intros z _. simpl.
    eapply Forall_impl; [apply str_Forall|]. apply char_de_int_nao_virgula.
Qed.

(** X6. In a window a user can reach, typing [R,G,B] for three integers in
    the dialog of the segmentation filter replaces the result with its
    segmentation around the colour [(R, G, B)] with tolerance 30, and shows
    no warning. *)
Theorem apply_filter_segmentar_rgb (mw : MainWindow) (img : matrix)
    (r g b : Z) :
  janela_alcancavel mw -> resultado (processor mw) = Some img ->
  exists mw', apply_filter 7 (texto_rgb [r; g; b], true) mw = (mw', Ok tt)
    /\ processor mw'
       = set_resultado (Spec.segmentByColor img (r, g, b) 30) (processor mw)
    /\ avisos mw' = avisos mw.
Proof.
  intros Hmw Hr.
  assert (Ho : original (processor mw) <> None).
  { destruct (alcancavel_exibido mw Hmw) as [(_ & Hn & _)|(q1 & _ & _ & _ & H & _)];
      [congruence|].
    intros Hn. by rewrite Hn in H. }
  destruct (apply_filter_segmentar_geral mw (texto_rgb [r; g; b]) Hmw Ho)
    as (mw' & Hmw' & _ & H).
  exists mw'. split; [done|].
  unfold tentar_segmentar in H. rewrite split_sep_texto_rgb in H by done.
  pose proof (segmentar_por_cor_Spec (processor mw) img (r, g, b) 30 Hr) as Hs.
  cbn [fst snd] in Hs. cbv iota in H. rewrite Hs in H. exact H.
Qed.

Lemma apply_filter_segmentar_rgb_witness :
  exists mw',
    apply_filter 7 (texto_rgb [10; 20; 30], true)
      (open_image mundo_exemplo "a.ppm" janela).1 = (mw', Ok tt)
    /\ processor mw'
       = set_resultado (Spec.segmentByColor exemplo_a (10, 20, 30) 30)
           (processor (open_image mundo_exemplo "a.ppm" janela).1)
    /\ avisos mw' = avisos (open_image mundo_exemplo "a.ppm" janela).1.
Proof.
  apply (apply_filter_segmentar_rgb
           (open_image mundo_exemplo "a.ppm" janela).1 exemplo_a 10 20 30).
  - apply (ja_evento mundo_exemplo (AbrirImagem "a.ppm") janela);
      [apply ja_inicio|].
    vm_compute. reflexivity.
  - vm_compute. reflexivity.
Defined.

(** ** Export and reopening through the window *)

Lemma pixel_matrix_cobrem img : pixel_matrix img -> linhas_cobrem img.
Proof.
  intros [(linha0 & H0 & _ & Hw) _]. exists linha0. split; [done|].
  eapply Forall_impl; [exact Hw|]. intros l Hl. simpl in Hl. lia.
Qed.

Lemma pixel_matrix_exibivel img : pixel_matrix img -> exibivel img.
Proof.
  intros Hpm. split; [by apply pixel_matrix_cobrem|].
  apply todo_empacotavel_cabem, imagem_8bit_todo_empacotavel, Hpm.
Qed.

Lemma exibido_resultado mw :
  exibido mw -> original (processor mw) <> None ->
  exists img, resultado (processor mw) = Some img /\ exibivel img.
Proof.
  intros [(Hn & _)|(_ & q2 & _ & _ & _ & Hq2)] Ho; [done|].
  destruct (resultado (processor mw)) as [img|]; [|done].
  exists img. split; [done|]. by eapply exibir_em_qimage_Ok_exibivel.
Qed.

Lemma janela_aberta_alcancavel : janela_alcancavel janela_aberta.
Proof.
  apply (ja_evento mundo_exemplo (AbrirImagem "a.ppm") janela);
    [apply ja_inicio|].
  vm_compute. reflexivity.
Qed.

(** ** Theorems: exporting from the window *)

(** X7. Exporting the result to a path that ends in [.ppm] and opening that
    path again gives the window the exported image as original and as
    result, and both labels show it. *)
Theorem save_image_open_image (W : World) (path : string) (mw : MainWindow)
    (img : matrix) :
  path <> ""%string ->
  PyStr.endswith (PyStr.lower (PyStr.lit path)) (PyStr.lit ".ppm") = true ->
  splitext_lower W path = ".ppm"%string -> open_w W path = true ->
  resultado (processor mw) = Some img -> pixel_matrix img ->
  (save_image W path mw).2 = Ok None
  /\ exists mw' q,
       open_image (save_image W path mw).1 path mw = (mw', Ok tt)
       /\ original (processor mw') = Some img
       /\ resultado (processor mw') = Some img
       /\ lbl_orig mw' = Some q /\ lbl_res mw' = Some q.
Proof.
  intros Hpath Hend Hext Hw Hr Hpm.
  pose proof Hpm as [(linha0 & H0 & _ & Hrect) _].
  unfold save_image. rewrite decide_False by done. rewrite Hend.
  rewrite (salvar_ppm_p3_Ok W path (processor mw) img linha0) by done.
  split; [done|]. cbn [fst].
  unfold open_image. rewrite decide_False by done.
  unfold carregar_imagem. cbn [splitext_lower escrever].
  rewrite Hext, decide_True by done.
  rewrite (carregar_ppm_p3_bem_formado _ path
             (texto_ppm img (Z.of_nat (length linha0)) (Z.of_nat (length img)))
             (Z.of_nat (length linha0)) (Z.of_nat (length img)) (valores img)).
  - rewrite (montar_matriz_valores img (length linha0) Hrect).
    rewrite list_copy_fmap. unfold e_exibir, update_display.
    cbn [processor set_processor original resultado].
    destruct (exibir_em_qimage_exibivel img (pixel_matrix_exibivel img Hpm))
      as [q Hq].
    rewrite Hq. by eexists _, q.
  - simpl. by rewrite decide_True.
  - apply texto_ppm_bem_formado.
Qed.

Lemma save_image_open_image_witness :
  (save_image mundo_exemplo "a.ppm"
     (set_processor (sessao exemplo_b exemplo_a) janela)).2 = Ok None
  /\ exists mw' q,
       open_image
         (save_image mundo_exemplo "a.ppm"
            (set_processor (sessao exemplo_b exemplo_a) janela)).1
         "a.ppm" (set_processor (sessao exemplo_b exemplo_a) janela)
       = (mw', Ok tt)
       /\ original (processor mw') = Some exemplo_b
       /\ resultado (processor mw') = Some exemplo_b
       /\ lbl_orig mw' = Some q /\ lbl_res mw' = Some q.
Proof.
  apply (save_image_open_image mundo_exemplo "a.ppm"
           (set_processor (sessao exemplo_b exemplo_a) janela) exemplo_b).
  - discriminate.
  - vm_compute. reflexivity.
  - reflexivity.
  - reflexivity.
  - reflexivity.
  - prova_pixel_matrix.
Defined.

(** X8. In a window a user can reach, once an image is loaded, exporting
    raises nothing on account of the processor: the one exception
    [save_image] can end with is the [OSError] of a [.ppm] file that cannot
    be opened for writing. *)
Theorem save_image_excecao (W : World) (path : string) (mw : MainWindow)
    (e : exc) :
  janela_alcancavel mw -> original (processor mw) <> None ->
  (save_image W path mw).2 = Raise e ->
  e = OSError /\ open_w W path = false
  /\ PyStr.endswith (PyStr.lower (PyStr.lit path)) (PyStr.lit ".ppm") = true.
Proof.
  intros Hmw Ho.
  destruct (exibido_resultado mw (alcancavel_exibido mw Hmw) Ho)
    as (img & Hr & (linha0 & H0 & _) & _).
  unfold save_image. destruct (decide (path = ""%string)); [done|].
  destruct (PyStr.endswith _ _).
  - destruct (open_w W path) eqn:Hw.
    + by rewrite (salvar_ppm_p3_Ok W path (processor mw) img linha0).
    + unfold salvar_ppm_p3. rewrite Hw. simpl. by intros [= <-].
  - unfold salvar_imagem. rewrite Hr, getitem_0.
    by destruct img.
Qed.

Lemma save_image_excecao_witness :
  OSError = OSError /\ open_w mundo_so_leitura "c.ppm" = false
  /\ PyStr.endswith (PyStr.lower (PyStr.lit "c.ppm")) (PyStr.lit ".ppm") = true.
Proof.
  apply (save_image_excecao mundo_so_leitura "c.ppm" janela_aberta OSError).
  - apply janela_aberta_alcancavel.
  - vm_compute. discriminate.
  - vm_compute. reflexivity.
Defined.

(** ** Images compared pixel by pixel *)

Lemma matriz_ext (m m' : matrix) (h w : nat) :
  dimensoes m h w -> dimensoes m' h w ->
  (forall i j, (i < h)%nat -> (j < w)%nat ->
               Spec.pixel_at m i j = Spec.pixel_at m' i j) ->
  m = m'.
Proof.
  intros [Hh Hw] [Hh' Hw'] Hp.
  apply (list_eq_same_length _ _ h); [done..|].
  intros i l l' Hi Hl Hl'.
  pose proof (proj1 (Forall_lookup _ _) Hw _ _ Hl) as Hlen.
  pose proof (proj1 (Forall_lookup _ _) Hw' _ _ Hl') as Hlen'.
  simpl in Hlen, Hlen'.
  apply (list_eq_same_length _ _ w); [done..|].
  intros j p p' Hj Hpj Hpj'.
  specialize (Hp i j Hi Hj). unfold Spec.pixel_at in Hp.
  rewrite (list_lookup_total_correct _ _ _ Hl) in Hp.
  rewrite (list_lookup_total_correct _ _ _ Hl') in Hp.
  rewrite (list_lookup_total_correct _ _ _ Hpj) in Hp.
  by rewrite (list_lookup_total_correct _ _ _ Hpj') in Hp.
Qed.

Lemma set_resultado_mesmo s img m :
  resultado s = Some img -> set_resultado img (set_resultado m s) = s.
Proof. destruct s. simpl. by intros ->. Qed.

Lemma set_resultado_twice s m m' :
  set_resultado m (set_resultado m' s) = set_resultado m s.
Proof. done. Qed.

(** ** Mirrors *)

Lemma espelhamento_horizontal_Ok s img :
  resultado s = Some img ->
  aplicar_espelhamento_horizontal s
  = (set_resultado (Spec.mirrorHorizontal img) s, Ok tt).
Proof. intros Hr. unfold aplicar_espelhamento_horizontal. by rewrite Hr. Qed.

Lemma espelhamento_vertical_Ok s img :
  resultado s = Some img ->
  aplicar_espelhamento_vertical s
  = (set_resultado (Spec.mirrorVertical img) s, Ok tt).
Proof. intros Hr. unfold aplicar_espelhamento_vertical. by rewrite Hr. Qed.

Lemma mirrorHorizontal_involutivo (img : matrix) :
  Spec.mirrorHorizontal (Spec.mirrorHorizontal img) = img.
Proof.
  unfold Spec.mirrorHorizontal. rewrite <- list_fmap_compose.
  rewrite <- (list_fmap_id img) at 2. apply list_fmap_ext.
  intros _ l _. simpl. apply reverse_involutive.
Qed.

Lemma mirror_comuta (img : matrix) :
  Spec.mirrorVertical (Spec.mirrorHorizontal img)
  = Spec.mirrorHorizontal (Spec.mirrorVertical img).
Proof.
  unfold Spec.mirrorVertical, Spec.mirrorHorizontal. by rewrite fmap_reverse.
Qed.

(** ** Theorems: mirrors and rotations composed *)

(** X9. Mirroring twice along the same axis gives the session back, and the
    two mirrors commute; this holds for every result, whatever its shape. *)
Theorem espelhamentos_compostos (s : ImageProcessor) (img : matrix) :
  resultado s = Some img ->
  aplicar_espelhamento_horizontal (aplicar_espelhamento_horizontal s).1
  = (s, Ok tt)
  /\ aplicar_espelhamento_vertical (aplicar_espelhamento_vertical s).1
     = (s, Ok tt)
  /\ aplicar_espelhamento_vertical (aplicar_espelhamento_horizontal s).1
     = aplicar_espelhamento_horizontal (aplicar_espelhamento_vertical s).1.
Proof.
  intros Hr.
  rewrite (espelhamento_horizontal_Ok s img Hr).
  rewrite (espelhamento_vertical_Ok s img Hr). cbn [fst].
  rewrite (espelhamento_horizontal_Ok _ (Spec.mirrorHorizontal img)) by done.
  rewrite (espelhamento_vertical_Ok _ (Spec.mirrorVertical img)) by done.
  rewrite (espelhamento_vertical_Ok _ (Spec.mirrorHorizontal img)) by done.
  rewrite (espelhamento_horizontal_Ok _ (Spec.mirrorVertical img)) by done.
  rewrite !set_resultado_twice, mirrorHorizontal_involutivo, mirror_comuta.
  unfold Spec.mirrorVertical at 1 2. rewrite reverse_involutive.
  rewrite <- (set_resultado_twice s img img) at 1 2.
  by rewrite (set_resultado_mesmo s img img Hr).
Qed.

Lemma espelhamentos_compostos_witness :
  aplicar_espelhamento_horizontal
    (aplicar_espelhamento_horizontal (sessao exemplo_a exemplo_b)).1
  = (sessao exemplo_a exemplo_b, Ok tt)
  /\ aplicar_espelhamento_vertical
       (aplicar_espelhamento_vertical (sessao exemplo_a exemplo_b)).1
     = (sessao exemplo_a exemplo_b, Ok tt)
  /\ aplicar_espelhamento_vertical
       (aplicar_espelhamento_horizontal (sessao exemplo_a exemplo_b)).1
     = aplicar_espelhamento_horizontal
         (aplicar_espelhamento_vertical (sessao exemplo_a exemplo_b)).1.
Proof.
  apply (espelhamentos_compostos (sessao exemplo_a exemplo_b) exemplo_a).
  reflexivity.
Defined.

(** ** Rotations of a rectangular image *)

Lemma dimensoes_linha0 (img : matrix) (h w : nat) :
  dimensoes img h w -> (0 < h)%nat ->
  exists linha0, img !! 0%nat = Some linha0 /\ length linha0 = w
                 /\ Forall (fun l => length l = length linha0) img.
Proof.
  intros [Hh Hw] Hpos.
  destruct (lookup_lt_is_Some_2 img 0 ltac:(lia)) as [linha0 H0].
  pose proof (proj1 (Forall_lookup _ _) Hw _ _ H0) as Hl. simpl in Hl.
  exists linha0. repeat split; [done..|]. by rewrite Hl.
Qed.

Lemma rotacionar_direita_retangular s img h w :
  resultado s = Some img -> dimensoes img h w -> (0 < h)%nat ->
  rotacionar_direita s = (set_resultado (Spec.rotateClockwise90 img) s, Ok tt).
Proof.
  intros Hr Hd Hpos.
  destruct (dimensoes_linha0 img h w Hd Hpos) as (linha0 & H0 & _ & Hw).
  unfold rotacionar_direita.
  rewrite (rotacionar_rearranjo _
             (fun a b => ((length img - 1 - b)%nat, a)) s img linha0); try done.
  - unfold Spec.rotateClockwise90, rearranjo.
    by rewrite (list_lookup_total_correct _ _ _ H0).
  - intros i j Hi Hj. exists j, (length img - 1 - i)%nat.
    repeat split; try lia.
    + f_equal. lia.
    + f_equal. lia.
  - intros a b Ha Hb. simpl. repeat split; try lia. f_equal. lia.
Qed.

Lemma rotacionar_esquerda_retangular s img h w :
  resultado s = Some img -> dimensoes img h w -> (0 < h)%nat ->
  rotacionar_esquerda s
  = (set_resultado (Spec.rotateCounterClockwise90 img) s, Ok tt).
Proof.
  intros Hr Hd Hpos.
  destruct (dimensoes_linha0 img h w Hd Hpos) as (linha0 & H0 & _ & Hw).
  unfold rotacionar_esquerda.
  rewrite (rotacionar_rearranjo _
             (fun a b => (b, (length linha0 - 1 - a)%nat)) s img linha0);
    try done.
  - unfold Spec.rotateCounterClockwise90, rearranjo.
    by rewrite (list_lookup_total_correct _ _ _ H0).
  - intros i j Hi Hj. exists (length linha0 - 1 - j)%nat, i.
    repeat split; try lia.
    + f_equal. lia.
    + f_equal. lia.
  - intros a b Ha Hb. simpl. repeat split; try lia. f_equal. lia.
Qed.

Lemma rotateClockwise90_dimensoes (m : matrix) (h w : nat) :
  dimensoes m h w -> (0 < h)%nat -> dimensoes (Spec.rotateClockwise90 m) w h.
Proof.
  intros Hd Hpos.
  destruct (dimensoes_linha0 m h w Hd Hpos) as (linha0 & H0 & Hl0 & _).
  destruct Hd as [Hh _]. unfold Spec.rotateClockwise90.
  rewrite (list_lookup_total_correct _ _ _ H0), Hl0, Hh. split.
  - by rewrite length_fmap, length_seq.
  - apply Forall_fmap, Forall_forall. intros a _. simpl.
    by rewrite length_fmap, length_seq.
Qed.

Lemma rotateCounterClockwise90_dimensoes (m : matrix) (h w : nat) :
  dimensoes m h w -> (0 < h)%nat ->
  dimensoes (Spec.rotateCounterClockwise90 m) w h.
Proof.
  intros Hd Hpos.
  destruct (dimensoes_linha0 m h w Hd Hpos) as (linha0 & H0 & Hl0 & _).
  destruct Hd as [Hh _]. unfold Spec.rotateCounterClockwise90.
  rewrite (list_lookup_total_correct _ _ _ H0), Hl0, Hh. split.
  - by rewrite length_fmap, length_seq.
  - apply Forall_fmap, Forall_forall. intros a _. simpl.
    by rewrite length_fmap, length_seq.
Qed.

(** The pixel of a rotated image, read at the place it lands on. *)
Lemma rotateClockwise90_em (m : matrix) (h w a b : nat) :
  dimensoes m h w -> (a < w)%nat -> (b < h)%nat ->
  Spec.pixel_at (Spec.rotateClockwise90 m) a b
  = Spec.pixel_at m (h - 1 - b) a.
Proof.
  intros Hd Ha Hb.
  destruct (rotateClockwise90_pixel m h w (h - 1 - b) a Hd) as [_ H];
    [lia..|].
  by replace (h - 1 - (h - 1 - b))%nat with b in H by lia.
Qed.

Lemma rotateCounterClockwise90_em (m : matrix) (h w a b : nat) :
  dimensoes m h w -> (a < w)%nat -> (b < h)%nat ->
  Spec.pixel_at (Spec.rotateCounterClockwise90 m) a b
  = Spec.pixel_at m b (w - 1 - a).
Proof.
  intros Hd Ha Hb.
  destruct (rotateCounterClockwise90_pixel m h w b (w - 1 - a) Hd) as [_ H];
    [lia..|].
  by replace (w - 1 - (w - 1 - a))%nat with a in H by lia.
Qed.

Lemma mirror_dimensoes (m : matrix) (h w : nat) :
  dimensoes m h w ->
  dimensoes (Spec.mirrorVertical (Spec.mirrorHorizontal m)) h w.
Proof.
  intros [Hh Hw]. unfold Spec.mirrorVertical, Spec.mirrorHorizontal. split.
  - by rewrite length_reverse, length_fmap.
  - apply Forall_reverse, Forall_fmap. eapply Forall_impl; [exact Hw|].
    intros l Hl. simpl. by rewrite length_reverse.
Qed.

Lemma mirror_em (m : matrix) (h w i j : nat) :
  dimensoes m h w -> (i < h)%nat -> (j < w)%nat ->
  Spec.pixel_at (Spec.mirrorVertical (Spec.mirrorHorizontal m)) i j
  = Spec.pixel_at m (h - 1 - i) (w - 1 - j).
Proof.
  intros [Hh Hw] Hi Hj.
  destruct (lookup_lt_is_Some_2 m (h - 1 - i) ltac:(lia)) as [l Hl].
  pose proof (proj1 (Forall_lookup _ _) Hw _ _ Hl) as Hlen. simpl in Hlen.
  destruct (lookup_lt_is_Some_2 l (w - 1 - j) ltac:(lia)) as [p Hp].
  unfold Spec.pixel_at at 2.
  rewrite (list_lookup_total_correct _ _ _ Hl).
  rewrite (list_lookup_total_correct _ _ _ Hp).
  unfold Spec.pixel_at, Spec.mirrorVertical, Spec.mirrorHorizontal.
  assert (Hrow : reverse (reverse <$> m) !! i = Some (reverse l)).
  { rewrite reverse_lookup by (rewrite length_fmap; lia).
    rewrite length_fmap, list_lookup_fmap.
    replace (length m - S i)%nat with (h - 1 - i)%nat by lia.
    by rewrite Hl. }
  rewrite (list_lookup_total_correct _ _ _ Hrow).
  apply list_lookup_total_correct.
  rewrite reverse_lookup by lia.
  by replace (length l - S j)%nat with (w - 1 - j)%nat by lia.
Qed.

Lemma rotate_esquerda_direita (m : matrix) (h w : nat) :
  dimensoes m h w -> (0 < h)%nat -> (0 < w)%nat ->
  Spec.rotateCounterClockwise90 (Spec.rotateClockwise90 m) = m.
Proof.
  intros Hd Hh Hw.
  pose proof (rotateClockwise90_dimensoes m h w Hd Hh) as Hd1.
  pose proof (rotateCounterClockwise90_dimensoes _ w h Hd1 Hw) as Hd2.
  apply (matriz_ext _ _ h w Hd2 Hd). intros i j Hi Hj.
  rewrite (rotateCounterClockwise90_em _ w h i j Hd1 Hi Hj).
  rewrite (rotateClockwise90_em m h w j (h - 1 - i) Hd) by lia.
  f_equal. lia.
Qed.

Lemma rotate_direita_esquerda (m : matrix) (h w : nat) :
  dimensoes m h w -> (0 < h)%nat -> (0 < w)%nat ->
  Spec.rotateClockwise90 (Spec.rotateCounterClockwise90 m) = m.
Proof.
  intros Hd Hh Hw.
  pose proof (rotateCounterClockwise90_dimensoes m h w Hd Hh) as Hd1.
  pose proof (rotateClockwise90_dimensoes _ w h Hd1 Hw) as Hd2.
  apply (matriz_ext _ _ h w Hd2 Hd). intros i j Hi Hj.
  rewrite (rotateClockwise90_em _ w h i j Hd1 Hi Hj).
  rewrite (rotateCounterClockwise90_em m h w (w - 1 - j) i Hd) by lia.
  f_equal. lia.
Qed.

Lemma rotate_direita_direita (m : matrix) (h w : nat) :
  dimensoes m h w -> (0 < h)%nat -> (0 < w)%nat ->
  Spec.rotateClockwise90 (Spec.rotateClockwise90 m)
  = Spec.mirrorVertical (Spec.mirrorHorizontal m).
Proof.
  intros Hd Hh Hw.
  pose proof (rotateClockwise90_dimensoes m h w Hd Hh) as Hd1.
  pose proof (rotateClockwise90_dimensoes _ w h Hd1 Hw) as Hd2.
  apply (matriz_ext _ _ h w Hd2 (mirror_dimensoes m h w Hd)).
  intros i j Hi Hj.
  rewrite (rotateClockwise90_em _ w h i j Hd1 Hi Hj).
  rewrite (rotateClockwise90_em m h w (w - 1 - j) i Hd) by lia.
  by rewrite (mirror_em m h w i j Hd Hi Hj).
Qed.

Lemma rotate_esquerda_esquerda (m : matrix) (h w : nat) :
  dimensoes m h w -> (0 < h)%nat -> (0 < w)%nat ->
  Spec.rotateCounterClockwise90 (Spec.rotateCounterClockwise90 m)
  = Spec.mirrorVertical (Spec.mirrorHorizontal m).
Proof.
  intros Hd Hh Hw.
  pose proof (rotateCounterClockwise90_dimensoes m h w Hd Hh) as Hd1.
  pose proof (rotateCounterClockwise90_dimensoes _ w h Hd1 Hw) as Hd2.
  apply (matriz_ext _ _ h w Hd2 (mirror_dimensoes m h w Hd)).
  intros i j Hi Hj.
  rewrite (rotateCounterClockwise90_em _ w h i j Hd1 Hi Hj).
  rewrite (rotateCounterClockwise90_em m h w j (h - 1 - i) Hd) by lia.
  by rewrite (mirror_em m h w i j Hd Hi Hj).
Qed.

(** X10. On a result of [h] rows of [w] pixels, [h] and [w] at least 1, a
    rotation to the right followed by a rotation to the left gives the
    session back, and so does a rotation to the left followed by one to the
    right. *)
Theorem rotacoes_inversas (s : ImageProcessor) (img : matrix) (h w : nat) :
  resultado s = Some img -> dimensoes img h w -> (0 < h)%nat -> (0 < w)%nat ->
  rotacionar_esquerda (rotacionar_direita s).1 = (s, Ok tt)
  /\ rotacionar_direita (rotacionar_esquerda s).1 = (s, Ok tt).
Proof.
  intros Hr Hd Hh Hw. split.
  - rewrite (rotacionar_direita_retangular s img h w Hr Hd Hh). cbn [fst].
    rewrite (rotacionar_esquerda_retangular _ (Spec.rotateClockwise90 img) w h);
      [|done|by apply rotateClockwise90_dimensoes|done].
    rewrite (rotate_esquerda_direita img h w Hd Hh Hw).
    by rewrite (set_resultado_mesmo s img _ Hr).
  - rewrite (rotacionar_esquerda_retangular s img h w Hr Hd Hh). cbn [fst].
    rewrite (rotacionar_direita_retangular _
               (Spec.rotateCounterClockwise90 img) w h);
      [|done|by apply rotateCounterClockwise90_dimensoes|done].
    rewrite (rotate_direita_esquerda img h w Hd Hh Hw).
    by rewrite (set_resultado_mesmo s img _ Hr).
Qed.

Lemma rotacoes_inversas_witness :
  rotacionar_esquerda (rotacionar_direita (sessao exemplo_grande exemplo_a)).1
  = (sessao exemplo_grande exemplo_a, Ok tt)
  /\ rotacionar_direita
       (rotacionar_esquerda (sessao exemplo_grande exemplo_a)).1
     = (sessao exemplo_grande exemplo_a, Ok tt).
Proof.
  apply (rotacoes_inversas (sessao exemplo_grande exemplo_a) exemplo_grande 2 3).
  - reflexivity.
  - prova_dimensoes.
  - lia.
  - lia.
Defined.

(** X11. On such a result, two rotations in the same direction give what a
    horizontal mirror followed by a vertical mirror gives, and four
    rotations to the right give the session back. *)
Theorem rotacoes_repetidas (s : ImageProcessor) (img : matrix) (h w : nat) :
  resultado s = Some img -> dimensoes img h w -> (0 < h)%nat -> (0 < w)%nat ->
  rotacionar_direita (rotacionar_direita s).1
  = aplicar_espelhamento_vertical (aplicar_espelhamento_horizontal s).1
  /\ rotacionar_esquerda (rotacionar_esquerda s).1
     = aplicar_espelhamento_vertical (aplicar_espelhamento_horizontal s).1
  /\ rotacionar_direita
       (rotacionar_direita
          (rotacionar_direita (rotacionar_direita s).1).1).1
     = (s, Ok tt).
Proof.
  intros Hr Hd Hh Hw.
  pose proof (rotateClockwise90_dimensoes img h w Hd Hh) as Hd1.
  pose proof (rotateCounterClockwise90_dimensoes img h w Hd Hh) as Hd1'.
  assert (HRR : rotacionar_direita (rotacionar_direita s).1
                = (set_resultado
                     (Spec.mirrorVertical (Spec.mirrorHorizontal img)) s,
                   Ok tt)).
  { rewrite (rotacionar_direita_retangular s img h w Hr Hd Hh). cbn [fst].
    rewrite (rotacionar_direita_retangular _ (Spec.rotateClockwise90 img) w h)
      by done.
    by rewrite (rotate_direita_direita img h w Hd Hh Hw). }
  assert (HVH : aplicar_espelhamento_vertical
                  (aplicar_espelhamento_horizontal s).1
                = (set_resultado
                     (Spec.mirrorVertical (Spec.mirrorHorizontal img)) s,
                   Ok tt)).
  { rewrite (espelhamento_horizontal_Ok s img Hr). cbn [fst].
    by rewrite (espelhamento_vertical_Ok _ (Spec.mirrorHorizontal img)). }
  split; [by rewrite HRR, HVH|]. split.
  - rewrite HVH.
    rewrite (rotacionar_esquerda_retangular s img h w Hr Hd Hh). cbn [fst].
    rewrite (rotacionar_esquerda_retangular _
               (Spec.rotateCounterClockwise90 img) w h) by done.
    by rewrite (rotate_esquerda_esquerda img h w Hd Hh Hw).
  - rewrite HRR. cbn [fst].
    pose proof (mirror_dimensoes img h w Hd) as Hdm.
    rewrite (rotacionar_direita_retangular
               (set_resultado
                  (Spec.mirrorVertical (Spec.mirrorHorizontal img)) s)
               (Spec.mirrorVertical (Spec.mirrorHorizontal img)) h w);
      [|reflexivity|exact Hdm|exact Hh].
    cbn [fst].
    rewrite (rotacionar_direita_retangular _
               (Spec.rotateClockwise90
                  (Spec.mirrorVertical (Spec.mirrorHorizontal img))) w h);
      [|done|by apply rotateClockwise90_dimensoes|done].
    rewrite (rotate_direita_direita _ h w Hdm Hh Hw).
    rewrite (mirror_comuta (Spec.mirrorVertical (Spec.mirrorHorizontal img))).
    unfold Spec.mirrorVertical at 1 2. rewrite reverse_involutive.
    rewrite mirrorHorizontal_involutivo.
    rewrite set_resultado_twice.
    by rewrite (set_resultado_mesmo s img
                  (Spec.mirrorVertical (Spec.mirrorHorizontal img)) Hr).
Qed.

Lemma rotacoes_repetidas_witness :
  rotacionar_direita (rotacionar_direita (sessao exemplo_grande exemplo_a)).1
  = aplicar_espelhamento_vertical
      (aplicar_espelhamento_horizontal (sessao exemplo_grande exemplo_a)).1
  /\ rotacionar_esquerda
       (rotacionar_esquerda (sessao exemplo_grande exemplo_a)).1
     = aplicar_espelhamento_vertical
         (aplicar_espelhamento_horizontal (sessao exemplo_grande exemplo_a)).1
  /\ rotacionar_direita
       (rotacionar_direita
          (rotacionar_direita
             (rotacionar_direita (sessao exemplo_grande exemplo_a)).1).1).1
     = (sessao exemplo_grande exemplo_a, Ok tt).
Proof.
  apply (rotacoes_repetidas (sessao exemplo_grande exemplo_a) exemplo_grande
           2 3).
  - reflexivity.
  - prova_dimensoes.
  - lia.
  - lia.
Defined.

(** ** Rotating an image whose first row is empty *)

Lemma rotacionar_linha_vazia destino s img :
  resultado s = Some img -> img !! 0%nat = Some [] ->
  rotacionar destino s = (set_resultado [] s, Ok tt).
Proof.
  intros Hr H0. unfold rotacionar. rewrite Hr, getitem_0.
  destruct img as [|l0 img']; [done|]. injection H0 as ->.
  rewrite bind_Ok. unfold preencher.
  change (range (Z.of_nat (length ([] : list pixel)))) with ([] : list Z).
  by rewrite for_each_nada.
Qed.

Lemma rotacionar_vazia destino s :
  resultado s = Some [] -> rotacionar destino s = (s, Raise IndexError).
Proof. intros Hr. unfold rotacionar. by rewrite Hr. Qed.

(** ** Theorems: the rotation of an image without columns *)

(** X12. When the first row of the result is empty (an image of width 0),
    either rotation returns normally and leaves the empty list as result,
    whatever the number of rows was; from then on either rotation raises
    [IndexError] and leaves the session as it is, and the result can no
    longer be shown. *)
Theorem rotacionar_sem_colunas (s : ImageProcessor) (img : matrix) :
  resultado s = Some img -> img !! 0%nat = Some [] ->
  rotacionar_direita s = (set_resultado [] s, Ok tt)
  /\ rotacionar_esquerda s = (set_resultado [] s, Ok tt)
  /\ rotacionar_direita (set_resultado [] s)
     = (set_resultado [] s, Raise IndexError)
  /\ rotacionar_esquerda (set_resultado [] s)
     = (set_resultado [] s, Raise IndexError)
  /\ exibir_em_qimage (resultado (set_resultado [] s)) = Raise IndexError.
Proof.
  intros Hr H0. unfold rotacionar_direita, rotacionar_esquerda.
  rewrite !(rotacionar_linha_vazia _ s img Hr H0).
  by rewrite !(rotacionar_vazia _ (set_resultado [] s)).
Qed.

Lemma rotacionar_sem_colunas_witness :
  rotacionar_direita (sessao [[]; []] exemplo_a)
  = (set_resultado [] (sessao [[]; []] exemplo_a), Ok tt)
  /\ rotacionar_esquerda (sessao [[]; []] exemplo_a)
     = (set_resultado [] (sessao [[]; []] exemplo_a), Ok tt)
  /\ rotacionar_direita (set_resultado [] (sessao [[]; []] exemplo_a))
     = (set_resultado [] (sessao [[]; []] exemplo_a), Raise IndexError)
  /\ rotacionar_esquerda (set_resultado [] (sessao [[]; []] exemplo_a))
     = (set_resultado [] (sessao [[]; []] exemplo_a), Raise IndexError)
  /\ exibir_em_qimage (resultado (set_resultado [] (sessao [[]; []] exemplo_a)))
     = Raise IndexError.
Proof.
  apply (rotacionar_sem_colunas (sessao [[]; []] exemplo_a) [[]; []]);
    reflexivity.
Defined.

(** ** Segmentation and the length of the target *)

Lemma cor_proxima_3_mais tr tg tb extra tolerancia (p : pixel) :
  cor_proxima (tr :: tg :: tb :: extra) tolerancia p (range 3)
  = Ok ((Z.abs (p.1.1 - tr) <=? tolerancia)
        && (Z.abs (p.1.2 - tg) <=? tolerancia)
        && (Z.abs (p.2 - tb) <=? tolerancia)).
Proof.
  destruct p as [[r g] b]. change (range 3) with [0; 1; 2].
  cbn [cor_proxima pixel_get Z.eqb Pos.eqb].
  rewrite !getitem_nonneg by lia.
  change (Z.to_nat 0) with 0%nat. change (Z.to_nat 1) with 1%nat.
  change (Z.to_nat 2) with 2%nat. cbn [lookup list_lookup].
  rewrite !bind_Ok. cbn [fst snd].
  destruct (Z.abs (r - tr) <=? tolerancia); [|done].
  destruct (Z.abs (g - tg) <=? tolerancia); [|done].
  by destruct (Z.abs (b - tb) <=? tolerancia).
Qed.

Lemma segmentar_por_cor_3_mais s tr tg tb extra tolerancia :
  segmentar_por_cor (tr :: tg :: tb :: extra) tolerancia s
  = match resultado s with
    | None => (s, Raise TypeError)
    | Some img =>
        (set_resultado (Spec.segmentByColor img (tr, tg, tb) tolerancia) s,
         Ok tt)
    end.
Proof.
  unfold segmentar_por_cor. destruct (resultado s) as [img|]; [|done].
  rewrite (mapM_Ok_fmap _
             (fun linha : list pixel =>
                (fun p : pixel =>
                   if (Z.abs (p.1.1 - tr) <=? tolerancia)
                      && (Z.abs (p.1.2 - tg) <=? tolerancia)
                      && (Z.abs (p.2 - tb) <=? tolerancia)
                   then p else (0, 0, 0)) <$> linha)); [done|].
  apply Forall_forall. intros linha _.
  apply mapM_Ok_fmap, Forall_forall. intros p _.
  by rewrite cor_proxima_3_mais, bind_Ok.
Qed.

Lemma segmentByColor_idempotente img alvo tolerancia :
  Spec.segmentByColor (Spec.segmentByColor img alvo tolerancia) alvo tolerancia
  = Spec.segmentByColor img alvo tolerancia.
Proof.
  unfold Spec.segmentByColor, por_pixel. rewrite <- list_fmap_compose.
  apply list_fmap_ext. intros _ linha _. simpl.
  rewrite <- list_fmap_compose. apply list_fmap_ext. intros _ p _. simpl.
  destruct ((Z.abs (p.1.1 - alvo.1.1) <=? tolerancia)
            && (Z.abs (p.1.2 - alvo.1.2) <=? tolerancia)
            && (Z.abs (p.2 - alvo.2) <=? tolerancia)) eqn:E.
  - by rewrite E.
  - by destruct ((Z.abs ((0, 0, 0).1.1 - alvo.1.1) <=? tolerancia)
                 && (Z.abs ((0, 0, 0).1.2 - alvo.1.2) <=? tolerancia)
                 && (Z.abs ((0, 0, 0).2 - alvo.2) <=? tolerancia)).
Qed.

(** ** Theorems: segmentation *)

(** X13. [segmentar_por_cor] reads the first three components of the
    target only: with a longer target it does what it does with the first
    three, which for a loaded result is the segmentation of the
    specification, on an image of any shape. *)
Theorem segmentar_por_cor_componentes_a_mais (s : ImageProcessor)
    (r g b : Z) (extra : list Z) (tolerancia : Z) :
  segmentar_por_cor (r :: g :: b :: extra) tolerancia s
  = segmentar_por_cor [r; g; b] tolerancia s
  /\ forall img, resultado s = Some img ->
       segmentar_por_cor (r :: g :: b :: extra) tolerancia s
       = (set_resultado (Spec.segmentByColor img (r, g, b) tolerancia) s,
          Ok tt).
Proof.
  split; [by rewrite !segmentar_por_cor_3_mais|].
  intros img Hr. by rewrite segmentar_por_cor_3_mais, Hr.
Qed.

(** X14. With a target of at least three components, segmenting twice with
    the same target and tolerance gives what segmenting once gives. *)
Theorem segmentar_por_cor_idempotente (s : ImageProcessor) (alvo : list Z)
    (tolerancia : Z) :
  (3 <= length alvo)%nat ->
  segmentar_por_cor alvo tolerancia (segmentar_por_cor alvo tolerancia s).1
  = segmentar_por_cor alvo tolerancia s.
Proof.
  intros Hlen. destruct alvo as [|r [|g [|b extra]]]; [simpl in Hlen; lia..|].
  rewrite !segmentar_por_cor_3_mais.
  destruct (resultado s) as [img|] eqn:Hr; cbn [fst]; [|by rewrite Hr].
  cbn [resultado set_resultado].
  by rewrite segmentByColor_idempotente.
Qed.

Lemma segmentar_por_cor_idempotente_witness :
  segmentar_por_cor [10; 20; 30] 5
    (segmentar_por_cor [10; 20; 30] 5 (sessao exemplo_a exemplo_b)).1
  = segmentar_por_cor [10; 20; 30] 5 (sessao exemplo_a exemplo_b).
Proof.
  apply (segmentar_por_cor_idempotente (sessao exemplo_a exemplo_b)
           [10; 20; 30] 5).
  simpl. lia.
Defined.

Lemma mapM_tudo_ou_erro {A B} (f : A -> res B) (g : A -> B) (ok : A -> bool)
    (e : exc) (l : list A) :
  (forall x, f x = if ok x then Ok (g x) else Raise e) ->
  mapM f l = if forallb ok l then Ok (g <$> l) else Raise e.
Proof.
  intros Hf. induction l as [|x l IH]; [done|].
  rewrite mapM_cons, Hf, IH. simpl.
  destruct (ok x); [|done]. simpl. by destruct (forallb ok l).
Qed.

Lemma cor_proxima_curto alvo tolerancia (p : pixel) :
  (length alvo < 3)%nat ->
  cor_proxima alvo tolerancia p (range 3)
  = if perto alvo tolerancia p then Raise IndexError else Ok false.
Proof.
  intros Hlen. destruct p as [[r g] b]. change (range 3) with [0; 1; 2].
  unfold perto. cbn [fst snd].
  destruct alvo as [|a0 [|a1 [|a2 alvo]]]; [..|simpl in Hlen; lia].
  - done.
  - cbn [cor_proxima pixel_get Z.eqb Pos.eqb zip zip_with forallb fst snd].
    rewrite !getitem_nonneg by lia.
    change (Z.to_nat 0) with 0%nat. change (Z.to_nat 1) with 1%nat.
    cbn [lookup list_lookup]. rewrite !bind_Ok.
    by destruct (Z.abs (r - a0) <=? tolerancia).
  - cbn [cor_proxima pixel_get Z.eqb Pos.eqb zip zip_with forallb fst snd].
    rewrite !getitem_nonneg by lia.
    change (Z.to_nat 0) with 0%nat. change (Z.to_nat 1) with 1%nat.
    change (Z.to_nat 2) with 2%nat.
    cbn [lookup list_lookup]. rewrite !bind_Ok.
    destruct (Z.abs (r - a0) <=? tolerancia); [|done].
    by destruct (Z.abs (g - a1) <=? tolerancia).
Qed.

(** X15. With a target of fewer than three components, [segmentar_por_cor]
    raises [IndexError] and leaves the session as it is as soon as one pixel
    is within tolerance on every component the target has; when no pixel is,
    it returns normally and the result is black everywhere. *)
Theorem segmentar_por_cor_alvo_incompleto (s : ImageProcessor) (img : matrix)
    (alvo : list Z) (tolerancia : Z) :
  (length alvo < 3)%nat -> resultado s = Some img ->
  segmentar_por_cor alvo tolerancia s
  = if nenhum_perto alvo tolerancia img
    then (set_resultado (por_pixel (fun _ => preto) img) s, Ok tt)
    else (s, Raise IndexError).
Proof.
  intros Hlen Hr. unfold segmentar_por_cor, nenhum_perto. rewrite Hr.
  rewrite (mapM_tudo_ou_erro _
             (fun linha : list pixel => (fun _ => preto) <$> linha)
             (forallb (fun p => negb (perto alvo tolerancia p))) IndexError).
  - by destruct (forallb _ img).
  - intros linha.
    apply (mapM_tudo_ou_erro _ (fun _ => preto)
             (fun p => negb (perto alvo tolerancia p)) IndexError).
    intros p. rewrite (cor_proxima_curto alvo tolerancia p Hlen).
    by destruct (perto alvo tolerancia p).
Qed.

Lemma segmentar_por_cor_alvo_incompleto_witness :
  segmentar_por_cor [10; 20] 5 (sessao exemplo_a exemplo_b)
  = if nenhum_perto [10; 20] 5 exemplo_a
    then (set_resultado (por_pixel (fun _ => preto) exemplo_a)
            (sessao exemplo_a exemplo_b), Ok tt)
    else (sessao exemplo_a exemplo_b, Raise IndexError).
Proof.
  apply (segmentar_por_cor_alvo_incompleto (sessao exemplo_a exemplo_b)
           exemplo_a [10; 20] 5).
  - simpl. lia.
  - reflexivity.
Defined.

(** ** The fade in integer arithmetic *)

Lemma escurecer_canal_piso k c :
  0 <= k < 6 -> canal_8bit c -> escurecer_canal k c = Ok (c * k / 5).
Proof.
  intros Hk Hc.
  assert (Hall : forallb (fun k => forallb (fun c =>
      match escurecer_canal k c with
      | Ok z => z =? c * k / 5
      | Raise _ => false
      end) canais) (seqZ 0 6) = true) by (vm_compute; reflexivity).
  apply (forallb_elem _ _ k) in Hall; [|apply elem_of_seqZ; lia].
  apply (forallb_elem _ _ c) in Hall; [|by apply canal_8bit_canais].
  cbv beta in Hall.
  destruct (escurecer_canal k c) as [z|]; [|done].
  by apply Z.eqb_eq in Hall as ->.
Qed.

Lemma pixel_preto_piso k p :
  0 <= k < 6 -> pixel_8bit p -> pixel_preto k p = pixel_piso k p.
Proof.
  destruct p as [[r g] b]. intros Hk (Hr & Hg & Hb). simpl in *.
  unfold pixel_preto, pixel_piso.
  by rewrite !escurecer_canal_piso.
Qed.

(** ** Theorems: the frames of the fade *)

(** X16. For an original of 8-bit pixels, every channel [c] of the original
    becomes [c * k // 5] in frame [k] of the fade, for each of the six
    frames: in this range the product in binary64 followed by [int] agrees
    with integer arithmetic. *)
Theorem fade_frames_piso (s : ImageProcessor) (img : matrix) (k : nat) :
  original s = Some img -> imagem_8bit img -> (k < 6)%nat ->
  exists s', aplicar_transparencia_preto s = (s', Ok tt)
    /\ alpha_frames s' !! k
       = Some (por_pixel (pixel_piso (Z.of_nat k)) img).
Proof.
  intros Ho H8 Hk. eexists.
  split; [by apply aplicar_transparencia_preto_ok|].
  cbn [alpha_frames]. rewrite list_lookup_fmap.
  unfold range. rewrite (lookup_seqZ_lt 0 6 k) by lia. simpl. f_equal.
  apply por_pixel_ext_8bit; [|done].
  intros p Hp. rewrite Z.add_0_l. apply pixel_preto_piso; [lia|done].
Qed.

Lemma fade_frames_piso_witness :
  exists s', aplicar_transparencia_preto (sessao exemplo_a exemplo_b)
             = (s', Ok tt)
    /\ alpha_frames s' !! 3%nat
       = Some (por_pixel (pixel_piso (Z.of_nat 3)) exemplo_a).
Proof.
  apply (fade_frames_piso (sessao exemplo_a exemplo_b) exemplo_a 3).
  - reflexivity.
  - prova_8bit.
  - lia.
Defined.

(** ** Stepping through the frames *)

Lemma avancar_n_S n s :
  avancar_n (S n) s = (avancar_transparencia (avancar_n n s)).1.
Proof. reflexivity. Qed.

Lemma avancar_n_campos n s :
  alpha_frames s <> [] ->
  alpha_frames (avancar_n (S n) s) = alpha_frames s
  /\ alpha_index (avancar_n (S n) s)
     = ((alpha_index s + S n) `mod` length (alpha_frames s))%nat
  /\ resultado (avancar_n (S n) s)
     = alpha_frames s !! alpha_index (avancar_n (S n) s)
  /\ original (avancar_n (S n) s) = original s
  /\ second_image (avancar_n (S n) s) = second_image s.
Proof.
  intros Hne.
  assert (Hlen : length (alpha_frames s) <> 0%nat).
  { by destruct (alpha_frames s). }
  induction n as [|n (IHf & IHi & IHr & IHo & IH2)].
  - destruct (avancar_transparencia_campos s Hne) as (f & Hf & Hs).
    rewrite avancar_n_S. change (avancar_n 0 s) with s. rewrite Hs.
    cbn [fst alpha_frames alpha_index resultado original second_image].
    by rewrite Hf.
  - rewrite (avancar_n_S (S n)).
    assert (Hne' : alpha_frames (avancar_n (S n) s) <> []) by by rewrite IHf.
    destruct (avancar_transparencia_campos _ Hne') as (f & Hf & Hs).
    rewrite Hs.
    cbn [fst alpha_frames alpha_index resultado original second_image].
    rewrite IHf in *. rewrite IHi in *. rewrite Hf.
    replace ((alpha_index s + S (S n)) `mod` length (alpha_frames s))%nat
      with (((alpha_index s + S n) `mod` length (alpha_frames s) + 1)
              `mod` length (alpha_frames s))%nat; [done|].
    rewrite Nat.Div0.add_mod_idemp_l. f_equal. lia.
Qed.

(** ** Theorems: the animation wraps around *)

(** X17. While the frame sequence is empty [avancar_transparencia] changes
    nothing. Otherwise, after [n >= 1] calls the frames, the original and
    the second image are what they were, the cursor has advanced by [n]
    modulo the number of frames and the result is the frame under it; so
    after as many calls as there are frames a cursor that was in range is
    back where it was. *)
Theorem avancar_transparencia_ciclo (s : ImageProcessor) (n : nat) :
  (alpha_frames s = [] -> avancar_n n s = s)
  /\ (alpha_frames s <> [] ->
      alpha_frames (avancar_n (S n) s) = alpha_frames s
      /\ alpha_index (avancar_n (S n) s)
         = ((alpha_index s + S n) `mod` length (alpha_frames s))%nat
      /\ resultado (avancar_n (S n) s)
         = alpha_frames s !! alpha_index (avancar_n (S n) s)
      /\ original (avancar_n (S n) s) = original s
      /\ second_image (avancar_n (S n) s) = second_image s
      /\ ((alpha_index s < length (alpha_frames s))%nat ->
          alpha_index (avancar_n (length (alpha_frames s)) s)
          = alpha_index s)).
Proof.
  split.
  - intros He. induction n as [|n IH]; [done|].
    rewrite avancar_n_S, IH. unfold avancar_transparencia. by rewrite He.
  - intros Hne.
    destruct (avancar_n_campos n s Hne) as (Hf & Hi & Hr & Ho & H2).
    repeat split; try done.
    intros Hlt. destruct (length (alpha_frames s)) as [|m] eqn:Hlen; [lia|].
    destruct (avancar_n_campos m s Hne) as (_ & Hi' & _).
    rewrite Hi', Hlen.
    replace (alpha_index s + S m)%nat with (alpha_index s + 1 * S m)%nat
      by lia.
    rewrite Nat.Div0.mod_add. apply Nat.mod_small. lia.
Qed.

(** ** What each call leaves alone *)

Lemma gerar_frames_campos frame ks s :
  original (gerar_frames frame ks s).1 = original s
  /\ second_image (gerar_frames frame ks s).1 = second_image s.
Proof.
  revert s. induction ks as [|k ks IH]; intros s; [done|]. simpl.
  destruct (frame k) as [f|]; [|done].
  by destruct (IH (set_alpha_frames (alpha_frames s ++ [f]) s)) as [-> ->].
Qed.

Lemma primeiro_frame_campos s :
  original (primeiro_frame s).1 = original s
  /\ second_image (primeiro_frame s).1 = second_image s.
Proof. unfold primeiro_frame. by destruct (getitem _ 0). Qed.

Lemma animar_campos frame ks s :
  let r := match gerar_frames frame ks s with
           | (s1, Raise e) => (s1, Raise e)
           | (s1, Ok _) => primeiro_frame s1
           end in
  original r.1 = original s /\ second_image r.1 = second_image s.
Proof.
  pose proof (gerar_frames_campos frame ks s) as [Ho H2].
  destruct (gerar_frames frame ks s) as [s1 [[]|e]]; simpl in *; [|done].
  destruct (primeiro_frame_campos s1) as [-> ->]. done.
Qed.

Lemma executar_original W c s :
  carrega_original c = false -> original (executar W c s) = original s.
Proof.
  intros Hc. destruct c; try done; simpl.
  - unfold preparar_mistura. by destruct (_ ≫= _).
  - unfold restaurar_original. destruct (original s) eqn:E; simpl; congruence.
  - exact (proj1 (transformacao_campos EspelhamentoHorizontal s eq_refl W)).
  - exact (proj1 (transformacao_campos EspelhamentoVertical s eq_refl W)).
  - exact (proj1 (transformacao_campos RotacionarDireita s eq_refl W)).
  - exact (proj1 (transformacao_campos RotacionarEsquerda s eq_refl W)).
  - exact (proj1 (transformacao_campos (SegmentarPorCor alvo_rgb tolerancia) s eq_refl W)).
  - unfold aplicar_transparencia_preto.
    apply (animar_campos _ _ (set_alpha_frames [] s)).
  - unfold avancar_transparencia. destruct (alpha_frames s); [done|].
    by destruct (getitem _ _).
  - unfold aplicar_mistura. destruct (second_image s); [|done].
    destruct (original s) as [im1|] eqn:Ho; [|done].
    destruct (getitem im1 0); [|done].
    rewrite <- Ho. apply (animar_campos _ _ (set_alpha_frames [] s)).
Qed.

Lemma executar_second_image W c s :
  carrega_segunda c = false -> second_image (executar W c s) = second_image s.
Proof.
  intros Hc. destruct c; try done; simpl.
  - unfold carregar_imagem. by destruct (if decide _ then _ else _).
  - unfold restaurar_original. by destruct (original s).
  - exact (proj1 (proj2 (transformacao_campos EspelhamentoHorizontal s eq_refl W))).
  - exact (proj1 (proj2 (transformacao_campos EspelhamentoVertical s eq_refl W))).
  - exact (proj1 (proj2 (transformacao_campos RotacionarDireita s eq_refl W))).
  - exact (proj1 (proj2 (transformacao_campos RotacionarEsquerda s eq_refl W))).
  - exact (proj1 (proj2 (transformacao_campos (SegmentarPorCor alvo_rgb tolerancia) s eq_refl W))).
  - unfold aplicar_transparencia_preto.
    apply (animar_campos _ _ (set_alpha_frames [] s)).
  - unfold avancar_transparencia. destruct (alpha_frames s); [done|].
    by destruct (getitem _ _).
  - unfold aplicar_mistura. destruct (second_image s) eqn:H2; [|done].
    destruct (original s) as [im1|]; [|done].
    destruct (getitem im1 0); [|done].
    rewrite <- H2. apply (animar_campos _ _ (set_alpha_frames [] s)).
Qed.

Lemma executar_todas_snoc passos p s :
  executar_todas (passos ++ [p]) s = executar p.1 p.2 (executar_todas passos s).
Proof. unfold executar_todas. by rewrite foldl_snoc. Qed.

Lemma executar_todas_original passos s :
  Forall (fun p : World * chamada => carrega_original p.2 = false) passos ->
  original (executar_todas passos s) = original s.
Proof.
  induction passos as [|p passos IH] using rev_ind; [done|].
  intros H. apply Forall_app in H as [H1 H2]. inversion_clear H2.
  rewrite executar_todas_snoc, executar_original by done. by apply IH.
Qed.

Lemma executar_todas_second_image passos s :
  Forall (fun p : World * chamada => carrega_segunda p.2 = false) passos ->
  second_image (executar_todas passos s) = second_image s.
Proof.
  induction passos as [|p passos IH] using rev_ind; [done|].
  intros H. apply Forall_app in H as [H1 H2]. inversion_clear H2.
  rewrite executar_todas_snoc, executar_second_image by done. by apply IH.
Qed.

(** ** Theorems: the original is kept *)

(** X18. Whatever calls are made, returning or raising, in whatever worlds,
    [original] changes only in [carregar_imagem] and [second_image] only in
    [preparar_mistura]; so after any sequence of calls that loads no new
    image, [restaurar_original] brings the image that was loaded back as
    result and leaves no frame. *)
Theorem original_preservado (passos : list (World * chamada))
    (s : ImageProcessor) (img : matrix) :
  (Forall (fun p : World * chamada => carrega_original p.2 = false) passos ->
   original (executar_todas passos s) = original s)
  /\ (Forall (fun p : World * chamada => carrega_segunda p.2 = false) passos ->
      second_image (executar_todas passos s) = second_image s)
  /\ (Forall (fun p : World * chamada => carrega_original p.2 = false) passos ->
      original s = Some img ->
      (restaurar_original (executar_todas passos s)).2 = Ok tt
      /\ resultado (restaurar_original (executar_todas passos s)).1 = Some img
      /\ alpha_frames (restaurar_original (executar_todas passos s)).1 = []).
Proof.
  split; [apply executar_todas_original|].
  split; [apply executar_todas_second_image|].
  intros H Himg. unfold restaurar_original.
  rewrite (executar_todas_original passos s H), Himg.
  by rewrite list_copy_fmap.
Qed.

Lemma original_preservado_witness :
  original (executar_todas
              [(mundo_exemplo, TransparenciaPreto);
               (mundo_exemplo, RotacionarDireita);
               (mundo_exemplo, AvancarTransparencia)]
              (sessao exemplo_a exemplo_b))
  = original (sessao exemplo_a exemplo_b)
  /\ resultado
       (restaurar_original
          (executar_todas
             [(mundo_exemplo, TransparenciaPreto);
              (mundo_exemplo, RotacionarDireita);
              (mundo_exemplo, AvancarTransparencia)]
             (sessao exemplo_a exemplo_b))).1
     = Some exemplo_a.
Proof.
  destruct (original_preservado
              [(mundo_exemplo, TransparenciaPreto);
               (mundo_exemplo, RotacionarDireita);
               (mundo_exemplo, AvancarTransparencia)]
              (sessao exemplo_a exemplo_b) exemplo_a) as (H1 & _ & H3).
  assert (HF : Forall (fun p : World * chamada => carrega_original p.2 = false)
                 [(mundo_exemplo, TransparenciaPreto);
                  (mundo_exemplo, RotacionarDireita);
                  (mundo_exemplo, AvancarTransparencia)]).
  { repeat (constructor; [reflexivity|]). constructor. }
  split; [exact (H1 HF)|].
  destruct (H3 HF eq_refl) as (_ & H & _). exact H.
Defined.

(** ** The integer part of a float between 0 and 255 *)

Lemma digits2_pos_bound m : Z.pos m < 2 ^ Z.pos (digits2_pos m).
Proof.
  induction m as [m IH|m IH|]; simpl digits2_pos.
  - rewrite Pos2Z.inj_succ, Z.pow_succ_r by lia. lia.
  - rewrite Pos2Z.inj_succ, Z.pow_succ_r by lia. lia.
  - reflexivity.
Qed.

Lemma compare_cont_le (m n : positive) :
  match PosDef.Pos.compare_cont Eq m n with Gt => false | _ => true end = true ->
  (m <= n)%positive.
Proof.
  intros H Hg. unfold Pos.compare in Hg. rewrite Hg in H. discriminate H.
Qed.

Lemma trunc_finito_0_255 (m : positive) (e : Z) :
  Z.pos m < 2 ^ 53 ->
  match
    match e ?= -45 with
    | Eq => PosDef.Pos.compare_cont Eq m mantissa_255
    | Lt => Lt
    | Gt => Gt
    end
  with
  | Gt => false
  | _ => true
  end = true ->
  0 <= (if 0 <=? e then Z.pos m * 2 ^ e else Z.pos m / 2 ^ (- e)) <= 255.
Proof.
  intros Hm53. change (2 ^ 53) with 9007199254740992 in Hm53.
  destruct (Z.compare_spec e (-45)) as [->|Hlt|Hgt]; [| |discriminate].
  - intros H. apply compare_cont_le, Pos2Z.pos_le_pos in H.
    unfold mantissa_255 in H.
    change (0 <=? -45) with false. cbv iota.
    change (2 ^ (- (-45))) with 35184372088832.
    split; [apply Z.div_pos; lia|].
    apply Z.div_le_upper_bound; lia.
  - intros _. destruct (0 <=? e) eqn:E; [lia|].
    split; [apply Z.div_pos; [lia|apply Z.pow_pos_nonneg; lia]|].
    apply Z.div_le_upper_bound; [apply Z.pow_pos_nonneg; lia|].
    assert (H : 2 ^ 46 <= 2 ^ (- e)) by (apply Z.pow_le_mono_r; lia).
    change (2 ^ 46) with 70368744177664 in H. lia.
Qed.

Lemma trunc_0_255 f :
  PrimFloat.leb 0 f = true -> PrimFloat.leb f 255 = true ->
  0 <= PyFloat.trunc f <= 255.
Proof.
  rewrite !leb_spec. unfold PyFloat.trunc.
  pose proof (Prim2SF_valid f) as Hv.
  replace (Prim2SF 0) with (S754_zero false) by (vm_compute; reflexivity).
  replace (Prim2SF 255) with (S754_finite false mantissa_255 (-45))
    by (vm_compute; reflexivity).
  destruct (Prim2SF f) as [s|s| |s m e]; [intros _ _; lia..|].
  destruct s; [done|]. intros _. unfold SFleb, SFcompare.
  unfold valid_binary, bounded, canonical_mantissa, fexp in Hv.
  apply andb_prop in Hv as [Hc He].
  apply Z.eqb_eq in Hc.
  pose proof (digits2_pos_bound m) as Hm.
  assert (Hd : Z.pos (digits2_pos m) <= 53)
    by (unfold prec, emin, emax in Hc; lia).
  apply trunc_finito_0_255.
  eapply Z.lt_le_trans; [exact Hm|]. apply Z.pow_le_mono_r; lia.
Qed.

(** ** The channels of a blend stay within 8 bits *)

Lemma soma_0_255 k c1 c2 :
  0 <= k < 11 -> canal_8bit c1 -> canal_8bit c2 ->
  let z := PrimFloat.add (valor 0%float (produto_1 k c1))
                         (valor 0%float (produto_2 k c2)) in
  PrimFloat.leb 0 z = true /\ PrimFloat.leb z 255 = true.
Proof.
  intros Hk Hc1 Hc2.
  assert (Hall : forallb (fun k =>
      let xs := (fun c => valor 0%float (produto_1 k c)) <$> canais in
      let ys := (fun c => valor 0%float (produto_2 k c)) <$> canais in
      forallb (fun x => forallb (fun y =>
                 PrimFloat.leb 0 (PrimFloat.add x y)
                 && PrimFloat.leb (PrimFloat.add x y) 255) ys) xs)
    (seqZ 0 11) = true) by (vm_compute; reflexivity).
  apply (forallb_elem _ _ k) in Hall; [|apply elem_of_seqZ; lia].
  cbv beta zeta in Hall.
  apply (forallb_elem _ _ (valor 0%float (produto_1 k c1))) in Hall;
    [|by apply (canal_8bit_fmap (fun c => valor 0%float (produto_1 k c)))].
  apply (forallb_elem _ _ (valor 0%float (produto_2 k c2))) in Hall;
    [|by apply (canal_8bit_fmap (fun c => valor 0%float (produto_2 k c)))].
  by apply andb_prop in Hall.
Qed.

Lemma mistura_canal_8bit k c1 c2 z :
  0 <= k < 11 -> canal_8bit c1 -> canal_8bit c2 ->
  mistura_canal k c1 c2 = Ok z -> canal_8bit z.
Proof.
  intros Hk Hc1 Hc2. rewrite mistura_canal_produtos.
  pose proof (soma_finita k c1 c2 Hk Hc1 Hc2) as Hf.
  destruct (soma_0_255 k c1 c2 Hk Hc1 Hc2) as [H0 H255].
  destruct (produto_1 k c1) as [x|]; [|done].
  destruct (produto_2 k c2) as [y|]; [|done].
  simpl in *. rewrite to_int_finito by done. intros [= <-].
  by apply trunc_0_255.
Qed.

(** ** Images of 8-bit pixels are closed under the operations *)

Lemma imagem_8bit_lookup (img : matrix) i linha j p :
  imagem_8bit img -> img !! i = Some linha -> linha !! j = Some p ->
  pixel_8bit p.
Proof.
  intros H8 Hl Hp.
  pose proof (proj1 (Forall_lookup _ _) H8 _ _ Hl) as H8l. simpl in H8l.
  by apply (proj1 (Forall_lookup _ _) H8l _ _ Hp).
Qed.

Lemma imagem_8bit_getitem (img : matrix) i linha j p :
  imagem_8bit img -> getitem img i = Ok linha -> getitem linha j = Ok p ->
  pixel_8bit p.
Proof.
  intros H8 Hl Hp. apply getitem_elem in Hl, Hp.
  eapply (proj1 (Forall_forall _ _)); [|exact Hp].
  by eapply (proj1 (Forall_forall _ _) H8).
Qed.

Lemma mapM_Ok_Forall {A B} (f : A -> res B) (P : B -> Prop) l k :
  mapM f l = Ok k -> (forall x y, x ∈ l -> f x = Ok y -> P y) -> Forall P k.
Proof.
  intros H HP. apply mapM_Ok_inv in H.
  induction H as [|x y l k Hxy _ IH]; [constructor|].
  constructor.
  - apply (HP x); [apply elem_of_cons; by left|done].
  - apply IH. intros x' y' Hx'. apply HP. apply elem_of_cons. by right.
Qed.

Lemma matriz_de_pixels_8bit pixels largura altura m :
  Forall pixel_8bit pixels ->
  matriz_de_pixels pixels largura altura = Ok m -> imagem_8bit m.
Proof.
  intros H8 H. unfold matriz_de_pixels in H.
  eapply mapM_Ok_Forall; [exact H|]. intros i linha _ Hl. simpl in Hl.
  eapply mapM_Ok_Forall; [exact Hl|]. intros j p _ Hp. simpl in Hp.
  apply getitem_elem in Hp. by apply (proj1 (Forall_forall _ _) H8).
Qed.

Lemma pixel_piso_8bit k p : 0 <= k < 6 -> pixel_8bit p -> pixel_8bit (pixel_piso k p).
Proof.
  destruct p as [[r g] b]. intros Hk (Hr & Hg & Hb).
  unfold pixel_8bit, canal_8bit, pixel_piso in *. simpl in *.
  repeat split; try (apply Z.div_pos; nia);
    apply Z.div_le_upper_bound; nia.
Qed.

Lemma por_pixel_8bit (f : pixel -> pixel) img :
  (forall p, pixel_8bit p -> pixel_8bit (f p)) ->
  imagem_8bit img -> imagem_8bit (por_pixel f img).
Proof.
  intros Hf H8. apply Forall_fmap. eapply Forall_impl; [exact H8|].
  intros l Hl. simpl. apply Forall_fmap. eapply Forall_impl; [exact Hl|].
  intros p. apply Hf.
Qed.

Lemma frame_preto_8bit img k f :
  0 <= k < 6 -> imagem_8bit img -> frame_preto (Some img) k = Ok f ->
  imagem_8bit f.
Proof.
  intros Hk H8. rewrite (frame_preto_ok k img Hk H8). intros [= <-].
  apply por_pixel_8bit; [|done]. intros p Hp.
  rewrite (pixel_preto_piso k p Hk Hp). by apply pixel_piso_8bit.
Qed.

Lemma misturar_8bit im1 im2 k a i j c z :
  0 <= k < 11 -> PyFloat.int_div k 10 = Ok a ->
  imagem_8bit im1 -> imagem_8bit im2 -> 0 <= c < 3 ->
  misturar im1 im2 a i j c = Ok z -> canal_8bit z.
Proof.
  intros Hk Ha H81 H82 Hc. unfold misturar.
  destruct (getitem im1 i) as [l1|] eqn:E1; [rewrite bind_Ok|done].
  destruct (getitem l1 j) as [p1|] eqn:E2; [rewrite bind_Ok|done].
  destruct (pixel_get_8bit p1 c (imagem_8bit_getitem _ _ _ _ _ H81 E1 E2) Hc)
    as (c1 & -> & Hc1).
  rewrite bind_Ok.
  destruct (PyFloat.int_sub 1 a) as [a'|] eqn:Ea'; [rewrite bind_Ok|done].
  destruct (PyFloat.int_mul c1 a') as [x|] eqn:Ex; [rewrite bind_Ok|done].
  destruct (getitem im2 i) as [l2|] eqn:E3; [rewrite bind_Ok|done].
  destruct (getitem l2 j) as [p2|] eqn:E4; [rewrite bind_Ok|done].
  destruct (pixel_get_8bit p2 c (imagem_8bit_getitem _ _ _ _ _ H82 E3 E4) Hc)
    as (c2 & -> & Hc2).
  rewrite bind_Ok. intros H.
  apply (mistura_canal_8bit k c1 c2 z Hk Hc1 Hc2).
  unfold mistura_canal. by rewrite Ha, bind_Ok, Ea', bind_Ok, Ex, bind_Ok.
Qed.

Lemma frame_mistura_8bit im1 im2 h w k f :
  0 <= k < 11 -> imagem_8bit im1 -> imagem_8bit im2 ->
  frame_mistura im1 im2 h w k = Ok f -> imagem_8bit f.
Proof.
  intros Hk H81 H82. rewrite frame_mistura_unfold.
  destruct (int_div_10_ok k Hk) as [a Ha]. rewrite Ha, bind_Ok. intros H.
  eapply mapM_Ok_Forall; [exact H|]. intros i linha _ Hl. simpl in Hl.
  eapply mapM_Ok_Forall; [exact Hl|]. intros j p _ Hp. simpl in Hp.
  unfold misturar_pixel in Hp.
  destruct (misturar im1 im2 a i j 0) as [r|] eqn:Er; [|done].
  destruct (misturar im1 im2 a i j 1) as [g|] eqn:Eg; [|done].
  destruct (misturar im1 im2 a i j 2) as [b|] eqn:Eb; [|done].
  injection Hp as <-. split; [|split]; simpl.
  - by apply (misturar_8bit im1 im2 k a i j 0 r).
  - by apply (misturar_8bit im1 im2 k a i j 1 g).
  - by apply (misturar_8bit im1 im2 k a i j 2 b).
Qed.

Lemma sessao_8bit_set_resultado m s :
  imagem_8bit m -> sessao_8bit s -> sessao_8bit (set_resultado m s).
Proof.
  intros Hm (Ho & Hr & H2 & Hf). repeat split; try done.
  simpl. by intros m' [= <-].
Qed.

Lemma sessao_8bit_resultado (r : res matrix) s :
  (forall m, r = Ok m -> imagem_8bit m) -> sessao_8bit s ->
  sessao_8bit (match r with
               | Raise e => (s, Raise e)
               | Ok m => (set_resultado m s, Ok tt)
               end).1.
Proof.
  intros Hr Hs. destruct r as [m|e]; [|done].
  apply sessao_8bit_set_resultado; auto.
Qed.

Lemma setitem_insert {A} (l : list A) i v l' :
  setitem l i v = Ok l' -> exists n, l' = <[n := v]> l.
Proof.
  unfold setitem. destruct (_ || _); [done|]. intros [= <-]. eauto.
Qed.

Lemma setitem2_celulas nova j c p nova' :
  celulas_8bit nova -> pixel_8bit p ->
  setitem2 nova j c (Some p) = Ok nova' -> celulas_8bit nova'.
Proof.
  intros Hn Hp. unfold setitem2.
  destruct (getitem nova j) as [linha|] eqn:El; [rewrite bind_Ok|done].
  destruct (setitem linha c (Some p)) as [linha'|] eqn:Es;
    [rewrite bind_Ok|done].
  intros H. apply setitem_insert in H as [n ->].
  apply setitem_insert in Es as [n' ->].
  apply Forall_insert; [done|]. apply Forall_insert.
  - apply getitem_elem in El. by apply (proj1 (Forall_forall _ _) Hn).
  - by intros p' [= <-].
Qed.

Lemma preencher_celulas img h w D nova :
  imagem_8bit img -> preencher img h w D = Ok nova -> celulas_8bit nova.
Proof.
  intros H8 Hf. unfold preencher in Hf.
  refine (for_each_Ok_inv_gen (fun _ s => celulas_8bit s) _ [] _ _ _ Hf _ _).
  - unfold nova_vazia. apply Forall_replicate, Forall_replicate. by intros p.
  - intros _ i s s1 _ Hs Hlinha.
    refine (for_each_Ok_inv_gen (fun _ s => celulas_8bit s) _ [] _ _ _
              Hlinha Hs _).
    intros _ j s2 s3 _ Hs2 Hpasso.
    destruct (getitem img i) as [linha|] eqn:El; [rewrite bind_Ok in Hpasso|done].
    destruct (getitem linha j) as [p|] eqn:Ep; [rewrite bind_Ok in Hpasso|done].
    destruct (D i j) as [dj dc].
    eapply setitem2_celulas; [exact Hs2| |exact Hpasso].
    by eapply imagem_8bit_getitem.
Qed.

Lemma congelar_8bit nova m :
  celulas_8bit nova -> congelar nova = Some m -> imagem_8bit m.
Proof.
  intros Hn H. unfold congelar in H. apply mapM_Some_1 in H.
  induction H as [|linha l nova m Hl _ IH]; [constructor|].
  inversion_clear Hn as [|? ? Hlinha Hresto]. constructor; [|by apply IH].
  apply mapM_Some_1 in Hl. clear IH Hresto.
  induction Hl as [|c p linha l Hc _ IH]; [constructor|].
  inversion_clear Hlinha as [|? ? Hcel Hresto]. constructor; [|by apply IH].
  by apply Hcel.
Qed.

Lemma rotacionar_8bit destino s :
  sessao_8bit s -> sessao_8bit (rotacionar destino s).1.
Proof.
  intros Hs. unfold rotacionar. apply sessao_8bit_resultado; [|done].
  intros m. destruct (resultado s) as [img|] eqn:Hr; [|done].
  destruct (getitem img 0) as [linha0|]; [rewrite bind_Ok|done].
  destruct (preencher img _ _ _) as [nova|] eqn:Hp; [rewrite bind_Ok|done].
  destruct (congelar nova) as [m'|] eqn:Hc; [|done]. intros [= <-].
  eapply congelar_8bit; [|exact Hc].
  eapply preencher_celulas; [|exact Hp]. by apply (proj1 (proj2 Hs)).
Qed.

Lemma segmentar_por_cor_8bit alvo tolerancia s :
  sessao_8bit s -> sessao_8bit (segmentar_por_cor alvo tolerancia s).1.
Proof.
  intros Hs. unfold segmentar_por_cor. apply sessao_8bit_resultado; [|done].
  intros m. destruct (resultado s) as [img|] eqn:Hr; [|done]. intros H.
  assert (H8 : imagem_8bit img) by by apply (proj1 (proj2 Hs)).
  eapply mapM_Ok_Forall; [exact H|]. intros linha l Hlinha Hl.
  cbv beta in Hl.
  eapply mapM_Ok_Forall; [exact Hl|]. intros p q Hp Hq. cbv beta in Hq.
  destruct (cor_proxima alvo tolerancia p (range 3)) as [b|]; [|done].
  rewrite bind_Ok in Hq. injection Hq as <-. destruct b; [|by repeat split].
  eapply (proj1 (Forall_forall _ _)); [|exact Hp].
  by eapply (proj1 (Forall_forall _ _) H8).
Qed.

Lemma gerar_frames_8bit frame ks s :
  (forall k f, k ∈ ks -> frame k = Ok f -> imagem_8bit f) ->
  sessao_8bit s -> sessao_8bit (gerar_frames frame ks s).1.
Proof.
  revert s. induction ks as [|k ks IH]; intros s Hframe Hs; [done|]. simpl.
  destruct (frame k) as [f|] eqn:Ek; [|done].
  apply IH.
  - intros k' f' Hk'. apply Hframe. apply elem_of_cons. by right.
  - destruct Hs as (Ho & Hr & H2 & Hf). repeat split; try done. simpl.
    apply Forall_app. split; [done|]. constructor; [|constructor].
    apply (Hframe k); [apply elem_of_cons; by left|done].
Qed.

Lemma primeiro_frame_8bit s : sessao_8bit s -> sessao_8bit (primeiro_frame s).1.
Proof.
  intros Hs. unfold primeiro_frame.
  destruct (getitem (alpha_frames s) 0) as [f|] eqn:E; [|done]. simpl.
  pose proof Hs as (Ho & Hr & H2 & Hf). repeat split; try done.
  simpl. intros m [= <-]. apply getitem_elem in E.
  by apply (proj1 (Forall_forall _ _) Hf).
Qed.

Lemma animar_8bit frame ks s :
  (forall k f, k ∈ ks -> frame k = Ok f -> imagem_8bit f) ->
  sessao_8bit s ->
  sessao_8bit (match gerar_frames frame ks s with
               | (s1, Raise e) => (s1, Raise e)
               | (s1, Ok _) => primeiro_frame s1
               end).1.
Proof.
  intros Hframe Hs. pose proof (gerar_frames_8bit frame ks s Hframe Hs) as H.
  destruct (gerar_frames frame ks s) as [s1 [[]|e]]; [|done].
  by apply primeiro_frame_8bit.
Qed.

Lemma sessao_8bit_sem_frames s :
  sessao_8bit s -> sessao_8bit (set_alpha_frames [] s).
Proof. intros (Ho & Hr & H2 & Hf). repeat split; done. Qed.

Lemma executar_8bit W c s :
  mundo_8bit W -> sessao_8bit s -> sessao_8bit (executar W c s).
Proof.
  intros [Hppm Hpil] Hs. pose proof Hs as (Ho & Hr & H2 & Hf).
  destruct c; simpl.
  - unfold carregar_imagem.
    destruct (if decide _ then _ else _) as [img|] eqn:E; [|done].
    assert (H8 : imagem_8bit img).
    { destruct (decide _); [by eapply Hppm|].
      destruct (pil_open_rgb W caminho) as [im|] eqn:Ep; [|done].
      rewrite bind_Ok in E. destruct (size im) as [largura altura].
      eapply matriz_de_pixels_8bit; [|exact E]. by eapply Hpil. }
    rewrite list_copy_fmap. repeat split; simpl; try done.
    + by intros m [= <-].
    + by intros m [= <-].
  - unfold preparar_mistura.
    destruct (_ ≫= _) as [m|] eqn:E; [|done].
    repeat split; simpl; try done. intros m' [= <-].
    destruct (pil_open_rgb W caminho2) as [im|] eqn:Ep; [|done].
    rewrite bind_Ok in E. destruct (size im) as [w h].
    eapply matriz_de_pixels_8bit; [|exact E]. by eapply Hpil.
  - unfold restaurar_original. destruct (original s) as [img|] eqn:E; [|done].
    rewrite list_copy_fmap. repeat split; simpl; try done.
  - unfold aplicar_espelhamento_horizontal.
    destruct (resultado s) as [img|] eqn:E; [|done].
    apply sessao_8bit_set_resultado; [|done].
    apply Forall_fmap. eapply Forall_impl; [by apply Hr|].
    intros l Hl. simpl. by apply Forall_reverse.
  - unfold aplicar_espelhamento_vertical.
    destruct (resultado s) as [img|] eqn:E; [|done].
    apply sessao_8bit_set_resultado; [|done].
    apply Forall_reverse. by apply Hr.
  - by apply rotacionar_8bit.
  - by apply rotacionar_8bit.
  - by apply segmentar_por_cor_8bit.
  - unfold aplicar_transparencia_preto.
    apply (animar_8bit _ _ (set_alpha_frames [] s));
      [|by apply sessao_8bit_sem_frames].
    intros k f Hk. cbn [original set_alpha_frames].
    apply elem_of_range in Hk.
    destruct (original s) as [img|] eqn:E.
    + apply frame_preto_8bit; [done|by apply Ho].
    + by rewrite frame_preto_None.
  - unfold avancar_transparencia. destruct (alpha_frames s) eqn:E; [done|].
    rewrite <- E in *. cbn [alpha_frames alpha_index set_alpha_index].
    destruct (getitem (alpha_frames s) _) as [f|] eqn:Eg; [|done].
    apply sessao_8bit_set_resultado; [|done].
    apply getitem_elem in Eg. by apply (proj1 (Forall_forall _ _) Hf).
  - unfold aplicar_mistura. destruct (second_image s) as [im2|] eqn:E2; [|done].
    destruct (original s) as [im1|] eqn:E1; [|done].
    destruct (getitem im1 0) as [linha0|]; [|done].
    apply (animar_8bit _ _ (set_alpha_frames [] s));
      [|by apply sessao_8bit_sem_frames].
    intros k f Hk. apply elem_of_range in Hk.
    apply frame_mistura_8bit; [done|by apply Ho|by apply H2].
Qed.

Lemma mundo_exemplo_8bit : mundo_8bit mundo_exemplo.
Proof.
  split.
  - intros c m. destruct (decide (c = "a.ppm"%string)) as [->|Hc].
    + rewrite mundo_exemplo_ppm. intros [= <-]. prova_8bit.
    + unfold carregar_ppm_p3. cbn [open_r mundo_exemplo].
      by rewrite decide_False.
  - intros c im. cbn [pil_open_rgb mundo_exemplo].
    destruct (decide (c = "b.png"%string)); [|done].
    intros [= <-]. prova_8bit.
Qed.

(** ** Theorems: sessions of 8-bit images *)

(** X19. When the files read hold 8-bit channels (what PIL gives after
    [convert("RGB")], and what [carregar_ppm_p3] accepts without checking),
    every image a session ever holds has its channels between 0 and 255:
    the original, the result, the second image and each frame of a fade or a
    blend, after any sequence of calls, returning or raising; so the binary64
    arithmetic of the animations never leaves the range of a pixel. *)
Theorem sessao_8bit_invariante (s : ImageProcessor) :
  alcancavel em_mundo_8bit s -> sessao_8bit s.
Proof.
  induction 1 as [|W c s HW _ IH].
  - by repeat split.
  - by apply executar_8bit.
Qed.

Lemma sessao_8bit_invariante_witness : sessao_8bit sessao_animada.
Proof.
  apply sessao_8bit_invariante.
  unfold sessao_animada.
  repeat (apply alc_passo; [exact mundo_exemplo_8bit|]).
  apply alc_init.
Defined.

(** ** Theorems: an export that fails *)

(** X20. When [resultado] is [None] or the empty list, [salvar_ppm_p3]
    raises ([TypeError] or [IndexError]) after the file has been opened for
    writing: the file is left empty, whatever it held, and reading it back
    with [carregar_ppm_p3] raises [ValueError]. *)
Theorem salvar_ppm_p3_falha (W : World) (caminho : string)
    (s : ImageProcessor) :
  open_w W caminho = true -> resultado s = None \/ resultado s = Some [] ->
  exists e, salvar_ppm_p3 W caminho s = (escrever W caminho [], Raise e)
    /\ (e = TypeError \/ e = IndexError)
    /\ open_r (salvar_ppm_p3 W caminho s).1 caminho = Some []
    /\ carregar_ppm_p3 (salvar_ppm_p3 W caminho s).1 caminho
       = Raise ValueError.
Proof.
  intros Hw Hr.
  assert (H : exists e, salvar_ppm_p3 W caminho s
                        = (escrever W caminho [], Raise e)
                        /\ (e = TypeError \/ e = IndexError)).
  { unfold salvar_ppm_p3. rewrite Hw.
    destruct Hr as [-> | ->]; [exists TypeError|exists IndexError]; auto. }
  destruct H as (e & He & Hcases). exists e. rewrite He. cbn [fst].
  assert (Ho : open_r (escrever W caminho []) caminho = Some []).
  { simpl. by rewrite decide_True. }
  repeat split; [done..|].
  by apply (carregar_ppm_p3_magic _ caminho []).
Qed.

Lemma salvar_ppm_p3_falha_witness :
  exists e, salvar_ppm_p3 mundo_exemplo "a.ppm" init
            = (escrever mundo_exemplo "a.ppm" [], Raise e)
    /\ (e = TypeError \/ e = IndexError)
    /\ open_r (salvar_ppm_p3 mundo_exemplo "a.ppm" init).1 "a.ppm" = Some []
    /\ carregar_ppm_p3 (salvar_ppm_p3 mundo_exemplo "a.ppm" init).1 "a.ppm"
       = Raise ValueError.
Proof.
  apply (salvar_ppm_p3_falha mundo_exemplo "a.ppm" init).
  - reflexivity.
  - by left.
Defined.

(** ** A PPM file that declares no row or no column *)

Lemma range_vazio n : n <= 0 -> range n = [].
Proof.
  intros Hn. unfold range, seqZ. by replace (Z.to_nat n) with 0%nat by lia.
Qed.

Lemma montar_matriz_sem_linhas dados largura altura :
  altura <= 0 -> montar_matriz dados largura altura = Ok [].
Proof.
  intros Ha. unfold montar_matriz. by rewrite (range_vazio altura Ha).
Qed.

Lemma montar_matriz_sem_colunas dados largura altura :
  largura <= 0 ->
  montar_matriz dados largura altura = Ok (replicate (Z.to_nat altura) []).
Proof.
  intros Hl. unfold montar_matriz. rewrite (range_vazio largura Hl).
  rewrite (mapM_Ok_fmap _ (fun _ => [])); [|by apply Forall_forall].
  f_equal. rewrite (const_fmap _ _ ([] : list pixel)) by done.
  unfold range. by rewrite length_seqZ.
Qed.

(** ** Theorems: degenerate PPM files *)

(** X21. A PPM file that follows the grammar and declares a height of 0 or
    less is decoded as the empty list, and one that declares a width of 0 or
    less as rows without pixels, whatever values follow the header. Opening
    the former in the window raises [IndexError] in [update_display], after
    the processor has taken the empty image as original and as result: the
    labels keep what they showed. *)
Theorem carregar_ppm_p3_degenerado (W : World) (caminho : string)
    (f : PyStr.text) (largura altura : Z) (dados : list Z) (mw : MainWindow) :
  open_r W caminho = Some f -> ppm_bem_formado f largura altura dados ->
  (altura <= 0 -> carregar_ppm_p3 W caminho = Ok [])
  /\ (largura <= 0 ->
      carregar_ppm_p3 W caminho = Ok (replicate (Z.to_nat altura) []))
  /\ (altura <= 0 -> caminho <> ""%string ->
      splitext_lower W caminho = ".ppm"%string ->
      open_image W caminho mw
      = (set_processor
           {| original := Some []; resultado := Some [];
              alpha_frames := alpha_frames (processor mw);
              alpha_index := alpha_index (processor mw);
              second_image := second_image (processor mw) |} mw,
         Raise IndexError)).
Proof.
  intros Ho Hf.
  rewrite (carregar_ppm_p3_bem_formado W caminho f largura altura dados Ho Hf).
  split; [apply montar_matriz_sem_linhas|].
  split; [apply montar_matriz_sem_colunas|].
  intros Ha Hc Hext. unfold open_image, carregar_imagem.
  rewrite decide_False by done. rewrite Hext, decide_True by done.
  rewrite (carregar_ppm_p3_bem_formado W caminho f largura altura dados Ho Hf).
  by rewrite (montar_matriz_sem_linhas dados largura altura Ha).
Qed.

Lemma carregar_ppm_p3_degenerado_witness :
  carregar_ppm_p3 (mundo_com ppm_sem_linhas) "a.ppm" = Ok []
  /\ open_image (mundo_com ppm_sem_linhas) "a.ppm" janela
     = (set_processor
          {| original := Some []; resultado := Some [];
             alpha_frames := alpha_frames (processor janela);
             alpha_index := alpha_index (processor janela);
             second_image := second_image (processor janela) |} janela,
        Raise IndexError).
Proof.
  destruct (carregar_ppm_p3_degenerado (mundo_com ppm_sem_linhas) "a.ppm"
              ppm_sem_linhas 2 0 [] janela) as (H1 & _ & H3).
  - reflexivity.
  - vm_compute. done.
  - split; [apply H1; lia|]. apply H3; [lia|discriminate|reflexivity].
Defined.

(** ** The window before an image is loaded *)

Lemma update_display_original mw mw' :
  update_display mw = (mw', Ok tt) -> original (processor mw') <> None.
Proof.
  intros H. apply update_display_Ok in H as (Hp & _ & q1 & _ & _ & _ & H & _).
  rewrite Hp. intros Hn. by rewrite Hn in H.
Qed.

Lemma alcancavel_sem_imagem mw :
  janela_alcancavel mw -> original (processor mw) = None ->
  resultado (processor mw) = None /\ alpha_frames (processor mw) = [].
Proof.
  induction 1 as [|W ev mw mw' _ IH Hev]; [done|]. intros Hn.
  destruct ev as [path|path|path| |idx resposta|]; simpl in Hev.
  - unfold open_image in Hev.
    destruct (decide (path = ""%string)); [injection Hev as <-; auto|].
    apply e_exibir_Ok in Hev as [_ Hev].
    by apply update_display_original in Hev.
  - unfold load_second in Hev.
    destruct (decide (path = ""%string)); [injection Hev as <-; auto|].
    pose proof (preparar_mistura_campos W path (processor mw)) as (Hf & _ & Hr).
    pose proof (executar_original W (PrepararMistura path) (processor mw)
                  eq_refl) as Ho.
    simpl in Ho.
    destruct (preparar_mistura W path (processor mw)) as [p r].
    injection Hev as <- ->. simpl in *. rewrite Hf, Hr. apply IH. congruence.
  - injection Hev as <- _. auto.
  - apply e_exibir_Ok in Hev as [_ Hev].
    by apply update_display_original in Hev.
  - apply filtrar_Ok_exibir in Hev as [->|[mw1 Hev]]; [auto|].
    by apply update_display_original in Hev.
  - apply e_exibir_Ok in Hev as [_ Hev].
    by apply update_display_original in Hev.
Qed.

(** ** Theorems: the window before an image is loaded *)

(** X22. In a window a user can reach in which no image has been loaded
    yet, choosing any filter does nothing; the Restore and the Next buttons
    raise [TypeError] and leave the window as it is; and exporting to a
    writable [.ppm] path raises [TypeError] after emptying the file. *)
Theorem janela_sem_imagem (mw : MainWindow) :
  janela_alcancavel mw -> original (processor mw) = None ->
  (forall idx resposta, apply_filter idx resposta mw = (mw, Ok tt))
  /\ restore_image mw = (mw, Raise TypeError)
  /\ next_frame mw = (mw, Raise TypeError)
  /\ (forall W path,
        path <> ""%string ->
        PyStr.endswith (PyStr.lower (PyStr.lit path)) (PyStr.lit ".ppm") = true ->
        open_w W path = true ->
        save_image W path mw = (escrever W path [], Raise TypeError)).
Proof.
  intros Hmw Hn. destruct (alcancavel_sem_imagem mw Hmw Hn) as [Hr Hf].
  repeat split.
  - intros idx resposta. unfold apply_filter.
    by rewrite bool_decide_eq_true_2.
  - unfold restore_image, restaurar_original. rewrite Hn. by destruct mw.
  - unfold next_frame, avancar_transparencia. rewrite Hf.
    unfold e_exibir, update_display. cbn [processor set_processor].
    rewrite Hn. by destruct mw.
  - intros W path Hp Hend Hw. unfold save_image.
    rewrite decide_False by done. rewrite Hend.
    unfold salvar_ppm_p3. by rewrite Hw, Hr.
Qed.

Lemma janela_sem_imagem_witness :
  (forall idx resposta, apply_filter idx resposta janela = (janela, Ok tt))
  /\ restore_image janela = (janela, Raise TypeError)
  /\ next_frame janela = (janela, Raise TypeError)
  /\ (forall W path,
        path <> ""%string ->
        PyStr.endswith (PyStr.lower (PyStr.lit path)) (PyStr.lit ".ppm") = true ->
        open_w W path = true ->
        save_image W path janela = (escrever W path [], Raise TypeError)).
Proof.
  apply (janela_sem_imagem janela); [apply ja_inicio|reflexivity].
Defined.

(** ** Theorems: stepping through a fade *)

Lemma por_pixel_id (img : matrix) : por_pixel (fun p => p) img = img.
Proof.
  unfold por_pixel. rewrite <- (list_fmap_id img) at 2.
  apply list_fmap_ext. intros _ l _. apply list_fmap_id.
Qed.

Lemma frames_preto_lookup img (k : nat) :
  imagem_8bit img -> (k < 6)%nat ->
  ((fun k => por_pixel (pixel_preto k) img) <$> range 6) !! k
  = Some (por_pixel (pixel_piso (Z.of_nat k)) img).
Proof.
  intros H8 Hk. rewrite list_lookup_fmap.
  unfold range. rewrite (lookup_seqZ_lt 0 6 k) by lia. simpl. f_equal.
  apply por_pixel_ext_8bit; [|done].
  intros p Hp. rewrite Z.add_0_l. apply pixel_preto_piso; [lia|done].
Qed.

Lemma fade_avancar_n (s : ImageProcessor) (img : matrix) (n : nat) :
  original s = Some img -> imagem_8bit img ->
  alpha_index (avancar_n n (aplicar_transparencia_preto s).1) = (n mod 6)%nat
  /\ resultado (avancar_n n (aplicar_transparencia_preto s).1)
     = Some (por_pixel (pixel_piso (Z.of_nat (n mod 6))) img)
  /\ original (avancar_n n (aplicar_transparencia_preto s).1) = Some img.
Proof.
  intros Ho H8. rewrite (aplicar_transparencia_preto_ok s img Ho H8). cbn [fst].
  set (s1 := {| original := Some img;
                resultado := Some (por_pixel (pixel_preto 0) img);
                alpha_frames := (fun k => por_pixel (pixel_preto k) img)
                                  <$> range 6;
                alpha_index := 0%nat; second_image := second_image s |}).
  destruct n as [|m].
  - split; [done|]. split; [|done].
    change (resultado (avancar_n 0 s1))
      with (((fun k => por_pixel (pixel_preto k) img) <$> range 6) !! 0%nat).
    apply (frames_preto_lookup img 0); [done|lia].
  - destruct (avancar_n_campos m s1) as (_ & Hi & Hr & Horig & _); [done|].
    change (length (alpha_frames s1)) with 6%nat in Hi.
    change (alpha_index s1) with 0%nat in Hi. rewrite Nat.add_0_l in Hi.
    split; [done|]. split; [|done]. rewrite Hr, Hi.
    apply frames_preto_lookup; [done|]. apply Nat.mod_upper_bound. lia.
Qed.

(** X23. For an original of 8-bit pixels, after the fade has been started
    and [avancar_transparencia] called [n] times, the cursor is [n mod 6]
    and the result is the original with every channel [c] replaced by
    [c * (n mod 6) // 5]; so five calls show the original itself and the
    sixth shows black again. *)
Theorem fade_percorrido (s : ImageProcessor) (img : matrix) (n : nat) :
  original s = Some img -> imagem_8bit img ->
  alpha_index (avancar_n n (aplicar_transparencia_preto s).1) = (n mod 6)%nat
  /\ resultado (avancar_n n (aplicar_transparencia_preto s).1)
     = Some (por_pixel (pixel_piso (Z.of_nat (n mod 6))) img)
  /\ resultado (avancar_n 5 (aplicar_transparencia_preto s).1) = Some img
  /\ resultado (avancar_n 6 (aplicar_transparencia_preto s).1)
     = Some (por_pixel (fun _ => preto) img).
Proof.
  intros Ho H8.
  split; [apply (fade_avancar_n s img n Ho H8)|].
  split; [apply (fade_avancar_n s img n Ho H8)|]. split.
  - destruct (fade_avancar_n s img 5 Ho H8) as (_ & -> & _). f_equal.
    rewrite <- (por_pixel_id img) at 2. apply por_pixel_ext_8bit; [|done].
    intros [[r g] b] _. unfold pixel_piso. simpl.
    by rewrite !Z.div_mul by lia.
  - destruct (fade_avancar_n s img 6 Ho H8) as (_ & -> & _). f_equal.
    apply por_pixel_ext_8bit; [|done].
    intros [[r g] b] _. unfold pixel_piso, preto. simpl.
    by rewrite !Z.mul_0_r.
Qed.

Lemma fade_percorrido_witness :
  alpha_index
    (avancar_n 8 (aplicar_transparencia_preto (sessao exemplo_a exemplo_b)).1)
  = (8 mod 6)%nat
  /\ resultado
       (avancar_n 8 (aplicar_transparencia_preto (sessao exemplo_a exemplo_b)).1)
     = Some (por_pixel (pixel_piso (Z.of_nat (8 mod 6))) exemplo_a)
  /\ resultado
       (avancar_n 5 (aplicar_transparencia_preto (sessao exemplo_a exemplo_b)).1)
     = Some exemplo_a
  /\ resultado
       (avancar_n 6 (aplicar_transparencia_preto (sessao exemplo_a exemplo_b)).1)
     = Some (por_pixel (fun _ => preto) exemplo_a).
Proof.
  apply (fade_percorrido (sessao exemplo_a exemplo_b) exemplo_a 8).
  - reflexivity.
  - prova_8bit.
Defined.

(** ** Rectangular images are closed under the operations *)

Lemma mapM_Ok_length {A B} (f : A -> res B) l k :
  mapM f l = Ok k -> length k = length l.
Proof. intros H. apply mapM_Ok_inv in H. symmetry. by eapply Forall2_length. Qed.

Lemma mapM_mapM_retangular {A B} (f : A -> B -> res pixel) (la : list A)
    (lb : list B) m :
  mapM (fun a => mapM (f a) lb) la = Ok m -> retangular m.
Proof.
  intros H. exists (length lb).
  eapply mapM_Ok_Forall; [exact H|]. intros a linha _ Hl. simpl in Hl.
  by apply mapM_Ok_length in Hl.
Qed.

Lemma mesma_forma_retangular m m' :
  mesma_forma m m' -> retangular m -> retangular m'.
Proof.
  intros Hf [w Hw]. exists w. apply Forall_lookup. intros i l' Hl'.
  destruct (Forall2_lookup_r _ _ _ _ _ Hf Hl') as (l & Hl & Hlen).
  pose proof (proj1 (Forall_lookup _ _) Hw _ _ Hl) as H. simpl in H. lia.
Qed.

Lemma retangular_dimensoes m linha0 :
  retangular m -> m !! 0%nat = Some linha0 ->
  dimensoes m (length m) (length linha0).
Proof.
  intros [w Hw] H0. split; [done|].
  pose proof (proj1 (Forall_lookup _ _) Hw _ _ H0) as Hl. simpl in Hl.
  by rewrite Hl.
Qed.

Lemma dimensoes_retangular m h w : dimensoes m h w -> retangular m.
Proof. intros [_ Hw]. by exists w. Qed.

Lemma sessao_retangular_set_resultado m s :
  retangular m -> sessao_retangular s -> sessao_retangular (set_resultado m s).
Proof.
  intros Hm (Ho & Hr & H2 & Hf). repeat split; try done.
  simpl. by intros m' [= <-].
Qed.

Lemma carregar_ppm_p3_retangular W caminho m :
  carregar_ppm_p3 W caminho = Ok m -> retangular m.
Proof.
  unfold carregar_ppm_p3. destruct (open_r W caminho) as [f|]; [|done].
  destruct (PyStr.readline f) as [l1 f1]. destruct (decide _); [|done].
  destruct (PyStr.readline f1) as [l2 f2].
  destruct (mapM PyStr.int (PyStr.split l2)) as [dims|]; [|done].
  rewrite bind_Ok. destruct dims as [|largura [|altura [|]]]; try done.
  destruct (PyStr.readline f2) as [l3 f3].
  destruct (mapM PyStr.int (PyStr.split f3)) as [dados|]; [|done].
  rewrite bind_Ok. apply mapM_mapM_retangular.
Qed.

Lemma matriz_de_pixels_retangular pixels largura altura m :
  matriz_de_pixels pixels largura altura = Ok m -> retangular m.
Proof. apply mapM_mapM_retangular. Qed.

Lemma rotacionar_direita_retangular_inv s :
  sessao_retangular s -> sessao_retangular (rotacionar_direita s).1.
Proof.
  intros Hs. destruct (resultado s) as [img|] eqn:Hr.
  - destruct (img !! 0%nat) as [linha0|] eqn:H0.
    + pose proof (retangular_dimensoes img linha0 (proj1 (proj2 Hs) _ Hr) H0)
        as Hd.
      assert (Hpos : (0 < length img)%nat) by (by eapply lookup_lt_Some).
      rewrite (rotacionar_direita_retangular s img _ _ Hr Hd Hpos).
      apply sessao_retangular_set_resultado; [|done].
      eapply dimensoes_retangular. by apply rotateClockwise90_dimensoes.
    + unfold rotacionar_direita, rotacionar. rewrite Hr, getitem_0.
      by destruct img.
  - unfold rotacionar_direita, rotacionar. by rewrite Hr.
Qed.

Lemma rotacionar_esquerda_retangular_inv s :
  sessao_retangular s -> sessao_retangular (rotacionar_esquerda s).1.
Proof.
  intros Hs. destruct (resultado s) as [img|] eqn:Hr.
  - destruct (img !! 0%nat) as [linha0|] eqn:H0.
    + pose proof (retangular_dimensoes img linha0 (proj1 (proj2 Hs) _ Hr) H0)
        as Hd.
      assert (Hpos : (0 < length img)%nat) by (by eapply lookup_lt_Some).
      rewrite (rotacionar_esquerda_retangular s img _ _ Hr Hd Hpos).
      apply sessao_retangular_set_resultado; [|done].
      eapply dimensoes_retangular. by apply rotateCounterClockwise90_dimensoes.
    + unfold rotacionar_esquerda, rotacionar. rewrite Hr, getitem_0.
      by destruct img.
  - unfold rotacionar_esquerda, rotacionar. by rewrite Hr.
Qed.

Lemma segmentar_por_cor_retangular alvo tolerancia s :
  sessao_retangular s ->
  sessao_retangular (segmentar_por_cor alvo tolerancia s).1.
Proof.
  intros Hs.
  destruct (segmentar_por_cor alvo tolerancia s) as [s' [[]|e]] eqn:E.
  - apply segmentar_por_cor_Ok_inv in E as (img & m & Hr & -> & Hf).
    apply sessao_retangular_set_resultado; [|done].
    eapply mesma_forma_retangular; [exact (empacotavel_como_forma _ _ Hf)|].
    by apply (proj1 (proj2 Hs)).
  - apply segmentar_por_cor_Raise_inv in E. by subst.
Qed.

Lemma gerar_frames_retangular frame ks s :
  (forall k f, frame k = Ok f -> retangular f) ->
  sessao_retangular s -> sessao_retangular (gerar_frames frame ks s).1.
Proof.
  revert s. induction ks as [|k ks IH]; intros s Hframe Hs; [done|]. simpl.
  destruct (frame k) as [f|] eqn:Ek; [|done].
  apply IH; [done|].
  destruct Hs as (Ho & Hr & H2 & Hf). repeat split; try done. simpl.
  apply Forall_app. split; [done|]. constructor; [|constructor]. by eapply Hframe.
Qed.

Lemma primeiro_frame_retangular s :
  sessao_retangular s -> sessao_retangular (primeiro_frame s).1.
Proof.
  intros Hs. unfold primeiro_frame.
  destruct (getitem (alpha_frames s) 0) as [f|] eqn:E; [|done]. simpl.
  pose proof Hs as (Ho & Hr & H2 & Hf). repeat split; try done.
  simpl. intros m [= <-]. apply getitem_elem in E.
  by apply (proj1 (Forall_forall _ _) Hf).
Qed.

Lemma animar_retangular frame ks s :
  (forall k f, frame k = Ok f -> retangular f) ->
  sessao_retangular s ->
  sessao_retangular (match gerar_frames frame ks s with
                     | (s1, Raise e) => (s1, Raise e)
                     | (s1, Ok _) => primeiro_frame s1
                     end).1.
Proof.
  intros Hframe Hs.
  pose proof (gerar_frames_retangular frame ks s Hframe Hs) as H.
  destruct (gerar_frames frame ks s) as [s1 [[]|e]]; [|done].
  by apply primeiro_frame_retangular.
Qed.

Lemma frame_preto_retangular img k f :
  retangular img -> frame_preto (Some img) k = Ok f -> retangular f.
Proof.
  intros Hr. unfold frame_preto.
  destruct (PyFloat.int_div k 5) as [a|]; [rewrite bind_Ok|done]. intros H.
  eapply mesma_forma_retangular; [|exact Hr].
  apply mapM_Ok_inv in H. eapply Forall2_impl; [exact H|].
  intros l l' Hl. simpl in Hl. apply mapM_Ok_length in Hl. by symmetry.
Qed.

Lemma sessao_retangular_sem_frames s :
  sessao_retangular s -> sessao_retangular (set_alpha_frames [] s).
Proof. intros (Ho & Hr & H2 & Hf). repeat split; done. Qed.

Lemma executar_retangular W c s :
  sessao_retangular s -> sessao_retangular (executar W c s).
Proof.
  intros Hs. pose proof Hs as (Ho & Hr & H2 & Hf).
  destruct c; simpl.
  - unfold carregar_imagem.
    destruct (if decide _ then _ else _) as [img|] eqn:E; [|done].
    assert (Hret : retangular img).
    { destruct (decide _); [by eapply carregar_ppm_p3_retangular|].
      destruct (pil_open_rgb W caminho) as [im|] eqn:Ep; [|done].
      rewrite bind_Ok in E. destruct (size im) as [largura altura].
      by eapply matriz_de_pixels_retangular. }
    rewrite list_copy_fmap. repeat split; simpl; try done.
    + by intros m [= <-].
    + by intros m [= <-].
  - unfold preparar_mistura.
    destruct (_ ≫= _) as [m|] eqn:E; [|done].
    repeat split; simpl; try done. intros m' [= <-].
    destruct (pil_open_rgb W caminho2) as [im|] eqn:Ep; [|done].
    rewrite bind_Ok in E. destruct (size im) as [w h].
    by eapply matriz_de_pixels_retangular.
  - unfold restaurar_original. destruct (original s) as [img|] eqn:E; [|done].
    rewrite list_copy_fmap. repeat split; simpl; try done.
  - unfold aplicar_espelhamento_horizontal.
    destruct (resultado s) as [img|] eqn:E; [|done].
    apply sessao_retangular_set_resultado; [|done].
    destruct (Hr img eq_refl) as [w Hw]. exists w.
    apply Forall_fmap. eapply Forall_impl; [exact Hw|].
    intros l Hl. simpl. by rewrite length_reverse.
  - unfold aplicar_espelhamento_vertical.
    destruct (resultado s) as [img|] eqn:E; [|done].
    apply sessao_retangular_set_resultado; [|done].
    destruct (Hr img eq_refl) as [w Hw]. exists w. by apply Forall_reverse.
  - by apply rotacionar_direita_retangular_inv.
  - by apply rotacionar_esquerda_retangular_inv.
  - by apply segmentar_por_cor_retangular.
  - unfold aplicar_transparencia_preto.
    apply (animar_retangular _ _ (set_alpha_frames [] s));
      [|by apply sessao_retangular_sem_frames].
    intros k f. cbn [original set_alpha_frames].
    destruct (original s) as [img|] eqn:E.
    + apply frame_preto_retangular. by apply Ho.
    + unfold frame_preto. by destruct (PyFloat.int_div k 5).
  - unfold avancar_transparencia. destruct (alpha_frames s) eqn:E; [done|].
    rewrite <- E in *. cbn [alpha_frames alpha_index set_alpha_index].
    destruct (getitem (alpha_frames s) _) as [f|] eqn:Eg; [|done].
    apply sessao_retangular_set_resultado; [|done].
    apply getitem_elem in Eg. by apply (proj1 (Forall_forall _ _) Hf).
  - unfold aplicar_mistura. destruct (second_image s) as [im2|] eqn:E2; [|done].
    destruct (original s) as [im1|] eqn:E1; [|done].
    destruct (getitem im1 0) as [linha0|]; [|done].
    apply (animar_retangular _ _ (set_alpha_frames [] s));
      [|by apply sessao_retangular_sem_frames].
    intros k f. rewrite frame_mistura_unfold.
    destruct (PyFloat.int_div k 10) as [a|]; [rewrite bind_Ok|done].
    apply mapM_mapM_retangular.
Qed.

Lemma alcancavel_retangular s :
  alcancavel qualquer_chamada s -> sessao_retangular s.
Proof.
  induction 1 as [|W c s _ _ IH]; [by repeat split|].
  by apply executar_retangular.
Qed.

(** ** Theorems: every image is rectangular *)

(** X24. After any sequence of calls, returning or raising, in any world,
    every image the session holds (original, result, second image, frames)
    has rows of one length: the two loaders build rows of the declared
    width whatever the file holds, and every operation keeps or swaps the
    dimensions. *)
Theorem sessao_retangular_invariante (s : ImageProcessor) :
  alcancavel qualquer_chamada s -> sessao_retangular s.
Proof. apply alcancavel_retangular. Qed.

Lemma sessao_retangular_invariante_witness : sessao_retangular sessao_espelhada.
Proof.
  apply sessao_retangular_invariante.
  unfold sessao_espelhada, sessao_animada.
  repeat (apply alc_passo; [exact I|]). apply alc_init.
Defined.

(** ** The processor of a window is a session *)

Lemma tentar_segmentar_executar W texto p :
  (tentar_segmentar texto p).1 = p
  \/ exists c, (tentar_segmentar texto p).1 = executar W c p.
Proof.
  unfold tentar_segmentar. destruct (mapM PyStr.int _) as [rgb|]; [|by left].
  right. by exists (SegmentarPorCor rgb 30).
Qed.

Lemma filtrar_executar W idx resposta mw :
  processor (filtrar idx resposta mw).1 = processor mw
  \/ exists c, processor (filtrar idx resposta mw).1
               = executar W c (processor mw).
Proof.
  unfold filtrar.
  destruct (idx =? 1); [right; by exists TransparenciaPreto|].
  destruct (idx =? 2); [right; by exists EspelhamentoHorizontal|].
  destruct (idx =? 3); [right; by exists EspelhamentoVertical|].
  destruct (idx =? 4); [right; by exists RotacionarDireita|].
  destruct (idx =? 5); [right; by exists RotacionarEsquerda|].
  destruct (idx =? 6); [right; by exists Mistura|].
  destruct (idx =? 7); [|by left].
  destruct resposta as [texto [|]]; [|by left].
  pose proof (tentar_segmentar_executar W texto (processor mw)) as H.
  by destruct (tentar_segmentar texto (processor mw)) as [p [[]|e]].
Qed.

Lemma tratar_executar W ev mw mw' :
  tratar W ev mw = (mw', Ok tt) ->
  processor mw' = processor mw
  \/ exists c, processor mw' = executar W c (processor mw).
Proof.
  destruct ev as [path|path|path| |idx resposta|]; simpl.
  - unfold open_image. destruct (decide (path = ""%string));
      [intros [= <-]; by left|].
    intros H. apply e_exibir_Ok in H as [_ H].
    apply update_display_Ok in H as [-> _].
    right. by exists (CarregarImagem path).
  - unfold load_second. destruct (decide (path = ""%string));
      [intros [= <-]; by left|].
    destruct (preparar_mistura W path (processor mw)) as [p r] eqn:E.
    intros [= <- ->]. right. exists (PrepararMistura path). simpl.
    by rewrite E.
  - intros [= <- _]. by left.
  - intros H. apply e_exibir_Ok in H as [_ H].
    apply update_display_Ok in H as [-> _].
    right. by exists RestaurarOriginal.
  - unfold apply_filter. destruct (bool_decide _ || _);
      [intros [= <-]; by left|].
    pose proof (filtrar_executar W idx resposta mw) as Hf.
    destruct (filtrar idx resposta mw) as [mw1 [[]|e]]; [|done].
    intros H. apply update_display_Ok in H as [-> _]. exact Hf.
  - intros H. apply e_exibir_Ok in H as [_ H].
    apply update_display_Ok in H as [-> _].
    right. by exists AvancarTransparencia.
Qed.

Lemma janela_processor_alcancavel mw :
  janela_alcancavel mw -> alcancavel qualquer_chamada (processor mw).
Proof.
  induction 1 as [|W ev mw mw' _ IH Hev]; [apply alc_init|].
  destruct (tratar_executar W ev mw mw' Hev) as [->|[c ->]]; [done|].
  by apply alc_passo.
Qed.

(** ** Mirrors and rotations in the window *)

Lemma retangular_cobrem m : retangular m -> m <> [] -> linhas_cobrem m.
Proof.
  intros [w Hw] Hne. destruct m as [|linha0 m'] eqn:E; [done|].
  exists linha0. split; [done|]. rewrite <- E in *.
  assert (Hl0 : length linha0 = w).
  { apply (proj1 (Forall_lookup _ _) Hw 0%nat). by rewrite E. }
  eapply Forall_impl; [exact Hw|]. intros l Hl. simpl in Hl. lia.
Qed.

Lemma retangular_todo_empacotavel m :
  retangular m -> exibivel m -> todo_empacotavel m.
Proof.
  intros [w Hw] [(linha0 & H0 & _) Hc]. specialize (Hc linha0 H0).
  pose proof (proj1 (Forall_lookup _ _) Hw _ _ H0) as Hl0. simpl in Hl0.
  apply Forall_lookup. intros i l Hl.
  pose proof (proj1 (Forall_lookup _ _) Hw _ _ Hl) as Hlen. simpl in Hlen.
  pose proof (proj1 (Forall_lookup _ _) Hc _ _ Hl) as Hcl. simpl in Hcl.
  by rewrite take_ge in Hcl by lia.
Qed.

Lemma todo_empacotavel_exibivel m :
  linhas_cobrem m -> todo_empacotavel m -> exibivel m.
Proof. intros Hc Ht. split; [done|by apply todo_empacotavel_cabem]. Qed.

Lemma pixel_at_todo_empacotavel m h w i j :
  todo_empacotavel m -> dimensoes m h w -> (i < h)%nat -> (j < w)%nat ->
  empacotavel (Spec.pixel_at m i j).
Proof.
  intros Ht [Hh Hw] Hi Hj.
  destruct (lookup_lt_is_Some_2 m i ltac:(lia)) as [l Hl].
  pose proof (proj1 (Forall_lookup _ _) Hw _ _ Hl) as Hlen. simpl in Hlen.
  destruct (lookup_lt_is_Some_2 l j ltac:(lia)) as [p Hp].
  unfold Spec.pixel_at.
  rewrite (list_lookup_total_correct _ _ _ Hl).
  rewrite (list_lookup_total_correct _ _ _ Hp).
  pose proof (proj1 (Forall_lookup _ _) Ht _ _ Hl) as Htl. simpl in Htl.
  by apply (proj1 (Forall_lookup _ _) Htl _ _ Hp).
Qed.

Lemma rotateClockwise90_todo_empacotavel m linha0 :
  m !! 0%nat = Some linha0 -> dimensoes m (length m) (length linha0) ->
  todo_empacotavel m -> todo_empacotavel (Spec.rotateClockwise90 m).
Proof.
  intros H0 Hd Ht. unfold Spec.rotateClockwise90.
  rewrite (list_lookup_total_correct _ _ _ H0).
  apply Forall_fmap, Forall_forall. intros j Hj. apply elem_of_seq in Hj.
  apply Forall_fmap, Forall_forall. intros c Hc. apply elem_of_seq in Hc.
  simpl. eapply pixel_at_todo_empacotavel; [done..|lia|lia].
Qed.

Lemma rotateCounterClockwise90_todo_empacotavel m linha0 :
  m !! 0%nat = Some linha0 -> dimensoes m (length m) (length linha0) ->
  todo_empacotavel m -> todo_empacotavel (Spec.rotateCounterClockwise90 m).
Proof.
  intros H0 Hd Ht. unfold Spec.rotateCounterClockwise90.
  rewrite (list_lookup_total_correct _ _ _ H0).
  apply Forall_fmap, Forall_forall. intros r Hr. apply elem_of_seq in Hr.
  apply Forall_fmap, Forall_forall. intros i Hi. apply elem_of_seq in Hi.
  simpl. eapply pixel_at_todo_empacotavel; [done..|lia|lia].
Qed.

Lemma exibir_apos mw p' m q1 :
  exibir_em_qimage (original (processor mw)) = Ok q1 ->
  original p' = original (processor mw) -> resultado p' = Some m ->
  exibivel m ->
  exists mw', update_display (set_processor p' mw) = (mw', Ok tt)
              /\ exibido mw' /\ processor mw' = p'.
Proof.
  intros Hq1 Ho Hr Hc. destruct (exibir_em_qimage_exibivel m Hc) as [q2 Hq2].
  unfold update_display. cbn [processor set_processor].
  rewrite Ho, Hq1, Hr, Hq2. eexists. split; [done|]. split; [|done].
  right. exists q1, q2. cbn [processor lbl_orig lbl_res]. by rewrite Ho, Hr.
Qed.

(** ** Theorems: mirrors and rotations in the window *)

(** X25. In a window a user can reach, choosing a mirror (filters 2 and 3)
    never lets an exception escape, and neither does choosing a rotation
    (filters 4 and 5) when the first row of the result has a pixel: the
    result becomes the mirrored or rotated image and the labels show it. *)
Theorem apply_filter_geometria (mw : MainWindow) (idx : Z)
    (resposta : PyStr.text * bool) (img : matrix) :
  janela_alcancavel mw -> resultado (processor mw) = Some img ->
  2 <= idx <= 5 ->
  (4 <= idx -> exists p linha0, img !! 0%nat = Some (p :: linha0)) ->
  exists mw', apply_filter idx resposta mw = (mw', Ok tt) /\ exibido mw'
    /\ resultado (processor mw')
       = Some (if idx =? 2 then Spec.mirrorHorizontal img
               else if idx =? 3 then Spec.mirrorVertical img
               else if idx =? 4 then Spec.rotateClockwise90 img
               else Spec.rotateCounterClockwise90 img).
Proof.
  intros Hmw Hr Hidx Hrot.
  pose proof (alcancavel_exibido mw Hmw) as Hex.
  assert (Ho : original (processor mw) <> None).
  { destruct Hex as [(_ & Hn & _)|(q1 & _ & _ & _ & H & _)]; [congruence|].
    intros Hn. by rewrite Hn in H. }
  destruct (exibido_resultado mw Hex Ho) as (img' & Hr' & Hexi).
  assert (img' = img) by congruence. subst img'. clear Hr'.
  pose proof Hexi as [Hcob _].
  destruct Hex as [(Hn & _)|(q1 & _ & _ & _ & Hq1 & _)]; [done|].
  pose proof (alcancavel_retangular _ (janela_processor_alcancavel mw Hmw))
    as (_ & Hret & _).
  specialize (Hret img Hr).
  pose proof (retangular_todo_empacotavel img Hret Hexi) as Hemp.
  pose proof Hcob as (linha0 & H0 & _).
  pose proof (retangular_dimensoes img linha0 Hret H0) as Hd.
  assert (Hpos : (0 < length img)%nat) by (by eapply lookup_lt_Some).
  unfold apply_filter. rewrite bool_decide_eq_false_2 by done.
  assert (Hcases : idx = 2 \/ idx = 3 \/ idx = 4 \/ idx = 5) by lia.
  destruct Hcases as [-> | [-> | [-> | ->]]];
    cbn [orb Z.eqb Pos.eqb]; unfold filtrar; cbn [Z.eqb Pos.eqb].
  - rewrite (espelhamento_horizontal_Ok _ img Hr). cbn [fst snd].
    destruct (exibir_apos mw
                (set_resultado (Spec.mirrorHorizontal img) (processor mw))
                (Spec.mirrorHorizontal img) q1 Hq1 eq_refl eq_refl)
      as (mw' & -> & Hex' & Hp').
    + apply todo_empacotavel_exibivel.
      * eapply linhas_cobrem_forma; [|exact Hcob].
        unfold mesma_forma, Spec.mirrorHorizontal.
        apply Forall2_fmap_r, Forall_Forall2_diag, Forall_forall.
        intros l _. simpl. by rewrite length_reverse.
      * unfold Spec.mirrorHorizontal. apply Forall_fmap.
        eapply Forall_impl; [exact Hemp|]. intros l Hl. simpl.
        by apply Forall_reverse.
    + exists mw'. by rewrite Hp'.
  - rewrite (espelhamento_vertical_Ok _ img Hr). cbn [fst snd].
    destruct (exibir_apos mw
                (set_resultado (Spec.mirrorVertical img) (processor mw))
                (Spec.mirrorVertical img) q1 Hq1 eq_refl eq_refl)
      as (mw' & -> & Hex' & Hp').
    + apply todo_empacotavel_exibivel; [|by apply Forall_reverse].
      apply retangular_cobrem.
      * destruct Hret as [w Hw]. exists w. by apply Forall_reverse.
      * unfold Spec.mirrorVertical. intros Hnil.
        apply (f_equal length) in Hnil. rewrite length_reverse in Hnil.
        simpl in Hnil. lia.
    + exists mw'. by rewrite Hp'.
  - destruct (Hrot ltac:(lia)) as (p & l0 & H0').
    assert (linha0 = p :: l0) by congruence. subst linha0.
    rewrite (rotacionar_direita_retangular _ img _ _ Hr Hd Hpos).
    cbn [fst snd].
    pose proof (rotateClockwise90_dimensoes img _ _ Hd Hpos) as Hd'.
    destruct (exibir_apos mw
                (set_resultado (Spec.rotateClockwise90 img) (processor mw))
                (Spec.rotateClockwise90 img) q1 Hq1 eq_refl eq_refl)
      as (mw' & -> & Hex' & Hp').
    + apply todo_empacotavel_exibivel;
        [|by eapply rotateClockwise90_todo_empacotavel].
      apply retangular_cobrem; [by eapply dimensoes_retangular|].
      intros Hnil. destruct Hd' as [Hlen _]. rewrite Hnil in Hlen.
      simpl in Hlen. lia.
    + exists mw'. by rewrite Hp'.
  - destruct (Hrot ltac:(lia)) as (p & l0 & H0').
    assert (linha0 = p :: l0) by congruence. subst linha0.
    rewrite (rotacionar_esquerda_retangular _ img _ _ Hr Hd Hpos).
    cbn [fst snd].
    pose proof (rotateCounterClockwise90_dimensoes img _ _ Hd Hpos) as Hd'.
    destruct (exibir_apos mw
                (set_resultado (Spec.rotateCounterClockwise90 img)
                   (processor mw))
                (Spec.rotateCounterClockwise90 img) q1 Hq1 eq_refl eq_refl)
      as (mw' & -> & Hex' & Hp').
    + apply todo_empacotavel_exibivel;
        [|by eapply rotateCounterClockwise90_todo_empacotavel].
      apply retangular_cobrem; [by eapply dimensoes_retangular|].
      intros Hnil. destruct Hd' as [Hlen _]. rewrite Hnil in Hlen.
      simpl in Hlen. lia.
    + exists mw'. by rewrite Hp'.
Qed.

Lemma apply_filter_geometria_witness :
  exists mw', apply_filter 4 ([], false) janela_aberta = (mw', Ok tt)
    /\ exibido mw'
    /\ resultado (processor mw')
       = Some (if 4 =? 2 then Spec.mirrorHorizontal exemplo_a
               else if 4 =? 3 then Spec.mirrorVertical exemplo_a
               else if 4 =? 4 then Spec.rotateClockwise90 exemplo_a
               else Spec.rotateCounterClockwise90 exemplo_a).
Proof.
  apply (apply_filter_geometria janela_aberta 4 ([], false) exemplo_a).
  - apply janela_aberta_alcancavel.
  - vm_compute. reflexivity.
  - lia.
  - intros _. by eexists _, _.
Defined.

(** ** A fade in the window *)

Lemma por_pixel_forma (f : pixel -> pixel) img : mesma_forma img (por_pixel f img).
Proof.
  unfold mesma_forma, por_pixel.
  apply Forall2_fmap_r, Forall_Forall2_diag, Forall_forall.
  intros l _. simpl. by rewrite length_fmap.
Qed.

(** The image shown for an 8-bit image is shown for every image of its
    shape made of 8-bit pixels. *)
Lemma exibir_em_qimage_por_pixel (f : pixel -> pixel) img q :
  (forall p, pixel_8bit p -> pixel_8bit (f p)) -> imagem_8bit img ->
  exibir_em_qimage (Some img) = Ok q ->
  exists q', exibir_em_qimage (Some (por_pixel f img)) = Ok q'.
Proof.
  intros Hf H8 Hq. apply exibir_em_qimage_exibivel.
  apply exibir_em_qimage_Ok_cobrem in Hq. split.
  - eapply linhas_cobrem_forma; [apply por_pixel_forma|done].
  - by apply todo_empacotavel_cabem, imagem_8bit_todo_empacotavel,
      por_pixel_8bit.
Qed.

Lemma pixel_piso_5 img : por_pixel (pixel_piso 5) img = img.
Proof.
  rewrite <- (por_pixel_id img) at 2. unfold por_pixel.
  apply list_fmap_ext. intros _ l _. simpl.
  apply list_fmap_ext. intros _ [[r g] b] _. unfold pixel_piso. simpl.
  by rewrite !Z.div_mul by lia.
Qed.

Lemma avancar_n_frames n s :
  alpha_frames (avancar_n n s) = alpha_frames s.
Proof.
  destruct n as [|n]; [done|].
  destruct (alpha_frames s) eqn:E.
  - assert (H : avancar_n (S n) s = s); [|by rewrite H].
    induction (S n) as [|m IH]; [done|].
    rewrite avancar_n_S, IH. unfold avancar_transparencia. by rewrite E.
  - rewrite <- E. apply avancar_n_campos. by rewrite E.
Qed.

Lemma proximos_fade mw1 img q1 (n : nat) s :
  original s = Some img -> imagem_8bit img ->
  processor mw1 = (aplicar_transparencia_preto s).1 ->
  exibir_em_qimage (Some img) = Ok q1 ->
  (exists q, lbl_res mw1 = Some q
             /\ exibir_em_qimage (resultado (processor mw1)) = Ok q) ->
  lbl_orig mw1 = Some q1 ->
  exists mw2 q,
    proximos n mw1 = (mw2, Ok tt)
    /\ processor mw2 = avancar_n n (processor mw1)
    /\ lbl_orig mw2 = Some q1 /\ lbl_res mw2 = Some q
    /\ exibir_em_qimage (resultado (processor mw2)) = Ok q.
Proof.
  intros Ho H8 Hp Hq1 Hres Horig.
  induction n as [|n (mw2 & q & Hn & Hp2 & Ho2 & Hr2 & Hq2)].
  - destruct Hres as (q & Hq & Hex). by exists mw1, q.
  - cbn [proximos]. rewrite Hn. unfold next_frame.
    assert (Hne : alpha_frames (processor mw2) <> []).
    { rewrite Hp2, avancar_n_frames, Hp.
      by rewrite (aplicar_transparencia_preto_ok s img Ho H8). }
    destruct (avancar_transparencia_campos _ Hne) as (f & _ & Hav).
    assert (Hs : (avancar_transparencia (processor mw2)).1
                 = avancar_n (S n) (processor mw1)).
    { by rewrite avancar_n_S, <- Hp2. }
    destruct (fade_avancar_n s img (S n) Ho H8) as (_ & Hr & Ho').
    rewrite <- Hp, <- Hs in Hr, Ho'.
    destruct (avancar_transparencia (processor mw2)) as [p r] eqn:E.
    assert (r = Ok tt) by (by injection Hav as _ ->). subst r.
    cbn [fst] in *.
    destruct (exibir_em_qimage_por_pixel
                (pixel_piso (Z.of_nat (S n mod 6))) img q1) as (q' & Hq');
      [|done|done|].
    { intros px. apply pixel_piso_8bit.
      pose proof (Nat.mod_upper_bound (S n) 6). lia. }
    unfold e_exibir, update_display. cbn [processor set_processor].
    rewrite Ho', Hq1, Hr, Hq'. eexists _, q'. split; [done|].
    cbn [processor lbl_orig lbl_res]. by rewrite Hr, Hs.
Qed.

(** ** Theorems: a fade in the window *)

(** X26. In a window a user can reach whose original has 8-bit pixels,
    choosing the fade (filter 1) returns normally, and so does every press
    of the Next button after it: after [n] presses the result label shows
    the original with every channel [c] replaced by [c * (n mod 6) // 5],
    so after five presses the two labels show the same image. *)
Theorem fade_na_janela (mw : MainWindow) (img : matrix)
    (resposta : PyStr.text * bool) (n : nat) :
  janela_alcancavel mw -> original (processor mw) = Some img ->
  imagem_8bit img ->
  exists mw1 mw2 q,
    apply_filter 1 resposta mw = (mw1, Ok tt)
    /\ proximos n mw1 = (mw2, Ok tt)
    /\ lbl_res mw2 = Some q
    /\ exibir_em_qimage
         (Some (por_pixel (pixel_piso (Z.of_nat (n mod 6))) img)) = Ok q
    /\ ((n mod 6 = 5)%nat -> lbl_res mw2 = lbl_orig mw2).
Proof.
  intros Hmw Ho H8.
  destruct (alcancavel_exibido mw Hmw)
    as [(Hn & _)|(q1 & _ & _ & _ & Hq1 & _)]; [congruence|].
  rewrite Ho in Hq1.
  pose proof (aplicar_transparencia_preto_ok (processor mw) img Ho H8) as Hfade.
  destruct (exibir_em_qimage_por_pixel (pixel_preto 0) img q1)
    as (q0 & Hq0); [|done|done|].
  { intros p Hp. rewrite (pixel_preto_piso 0 p ltac:(lia) Hp).
    apply pixel_piso_8bit; [lia|done]. }
  assert (H1 : exists mw1,
             apply_filter 1 resposta mw = (mw1, Ok tt)
             /\ processor mw1 = (aplicar_transparencia_preto (processor mw)).1
             /\ lbl_orig mw1 = Some q1 /\ lbl_res mw1 = Some q0
             /\ exibir_em_qimage (resultado (processor mw1)) = Ok q0).
  { unfold apply_filter. rewrite bool_decide_eq_false_2 by congruence.
    cbn [orb Z.eqb Pos.eqb]. unfold filtrar. cbn [Z.eqb Pos.eqb].
    rewrite Hfade. cbn [fst snd]. unfold update_display.
    cbn [processor set_processor original resultado].
    rewrite Hq1, Hq0. eexists. split; [done|].
    cbn [processor lbl_orig lbl_res resultado]. by rewrite Hq0. }
  destruct H1 as (mw1 & Hmw1 & Hp1 & Hlo & Hlr & Hex).
  destruct (proximos_fade mw1 img q1 n (processor mw) Ho H8 Hp1 Hq1)
    as (mw2 & q & Hn & Hp2 & Ho2 & Hr2 & Hq2); [by exists q0|done|].
  destruct (fade_avancar_n (processor mw) img n Ho H8) as (_ & Hr & _).
  rewrite <- Hp1, <- Hp2 in Hr. rewrite Hr in Hq2.
  exists mw1, mw2, q. repeat split; try done.
  intros H5. rewrite H5 in Hq2. change (Z.of_nat 5) with 5 in Hq2.
  rewrite pixel_piso_5 in Hq2. congruence.
Qed.

Lemma fade_na_janela_witness :
  exists mw1 mw2 q,
    apply_filter 1 ([], false) janela_aberta = (mw1, Ok tt)
    /\ proximos 5 mw1 = (mw2, Ok tt)
    /\ lbl_res mw2 = Some q
    /\ exibir_em_qimage
         (Some (por_pixel (pixel_piso (Z.of_nat (5 mod 6))) exemplo_a)) = Ok q
    /\ ((5 mod 6 = 5)%nat -> lbl_res mw2 = lbl_orig mw2).
Proof.
  apply (fade_na_janela janela_aberta exemplo_a ([], false) 5).
  - apply janela_aberta_alcancavel.
  - vm_compute. reflexivity.
  - prova_8bit.
Defined.
